(** * Cuckoo / Cuckaroo edge trimmer (miner/libcuckoo/src/cuda/trimmer.cu)

    A shallow embedding of the device kernels of the edge trimmer and the
    properties stated about them.  Machine words are integers of [Z] with the
    wrap-around written out; device arrays are lists indexed with stdpp's
    lookup and insert. *)

From Stdlib Require Import ZArith List Lia Bool Permutation.
From stdpp Require Import base list numbers.

Local Open Scope Z_scope.

(** ** Machine words *)

(** A value stored in a [u32]. *)
Definition u32 (x : Z) : Z := x mod 2 ^ 32.

(** A value stored in a [u64]. *)
Definition u64 (x : Z) : Z := x mod 2 ^ 64.

(** A read past the end of an array of words is given the value 0 (the
    total lookup [!!!] needs one; the kernels do not read there). *)
#[global] Instance word_inhabited : Inhabited Z := populate 0.

(** ** SipHash state *)

(** [siphash_keys]: the four 64-bit key words. *)
Record siphash_keys : Type := mk_keys { k0 : Z; k1 : Z; k2 : Z; k3 : Z }.

(** The four lanes [v0 .. v3] that the kernels keep in local variables. *)
Record lanes : Type := mk_lanes { v0 : Z; v1 : Z; v2 : Z; v3 : Z }.

(** Modelled from the spec: the [ROTL] macro of siphash.h, which is not among
    the source files; the reference 64-bit left rotation. *)
Definition ROTL (x b : Z) : Z :=
  u64 (Z.lor (Z.shiftl x b) (Z.shiftr x (64 - b))).

(** Modelled from the spec: the [SIPROUND] macro of siphash.h, which is not
    among the source files; "the reference construction" of the SipHash
    round, on 64-bit lanes with wrapping additions.  The kernels below take
    the round as a parameter; this is the one they are run with. *)
Definition sipround (s : lanes) : lanes :=
  let a0 := u64 (v0 s + v1 s) in
  let a2 := u64 (v2 s + v3 s) in
  let a1 := ROTL (v1 s) 13 in
  let a3 := ROTL (v3 s) 16 in
  let a1 := Z.lxor a1 a0 in
  let a3 := Z.lxor a3 a2 in
  let a0 := ROTL a0 32 in
  let a2 := u64 (a2 + a1) in
  let a0 := u64 (a0 + a3) in
  let a1 := ROTL a1 17 in
  let a3 := ROTL a3 21 in
  let a1 := Z.lxor a1 a2 in
  let a3 := Z.lxor a3 a0 in
  let a2 := ROTL a2 32 in
  mk_lanes a0 a1 a2 a3.

(** [(v0 ^ v1) ^ (v2 ^ v3)] *)
Definition xor_lanes (s : lanes) : Z :=
  Z.lxor (Z.lxor (v0 s) (v1 s)) (Z.lxor (v2 s) (v3 s)).

(** ** Edges as they are stored *)

(** CUDA's [uint2]: the packed form of an edge, both endpoints. *)
Record uint2 : Type := make_uint2 { uint2_x : Z; uint2_y : Z }.

#[global] Instance uint2_inhabited : Inhabited uint2 :=
  populate (make_uint2 0 0).

(** ** Pack4edges *)

(** CUDA's [ulonglong4]: four 64-bit words. *)
Record ulonglong4 : Type := make_ulonglong4 {
  ull_x : Z; ull_y : Z; ull_z : Z; ull_w : Z
}.

(** [((u64)e.y << 32) | ((u64)e.x)] *)
Definition pack_edge (e : uint2) : Z :=
  Z.lor (u64 (Z.shiftl (u64 (uint2_y e)) 32)) (u64 (uint2_x e)).

Definition Pack4edges (e1 e2 e3 e4 : uint2) : ulonglong4 :=
  let r1 := pack_edge e1 in
  let r2 := pack_edge e2 in
  let r3 := pack_edge e3 in
  let r4 := pack_edge e4 in
  make_ulonglong4 r1 r2 r3 r4.

(** What a kernel template needs of its edge type: the overloads of [null]
    and [endpoint] for that type. *)
Record EdgeType (E : Type) : Type := mk_EdgeType {
  null : E -> bool;
  endpoint : siphash_keys -> E -> Z -> Z
}.
Arguments null {E} _ _.
Arguments endpoint {E} _ _ _ _.

(** ** Loops, threads and blocks

    [for (i = 0; i < n; i++) s = body(i, s)].  The same iteration runs the
    threads of a block (by [threadIdx.x]) and the blocks of a grid (by
    [blockIdx.x]): between two barriers the threads of a block are run one
    after the other in the order of their ids, and the blocks of a launch one
    after the other. *)
Definition for_range {S : Type} (n : Z) (body : Z -> S -> S) (s : S) : S :=
  fold_left (fun s i => body i s) (seqZ 0 n) s.

(** The indices [loop * dim + lid] below [n] that thread [lid] of a block of
    [dim] threads visits in a strided loop. *)
Definition thread_indices (dim n lid : Z) : list Z :=
  filter (fun lindex => (lindex <? n) = true)
    ((fun loop => loop * dim + lid) <$> seqZ 0 ((n + dim - 1) / dim)).

(** ** Graph parameters (trimmer.h) *)

Section Parameters.

(** The [SIPROUND] macro (siphash.h), as a function on the four lanes. *)
Variable SIPROUND : lanes -> lanes.

(** Modelled from the spec: the constants of trimmer.h, which is not among the
    source files; EDGEBITS is the 2-log of the edge count, and the endpoint
    bits are partitioned into X, Y and Z parts. *)
Variables EDGEBITS XBITS YBITS ZBITS : Z.

Definition NEDGES : Z := 2 ^ EDGEBITS.
Definition EDGEMASK : Z := NEDGES - 1.
Definition NX : Z := 2 ^ XBITS.
Definition NY : Z := 2 ^ YBITS.
Definition NZ : Z := 2 ^ ZBITS.
Definition NX2 : Z := NX * NY.
Definition XMASK : Z := NX - 1.
Definition ZMASK : Z := NZ - 1.
Definition YZBITS : Z := YBITS + ZBITS.

(** PROOFSIZE, the cycle length. *)
Definition PROOFSIZE : Z := 42.

(** Modelled from the spec: EDGE_BLOCK_SIZE is 64 and EDGE_BLOCK_MASK one less. *)
Definition EDGE_BLOCK_SIZE : Z := 64.
Definition EDGE_BLOCK_MASK : Z := EDGE_BLOCK_SIZE - 1.

(** ** dipnode

    [edge_t] and [node_t] are 32-bit words (the spec's "32-bit nonce" and
    "pair of 32-bit words"), so [2*nce + uorv] is computed on 32 bits before
    it is widened to the 64-bit [nonce]. *)
Definition dipnode (keys : siphash_keys) (nce : Z) (uorv : Z) : Z :=
  let nce := u32 nce in
  let nonce := u32 (2 * nce + u32 uorv) in
  let s := mk_lanes (k0 keys) (k1 keys) (k2 keys) (Z.lxor (k3 keys) nonce) in
  let s := SIPROUND (SIPROUND s) in
  let s := mk_lanes (Z.lxor (v0 s) nonce) (v1 s) (v2 s) (v3 s) in
  let s := mk_lanes (v0 s) (v1 s) (Z.lxor (v2 s) 255) (v3 s) in
  let s := SIPROUND (SIPROUND (SIPROUND (SIPROUND s))) in
  u32 (Z.land (Z.lxor (Z.lxor (Z.lxor (v0 s) (v1 s)) (v2 s)) (v3 s)) EDGEMASK).

(** The Cuckoo-mode edge of a nonce, as Cuckoo_SeedA and Cuckoo_Recovery
    compute it: [dipnode(keys, nonce, 0)] and [dipnode(keys, nonce, 1)]. *)
Definition cuckoo_edge (keys : siphash_keys) (nonce : Z) : Z * Z :=
  (dipnode keys nonce 0, dipnode keys nonce 1).

(** ** dipblock *)

(** The body shared by the loop of dipblock and the step after it: absorb
    [nonce] into the running lanes. *)
Definition dipblock_step (s : lanes) (nonce : Z) : lanes :=
  let s := mk_lanes (v0 s) (v1 s) (v2 s) (Z.lxor (v3 s) nonce) in
  let s := SIPROUND (SIPROUND s) in
  let s := mk_lanes (Z.lxor (v0 s) nonce) (v1 s) (v2 s) (v3 s) in
  let s := mk_lanes (v0 s) (v1 s) (Z.lxor (v2 s) 255) (v3 s) in
  SIPROUND (SIPROUND (SIPROUND (SIPROUND s))).

(** [for (i = 0; i < EDGE_BLOCK_MASK; i++)] with [todo] iterations left; the
    lanes are carried from one iteration to the next. *)
Fixpoint dipblock_loop (todo : nat) (i : Z) (edge0 : Z) (s : lanes)
    (buf : list Z) : Z * lanes * list Z :=
  match todo with
  | O => (i, s, buf)
  | S todo' =>
      let nonce := u32 (edge0 + i) in
      let s := dipblock_step s nonce in
      let buf := <[Z.to_nat i := xor_lanes s]> buf in
      dipblock_loop todo' (i + 1) edge0 s buf
  end.

(** [dipblock(keys, edge, buf)]: returns the last xor of lanes and the filled
    [buf], whose final slot is zero. *)
Definition dipblock (keys : siphash_keys) (edge : Z) (buf : list Z)
    : Z * list Z :=
  let s := mk_lanes (k0 keys) (k1 keys) (k2 keys) (k3 keys) in
  let edge0 := Z.land (u32 edge) (Z.lnot EDGE_BLOCK_MASK) in
  let '(i, s, buf) :=
    dipblock_loop (Z.to_nat EDGE_BLOCK_MASK) 0 edge0 s buf in
  let nonce := u32 (edge0 + i) in
  let s := dipblock_step s nonce in
  let buf := <[Z.to_nat i := 0]> buf in
  (xor_lanes s, buf).

(** The Cuckaroo-mode edge of nonce [nonce0 + e], as the loops of
    Cuckaroo_SeedA and Cuckaroo_Recovery read it off a block:
    [edge = buf[e] ^ last]. *)
Definition block_edge (last : Z) (buf : list Z) (e : Z) : Z :=
  Z.lxor (buf !!! Z.to_nat e) last.

(** [node0 = edge & EDGEMASK], [node1 = (edge >> 32) & EDGEMASK], both [u32]. *)
Definition edge_nodes (edge : Z) : Z * Z :=
  (u32 (Z.land edge EDGEMASK), u32 (Z.land (Z.shiftr edge 32) EDGEMASK)).

(** The 64-bit edge word of a nonce in Cuckaroo mode: the block of the nonce
    is hashed and the slot [nonce & EDGE_BLOCK_MASK] is read. *)
Definition cuckaroo_word (keys : siphash_keys) (buf : list Z) (nonce : Z) : Z :=
  let '(last, buf) := dipblock keys nonce buf in
  block_edge last buf (Z.land (u32 nonce) EDGE_BLOCK_MASK).

Definition cuckaroo_edge (keys : siphash_keys) (buf : list Z) (nonce : Z)
    : Z * Z :=
  edge_nodes (cuckaroo_word keys buf nonce).

(** ** Atomic operations on device words

    Each returns the old value of the word and the updated array. *)

Definition atomicOr (mem : list Z) (addr : Z) (val : Z) : Z * list Z :=
  let old := mem !!! Z.to_nat addr in
  (old, <[Z.to_nat addr := Z.lor old val]> mem).

Definition atomicAdd (mem : list Z) (addr : Z) (val : Z) : Z * list Z :=
  let old := mem !!! Z.to_nat addr in
  (old, <[Z.to_nat addr := u32 (old + val)]> mem).

(** ** Two-bit counters *)

(** [COUNTERWORDS] of Round: 16 two-bit counters per 32-bit word. *)
Definition COUNTERWORDS : Z := NZ / 16.

Definition Increase2bCounter (ecounters : list Z) (bucket : Z) : list Z :=
  let word := Z.shiftr bucket 5 in
  let bit := Z.land bucket 31 in
  let mask := u32 (Z.shiftl 1 bit) in
  let '(prev, ecounters) := atomicOr ecounters word mask in
  let old := Z.land prev mask in
  if old =? 0 then ecounters
  else snd (atomicOr ecounters (word + NZ / 32) mask).

Definition Read2bCounter (ecounters : list Z) (bucket : Z) : bool :=
  let word := Z.shiftr bucket 5 in
  let bit := Z.land bucket 31 in
  let mask := u32 (Z.shiftl 1 bit) in
  negb (Z.land (ecounters !!! Z.to_nat (word + NZ / 32)) mask =? 0).

(** ** Overloads on the two edge forms *)

Definition null_u32 (nonce : Z) : bool := nonce =? 0.

Definition null_uint2 (nodes : uint2) : bool :=
  (uint2_x nodes =? 0) && (uint2_y nodes =? 0).

Definition endpoint_u32 (sipkeys : siphash_keys) (nonce : Z) (uorv : Z) : Z :=
  dipnode sipkeys nonce uorv.

Definition endpoint_uint2 (sipkeys : siphash_keys) (nodes : uint2) (uorv : Z)
    : Z :=
  if uorv =? 0 then uint2_x nodes else uint2_y nodes.

(** The compact form, a nonce. *)
Definition u32_edge : EdgeType Z := mk_EdgeType Z null_u32 endpoint_u32.

(** The packed form, both endpoints. *)
Definition uint2_edge : EdgeType uint2 :=
  mk_EdgeType uint2 null_uint2 endpoint_uint2.

(** The three overloads of [make_Edge]; the dummy argument that selects the
    overload by its type is left out. *)
Definition make_Edge_u32_uint2 (nonce : Z) (node0 node1 : Z) : uint2 :=
  make_uint2 node0 node1.

Definition make_Edge_uint2_uint2 (edge : uint2) (node0 node1 : Z) : uint2 :=
  edge.

Definition make_Edge_u32_u32 (nonce : Z) (node0 node1 : Z) : Z := nonce.

(** ** Round *)

Section Round.

Context {EdgeIn EdgeOut : Type} `{!Inhabited EdgeIn}.
Variable edge_in : EdgeType EdgeIn.
Variable make_Edge : EdgeIn -> Z -> Z -> EdgeOut.
Variables NP maxIn maxOut : Z.
Variable round : Z.
Variable sipkeys : siphash_keys.
Variable src : list EdgeIn.
Variable srcIds : list Z.
Variables (dim group : Z).

(** First pass of one thread: count the endpoint of its edges. *)
Definition Round_count (lid : Z) (ecounters : list Z) : list Z :=
  for_range NP (fun i ecounters =>
    let edgesInBucket := Z.min (srcIds !!! Z.to_nat (i * NX2 + group)) maxIn in
    let loops := (edgesInBucket + dim - 1) / dim in
    for_range loops (fun loop ecounters =>
      let lindex := loop * dim + lid in
      if lindex <? edgesInBucket then
        let index := maxIn * group + lindex in
        let edge := src !!! Z.to_nat (i * (NX2 * maxIn) + index) in
        if null edge_in edge then ecounters
        else
          let node := endpoint edge_in sipkeys edge (Z.land round 1) in
          Increase2bCounter ecounters (Z.land node ZMASK)
      else ecounters) ecounters) ecounters.

(** The store of a surviving edge: a slot of the bucket of its other
    endpoint is reserved with [atomicAdd] and clamped to the last slot. *)
Definition Round_store (edge : EdgeIn) (node0 : Z)
    (out : list EdgeOut * list Z) : list EdgeOut * list Z :=
  let node1 := endpoint edge_in sipkeys edge (Z.lxor (Z.land round 1) 1) in
  let bucket := Z.shiftr node1 ZBITS in
  let '(old, dstIds) := atomicAdd (snd out) bucket 1 in
  let bktIdx := Z.min old (maxOut - 1) in
  let e := if Z.land round 1 =? 0 then make_Edge edge node0 node1
           else make_Edge edge node1 node0 in
  (<[Z.to_nat (bucket * maxOut + bktIdx) := e]> (fst out), dstIds).

(** Second pass of one thread: emit the edges whose counter reads two or
    more into the bucket of their other endpoint. *)
Definition Round_emit (ecounters : list Z) (lid : Z)
    (out : list EdgeOut * list Z) : list EdgeOut * list Z :=
  for_range NP (fun i out =>
    let edgesInBucket := Z.min (srcIds !!! Z.to_nat (i * NX2 + group)) maxIn in
    let loops := (edgesInBucket + dim - 1) / dim in
    for_range loops (fun loop out =>
      let lindex := loop * dim + lid in
      if lindex <? edgesInBucket then
        let index := maxIn * group + lindex in
        let edge := src !!! Z.to_nat (i * (NX2 * maxIn) + index) in
        if null edge_in edge then out
        else
          let node0 := endpoint edge_in sipkeys edge (Z.land round 1) in
          if Read2bCounter ecounters (Z.land node0 ZMASK) then
            Round_store edge node0 out
          else out
      else out) out) out.

(** One thread block: zero the counters, barrier, count, barrier, emit. *)
Definition Round_block (out : list EdgeOut * list Z) : list EdgeOut * list Z :=
  let ecounters := replicate (Z.to_nat COUNTERWORDS) 0 in
  let ecounters := for_range dim Round_count ecounters in
  for_range dim (Round_emit ecounters) out.

(** The bucket a block reads, slot by slot over the [NP] partitions, and
    the edges of it that are not the null sentinel. *)
Definition Round_bucket : list EdgeIn :=
  seqZ 0 NP ≫= (fun i =>
    let edgesInBucket := Z.min (srcIds !!! Z.to_nat (i * NX2 + group)) maxIn in
    (fun lindex => src !!! Z.to_nat (i * (NX2 * maxIn) + (maxIn * group + lindex)))
      <$> seqZ 0 edgesInBucket).

Definition Round_live : list EdgeIn :=
  filter (fun edge => null edge_in edge = false) Round_bucket.

(** The endpoint a round counts: u on even rounds, v on odd ones. *)
Definition Round_counted (edge : EdgeIn) : Z :=
  endpoint edge_in sipkeys edge (Z.land round 1).

End Round.

(** The launch [Round<NP, maxIn, EdgeIn, maxOut, EdgeOut><<<blocks, tpb>>>]. *)
Definition Round {EdgeIn EdgeOut : Type} `{!Inhabited EdgeIn}
    (edge_in : EdgeType EdgeIn) (make_Edge : EdgeIn -> Z -> Z -> EdgeOut)
    (NP maxIn maxOut : Z) (blocks tpb : Z) (round : Z) (sipkeys : siphash_keys)
    (src : list EdgeIn) (dst : list EdgeOut) (srcIds dstIds : list Z)
    : list EdgeOut * list Z :=
  for_range blocks (fun group out =>
    Round_block edge_in make_Edge NP maxIn maxOut round sipkeys src srcIds
      tpb group out) (dst, dstIds).

(** ** Tail *)

(** One thread block of [Tail<maxIn>]: thread 0 reserves [myEdges] slots of
    the destination, and after the barrier every thread runs its strided
    loop [for (i = lid; i < myEdges; i += dim)], whose body indexes both
    arrays with [lid]. *)
Definition Tail_block (maxIn : Z) (source : list uint2)
    (sourceIndexes : list Z) (dim group : Z) (out : list uint2 * list Z)
    : list uint2 * list Z :=
  let myEdges := sourceIndexes !!! Z.to_nat group in
  let '(destIdx, destinationIndexes) := atomicAdd (snd out) 0 myEdges in
  let destination :=
    for_range dim (fun lid destination =>
      let trips := if lid <? myEdges then (myEdges - lid + dim - 1) / dim else 0 in
      for_range trips (fun _ destination =>
        <[Z.to_nat (destIdx + lid) := source !!! Z.to_nat (group * maxIn + lid)]>
          destination) destination) (fst out) in
  (destination, destinationIndexes).

(** The launch [Tail<maxIn><<<blocks, tpb>>>]. *)
Definition Tail (maxIn : Z) (blocks tpb : Z) (source destination : list uint2)
    (sourceIndexes destinationIndexes : list Z) : list uint2 * list Z :=
  for_range blocks (fun group out =>
    Tail_block maxIn source sourceIndexes tpb group out)
    (destination, destinationIndexes).

(** ** Recovery *)

(** [for (p = 0; p < PROOFSIZE; p++) if (recoveredges[p].x == u &&
    recoveredges[p].y == v) nonces[p] = nonce;] *)
Definition record_nonce (recoveredges : list uint2) (u v nonce : Z)
    (nonces : list Z) : list Z :=
  for_range PROOFSIZE (fun p nonces =>
    let r := recoveredges !!! Z.to_nat p in
    if (uint2_x r =? u) && (uint2_y r =? v)
    then <[Z.to_nat p := u32 nonce]> nonces else nonces) nonces.

(** The head and the tail of both recovery kernels: the first PROOFSIZE
    threads zero the shared [nonces], and after the scan write the slots
    that are greater than zero to [indexes]. *)
Definition zero_nonces (dim : Z) (nonces : list Z) : list Z :=
  for_range dim (fun lid nonces =>
    if lid <? PROOFSIZE then <[Z.to_nat lid := 0]> nonces else nonces) nonces.

Definition report_nonces (dim : Z) (nonces indexes : list Z) : list Z :=
  for_range dim (fun lid indexes =>
    if lid <? PROOFSIZE then
      if 0 <? nonces !!! Z.to_nat lid
      then <[Z.to_nat lid := nonces !!! Z.to_nat lid]> indexes else indexes
    else indexes) indexes.

(** One thread block of Cuckoo_Recovery; [shared] is what the shared array
    [nonces] holds when the block starts. *)
Definition Cuckoo_Recovery_block (sipkeys : siphash_keys)
    (recoveredges : list uint2) (shared : list Z) (dim blocks group : Z)
    (indexes : list Z) : list Z :=
  let nthreads := dim * blocks in
  let loops := NEDGES / nthreads in
  let nonces := zero_nonces dim shared in
  let nonces :=
    for_range dim (fun lid nonces =>
      let gid := dim * group + lid in
      for_range loops (fun i nonces =>
        let nonce := gid * loops + i in
        let u := dipnode sipkeys nonce 0 in
        let v := dipnode sipkeys nonce 1 in
        record_nonce recoveredges u v nonce nonces) nonces) nonces in
  report_nonces dim nonces indexes.

(** The launch [Cuckoo_Recovery<<<blocks, tpb>>>]. *)
Definition Cuckoo_Recovery (sipkeys : siphash_keys) (recoveredges : list uint2)
    (shared : list Z) (blocks tpb : Z) (indexes : list Z) : list Z :=
  for_range blocks (fun group indexes =>
    Cuckoo_Recovery_block sipkeys recoveredges shared tpb blocks group indexes)
    indexes.

(** One thread block of Cuckaroo_Recovery; the per-thread [buf] starts as
    [buf0]. *)
Definition Cuckaroo_Recovery_block (sipkeys : siphash_keys)
    (recoveredges : list uint2) (shared buf0 : list Z) (dim blocks group : Z)
    (indexes : list Z) : list Z :=
  let nthreads := dim * blocks in
  let loops := NEDGES / nthreads in
  let nonces := zero_nonces dim shared in
  let nonces :=
    for_range dim (fun lid nonces =>
      let gid := dim * group + lid in
      for_range ((loops + EDGE_BLOCK_SIZE - 1) / EDGE_BLOCK_SIZE)
        (fun k nonces =>
          let blk := k * EDGE_BLOCK_SIZE in
          let nonce0 := u32 (gid * loops + blk) in
          let '(last, buf) := dipblock sipkeys nonce0 buf0 in
          for_range EDGE_BLOCK_SIZE (fun i nonces =>
            let edge := Z.lxor (buf !!! Z.to_nat i) last in
            let u := u32 (Z.land edge EDGEMASK) in
            let v := u32 (Z.land (Z.shiftr edge 32) EDGEMASK) in
            record_nonce recoveredges u v (nonce0 + i) nonces) nonces)
        nonces) nonces in
  report_nonces dim nonces indexes.

(** The launch [Cuckaroo_Recovery<<<blocks, tpb>>>]. *)
Definition Cuckaroo_Recovery (sipkeys : siphash_keys)
    (recoveredges : list uint2) (shared buf0 : list Z) (blocks tpb : Z)
    (indexes : list Z) : list Z :=
  for_range blocks (fun group indexes =>
    Cuckaroo_Recovery_block sipkeys recoveredges shared buf0 tpb blocks group
      indexes) indexes.

(** ** Seed A and Seed B: the staging tiles

    The three seeding kernels carry the same code around their tiles in
    shared memory; it is written once here.  A tile row is selected by [key]
    (the row in Seed A, the column in Seed B). *)

Section Tile.

Context {E : Type} `{!Inhabited E}.

(** [FLUSHA] or [FLUSHB], and the template parameter [maxOut]. *)
Variables FLUSH maxOut : Z.

(** What a block of a seeding kernel works on: [tmp[NX][2*FLUSH]] and
    [counters[NX]] in shared memory, the bucket buffer and its index array
    in global memory. *)
Record seeding : Type := mk_seeding {
  tile_tmp : list (list E);
  tile_counters : list Z;
  out_buffer : list E;
  out_indexes : list Z
}.

(** [counter = min(atomicAdd(counters + key, 1), 2*FLUSH - 1);
    tmp[key][counter] = edge;] *)
Definition tile_insert (key : Z) (edge : E) (st : seeding) : Z * seeding :=
  let '(old, counters) := atomicAdd (tile_counters st) key 1 in
  let counter := Z.min old (2 * FLUSH - 1) in
  let row := tile_tmp st !!! Z.to_nat key in
  (counter,
   mk_seeding (<[Z.to_nat key := <[Z.to_nat counter := edge]> row]> (tile_tmp st))
     counters (out_buffer st) (out_indexes st)).

(** The body of [if (counter == FLUSH-1)]: reserve [nflush] slots of
    [bucket], clamped to [maxOut - nflush], copy the head of the tile row
    out, and move the remainder to the head. *)
Definition tile_flush (key bucket : Z) (st : seeding) : seeding :=
  let localIdx := Z.min (2 * FLUSH) (tile_counters st !!! Z.to_nat key) in
  let newCount := Z.rem localIdx FLUSH in
  let nflush := localIdx - newCount in
  let '(old, indexes) := atomicAdd (out_indexes st) bucket nflush in
  let cnt := Z.min old (maxOut - nflush) in
  let buffer :=
    for_range nflush (fun i buffer =>
      <[Z.to_nat (bucket * maxOut + cnt + i) :=
          (tile_tmp st !!! Z.to_nat key) !!! Z.to_nat i]> buffer)
      (out_buffer st) in
  let tmp :=
    for_range newCount (fun t tmp =>
      let row := tmp !!! Z.to_nat key in
      <[Z.to_nat key := <[Z.to_nat t := row !!! Z.to_nat (t + nflush)]> row]> tmp)
      (tile_tmp st) in
  mk_seeding tmp (<[Z.to_nat key := newCount]> (tile_counters st)) buffer indexes.

(** The body of the loop that ends a seeding kernel: what is left in a tile
    row goes out, the reservation clamped to [maxOut - localIdx]. *)
Definition tile_drain (key bucket : Z) (st : seeding) : seeding :=
  let localIdx := Z.min (2 * FLUSH) (tile_counters st !!! Z.to_nat key) in
  let '(old, indexes) := atomicAdd (out_indexes st) bucket localIdx in
  let cnt := Z.min old (maxOut - localIdx) in
  let buffer :=
    for_range localIdx (fun i buffer =>
      <[Z.to_nat (bucket * maxOut + cnt + i) :=
          (tile_tmp st !!! Z.to_nat key) !!! Z.to_nat i]> buffer)
      (out_buffer st) in
  mk_seeding (tile_tmp st) (tile_counters st) buffer indexes.

(** One iteration of the main loop of a seeding kernel, for the whole block:
    up to the first barrier every thread with an edge ([item lid]) inserts
    it and keeps its [counter]; after the barrier a thread whose counter is
    [FLUSH - 1] flushes its tile row.  A thread without an edge (past the end
    of the bucket, or on a null edge) flushes nothing. *)
Definition tile_round (dim : Z) (item : Z -> option (Z * E))
    (bucket_of : Z -> Z) (st : seeding) : seeding :=
  let '(locals, st) :=
    for_range dim (fun lid (acc : list (option (Z * Z)) * seeding) =>
      match item lid with
      | Some (key, edge) =>
          let '(counter, st) := tile_insert key edge (snd acc) in
          (fst acc ++ [Some (key, counter)], st)
      | None => (fst acc ++ [None], snd acc)
      end) ([], st) in
  fold_left (fun st l =>
    match l with
    | Some (key, counter) =>
        if counter =? FLUSH - 1 then tile_flush key (bucket_of key) st else st
    | None => st
    end) locals st.

(** [for (key = lid; key < NX; key += dim)] of every thread, draining the
    tile rows. *)
Definition tile_finish (dim : Z) (bucket_of : Z -> Z) (st : seeding)
    : seeding :=
  for_range dim (fun lid st =>
    for_range ((NX + dim - 1) / dim) (fun k st =>
      let key := k * dim + lid in
      if key <? NX then tile_drain key (bucket_of key) st else st) st) st.

(** The shared memory of a block when it starts: the counters zeroed by the
    first loop of the kernel, the tile not written yet. *)
Definition tile_start (buffer : list E) (indexes : list Z) : seeding :=
  mk_seeding (replicate (Z.to_nat NX) (replicate (Z.to_nat (2 * FLUSH)) inhabitant))
    (replicate (Z.to_nat NX) 0) buffer indexes.

End Tile.

(** The state of a seeding block is as it should be, for a property [G key]
    of the edges staged in tile row [key] and a property [Q j] of what slot
    [j] of the buffer holds: the tiles have their dimensions, the first
    [min(counters[key], 2*FLUSH)] entries of row [key] are edges with [G
    key], every slot of the buffer has its [Q], and no counter is
    negative. *)
Definition tile_ok {E : Type} `{!Inhabited E} (FLUSH : Z) (G : Z -> E -> Prop)
    (Q : nat -> E -> Prop) (st : seeding) : Prop :=
  length (tile_tmp st) = Z.to_nat NX
  /\ length (tile_counters st) = Z.to_nat NX
  /\ (forall key, 0 <= key < NX ->
        length (tile_tmp st !!! Z.to_nat key) = Z.to_nat (2 * FLUSH))
  /\ (forall key i, 0 <= key < NX ->
        0 <= i < Z.min (tile_counters st !!! Z.to_nat key) (2 * FLUSH) ->
        G key ((tile_tmp st !!! Z.to_nat key) !!! Z.to_nat i))
  /\ (forall key : nat, 0 <= tile_counters st !!! key)
  /\ (forall j : nat, Q j (out_buffer st !!! j))
  /\ (forall b : nat, 0 <= out_indexes st !!! b).

(** Modelled from the spec: FLUSHB of trimmer.h (not among the source files;
    "tile dimension FLUSHB (default 16)") and the bucket capacities and
    partition factors EDGES_A, EDGES_B, NA, NB.  FLUSHA is the source's own
    [#define FLUSHA 16], kept as a parameter as its [#ifndef] allows. *)
Variables FLUSHA FLUSHB EDGES_A EDGES_B NA NB : Z.

(** One thread block of [Cuckoo_SeedA<maxOut, EdgeOut>]; [packed] is the test
    [sizeof(EdgeOut) == sizeof(uint2)]. *)
Definition Cuckoo_SeedA_block {EdgeOut : Type} `{!Inhabited EdgeOut}
    (make_Edge : Z -> Z -> Z -> EdgeOut) (packed : bool) (maxOut : Z)
    (sipkeys : siphash_keys) (dim blocks group : Z)
    (out : list EdgeOut * list Z) : list EdgeOut * list Z :=
  let nthreads := blocks * dim in
  let col := group mod NX in
  let loops := NEDGES / nthreads in
  let st := tile_start FLUSHA (fst out) (snd out) in
  let st :=
    for_range loops (fun i st =>
      tile_round FLUSHA maxOut dim (fun lid =>
        let gid := group * dim + lid in
        let nonce := u32 (gid * loops + i) in
        let node0 := dipnode sipkeys nonce 0 in
        let node1 := if packed then dipnode sipkeys nonce 1 else 0 in
        let row := Z.shiftr node0 YZBITS in
        Some (row, make_Edge nonce node0 node1))
        (fun row => row * NX + col) st) st in
  let st := tile_finish FLUSHA maxOut dim (fun row => row * NX + col) st in
  (out_buffer st, out_indexes st).

(** The launch [Cuckoo_SeedA<maxOut, EdgeOut><<<blocks, tpb>>>]. *)
Definition Cuckoo_SeedA {EdgeOut : Type} `{!Inhabited EdgeOut}
    (make_Edge : Z -> Z -> Z -> EdgeOut) (packed : bool) (maxOut : Z)
    (blocks tpb : Z) (sipkeys : siphash_keys) (buffer : list EdgeOut)
    (indexes : list Z) : list EdgeOut * list Z :=
  for_range blocks (fun group out =>
    Cuckoo_SeedA_block make_Edge packed maxOut sipkeys tpb blocks group out)
    (buffer, indexes).

(** One thread block of [Cuckaroo_SeedA<maxOut>]: every thread hashes a block
    of 64 nonces, then the threads insert its edges one slot [e] at a
    time. *)
Definition Cuckaroo_SeedA_block (maxOut : Z) (sipkeys : siphash_keys)
    (buf0 : list Z) (dim blocks group : Z) (out : list uint2 * list Z)
    : list uint2 * list Z :=
  let nthreads := blocks * dim in
  let col := group mod NX in
  let loops := NEDGES / nthreads in
  let st := tile_start FLUSHA (fst out) (snd out) in
  let st :=
    for_range ((loops + EDGE_BLOCK_SIZE - 1) / EDGE_BLOCK_SIZE) (fun k st =>
      let blk := k * EDGE_BLOCK_SIZE in
      let hashed :=
        (fun lid =>
           let gid := group * dim + lid in
           let nonce0 := u32 (gid * loops + blk) in
           dipblock sipkeys nonce0 buf0) <$> seqZ 0 dim in
      for_range EDGE_BLOCK_SIZE (fun e st =>
        tile_round FLUSHA maxOut dim (fun lid =>
          let '(last, buf) := hashed !!! Z.to_nat lid in
          let edge := Z.lxor (buf !!! Z.to_nat e) last in
          let node0 := u32 (Z.land edge EDGEMASK) in
          let node1 := u32 (Z.land (Z.shiftr edge 32) EDGEMASK) in
          let row := Z.shiftr node0 YZBITS in
          Some (row, make_uint2 node0 node1))
          (fun row => row * NX + col) st) st) st in
  let st := tile_finish FLUSHA maxOut dim (fun row => row * NX + col) st in
  (out_buffer st, out_indexes st).

(** The launch [Cuckaroo_SeedA<maxOut><<<blocks, tpb>>>]. *)
Definition Cuckaroo_SeedA (maxOut : Z) (blocks tpb : Z)
    (sipkeys : siphash_keys) (buf0 : list Z) (buffer : list uint2)
    (indexes : list Z) : list uint2 * list Z :=
  for_range blocks (fun group out =>
    Cuckaroo_SeedA_block maxOut sipkeys buf0 tpb blocks group out)
    (buffer, indexes).

(** The edge a thread of Seed B takes from its source bucket in iteration
    [loop], with the tile column it goes to; none past the end of the bucket
    or on a null edge. *)
Definition SeedB_item {EdgeOut : Type} `{!Inhabited EdgeOut}
    (edge_out : EdgeType EdgeOut) (maxOut : Z) (sipkeys : siphash_keys)
    (source : list EdgeOut) (bucketEdges group loop dim lid : Z)
    : option (Z * EdgeOut) :=
  let edgeIndex := loop * dim + lid in
  if edgeIndex <? bucketEdges then
    let index := group * maxOut + edgeIndex in
    let edge := source !!! Z.to_nat index in
    if null edge_out edge then None
    else
      let node1 := endpoint edge_out sipkeys edge 0 in
      let col := Z.land (Z.shiftr node1 ZBITS) XMASK in
      Some (col, edge)
  else None.

(** One thread block of [SeedB<maxOut, EdgeOut>]. *)
Definition SeedB_block {EdgeOut : Type} `{!Inhabited EdgeOut}
    (edge_out : EdgeType EdgeOut) (maxOut : Z) (sipkeys : siphash_keys)
    (source : list EdgeOut) (sourceIndexes : list Z) (dim group : Z)
    (out : list EdgeOut * list Z) : list EdgeOut * list Z :=
  let row := group / NX in
  let bucketEdges := Z.min (sourceIndexes !!! Z.to_nat group) maxOut in
  let loops := (bucketEdges + dim - 1) / dim in
  let st := tile_start FLUSHB (fst out) (snd out) in
  let st :=
    for_range loops (fun loop st =>
      tile_round FLUSHB maxOut dim
        (SeedB_item edge_out maxOut sipkeys source bucketEdges group loop dim)
        (fun col => row * NX + col) st) st in
  let st := tile_finish FLUSHB maxOut dim (fun col => row * NX + col) st in
  (out_buffer st, out_indexes st).

(** The launch [SeedB<maxOut, EdgeOut><<<blocks, tpb>>>]. *)
Definition SeedB {EdgeOut : Type} `{!Inhabited EdgeOut}
    (edge_out : EdgeType EdgeOut) (maxOut : Z) (blocks tpb : Z)
    (sipkeys : siphash_keys) (source destination : list EdgeOut)
    (sourceIndexes destinationIndexes : list Z) : list EdgeOut * list Z :=
  for_range blocks (fun group out =>
    SeedB_block edge_out maxOut sipkeys source sourceIndexes tpb group out)
    (destination, destinationIndexes).

(** ** The host side: trim *)

(** [blocks] and [tpb] of one kernel, and the [trimparams] of the trimmer. *)
Record blockstpb : Type := mk_blockstpb { blocks : Z; tpb : Z }.

Record trimparams : Type := mk_trimparams {
  expand : Z;
  ntrims : Z;
  genA : blockstpb;
  genB : blockstpb;
  tp_trim : blockstpb;
  tail : blockstpb
}.

(** A device array after [cudaMemset(.., 0, ..)], and a destination region
    before a stage writes it.  The regions bufferA, bufferB and bufferAB of
    the device alias each other and change between [u32] and [uint2]
    elements from stage to stage; a stage's destination is taken as a fresh
    array, as no stage reads a slot above the counters of the stage before. *)
Definition zeroed (n : Z) : list Z := replicate (Z.to_nat n) 0.

Definition region {E : Type} `{!Inhabited E} (n : Z) : list E :=
  replicate (Z.to_nat n) inhabitant.

(** The [NA] launches of Seed B, each on its part of the Seed A buffer
    ([source + i*qA], [sourceIndexes + i*qE]); the parts of the destination
    and of its index array follow each other in memory. *)
Definition SeedB_launches {E : Type} `{!Inhabited E} (edge_t : EdgeType E)
    (tp : trimparams) (sipkeys : siphash_keys) (bufferAB : list E)
    (indexesE1 : list Z) : list E * list Z :=
  let qA := NX2 * EDGES_A / NA in
  let qE := NX2 / NA in
  for_range NA (fun i done =>
    let '(part, ids) :=
      SeedB edge_t EDGES_A (blocks (genB tp) / NA) (tpb (genB tp)) sipkeys
        (drop (Z.to_nat (i * qA)) bufferAB) (region qA)
        (drop (Z.to_nat (i * qE)) indexesE1) (zeroed qE) in
    (fst done ++ part, snd done ++ ids)) ([], []).

(** The [NB] launches of round 0, each reading its part of bufferA and
    writing its own part of bufferB and its own index array [indexesE[1+i]];
    round 1 reads these parts and index arrays one after the other. *)
Definition Round0_launches {EdgeIn EdgeOut : Type} `{!Inhabited EdgeIn}
    `{!Inhabited EdgeOut} (edge_in : EdgeType EdgeIn)
    (make_Edge : EdgeIn -> Z -> Z -> EdgeOut) (tp : trimparams)
    (sipkeys : siphash_keys) (bufferA : list EdgeIn) (indexesE0 : list Z)
    : list EdgeOut * list Z :=
  let qA := NX2 * EDGES_A / NB in
  let qE := NX2 / NB in
  for_range NB (fun i done =>
    let '(part, ids) :=
      Round edge_in make_Edge 1 EDGES_A (EDGES_B / NB)
        (blocks (tp_trim tp) / NB) (tpb (tp_trim tp)) 0 sipkeys
        (drop (Z.to_nat (i * qA)) bufferA) (region (NX2 * (EDGES_B / NB)))
        (drop (Z.to_nat (i * qE)) indexesE0) (zeroed NX2) in
    (fst done ++ part, snd done ++ ids)) ([], []).

(** Round 1, [Round<NB, EDGES_B/NB, EdgeIn, EDGES_B/2, uint2>]. *)
Definition Round1_launch {EdgeIn : Type} `{!Inhabited EdgeIn}
    (edge_in : EdgeType EdgeIn) (make_Edge : EdgeIn -> Z -> Z -> uint2)
    (tp : trimparams) (sipkeys : siphash_keys) (bufferB : list EdgeIn)
    (indexesE1 : list Z) : list uint2 * list Z :=
  Round edge_in make_Edge NB (EDGES_B / NB) (EDGES_B / 2)
    (blocks (tp_trim tp)) (tpb (tp_trim tp)) 1 sipkeys bufferB
    (region (NX2 * (EDGES_B / 2))) indexesE1 (zeroed NX2).

(** A later round on packed edges, [Round<1, maxIn, uint2, maxOut, uint2>]. *)
Definition Round_packed (maxIn maxOut : Z) (tp : trimparams) (round : Z)
    (sipkeys : siphash_keys) (src : list uint2) (srcIds : list Z)
    : list uint2 * list Z :=
  Round uint2_edge make_Edge_uint2_uint2 1 maxIn maxOut
    (blocks (tp_trim tp)) (tpb (tp_trim tp)) round sipkeys src
    (region (NX2 * maxOut)) srcIds (zeroed NX2).

(** Seed A, Seed B and rounds 0 and 1, which depend on the variant and on
    [expand]; what comes out is bufferA with packed edges and its index
    array. *)
Definition trim_seed (selected : Z) (tp : trimparams) (sipkeys : siphash_keys)
    (buf0 : list Z) : list uint2 * list Z :=
  if (negb (selected =? 0)) || (expand tp =? 0) then
    let '(bufferAB, indexesE1) :=
      if selected =? 0 then
        Cuckoo_SeedA make_Edge_u32_uint2 true EDGES_A (blocks (genA tp))
          (tpb (genA tp)) sipkeys (region (NX2 * EDGES_A)) (zeroed NX2)
      else
        Cuckaroo_SeedA EDGES_A (blocks (genA tp)) (tpb (genA tp)) sipkeys buf0
          (region (NX2 * EDGES_A)) (zeroed NX2) in
    let '(bufferA, indexesE0) :=
      SeedB_launches uint2_edge tp sipkeys bufferAB indexesE1 in
    let '(bufferB, indexesE1) :=
      Round0_launches uint2_edge make_Edge_uint2_uint2 tp sipkeys bufferA
        indexesE0 in
    Round1_launch uint2_edge make_Edge_uint2_uint2 tp sipkeys bufferB indexesE1
  else
    let '(bufferAB, indexesE1) :=
      Cuckoo_SeedA make_Edge_u32_u32 false EDGES_A (blocks (genA tp))
        (tpb (genA tp)) sipkeys (region (NX2 * EDGES_A)) (zeroed NX2) in
    let '(bufferA, indexesE0) :=
      SeedB_launches u32_edge tp sipkeys bufferAB indexesE1 in
    if expand tp =? 1 then
      let '(bufferB, indexesE1) :=
        Round0_launches u32_edge make_Edge_u32_uint2 tp sipkeys bufferA
          indexesE0 in
      Round1_launch uint2_edge make_Edge_uint2_uint2 tp sipkeys bufferB
        indexesE1
    else
      let '(bufferB, indexesE1) :=
        Round0_launches u32_edge make_Edge_u32_u32 tp sipkeys bufferA
          indexesE0 in
      Round1_launch u32_edge make_Edge_u32_uint2 tp sipkeys bufferB indexesE1.

(** [edgetrimmer::trim]: the residual count it returns, with the buffer the
    Tail kernel wrote. *)
Definition trim (selected : Z) (tp : trimparams) (sipkeys : siphash_keys)
    (buf0 : list Z) : Z * list uint2 :=
  let '(bufferA, indexesE0) := trim_seed selected tp sipkeys buf0 in
  let '(bufferB, indexesE1) :=
    Round_packed (EDGES_B / 2) (EDGES_A / 4) tp 2 sipkeys bufferA indexesE0 in
  let '(bufferA, indexesE0) :=
    Round_packed (EDGES_A / 4) (EDGES_B / 4) tp 3 sipkeys bufferB indexesE1 in
  let '(bufferA, indexesE0) :=
    for_range (if 4 <? ntrims tp then (ntrims tp - 4 + 1) / 2 else 0)
      (fun k (ab : list uint2 * list Z) =>
        let round := 4 + 2 * k in
        let '(bufferB, indexesE1) :=
          Round_packed (EDGES_B / 4) (EDGES_B / 4) tp round sipkeys
            (fst ab) (snd ab) in
        Round_packed (EDGES_B / 4) (EDGES_B / 4) tp (round + 1) sipkeys
          bufferB indexesE1) (bufferA, indexesE0) in
  let '(bufferB, indexesE1) :=
    Tail (EDGES_B / 4) (blocks (tail tp)) (tpb (tail tp)) bufferA
      (region (NX2 * (EDGES_B / 4))) indexesE0 (zeroed NX2) in
  (indexesE1 !!! 0%nat, bufferB).

End Parameters.

(** ** The reference SipHash-2-4 of the specification *)

Section Reference.

Variable SIPROUND : lanes -> lanes.

(** "absorb the nonce into v3, two SIPROUNDs, v0 ^= nonce, v2 ^= 0xff, four
    SIPROUNDs, xor of the four lanes", from the key as initial state. *)
Definition sip_absorb (s : lanes) (m : Z) : lanes :=
  mk_lanes (v0 s) (v1 s) (v2 s) (Z.lxor (v3 s) m).

Definition sip_compress (s : lanes) (m : Z) : lanes :=
  let s := SIPROUND (SIPROUND (sip_absorb s m)) in
  mk_lanes (Z.lxor (v0 s) m) (v1 s) (v2 s) (v3 s).

Definition sip_finalize (s : lanes) : lanes :=
  let s := mk_lanes (v0 s) (v1 s) (Z.lxor (v2 s) 255) (v3 s) in
  SIPROUND (SIPROUND (SIPROUND (SIPROUND s))).

Definition siphash24 (K : siphash_keys) (m : Z) : Z :=
  let s := sip_finalize (sip_compress (mk_lanes (k0 K) (k1 K) (k2 K) (k3 K)) m) in
  Z.lxor (Z.lxor (Z.lxor (v0 s) (v1 s)) (v2 s)) (v3 s).

(** The Cuckaroo edge word as the specification words it: [b[n mod 64] XOR
    b[63]] with [b[i] = siphash24(K, (n & ~63) + i)], the final slot counted
    as zero when it is xored with itself. *)
Definition cuckaroo_word_spec (K : siphash_keys) (n : Z) : Z :=
  let b := fun i => siphash24 K (Z.land n (Z.lnot 63) + i) in
  Z.lxor (if n mod 64 =? 63 then 0 else b (n mod 64)) (b 63).

(** The lanes dipblock really carries: after [i] nonces of the block that
    starts at [n0] have been absorbed, each continuing from the lanes the
    previous one left. *)
Fixpoint chain_lanes (K : siphash_keys) (n0 : Z) (i : nat) : lanes :=
  match i with
  | O => mk_lanes (k0 K) (k1 K) (k2 K) (k3 K)
  | S j => sip_finalize (sip_compress (chain_lanes K n0 j) (n0 + Z.of_nat j))
  end.

(** The xor of lanes read out after nonce [n0 + i] of the block. *)
Definition chain_b (K : siphash_keys) (n0 : Z) (i : Z) : Z :=
  xor_lanes (chain_lanes K n0 (S (Z.to_nat i))).

End Reference.

(** An expected endpoint pair is the edge [uv]. *)
Definition edge_matches (r : uint2) (uv : Z * Z) : Prop :=
  uint2_x r = fst uv /\ uint2_y r = snd uv.

(** Every slot of [after] holds what it held in [before] or an edge whose
    first endpoint selects the row of the slot's bucket. *)
Definition routed_by_row (XBITS YBITS ZBITS : Z) {E : Type} `{!Inhabited E}
    (edge_t : EdgeType E) (sipkeys : siphash_keys) (maxOut : Z)
    (before after : list E) : Prop :=
  forall j : nat,
    after !!! j = before !!! j
    \/ Z.of_nat j / maxOut / NX XBITS
       = Z.shiftr (endpoint edge_t sipkeys (after !!! j) 0) (YZBITS YBITS ZBITS).

(** Every slot of [after] holds what it held in [before] or an edge whose
    endpoint [uorv] selects the column of the slot's bucket. *)
Definition routed_by_col (XBITS ZBITS : Z) {E : Type} `{!Inhabited E}
    (edge_t : EdgeType E) (sipkeys : siphash_keys) (maxOut : Z) (uorv : Z)
    (before after : list E) : Prop :=
  forall j : nat,
    after !!! j = before !!! j
    \/ (Z.of_nat j / maxOut) mod NX XBITS
       = Z.land (Z.shiftr (endpoint edge_t sipkeys (after !!! j) uorv) ZBITS)
           (XMASK XBITS).

(** What [n] inserts into [bucket] do to a buffer and its index array, as the
    kernels have it: the counter of the bucket goes up by [n] whatever the
    capacity [maxOut], and no slot outside the bucket changes. *)
Definition bucket_insert {E : Type} `{!Inhabited E} (maxOut bucket n : Z)
    (before after : list E * list Z) : Prop :=
  snd after
  = <[Z.to_nat bucket := u32 (snd before !!! Z.to_nat bucket + n)]> (snd before)
  /\ forall j : nat,
       ~ (bucket * maxOut <= Z.of_nat j < (bucket + 1) * maxOut) ->
       fst after !!! j = fst before !!! j.

(** The same, as the specification words it: the counter stays within the
    capacity, and an insert into a bucket that is full is dropped. *)
Definition capped_insert {E : Type} (maxOut bucket : Z)
    (before after : list E * list Z) : Prop :=
  snd after !!! Z.to_nat bucket <= maxOut
  /\ (maxOut <= snd before !!! Z.to_nat bucket -> fst after = fst before).

(** The packed form of what a compact slot holds: the null sentinel for
    nonce 0, both endpoints for any other nonce. *)
Definition to_packed (SIPROUND : lanes -> lanes) (EDGEBITS : Z)
    (sipkeys : siphash_keys) (nonce : Z) : uint2 :=
  if nonce =? 0 then make_uint2 0 0
  else make_uint2 (dipnode SIPROUND EDGEBITS sipkeys nonce 0)
                  (dipnode SIPROUND EDGEBITS sipkeys nonce 1).

(** The same trim parameters with another [expand]. *)
Definition with_expand (e : Z) (tp : trimparams) : trimparams :=
  mk_trimparams e (ntrims tp) (genA tp) (genB tp) (tp_trim tp) (tail tp).

(** What recovery owes for one expected pair [r], with [edge_of] the edge
    oracle of the active mode: if some nonce below NEDGES has the edge [r],
    the slot [out] holds such a nonce; if none has, the slot is zero. *)
Definition recovered (EDGEBITS : Z) (edge_of : Z -> Z * Z) (r : uint2)
    (out : Z) : Prop :=
  ((exists n, 0 <= n < NEDGES EDGEBITS /\ edge_matches r (edge_of n)) ->
   0 <= out < NEDGES EDGEBITS /\ edge_matches r (edge_of out))
  /\ ((forall n, 0 <= n < NEDGES EDGEBITS -> ~ edge_matches r (edge_of n)) ->
      out = 0).

(** What the guard [nonces[lid] > 0] does to one slot: it changes only to a
    value above zero, and keeps its prior value when no nonce above zero has
    the edge [r]. *)
Definition zero_skipped (EDGEBITS : Z) (edge_of : Z -> Z * Z) (r : uint2)
    (prior out : Z) : Prop :=
  (out <> prior -> 0 < out)
  /\ ((forall n, 0 < n < NEDGES EDGEBITS -> ~ edge_matches r (edge_of n)) ->
      out = prior).

(** Both fields of a [uint2] are 32-bit words. *)
Definition uint2_words (e : uint2) : Prop :=
  0 <= uint2_x e < 2 ^ 32 /\ 0 <= uint2_y e < 2 ^ 32.

(** The sum of the counters of the buckets before bucket [g]: where the run
    of bucket [g] starts when the blocks of Tail reserve their runs in the
    order of their ids. *)
Definition counted_before (ids : list Z) (g : Z) : Z :=
  for_range g (fun k acc => acc + ids !!! Z.to_nat k) 0.

(** ** What a bucket and a tile row hold *)

(** The first [n] slots of [bucket] hold the first [n] elements of [L], and
    the counter of the bucket is [n]. *)
Definition bucket_prefix {E : Type} `{!Inhabited E} (maxOut bucket n : Z)
    (L : list E) (out : list E * list Z) : Prop :=
  snd out !!! Z.to_nat bucket = n
  /\ (Z.to_nat bucket < length (snd out))%nat
  /\ (bucket + 1) * maxOut <= Z.of_nat (length (fst out))
  /\ (forall i, 0 <= i < n ->
        fst out !!! Z.to_nat (bucket * maxOut + i) = L !!! Z.to_nat i).

(** The bucket holds exactly the list [L], in order, and counts it. *)
Definition bucket_holds {E : Type} `{!Inhabited E} (maxOut bucket : Z)
    (L : list E) (out : list E * list Z) : Prop :=
  bucket_prefix maxOut bucket (Z.of_nat (length L)) L out.

(** The edges of tile row [key] are on their way to [bucket] in order: the
    list [L] is what the bucket holds below its counter followed by what the
    tile row holds below its counter. *)
Definition tile_row_holds {E : Type} `{!Inhabited E} (FLUSH maxOut : Z)
    (key bucket : Z) (L : list E) (st : @seeding E) : Prop :=
  let c := tile_counters st !!! Z.to_nat key in
  let n := out_indexes st !!! Z.to_nat bucket in
  0 <= c <= 2 * FLUSH /\ 0 <= n /\ n + c = Z.of_nat (length L)
  /\ bucket_prefix maxOut bucket n L (out_buffer st, out_indexes st)
  /\ (forall t, 0 <= t < c ->
        (tile_tmp st !!! Z.to_nat key) !!! Z.to_nat t = L !!! Z.to_nat (n + t)).

(** The edges that the threads of one iteration insert into tile row [key],
    in the order of the thread ids. *)
Definition row_items {E : Type} (item : Z -> option (Z * E)) (key dim : Z)
    : list E :=
  seqZ 0 dim ≫= (fun lid =>
    match item lid with
    | Some (key', edge) => if key' =? key then [edge] else []
    | None => []
    end).

(** The edges that a block inserts into tile row [key] in its first [loops]
    iterations. *)
Definition tile_items {E : Type} (items : Z -> Z -> option (Z * E))
    (key dim loops : Z) : list E :=
  seqZ 0 loops ≫= (fun i => row_items (items i) key dim).

(** The slots of source bucket [group] that a block of Seed B reads, in
    order. *)
Definition SeedB_bucket {E : Type} `{!Inhabited E} (maxOut : Z)
    (source : list E) (sourceIndexes : list Z) (group : Z) : list E :=
  (fun edgeIndex => source !!! Z.to_nat (group * maxOut + edgeIndex))
    <$> seqZ 0 (Z.min (sourceIndexes !!! Z.to_nat group) maxOut).

(** The edges among them whose first endpoint has column [col]. *)
Definition SeedB_column (XBITS ZBITS : Z) {E : Type} `{!Inhabited E}
    (edge_out : EdgeType E) (maxOut : Z) (sipkeys : siphash_keys)
    (source : list E) (sourceIndexes : list Z) (group col : Z) : list E :=
  filter (fun edge =>
            null edge_out edge = false
            /\ Z.land (Z.shiftr (endpoint edge_out sipkeys edge 0) ZBITS)
                 (XMASK XBITS) = col)
    (SeedB_bucket maxOut source sourceIndexes group).

(** The edges of column [col] in the source buckets of row [row], taken
    block after block over the first [blocks] blocks. *)
Definition SeedB_filed (XBITS ZBITS : Z) {E : Type} `{!Inhabited E}
    (edge_out : EdgeType E) (maxOut : Z) (sipkeys : siphash_keys)
    (source : list E) (sourceIndexes : list Z) (row col blocks : Z) : list E :=
  seqZ 0 blocks ≫= (fun group =>
    if group / NX XBITS =? row
    then SeedB_column XBITS ZBITS edge_out maxOut sipkeys source sourceIndexes
           group col
    else []).

(** The nonces that the threads of a block of Seed A hash in iteration [i],
    in the order of the threads. *)
Definition SeedA_round (EDGEBITS dim blocks group i : Z) : list Z :=
  let loops := NEDGES EDGEBITS / (blocks * dim) in
  (fun lid => u32 ((group * dim + lid) * loops + i)) <$> seqZ 0 dim.

(** The nonces of a block of Seed A, iteration after iteration. *)
Definition SeedA_schedule (EDGEBITS dim blocks group : Z) : list Z :=
  seqZ 0 (NEDGES EDGEBITS / (blocks * dim)) ≫= SeedA_round EDGEBITS dim blocks group.

(** The edges of a block of Cuckoo Seed A whose first endpoint has row
    [row], in the order of the schedule. *)
Definition SeedA_row (SIPROUND : lanes -> lanes) (EDGEBITS YBITS ZBITS : Z)
    {EdgeOut : Type} (make_Edge : Z -> Z -> Z -> EdgeOut) (packed : bool)
    (sipkeys : siphash_keys) (dim blocks group row : Z) : list EdgeOut :=
  (fun nonce =>
     make_Edge nonce (dipnode SIPROUND EDGEBITS sipkeys nonce 0)
       (if packed then dipnode SIPROUND EDGEBITS sipkeys nonce 1 else 0))
    <$> filter (fun nonce =>
                  Z.shiftr (dipnode SIPROUND EDGEBITS sipkeys nonce 0)
                    (YZBITS YBITS ZBITS) = row)
          (SeedA_schedule EDGEBITS dim blocks group).

(** The edges of row [row] made by the blocks of column [col] among the
    first [m] blocks of a launch of [blocks] blocks, block after block. *)
Definition SeedA_filed (SIPROUND : lanes -> lanes)
    (EDGEBITS XBITS YBITS ZBITS : Z) {EdgeOut : Type}
    (make_Edge : Z -> Z -> Z -> EdgeOut) (packed : bool)
    (sipkeys : siphash_keys) (dim blocks row col m : Z) : list EdgeOut :=
  seqZ 0 m ≫= (fun group =>
    if group mod NX XBITS =? col
    then SeedA_row SIPROUND EDGEBITS YBITS ZBITS make_Edge packed sipkeys dim
           blocks group row
    else []).

(** What [bucket] holds below its counter. *)
Definition bucket_content {E : Type} `{!Inhabited E} (maxOut bucket : Z)
    (out : list E * list Z) : list E :=
  (fun i => fst out !!! Z.to_nat (bucket * maxOut + i))
    <$> seqZ 0 (snd out !!! Z.to_nat bucket).

(** The edge that a round stores for a surviving edge. *)
Definition Round_stored {EdgeIn EdgeOut : Type} (edge_in : EdgeType EdgeIn)
    (make_Edge : EdgeIn -> Z -> Z -> EdgeOut) (round : Z)
    (sipkeys : siphash_keys) (edge : EdgeIn) : EdgeOut :=
  let node0 := endpoint edge_in sipkeys edge (Z.land round 1) in
  let node1 := endpoint edge_in sipkeys edge (Z.lxor (Z.land round 1) 1) in
  if Z.land round 1 =? 0 then make_Edge edge node0 node1
  else make_Edge edge node1 node0.

(** The survivors of the source bucket of block [group]: its live edges
    whose counted Z bits occur twice or more among them. *)
Definition Round_survivors (XBITS YBITS ZBITS : Z) {EdgeIn : Type}
    `{!Inhabited EdgeIn} (edge_in : EdgeType EdgeIn) (NP maxIn round : Z)
    (sipkeys : siphash_keys) (src : list EdgeIn) (srcIds : list Z)
    (group : Z) : list EdgeIn :=
  let live := Round_live XBITS YBITS edge_in NP maxIn src srcIds group in
  let zbits := fun e =>
    Z.land (Round_counted edge_in round sipkeys e) (ZMASK ZBITS) in
  filter (fun e =>
            (2 <= length (filter (fun e' => zbits e' = zbits e) live))%nat)
    live.

(** What the first [blocks] blocks of a round send to [bucket]: the
    survivors whose other endpoint, shifted by ZBITS, is [bucket]. *)
Definition Round_arrivals (XBITS YBITS ZBITS : Z) {EdgeIn EdgeOut : Type}
    `{!Inhabited EdgeIn} (edge_in : EdgeType EdgeIn)
    (make_Edge : EdgeIn -> Z -> Z -> EdgeOut) (NP maxIn round : Z)
    (sipkeys : siphash_keys) (src : list EdgeIn) (srcIds : list Z)
    (bucket blocks : Z) : list EdgeOut :=
  seqZ 0 blocks ≫= (fun group =>
    Round_stored edge_in make_Edge round sipkeys
      <$> filter (fun e =>
                    Z.shiftr (endpoint edge_in sipkeys e
                                (Z.lxor (Z.land round 1) 1)) ZBITS = bucket)
            (Round_survivors XBITS YBITS ZBITS edge_in NP maxIn round sipkeys
               src srcIds group)).

(** The edge that thread [lid] of a block of Cuckaroo Seed A reads in slot
    [e] of its [k]-th block of 64 nonces. *)
Definition Cuckaroo_edge (SIPROUND : lanes -> lanes) (EDGEBITS : Z)
    (sipkeys : siphash_keys) (buf0 : list Z) (dim blocks group k e lid : Z)
    : uint2 :=
  let loops := NEDGES EDGEBITS / (blocks * dim) in
  let gid := group * dim + lid in
  let nonce0 := u32 (gid * loops + k * EDGE_BLOCK_SIZE) in
  let '(last, buf) := dipblock SIPROUND sipkeys nonce0 buf0 in
  let edge := Z.lxor (buf !!! Z.to_nat e) last in
  make_uint2 (u32 (Z.land edge (EDGEMASK EDGEBITS)))
    (u32 (Z.land (Z.shiftr edge 32) (EDGEMASK EDGEBITS))).

(** The edges of the threads of a block for slot [e] of block [k] of their
    nonces, in the order of the threads. *)
Definition Cuckaroo_round (SIPROUND : lanes -> lanes) (EDGEBITS : Z)
    (sipkeys : siphash_keys) (buf0 : list Z) (dim blocks group k e : Z)
    : list uint2 :=
  Cuckaroo_edge SIPROUND EDGEBITS sipkeys buf0 dim blocks group k e
    <$> seqZ 0 dim.

(** The edges of a block of Cuckaroo Seed A, in the order it inserts
    them. *)
Definition Cuckaroo_schedule (SIPROUND : lanes -> lanes) (EDGEBITS : Z)
    (sipkeys : siphash_keys) (buf0 : list Z) (dim blocks group : Z)
    : list uint2 :=
  let loops := NEDGES EDGEBITS / (blocks * dim) in
  seqZ 0 ((loops + EDGE_BLOCK_SIZE - 1) / EDGE_BLOCK_SIZE) ≫= (fun k =>
    seqZ 0 EDGE_BLOCK_SIZE ≫= (fun e =>
      Cuckaroo_round SIPROUND EDGEBITS sipkeys buf0 dim blocks group k e)).

(** Those of them whose first endpoint has row [row]. *)
Definition Cuckaroo_row (SIPROUND : lanes -> lanes) (EDGEBITS YBITS ZBITS : Z)
    (sipkeys : siphash_keys) (buf0 : list Z) (dim blocks group row : Z)
    : list uint2 :=
  filter (fun edge => Z.shiftr (uint2_x edge) (YZBITS YBITS ZBITS) = row)
    (Cuckaroo_schedule SIPROUND EDGEBITS sipkeys buf0 dim blocks group).

(** The edges of row [row] made by the blocks of column [col] among the
    first [m] blocks of a launch of [blocks] blocks. *)
Definition Cuckaroo_filed (SIPROUND : lanes -> lanes)
    (EDGEBITS XBITS YBITS ZBITS : Z) (sipkeys : siphash_keys) (buf0 : list Z)
    (dim blocks row col m : Z) : list uint2 :=
  seqZ 0 m ≫= (fun group =>
    if group mod NX XBITS =? col
    then Cuckaroo_row SIPROUND EDGEBITS YBITS ZBITS sipkeys buf0 dim blocks
           group row
    else []).

(** * Properties *)

(** ** Words *)

Lemma u32_small (x : Z) : 0 <= x < 2 ^ 32 -> u32 x = x.
Proof. intros H. unfold u32. apply Z.mod_small. exact H. Qed.

Lemma u32_range (x : Z) : 0 <= u32 x < 2 ^ 32.
Proof. unfold u32. apply Z.mod_pos_bound. lia. Qed.

Lemma EDGEMASK_ones (EDGEBITS : Z) :
  0 <= EDGEBITS -> EDGEMASK EDGEBITS = Z.ones EDGEBITS.
Proof.
  intros H. unfold EDGEMASK, NEDGES. rewrite Z.ones_equiv. lia.
Qed.

Lemma land_EDGEMASK_range (EDGEBITS x : Z) :
  0 <= EDGEBITS -> 0 <= Z.land x (EDGEMASK EDGEBITS) < 2 ^ EDGEBITS.
Proof.
  intros H. rewrite EDGEMASK_ones by lia. rewrite Z.land_ones by lia.
  apply Z.mod_pos_bound. apply Z.pow_pos_nonneg; lia.
Qed.

Lemma u32_land_EDGEMASK (EDGEBITS x : Z) :
  0 <= EDGEBITS <= 32 ->
  u32 (Z.land x (EDGEMASK EDGEBITS)) = Z.land x (EDGEMASK EDGEBITS).
Proof.
  intros H. apply u32_small.
  pose proof (land_EDGEMASK_range EDGEBITS x ltac:(lia)) as Hr.
  assert (2 ^ EDGEBITS <= 2 ^ 32) by (apply Z.pow_le_mono_r; lia).
  lia.
Qed.

(** ** Cuckoo mode *)

Section SipHash.

Variable SIPROUND : lanes -> lanes.

Lemma dipnode_siphash24 (EDGEBITS : Z) (K : siphash_keys) (n uorv : Z) :
  0 <= EDGEBITS <= 32 -> 0 <= uorv -> 0 <= n -> 2 * n + uorv < 2 ^ 32 ->
  dipnode SIPROUND EDGEBITS K n uorv
  = Z.land (siphash24 SIPROUND K (2 * n + uorv)) (EDGEMASK EDGEBITS).
Proof.
  intros HE Hu Hn Hlt. unfold dipnode.
  rewrite (u32_small n) by lia. rewrite (u32_small uorv) by lia.
  rewrite (u32_small (2 * n + uorv)) by lia.
  rewrite u32_land_EDGEMASK by lia.
  reflexivity.
Qed.

(** C1: in Cuckoo mode the edge of every nonce [n] below NEDGES has the
    endpoints [siphash24(K, 2n) & EDGEMASK] and [siphash24(K, 2n+1) &
    EDGEMASK], with siphash24 the reference SipHash-2-4 (absorb into v3, two
    rounds, v0 ^= nonce, v2 ^= 0xff, four rounds, xor of the lanes); EDGEBITS
    ranges over the sizes a 32-bit nonce can double in, at most 31. *)
Theorem cuckoo_edge_siphash24 (EDGEBITS : Z) (K : siphash_keys) (n : Z) :
  0 <= EDGEBITS <= 31 ->
  0 <= n < NEDGES EDGEBITS ->
  cuckoo_edge SIPROUND EDGEBITS K n
  = (Z.land (siphash24 SIPROUND K (2 * n)) (EDGEMASK EDGEBITS),
     Z.land (siphash24 SIPROUND K (2 * n + 1)) (EDGEMASK EDGEBITS)).
Proof.
  intros HE Hn. unfold NEDGES in Hn.
  assert (2 ^ EDGEBITS <= 2 ^ 31) by (apply Z.pow_le_mono_r; lia).
  unfold cuckoo_edge.
  rewrite (dipnode_siphash24 EDGEBITS K n 0) by lia.
  rewrite (dipnode_siphash24 EDGEBITS K n 1) by lia.
  rewrite Z.add_0_r. reflexivity.
Qed.

End SipHash.

Lemma cuckoo_edge_siphash24_witness :
  cuckoo_edge sipround 29 (mk_keys 1 2 3 4) 5
  = (Z.land (siphash24 sipround (mk_keys 1 2 3 4) (2 * 5)) (EDGEMASK 29),
     Z.land (siphash24 sipround (mk_keys 1 2 3 4) (2 * 5 + 1)) (EDGEMASK 29)).
Proof.
  apply (cuckoo_edge_siphash24 sipround 29 (mk_keys 1 2 3 4) 5).
  - lia.
  - unfold NEDGES. lia.
Defined.

(** ** Cuckaroo mode *)

Section Cuckaroo.

Variable SIPROUND : lanes -> lanes.

Lemma dipblock_step_reference (s : lanes) (nonce : Z) :
  dipblock_step SIPROUND s nonce = sip_finalize SIPROUND (sip_compress SIPROUND s nonce).
Proof. reflexivity. Qed.

Lemma chain_b_first (K : siphash_keys) (n0 : Z) :
  chain_b SIPROUND K n0 0 = siphash24 SIPROUND K n0.
Proof.
  unfold chain_b, siphash24, xor_lanes. simpl. rewrite Z.add_0_r.
  set (s := sip_finalize _ _).
  rewrite !Z.lxor_assoc. reflexivity.
Qed.

(** The loop of dipblock, started at iteration [i] on the lanes of the chain,
    ends on the lanes of the chain and has filled the slots it ran over. *)
Lemma dipblock_loop_chain (K : siphash_keys) (n0 : Z) (todo : nat) :
  forall (i : nat) (buf : list Z),
    0 <= n0 ->
    n0 + Z.of_nat i + Z.of_nat todo <= 2 ^ 32 ->
    exists buf' : list Z,
      dipblock_loop SIPROUND todo (Z.of_nat i) n0 (chain_lanes SIPROUND K n0 i) buf
      = (Z.of_nat (i + todo), chain_lanes SIPROUND K n0 (i + todo), buf')
      /\ length buf' = length buf
      /\ (forall j : nat, (i <= j < i + todo)%nat -> (j < length buf)%nat ->
            buf' !! j = Some (chain_b SIPROUND K n0 (Z.of_nat j)))
      /\ (forall j : nat, (j < i \/ i + todo <= j)%nat -> buf' !! j = buf !! j).
Proof.
  induction todo as [|todo IH]; intros i buf Hn0 Hbound.
  - exists buf. simpl. rewrite Nat.add_0_r.
    split; [reflexivity|]. split; [reflexivity|]. split.
    + intros j Hj. lia.
    + intros j Hj. reflexivity.
  - simpl dipblock_loop.
    rewrite (u32_small (n0 + Z.of_nat i)) by lia.
    rewrite dipblock_step_reference.
    change (sip_finalize SIPROUND (sip_compress SIPROUND (chain_lanes SIPROUND K n0 i) (n0 + Z.of_nat i)))
      with (chain_lanes SIPROUND K n0 (S i)).
    replace (Z.of_nat i + 1) with (Z.of_nat (S i)) by lia.
    destruct (IH (S i) (<[Z.to_nat (Z.of_nat i) := xor_lanes (chain_lanes SIPROUND K n0 (S i))]> buf)
                Hn0 ltac:(lia)) as (buf' & Heq & Hlen & Hin & Hout).
    exists buf'. rewrite Heq.
    replace (S i + todo)%nat with (i + S todo)%nat by lia.
    rewrite Nat2Z.id in *. rewrite length_insert in Hlen, Hin.
    split; [reflexivity|]. split; [exact Hlen|]. split.
    + intros j Hj Hjlen. destruct (decide (j = i)) as [->|Hne].
      * rewrite Hout by lia. rewrite list_lookup_insert_eq by lia.
        unfold chain_b. rewrite Nat2Z.id. reflexivity.
      * apply Hin; lia.
    + intros j Hj. rewrite Hout by lia.
      apply list_lookup_insert_ne. lia.
Qed.

Lemma land_lnot_block_mask (n : Z) :
  0 <= n -> Z.land n (Z.lnot EDGE_BLOCK_MASK) = 64 * (n / 64).
Proof.
  intros Hn. change EDGE_BLOCK_MASK with (Z.ones 6).
  change (Z.land n (Z.lnot (Z.ones 6))) with (Z.ldiff n (Z.ones 6)).
  rewrite Z.ldiff_ones_r by lia.
  rewrite Z.shiftr_div_pow2, Z.shiftl_mul_pow2 by lia.
  change (2 ^ 6) with 64. lia.
Qed.

Lemma land_block_mask (n : Z) : Z.land n EDGE_BLOCK_MASK = n mod 64.
Proof.
  change EDGE_BLOCK_MASK with (Z.ones 6). rewrite Z.land_ones by lia.
  reflexivity.
Qed.

(** What dipblock returns: the chained word of slot 63 and a buffer holding
    the chained words of the slots before it, with slot 63 zeroed. *)
Lemma dipblock_chain (K : siphash_keys) (n : Z) (buf : list Z) :
  0 <= n < 2 ^ 32 -> length buf = 64%nat ->
  let n0 := 64 * (n / 64) in
  exists buf' : list Z,
    dipblock SIPROUND K n buf = (chain_b SIPROUND K n0 63, buf')
    /\ length buf' = 64%nat
    /\ buf' !! 63%nat = Some 0
    /\ forall j : nat, (j < 63)%nat -> buf' !! j = Some (chain_b SIPROUND K n0 (Z.of_nat j)).
Proof.
  intros Hn Hlen n0. unfold dipblock.
  rewrite (u32_small n) by lia.
  rewrite land_lnot_block_mask by lia. fold n0.
  assert (Hn0 : 0 <= n0 /\ n0 + 64 <= 2 ^ 32).
  { subst n0. pose proof (Z.div_mod n 64 ltac:(lia)) as Hdm.
    pose proof (Z.mod_pos_bound n 64 ltac:(lia)) as Hm.
    assert (n / 64 < 67108864) by (apply Z.div_lt_upper_bound; lia).
    lia. }
  destruct (dipblock_loop_chain K n0 63 0 buf ltac:(lia) ltac:(simpl; lia))
    as (buf' & Heq & Hlen' & Hin & Hout).
  change (Z.to_nat EDGE_BLOCK_MASK) with 63%nat.
  change (chain_lanes SIPROUND K n0 0) with (mk_lanes (k0 K) (k1 K) (k2 K) (k3 K)) in Heq.
  change (Z.of_nat 0) with 0 in Heq. rewrite Heq.
  change (Z.of_nat (0 + 63)) with 63. change (Z.to_nat 63) with 63%nat.
  rewrite (u32_small (n0 + 63)) by lia. rewrite dipblock_step_reference.
  exists (<[63%nat := 0]> buf'). split; [reflexivity|].
  rewrite length_insert. split; [lia|]. split.
  - apply list_lookup_insert_eq. lia.
  - intros j Hj. rewrite list_lookup_insert_ne by lia. apply Hin; lia.
Qed.

(** C2, as the kernels compute it: the edge word of nonce [n] is [b[n mod 64]
    XOR b[63]] with slot 63 counted as zero against itself, where [b[0] =
    siphash24(K, n0)] for the block start [n0 = n & ~63] and every later
    [b[i]] continues the absorption of [n0 + i] from the lanes that [n0 + i
    - 1] left (the state is chained through the block, not keyed afresh);
    the endpoints are [edge & EDGEMASK] and [(edge >> 32) & EDGEMASK]. *)
Theorem cuckaroo_edge_chained (EDGEBITS : Z) (K : siphash_keys) (buf : list Z)
    (n : Z) :
  0 <= EDGEBITS <= 32 -> 0 <= n < 2 ^ 32 -> length buf = 64%nat ->
  let n0 := Z.land n (Z.lnot 63) in
  let edge :=
    Z.lxor (if n mod 64 =? 63 then 0 else chain_b SIPROUND K n0 (n mod 64))
           (chain_b SIPROUND K n0 63) in
  chain_b SIPROUND K n0 0 = siphash24 SIPROUND K n0
  /\ cuckaroo_word SIPROUND K buf n = edge
  /\ cuckaroo_edge SIPROUND EDGEBITS K buf n
     = (Z.land edge (EDGEMASK EDGEBITS),
        Z.land (Z.shiftr edge 32) (EDGEMASK EDGEBITS)).
Proof.
  intros HE Hn Hlen n0 edge.
  assert (Hword : cuckaroo_word SIPROUND K buf n = edge).
  { unfold cuckaroo_word.
    destruct (dipblock_chain K n buf Hn Hlen) as (buf' & Heq & Hlen' & H63 & Hlt).
    rewrite Heq. unfold block_edge.
    rewrite (u32_small n) by lia. rewrite land_block_mask.
    pose proof (Z.mod_pos_bound n 64 ltac:(lia)) as Hm.
    subst edge n0.
    replace (Z.land n (Z.lnot 63)) with (64 * (n / 64))
      by (symmetry; apply land_lnot_block_mask; lia).
    destruct (Z.eqb_spec (n mod 64) 63) as [He|Hne].
    - rewrite He. change (Z.to_nat 63) with 63%nat.
      rewrite (list_lookup_total_correct _ _ _ H63). reflexivity.
    - pose proof (Hlt (Z.to_nat (n mod 64)) ltac:(lia)) as Hj.
      rewrite (list_lookup_total_correct _ _ _ Hj).
      rewrite Z2Nat.id by lia. reflexivity. }
  split; [apply chain_b_first|]. split; [exact Hword|].
  unfold cuckaroo_edge, edge_nodes. rewrite Hword.
  rewrite !u32_land_EDGEMASK by lia. reflexivity.
Qed.

End Cuckaroo.

Lemma cuckaroo_edge_chained_witness :
  chain_b sipround (mk_keys 1 2 3 4) (Z.land 65 (Z.lnot 63)) 0
  = siphash24 sipround (mk_keys 1 2 3 4) (Z.land 65 (Z.lnot 63))
  /\ cuckaroo_word sipround (mk_keys 1 2 3 4) (replicate 64 0) 65
     = Z.lxor (if 65 mod 64 =? 63 then 0
               else chain_b sipround (mk_keys 1 2 3 4) (Z.land 65 (Z.lnot 63)) (65 mod 64))
              (chain_b sipround (mk_keys 1 2 3 4) (Z.land 65 (Z.lnot 63)) 63)
  /\ cuckaroo_edge sipround 29 (mk_keys 1 2 3 4) (replicate 64 0) 65
     = (Z.land
          (Z.lxor (if 65 mod 64 =? 63 then 0
                   else chain_b sipround (mk_keys 1 2 3 4) (Z.land 65 (Z.lnot 63)) (65 mod 64))
                  (chain_b sipround (mk_keys 1 2 3 4) (Z.land 65 (Z.lnot 63)) 63))
          (EDGEMASK 29),
        Z.land
          (Z.shiftr
             (Z.lxor (if 65 mod 64 =? 63 then 0
                      else chain_b sipround (mk_keys 1 2 3 4) (Z.land 65 (Z.lnot 63)) (65 mod 64))
                     (chain_b sipround (mk_keys 1 2 3 4) (Z.land 65 (Z.lnot 63)) 63)) 32)
          (EDGEMASK 29)).
Proof.
  apply (cuckaroo_edge_chained sipround 29 (mk_keys 1 2 3 4) (replicate 64 0) 65).
  - lia.
  - lia.
  - reflexivity.
Defined.

(** C2 as worded fails: with every [b[i]] an independent [siphash24(K, n0 +
    i)], already the first nonce of the first block gets another edge word
    and other endpoints than the kernels compute. *)
Lemma cuckaroo_edge_not_independent :
  cuckaroo_word sipround (mk_keys 1 2 3 4) (replicate 64 0) 0
  <> cuckaroo_word_spec sipround (mk_keys 1 2 3 4) 0
  /\ cuckaroo_edge sipround 29 (mk_keys 1 2 3 4) (replicate 64 0) 0
     <> (Z.land (cuckaroo_word_spec sipround (mk_keys 1 2 3 4) 0) (EDGEMASK 29),
         Z.land (Z.shiftr (cuckaroo_word_spec sipround (mk_keys 1 2 3 4) 0) 32)
                (EDGEMASK 29)).
Proof.
  split; vm_compute; intros H; discriminate H.
Qed.


(** ** Loops as folds over index lists *)

Lemma fold_left_ext_in {S A : Type} (f g : S -> A -> S) (l : list A) (s : S) :
  (forall s a, a ∈ l -> f s a = g s a) -> fold_left f l s = fold_left g l s.
Proof.
  revert s. induction l as [|a l IH]; intros s H; simpl; [reflexivity|].
  rewrite H by left. apply IH. intros s' a' Ha'. apply H. right. exact Ha'.
Qed.

Lemma fold_left_guard {S A : Type} (p : A -> bool) (f : S -> A -> S)
    (l : list A) (s : S) :
  fold_left (fun s a => if p a then f s a else s) l s
  = fold_left f (filter (fun a => p a = true) l) s.
Proof.
  revert s. induction l as [|a l IH]; intros s; simpl; [reflexivity|].
  destruct (p a) eqn:Hp.
  - rewrite filter_cons_True by exact Hp. simpl. apply IH.
  - rewrite filter_cons_False by congruence. apply IH.
Qed.

Lemma fold_left_bind {S A B : Type} (g : A -> list B) (f : S -> B -> S)
    (l : list A) (s : S) :
  fold_left (fun s a => fold_left f (g a) s) l s = fold_left f (l ≫= g) s.
Proof.
  revert s. induction l as [|a l IH]; intros s; [reflexivity|].
  rewrite bind_cons, fold_left_app. cbn [fold_left]. apply IH.
Qed.

Lemma fold_left_fmap {S A B : Type} (h : A -> B) (f : S -> B -> S)
    (l : list A) (s : S) :
  fold_left (fun s a => f s (h a)) l s = fold_left f (h <$> l) s.
Proof.
  revert s. induction l as [|a l IH]; intros s; simpl; [reflexivity|].
  apply IH.
Qed.

Lemma bind_app_Permutation {A B : Type} (f g : A -> list B) (l : list A) :
  l ≫= (fun a => f a ++ g a) ≡ₚ (l ≫= f) ++ (l ≫= g).
Proof.
  induction l as [|a l IH]; [reflexivity|].
  rewrite !bind_cons, IH.
  rewrite <- !app_assoc. apply Permutation_app_head.
  rewrite !app_assoc. apply Permutation_app_tail. apply Permutation_app_comm.
Qed.

Lemma bind_nil_r {A B : Type} (l : list A) : l ≫= (fun _ => @nil B) = [].
Proof. induction l as [|a l IH]; [reflexivity|]. rewrite bind_cons. exact IH. Qed.

(** Two nested enumerations may be exchanged, up to the order. *)
Lemma bind_swap_Permutation {A B C : Type} (f : A -> B -> list C)
    (la : list A) (lb : list B) :
  la ≫= (fun a => lb ≫= f a) ≡ₚ lb ≫= (fun b => la ≫= (fun a => f a b)).
Proof.
  induction la as [|a la IH].
  - induction lb as [|b lb IHb]; [reflexivity|].
    rewrite bind_cons. exact IHb.
  - rewrite bind_cons, IH.
    rewrite <- (bind_app_Permutation (f a) (fun b => la ≫= (fun a => f a b))).
    reflexivity.
Qed.

(** All threads together visit every index below [n] exactly once. *)
Lemma thread_indices_Permutation (dim n : Z) :
  0 < dim -> seqZ 0 dim ≫= thread_indices dim n ≡ₚ seqZ 0 n.
Proof.
  intros Hdim. apply NoDup_Permutation.
  - apply NoDup_bind.
    + intros lid1 lid2 y H1 H2 Hy1 Hy2.
      apply elem_of_seqZ in H1, H2.
      unfold thread_indices in Hy1, Hy2.
      apply list_elem_of_filter in Hy1 as [_ Hy1], Hy2 as [_ Hy2].
      apply list_elem_of_fmap in Hy1 as (l1 & -> & _), Hy2 as (l2 & E & _).
      assert (Hm1 : (l1 * dim + lid1) mod dim = lid1)
        by (rewrite Z.add_comm, Z.mod_add by lia; apply Z.mod_small; lia).
      assert (Hm2 : (l2 * dim + lid2) mod dim = lid2)
        by (rewrite Z.add_comm, Z.mod_add by lia; apply Z.mod_small; lia).
      congruence.
    + intros lid Hlid. apply elem_of_seqZ in Hlid. unfold thread_indices.
      apply stdpp.list_relations.list.NoDup_filter. apply NoDup_fmap_2_strong; [|apply NoDup_seqZ].
      intros l1 l2 _ _ E. nia.
    + apply NoDup_seqZ.
  - apply NoDup_seqZ.
  - intros x. rewrite list_elem_of_bind, elem_of_seqZ. split.
    + intros (lid & Hx & Hlid). apply elem_of_seqZ in Hlid.
      unfold thread_indices in Hx.
      apply list_elem_of_filter in Hx as [Hlt Hx].
      apply list_elem_of_fmap in Hx as (l & -> & Hl).
      apply elem_of_seqZ in Hl. apply Z.ltb_lt in Hlt. nia.
    + intros Hx. exists (x mod dim).
      pose proof (Z.mod_pos_bound x dim Hdim) as Hm.
      pose proof (Z.div_mod x dim ltac:(lia)) as Hdm.
      split; [|apply elem_of_seqZ; lia].
      unfold thread_indices. apply list_elem_of_filter.
      split; [apply Z.ltb_lt; lia|].
      apply list_elem_of_fmap. exists (x / dim). split; [lia|].
      apply elem_of_seqZ.
      assert (0 <= x / dim) by (apply Z.div_pos; lia).
      assert (x / dim <= (n + dim - 1) / dim - 1); [|lia].
      assert (x / dim < (n + dim - 1) / dim); [|lia].
      apply Z.div_lt_upper_bound; [lia|].
      pose proof (Z.div_mod (n + dim - 1) dim ltac:(lia)) as Hdm'.
      pose proof (Z.mod_pos_bound (n + dim - 1) dim Hdim) as Hm'.
      nia.
Qed.

(** A strided loop of one thread is a fold over its indices. *)
Lemma for_range_strided {S : Type} (dim n lid : Z) (F : Z -> S -> S) (s : S) :
  for_range ((n + dim - 1) / dim)
    (fun loop s => let lindex := loop * dim + lid in
                   if lindex <? n then F lindex s else s) s
  = fold_left (fun s lindex => F lindex s) (thread_indices dim n lid) s.
Proof.
  unfold for_range, thread_indices. cbv zeta.
  rewrite <- fold_left_guard.
  rewrite <- (fold_left_fmap (fun loop => loop * dim + lid)
                (fun s a => if a <? n then F a s else s)).
  reflexivity.
Qed.

(** ** Two-bit counters *)

Lemma land_31 (z : Z) : Z.land z 31 = z mod 32.
Proof. change 31 with (Z.ones 5). rewrite Z.land_ones by lia. reflexivity. Qed.

Lemma shiftr_5 (z : Z) : Z.shiftr z 5 = z / 32.
Proof. rewrite Z.shiftr_div_pow2 by lia. reflexivity. Qed.

Lemma counter_mask (z : Z) : u32 (Z.shiftl 1 (Z.land z 31)) = 2 ^ (z mod 32).
Proof.
  rewrite land_31. pose proof (Z.mod_pos_bound z 32 ltac:(lia)) as Hm.
  rewrite Z.shiftl_1_l. apply u32_small.
  assert (2 ^ (z mod 32) <= 2 ^ 31) by (apply Z.pow_le_mono_r; lia).
  assert (0 < 2 ^ (z mod 32)) by (apply Z.pow_pos_nonneg; lia).
  lia.
Qed.

Lemma land_pow2_eqb (a n : Z) :
  0 <= n -> (Z.land a (2 ^ n) =? 0) = negb (Z.testbit a n).
Proof.
  intros Hn. destruct (Z.testbit a n) eqn:Hb; simpl.
  - apply Z.eqb_neq. intros H0.
    assert (Ht : Z.testbit (Z.land a (2 ^ n)) n = true).
    { rewrite Z.land_spec, Hb, Z.pow2_bits_true by lia. reflexivity. }
    rewrite H0, Z.bits_0 in Ht. discriminate.
  - apply Z.eqb_eq. apply Z.bits_inj'. intros m Hm.
    rewrite Z.land_spec, Z.bits_0, Z.pow2_bits_eqb by lia.
    destruct (Z.eqb_spec n m) as [->|]; [rewrite Hb; reflexivity|].
    apply andb_false_r.
Qed.

Lemma testbit_lor_pow2 (a n b : Z) :
  0 <= n -> Z.testbit (Z.lor a (2 ^ n)) b = Z.testbit a b || (n =? b).
Proof. intros Hn. rewrite Z.lor_spec, Z.pow2_bits_eqb by lia. reflexivity. Qed.

Lemma words_ext (l1 l2 : list Z) :
  length l1 = length l2 ->
  (forall (w : nat) (b : Z), (w < length l1)%nat -> 0 <= b ->
     Z.testbit (l1 !!! w) b = Z.testbit (l2 !!! w) b) ->
  l1 = l2.
Proof.
  intros Hlen Hbits. apply list_eq. intros w.
  destruct (decide (w < length l1)%nat) as [Hw|Hw].
  - rewrite (list_lookup_lookup_total_lt l1 w Hw).
    rewrite (list_lookup_lookup_total_lt l2 w) by lia.
    f_equal. apply Z.bits_inj'. intros b Hb. apply Hbits; assumption.
  - rewrite !lookup_ge_None_2 by lia. reflexivity.
Qed.

Section Counters.

Variable ZBITS : Z.
Hypothesis HZ : 5 <= ZBITS.

Local Abbreviation planes := (Z.to_nat (NZ ZBITS / 32)).
Local Abbreviation hi z := (Z.to_nat (z / 32)).

Lemma NZ_planes : NZ ZBITS = 32 * (NZ ZBITS / 32) /\ 0 < NZ ZBITS / 32.
Proof.
  unfold NZ. replace ZBITS with (5 + (ZBITS - 5)) by lia.
  rewrite Z.pow_add_r by lia. change (2 ^ 5) with 32.
  assert (0 < 2 ^ (ZBITS - 5)) by (apply Z.pow_pos_nonneg; lia).
  rewrite Z.mul_comm, Z.div_mul by lia. lia.
Qed.

Lemma COUNTERWORDS_planes : Z.to_nat (COUNTERWORDS ZBITS) = (planes + planes)%nat.
Proof.
  unfold COUNTERWORDS. destruct NZ_planes as [H1 H2].
  rewrite H1 at 1. replace (32 * (NZ ZBITS / 32)) with ((2 * (NZ ZBITS / 32)) * 16) by lia.
  rewrite Z.div_mul by lia. lia.
Qed.

Lemma hi_lt_planes (z : Z) : 0 <= z < NZ ZBITS -> (hi z < planes)%nat.
Proof.
  intros Hz. destruct NZ_planes as [H1 H2].
  assert (z / 32 < NZ ZBITS / 32) by (apply Z.div_lt_upper_bound; lia).
  assert (0 <= z / 32) by (apply Z.div_pos; lia).
  lia.
Qed.

Lemma Increase2bCounter_length (ec : list Z) (z : Z) :
  length (Increase2bCounter ZBITS ec z) = length ec.
Proof.
  unfold Increase2bCounter, atomicOr. simpl.
  destruct (_ =? 0); simpl; rewrite ?length_insert; reflexivity.
Qed.

(** Every bit of every word after one increment. *)
Lemma Increase2bCounter_bits (ec : list Z) (z : Z) (w : nat) (b : Z) :
  0 <= z < NZ ZBITS -> (planes + planes <= length ec)%nat ->
  (w < length ec)%nat -> 0 <= b ->
  Z.testbit (Increase2bCounter ZBITS ec z !!! w) b
  = Z.testbit (ec !!! w) b
    || (Nat.eqb w (hi z) && (z mod 32 =? b))
    || (Nat.eqb w (hi z + planes) && (z mod 32 =? b)
        && Z.testbit (ec !!! hi z) (z mod 32)).
Proof.
  intros Hz Hlen Hw Hb.
  pose proof (hi_lt_planes z Hz) as Hhi.
  pose proof (Z.mod_pos_bound z 32 ltac:(lia)) as Hm.
  destruct NZ_planes as [_ Hp].
  assert (0 <= z / 32) by (apply Z.div_pos; lia).
  unfold Increase2bCounter, atomicOr.
  rewrite counter_mask, shiftr_5.
  cbv zeta. cbn [fst snd].
  rewrite land_pow2_eqb by lia.
  replace (Z.to_nat (z / 32 + NZ ZBITS / 32)) with (hi z + planes)%nat by lia.
  destruct (Z.testbit (ec !!! hi z) (z mod 32)) eqn:Hold; cbn [negb].
  - rewrite andb_true_r.
    destruct (Nat.eqb_spec w (hi z + planes)) as [->|Hne1].
    + rewrite list_lookup_total_insert_eq by (rewrite length_insert; lia).
      rewrite list_lookup_total_insert_ne by lia.
      rewrite testbit_lor_pow2 by lia.
      destruct (Nat.eqb_spec (hi z + planes) (hi z)); [lia|].
      simpl. rewrite orb_false_r. reflexivity.
    + rewrite list_lookup_total_insert_ne by lia.
      destruct (Nat.eqb_spec w (hi z)) as [->|Hne2].
      * rewrite list_lookup_total_insert_eq by lia.
        rewrite testbit_lor_pow2 by lia. simpl. rewrite orb_false_r. reflexivity.
      * rewrite list_lookup_total_insert_ne by lia. simpl.
        rewrite !orb_false_r. reflexivity.
  - rewrite andb_false_r, orb_false_r.
    destruct (Nat.eqb_spec w (hi z)) as [->|Hne2].
    + rewrite list_lookup_total_insert_eq by lia.
      rewrite testbit_lor_pow2 by lia. reflexivity.
    + rewrite list_lookup_total_insert_ne by lia. simpl.
      rewrite orb_false_r. reflexivity.
Qed.

(** Two increments commute, whatever the counters hold. *)
Lemma Increase2bCounter_swap (ec : list Z) (z z' : Z) :
  0 <= z < NZ ZBITS -> 0 <= z' < NZ ZBITS ->
  (planes + planes <= length ec)%nat ->
  Increase2bCounter ZBITS (Increase2bCounter ZBITS ec z) z'
  = Increase2bCounter ZBITS (Increase2bCounter ZBITS ec z') z.
Proof.
  intros Hz Hz' Hlen.
  pose proof (hi_lt_planes z Hz) as Hhi.
  pose proof (hi_lt_planes z' Hz') as Hhi'.
  apply words_ext.
  - rewrite !Increase2bCounter_length. reflexivity.
  - intros w b Hw Hb. rewrite !Increase2bCounter_length in Hw.
    pose proof (Z.mod_pos_bound z 32 ltac:(lia)) as Hm.
    pose proof (Z.mod_pos_bound z' 32 ltac:(lia)) as Hm'.
    rewrite (Increase2bCounter_bits (Increase2bCounter ZBITS ec z') z w b)
      by (rewrite ?Increase2bCounter_length; first [assumption | lia]).
    rewrite (Increase2bCounter_bits (Increase2bCounter ZBITS ec z) z' w b)
      by (rewrite ?Increase2bCounter_length; first [assumption | lia]).
    rewrite (Increase2bCounter_bits ec z w b) by first [assumption | lia].
    rewrite (Increase2bCounter_bits ec z' w b) by first [assumption | lia].
    rewrite (Increase2bCounter_bits ec z (hi z') (z' mod 32))
      by first [assumption | lia].
    rewrite (Increase2bCounter_bits ec z' (hi z) (z mod 32))
      by first [assumption | lia].
    destruct (Nat.eqb_spec (hi z') (hi z + planes)); [lia|].
    destruct (Nat.eqb_spec (hi z) (hi z' + planes)); [lia|].
    cbn [andb orb]. rewrite !orb_false_r.
    destruct (Nat.eqb_spec (hi z') (hi z)) as [Ehi|Nhi];
      destruct (Z.eqb_spec (z mod 32) (z' mod 32)) as [Elo|Nlo].
    + rewrite Ehi, Elo, !Z.eqb_refl, !Nat.eqb_refl.
      destruct (Z.testbit (ec !!! hi z) (z' mod 32)), (Nat.eqb w (hi z)),
        (Nat.eqb w (hi z + planes)), (z' mod 32 =? b), (Z.testbit (ec !!! w) b);
        reflexivity.
    + rewrite Ehi, Nat.eqb_refl.
      destruct (Z.eqb_spec (z' mod 32) (z mod 32)); [lia|].
      destruct (Z.testbit (ec !!! hi z) (z' mod 32)),
        (Z.testbit (ec !!! hi z) (z mod 32)), (Nat.eqb w (hi z)),
        (Nat.eqb w (hi z + planes)), (z' mod 32 =? b), (z mod 32 =? b),
        (Z.testbit (ec !!! w) b); reflexivity.
    + destruct (Nat.eqb_spec (hi z) (hi z')); [lia|]. cbn [andb orb].
      rewrite !orb_false_r.
      destruct (Z.testbit (ec !!! hi z') (z' mod 32)),
        (Z.testbit (ec !!! hi z) (z mod 32)), (Nat.eqb w (hi z)),
        (Nat.eqb w (hi z')), (Nat.eqb w (hi z + planes)),
        (Nat.eqb w (hi z' + planes)), (z' mod 32 =? b), (z mod 32 =? b),
        (Z.testbit (ec !!! w) b); reflexivity.
    + destruct (Nat.eqb_spec (hi z) (hi z')); [lia|]. cbn [andb orb].
      rewrite !orb_false_r.
      destruct (Z.testbit (ec !!! hi z') (z' mod 32)),
        (Z.testbit (ec !!! hi z) (z mod 32)), (Nat.eqb w (hi z)),
        (Nat.eqb w (hi z')), (Nat.eqb w (hi z + planes)),
        (Nat.eqb w (hi z' + planes)), (z' mod 32 =? b), (z mod 32 =? b),
        (Z.testbit (ec !!! w) b); reflexivity.
Qed.

Lemma fold_Increase2bCounter_length (zs : list Z) (ec : list Z) :
  length (fold_left (Increase2bCounter ZBITS) zs ec) = length ec.
Proof.
  revert ec. induction zs as [|z zs IH]; intros ec; simpl; [reflexivity|].
  rewrite IH. apply Increase2bCounter_length.
Qed.

(** The counters after a run of increments depend only on the multiset of
    the values passed, from any starting state. *)
Lemma fold_Increase2bCounter_Permutation (zs zs' : list Z) :
  Permutation zs zs' ->
  forall ec : list Z,
    Forall (fun z => 0 <= z < NZ ZBITS) zs ->
    (planes + planes <= length ec)%nat ->
    fold_left (Increase2bCounter ZBITS) zs ec
    = fold_left (Increase2bCounter ZBITS) zs' ec.
Proof.
  induction 1 as [|z zs zs' Hp IH|z z' zs|zs1 zs2 zs3 Hp1 IH1 Hp2 IH2];
    intros ec Hall Hlen.
  - reflexivity.
  - simpl. apply IH.
    + inversion Hall; assumption.
    + rewrite Increase2bCounter_length. exact Hlen.
  - simpl. f_equal.
    inversion Hall as [|? ? Hz' Hall']; subst.
    inversion Hall' as [|? ? Hz Hall'']; subst.
    apply Increase2bCounter_swap; assumption.
  - rewrite IH1 by assumption. apply IH2; [|exact Hlen].
    eapply Permutation_Forall; eassumption.
Qed.

Lemma counter_index_inj (z z' : Z) :
  (z / 32 = z' / 32 /\ z mod 32 = z' mod 32) <-> z = z'.
Proof.
  split; [intros [Hd Hm]|intros ->; split; reflexivity].
  rewrite (Z.div_mod z 32), (Z.div_mod z' 32) by lia. rewrite Hd, Hm.
  reflexivity.
Qed.

(** The two bits of the counter of [z'] after one increment of [z]. *)
Lemma Increase2bCounter_planes (ec : list Z) (z z' : Z) :
  0 <= z < NZ ZBITS -> 0 <= z' < NZ ZBITS ->
  (planes + planes <= length ec)%nat ->
  Z.testbit (Increase2bCounter ZBITS ec z !!! hi z') (z' mod 32)
  = Z.testbit (ec !!! hi z') (z' mod 32) || (z' =? z)
  /\ Z.testbit (Increase2bCounter ZBITS ec z !!! (hi z' + planes)%nat) (z' mod 32)
    = Z.testbit (ec !!! (hi z' + planes)%nat) (z' mod 32)
      || ((z' =? z) && Z.testbit (ec !!! hi z) (z mod 32)).
Proof.
  intros Hz Hz' Hlen.
  pose proof (hi_lt_planes z Hz) as Hhi.
  pose proof (hi_lt_planes z' Hz') as Hhi'.
  pose proof (Z.mod_pos_bound z 32 ltac:(lia)) as Hm.
  pose proof (Z.mod_pos_bound z' 32 ltac:(lia)) as Hm'.
  assert (0 <= z / 32) by (apply Z.div_pos; lia).
  assert (0 <= z' / 32) by (apply Z.div_pos; lia).
  rewrite !Increase2bCounter_bits by first [assumption | lia].
  destruct (Nat.eqb_spec (hi z') (hi z + planes)); [lia|].
  destruct (Nat.eqb_spec (hi z' + planes) (hi z)); [lia|].
  cbn [andb orb]. rewrite !orb_false_r.
  destruct (Z.eqb_spec z' z) as [->|Hne].
  - rewrite !Nat.eqb_refl, Z.eqb_refl. split; reflexivity.
  - assert (Hb : Nat.eqb (hi z') (hi z) && (z mod 32 =? z' mod 32) = false).
    { apply andb_false_iff.
      destruct (Nat.eqb_spec (hi z') (hi z)) as [Eh|]; [right|left; reflexivity].
      apply Z.eqb_neq. intros Em. apply Hne. apply counter_index_inj.
      split; lia. }
    assert (Hb' : Nat.eqb (hi z' + planes) (hi z + planes)
                  && (z mod 32 =? z' mod 32) = false).
    { rewrite <- Hb. f_equal.
      destruct (Nat.eqb_spec (hi z') (hi z)), (Nat.eqb_spec (hi z' + planes) (hi z + planes));
        first [reflexivity | lia]. }
    rewrite Hb, Hb'. cbn [andb orb]. rewrite !orb_false_r. split; reflexivity.
Qed.

Lemma Read2bCounter_plane1 (ec : list Z) (z : Z) :
  0 <= z ->
  Read2bCounter ZBITS ec z = Z.testbit (ec !!! (hi z + planes)%nat) (z mod 32).
Proof.
  intros Hz. unfold Read2bCounter.
  pose proof (Z.mod_pos_bound z 32 ltac:(lia)) as Hm.
  destruct NZ_planes as [_ Hp].
  assert (0 <= z / 32) by (apply Z.div_pos; lia).
  rewrite counter_mask, shiftr_5, land_pow2_eqb by lia.
  rewrite negb_involutive.
  replace (Z.to_nat (z / 32 + NZ ZBITS / 32)) with (hi z + planes)%nat by lia.
  reflexivity.
Qed.

(** From zeroed counters, plane 0 of [z] says "seen" and plane 1 says "seen
    twice or more". *)
Lemma fold_Increase2bCounter_planes (zs : list Z) (z : Z) :
  Forall (fun z => 0 <= z < NZ ZBITS) zs -> 0 <= z < NZ ZBITS ->
  let ec := fold_left (Increase2bCounter ZBITS) zs
              (replicate (Z.to_nat (COUNTERWORDS ZBITS)) 0) in
  Z.testbit (ec !!! hi z) (z mod 32) = (1 <=? count_occ Z.eq_dec zs z)%nat
  /\ Z.testbit (ec !!! (hi z + planes)%nat) (z mod 32)
    = (2 <=? count_occ Z.eq_dec zs z)%nat.
Proof.
  intros Hall Hz. cbv zeta.
  pose proof (hi_lt_planes z Hz) as Hhi.
  induction zs as [|a zs IH] using rev_ind.
  - simpl. rewrite !lookup_total_replicate_2
      by (rewrite COUNTERWORDS_planes; lia).
    rewrite Z.bits_0. split; reflexivity.
  - apply Forall_app in Hall as [Hall Ha].
    inversion Ha as [|? ? Ha' _]; subst.
    destruct (IH Hall) as [IH0 IH1]. clear IH.
    rewrite fold_left_app. cbn [fold_left].
    set (ec := fold_left (Increase2bCounter ZBITS) zs _) in *.
    assert (Hlen : (planes + planes <= length ec)%nat).
    { subst ec. rewrite fold_Increase2bCounter_length, length_replicate.
      rewrite COUNTERWORDS_planes. lia. }
    destruct (Increase2bCounter_planes ec a z Ha' Hz Hlen) as [E0 E1].
    rewrite E0, E1, IH0, IH1.
    rewrite count_occ_app. cbn [count_occ].
    destruct (Z.eqb_spec z a) as [->|Hne].
    + destruct (Z.eq_dec a a) as [_|]; [|congruence].
      assert (Ha0 : Z.testbit (ec !!! hi a) (a mod 32)
                    = (1 <=? count_occ Z.eq_dec zs a)%nat) by exact IH0.
      rewrite Ha0.
      destruct (count_occ Z.eq_dec zs a) as [|[|c]]; split; reflexivity.
    + destruct (Z.eq_dec a z) as [|_]; [congruence|].
      rewrite Nat.add_0_r, !orb_false_r. split; reflexivity.
Qed.

End Counters.

(** C4: increments commute and saturate.  Whatever the order in which a
    multiset of Z-values is passed to Increase2bCounter, the counters end up
    the same (both planes), and afterwards Read2bCounter(z) holds exactly
    when z was passed at least twice. *)
Theorem Increase2bCounter_commutative_saturating (ZBITS : Z)
    (zs zs' : list Z) :
  5 <= ZBITS ->
  Forall (fun z => 0 <= z < NZ ZBITS) zs ->
  Permutation zs zs' ->
  let zero := replicate (Z.to_nat (COUNTERWORDS ZBITS)) 0 in
  fold_left (Increase2bCounter ZBITS) zs zero
  = fold_left (Increase2bCounter ZBITS) zs' zero
  /\ forall z : Z, 0 <= z < NZ ZBITS ->
       (Read2bCounter ZBITS (fold_left (Increase2bCounter ZBITS) zs' zero) z = true
        <-> (2 <= count_occ Z.eq_dec zs z)%nat).
Proof.
  intros HZ Hall Hperm zero.
  assert (Heq : fold_left (Increase2bCounter ZBITS) zs zero
                = fold_left (Increase2bCounter ZBITS) zs' zero).
  { apply fold_Increase2bCounter_Permutation; try assumption.
    subst zero. rewrite length_replicate, COUNTERWORDS_planes by assumption. lia. }
  split; [exact Heq|].
  intros z Hz. rewrite <- Heq.
  rewrite Read2bCounter_plane1 by lia.
  destruct (fold_Increase2bCounter_planes ZBITS HZ zs z Hall Hz) as [_ H1].
  subst zero. rewrite H1. apply Nat.leb_le.
Qed.

Lemma Increase2bCounter_commutative_saturating_witness :
  let zero := replicate (Z.to_nat (COUNTERWORDS 5)) 0 in
  fold_left (Increase2bCounter 5) [3; 7; 3] zero
  = fold_left (Increase2bCounter 5) [7; 3; 3] zero
  /\ forall z : Z, 0 <= z < NZ 5 ->
       (Read2bCounter 5 (fold_left (Increase2bCounter 5) [7; 3; 3] zero) z = true
        <-> (2 <= count_occ Z.eq_dec [3; 7; 3]%Z z)%nat).
Proof.
  apply (Increase2bCounter_commutative_saturating 5 [3; 7; 3] [7; 3; 3]).
  - lia.
  - repeat constructor; unfold NZ; lia.
  - apply perm_swap.
Defined.

(** ** Round *)

Lemma bind_Permutation_ext {A B : Type} (f g : A -> list B) (l : list A) :
  (forall a, a ∈ l -> f a ≡ₚ g a) -> l ≫= f ≡ₚ l ≫= g.
Proof.
  induction l as [|a l IH]; intros H; [reflexivity|].
  rewrite !bind_cons. apply Permutation_app.
  - apply H. left.
  - apply IH. intros a' Ha'. apply H. right. exact Ha'.
Qed.

Lemma fmap_bind_list {A B C : Type} (h : B -> C) (g : A -> list B) (l : list A) :
  h <$> (l ≫= g) = l ≫= (fun a => h <$> g a).
Proof.
  induction l as [|a l IH]; [reflexivity|].
  rewrite !bind_cons, fmap_app, IH. reflexivity.
Qed.

Lemma count_occ_fmap_filter {A : Type} (f : A -> Z) (l : list A) (z : Z) :
  count_occ Z.eq_dec (f <$> l) z = length (filter (fun a => f a = z) l).
Proof.
  induction l as [|a l IH]; [reflexivity|].
  rewrite fmap_cons. cbn [count_occ].
  destruct (Z.eq_dec (f a) z) as [E|N].
  - rewrite filter_cons_True by exact E. simpl. rewrite IH. reflexivity.
  - rewrite filter_cons_False by exact N. exact IH.
Qed.

Lemma list_filter_iff_in {A : Type} (P Q : A -> Prop)
    `{forall a, Decision (P a)} `{forall a, Decision (Q a)} (l : list A) :
  (forall a, a ∈ l -> P a <-> Q a) -> filter P l = filter Q l.
Proof.
  induction l as [|a l IH]; intros Hl; [reflexivity|].
  rewrite !filter_cons.
  rewrite IH by (intros a' Ha'; apply Hl; right; exact Ha').
  destruct (decide (P a)) as [Hp|Hp], (decide (Q a)) as [Hq|Hq];
    first [reflexivity | exfalso; apply (Hl a ltac:(left)) in Hp; tauto
          | exfalso; apply (Hl a ltac:(left)) in Hq; tauto].
Qed.

Section RoundTrim.

Variables XBITS YBITS ZBITS : Z.
Hypothesis HZ : 5 <= ZBITS.
Context {EdgeIn EdgeOut : Type} `{!Inhabited EdgeIn}.
Variable edge_in : EdgeType EdgeIn.
Variable make_Edge : EdgeIn -> Z -> Z -> EdgeOut.
Variables NP maxIn maxOut : Z.
Variable round : Z.
Variable sipkeys : siphash_keys.
Variable src : list EdgeIn.
Variable srcIds : list Z.
Variables (dim group : Z).
Hypothesis Hdim : 0 < dim.

Local Abbreviation counted := (Round_counted edge_in round sipkeys).
Local Abbreviation zbits e := (Z.land (counted e) (ZMASK ZBITS)).
Local Abbreviation bucket :=
  (Round_bucket XBITS YBITS NP maxIn src srcIds group).
Local Abbreviation live :=
  (Round_live XBITS YBITS edge_in NP maxIn src srcIds group).
Local Abbreviation fill i :=
  (Z.min (srcIds !!! Z.to_nat (i * NX2 XBITS YBITS + group)) maxIn).
Local Abbreviation slot i :=
  (fun lindex : Z =>
     src !!! Z.to_nat (i * (NX2 XBITS YBITS * maxIn) + (maxIn * group + lindex))).

(** The edges thread [lid] reads, in the order it reads them. *)
Local Abbreviation thread_edges lid :=
  (seqZ 0 NP ≫= (fun i => slot i <$> thread_indices dim (fill i) lid)).

Lemma Round_thread_fold {S : Type} (G : EdgeIn -> S -> S) (lid : Z) (s : S) :
  for_range NP (fun i s =>
    let edgesInBucket := fill i in
    let loops := (edgesInBucket + dim - 1) / dim in
    for_range loops (fun loop s =>
      let lindex := loop * dim + lid in
      if lindex <? edgesInBucket then
        let index := maxIn * group + lindex in
        let edge := src !!! Z.to_nat (i * (NX2 XBITS YBITS * maxIn) + index) in
        G edge s
      else s) s) s
  = fold_left (fun s e => G e s) (thread_edges lid) s.
Proof.
  unfold for_range at 1. rewrite <- fold_left_bind.
  apply fold_left_ext_in. intros s' i _. cbv zeta.
  rewrite (for_range_strided dim (fill i) lid (fun lindex s => G (slot i lindex) s)).
  rewrite <- (fold_left_fmap (slot i) (fun s e => G e s)). reflexivity.
Qed.

Lemma thread_edges_Permutation :
  seqZ 0 dim ≫= (fun lid => thread_edges lid) ≡ₚ bucket.
Proof.
  rewrite bind_swap_Permutation. unfold Round_bucket.
  apply bind_Permutation_ext. intros i _. cbv zeta.
  rewrite <- fmap_bind_list. apply fmap_Permutation.
  apply thread_indices_Permutation. exact Hdim.
Qed.

Lemma zbits_range (e : EdgeIn) : 0 <= zbits e < NZ ZBITS.
Proof.
  unfold ZMASK, NZ. replace (2 ^ ZBITS - 1) with (Z.ones ZBITS)
    by (rewrite Z.ones_equiv; lia).
  rewrite Z.land_ones by lia. apply Z.mod_pos_bound.
  apply Z.pow_pos_nonneg; lia.
Qed.

(** The first pass leaves the counters of the Z-bits of the live edges. *)
Lemma Round_count_fold (ec : list Z) :
  for_range dim
    (Round_count XBITS YBITS ZBITS edge_in NP maxIn round sipkeys src srcIds
       dim group) ec
  = fold_left (Increase2bCounter ZBITS)
      ((fun e => zbits e)
         <$> filter (fun e => null edge_in e = false)
               (seqZ 0 dim ≫= (fun lid => thread_edges lid))) ec.
Proof.
  unfold for_range at 1.
  rewrite (fold_left_ext_in _
             (fun ec lid =>
                fold_left (fun ec e => if null edge_in e then ec
                                       else Increase2bCounter ZBITS ec (zbits e))
                  (thread_edges lid) ec)).
  2:{ intros ec' lid _. unfold Round_count.
      apply (Round_thread_fold
               (fun e ec => if null edge_in e then ec
                            else Increase2bCounter ZBITS ec (zbits e))). }
  rewrite fold_left_bind.
  rewrite <- fold_left_fmap.
  rewrite (list_filter_iff (fun e => null edge_in e = false)
             (fun e => negb (null edge_in e) = true)).
  2:{ intros e. destruct (null edge_in e); simpl; split; congruence. }
  rewrite <- (fold_left_guard (fun e => negb (null edge_in e))
                (fun ec e => Increase2bCounter ZBITS ec (zbits e))).
  apply fold_left_ext_in. intros ec' e _.
  destruct (null edge_in e); reflexivity.
Qed.

(** The second pass stores the live edges whose counter reads two or more. *)
Lemma Round_emit_fold (ec : list Z) (out : list EdgeOut * list Z) :
  for_range dim
    (Round_emit XBITS YBITS ZBITS edge_in make_Edge NP maxIn maxOut round
       sipkeys src srcIds dim group ec) out
  = fold_left
      (fun out e =>
         Round_store ZBITS edge_in make_Edge maxOut round sipkeys e (counted e) out)
      (filter (fun e => Read2bCounter ZBITS ec (zbits e) = true)
         (filter (fun e => null edge_in e = false)
            (seqZ 0 dim ≫= (fun lid => thread_edges lid)))) out.
Proof.
  unfold for_range at 1.
  rewrite (fold_left_ext_in _
             (fun out lid =>
                fold_left
                  (fun out e =>
                     if null edge_in e then out
                     else if Read2bCounter ZBITS ec (zbits e)
                          then Round_store ZBITS edge_in make_Edge maxOut round
                                 sipkeys e (counted e) out
                          else out)
                  (thread_edges lid) out)).
  2:{ intros out' lid _. unfold Round_emit.
      apply (Round_thread_fold
               (fun e out =>
                  if null edge_in e then out
                  else if Read2bCounter ZBITS ec (zbits e)
                       then Round_store ZBITS edge_in make_Edge maxOut round
                              sipkeys e (counted e) out
                       else out)). }
  rewrite fold_left_bind.
  rewrite <- fold_left_guard.
  rewrite (list_filter_iff (fun e => null edge_in e = false)
             (fun e => negb (null edge_in e) = true)).
  2:{ intros e. destruct (null edge_in e); simpl; split; congruence. }
  rewrite <- (fold_left_guard (fun e => negb (null edge_in e))
                (fun out e =>
                   if Read2bCounter ZBITS ec (zbits e)
                   then Round_store ZBITS edge_in make_Edge maxOut round
                          sipkeys e (counted e) out
                   else out)).
  apply fold_left_ext_in. intros out' e _.
  destruct (null edge_in e); reflexivity.
Qed.

(** What the counters say after the first pass: the counter of the Z-bits
    of [e] reads true exactly when two live edges or more share them. *)
Lemma Round_count_reads (e : EdgeIn) :
  let ec :=
    for_range dim
      (Round_count XBITS YBITS ZBITS edge_in NP maxIn round sipkeys src srcIds
         dim group) (replicate (Z.to_nat (COUNTERWORDS ZBITS)) 0) in
  Read2bCounter ZBITS ec (zbits e) = true
  <-> (2 <= length (filter (fun e' => zbits e' = zbits e) live))%nat.
Proof.
  cbv zeta. rewrite Round_count_fold.
  set (sched := seqZ 0 dim ≫= (fun lid => thread_edges lid)).
  set (lives := filter (fun e => null edge_in e = false) sched).
  assert (Hperm : lives ≡ₚ live).
  { subst lives. unfold Round_live. apply filter_Permutation.
    apply thread_edges_Permutation. }
  pose proof (zbits_range e) as Hr.
  rewrite Read2bCounter_plane1 by first [exact HZ | lia].
  assert (Hall : Forall (fun z => 0 <= z < NZ ZBITS) ((fun e => zbits e) <$> lives)).
  { apply Forall_fmap. apply Forall_forall. intros e' _. apply zbits_range. }
  destruct (fold_Increase2bCounter_planes ZBITS HZ _ (zbits e) Hall Hr) as [_ H1].
  rewrite H1. rewrite Nat.leb_le.
  rewrite (count_occ_fmap_filter (fun e => zbits e) lives (zbits e)).
  rewrite (Permutation_length
             (filter_Permutation (fun e' => zbits e' = zbits e) _ _ Hperm)).
  reflexivity.
Qed.

Lemma routed_zbits (bucket_id : Z) (e e' : EdgeIn) :
  Z.shiftr (counted e) ZBITS = bucket_id ->
  Z.shiftr (counted e') ZBITS = bucket_id ->
  (zbits e' = zbits e <-> counted e' = counted e).
Proof.
  intros He He'. split; [|intros ->; reflexivity].
  unfold ZMASK, NZ. replace (2 ^ ZBITS - 1) with (Z.ones ZBITS)
    by (rewrite Z.ones_equiv; lia).
  rewrite !Z.land_ones by lia. intros Hm.
  rewrite Z.shiftr_div_pow2 in He, He' by lia.
  rewrite (Z.div_mod (counted e') (2 ^ ZBITS)), (Z.div_mod (counted e) (2 ^ ZBITS))
    by (apply Z.pow_nonzero; lia).
  rewrite He, He', Hm. reflexivity.
Qed.

(** C3: in every round and for every bucket of the grid (a bucket holds only
    edges whose counted endpoint selects it), the edges a block of the Round
    kernel stores are exactly the live, non-null edges of its bucket whose
    counted endpoint (u on even rounds, v on odd ones) occurs at least twice
    among them; an edge whose counted endpoint occurs once is dropped. *)
Theorem Round_keeps_degree_two (bucket_id : Z) (out : list EdgeOut * list Z) :
  (forall e, e ∈ live -> Z.shiftr (counted e) ZBITS = bucket_id) ->
  let occ := fun e => length (filter (fun e' => counted e' = counted e) live) in
  exists emitted : list EdgeIn,
    Round_block XBITS YBITS ZBITS edge_in make_Edge NP maxIn maxOut round
      sipkeys src srcIds dim group out
    = fold_left
        (fun out e =>
           Round_store ZBITS edge_in make_Edge maxOut round sipkeys e
             (counted e) out) emitted out
    /\ emitted ≡ₚ filter (fun e => (2 <= occ e)%nat) live
    /\ (forall e, e ∈ emitted -> e ∈ live /\ (2 <= occ e)%nat)
    /\ (forall e, e ∈ live -> occ e = 1%nat -> e ∉ emitted).
Proof.
  intros Hrouted occ.
  set (zero := replicate (Z.to_nat (COUNTERWORDS ZBITS)) 0).
  set (ec := for_range dim
               (Round_count XBITS YBITS ZBITS edge_in NP maxIn round sipkeys
                  src srcIds dim group) zero).
  set (sched := seqZ 0 dim ≫= (fun lid => thread_edges lid)).
  set (lives := filter (fun e => null edge_in e = false) sched).
  assert (Hperm : lives ≡ₚ live).
  { subst lives. unfold Round_live. apply filter_Permutation.
    apply thread_edges_Permutation. }
  exists (filter (fun e => Read2bCounter ZBITS ec (zbits e) = true) lives).
  assert (Hem : filter (fun e => Read2bCounter ZBITS ec (zbits e) = true) lives
                ≡ₚ filter (fun e => (2 <= occ e)%nat) live).
  { rewrite (filter_Permutation _ _ _ Hperm).
    erewrite (list_filter_iff_in _ (fun e => (2 <= occ e)%nat)); [reflexivity|].
    intros e He. subst ec zero. rewrite Round_count_reads. subst occ. cbv beta.
    erewrite (list_filter_iff_in (fun e' => zbits e' = zbits e)
                (fun e' => counted e' = counted e)); [reflexivity|].
    intros e' He'. apply (routed_zbits bucket_id); apply Hrouted; assumption. }
  split; [|split; [exact Hem|split]].
  - unfold Round_block. fold zero. fold ec. apply Round_emit_fold.
  - intros e He. rewrite Hem in He.
    apply list_elem_of_filter in He. tauto.
  - intros e He Hocc Hin. rewrite Hem in Hin.
    apply list_elem_of_filter in Hin. lia.
Qed.

End RoundTrim.

Lemma Round_keeps_degree_two_witness :
  let src := [make_uint2 1 40; make_uint2 1 70; make_uint2 2 33; make_uint2 0 0] in
  let live := Round_live 1 1 uint2_edge 1 4 src [4; 0; 0; 0] 0 in
  let counted := Round_counted uint2_edge 0 (mk_keys 0 0 0 0) in
  let occ := fun e => length (filter (fun e' => counted e' = counted e) live) in
  exists emitted : list uint2,
    Round_block 1 1 5 uint2_edge make_Edge_uint2_uint2 1 4 4 0 (mk_keys 0 0 0 0)
      src [4; 0; 0; 0] 2 0 (replicate 16 (make_uint2 0 0), replicate 4 0)
    = fold_left
        (fun out e =>
           Round_store 5 uint2_edge make_Edge_uint2_uint2 4 0 (mk_keys 0 0 0 0)
             e (counted e) out)
        emitted (replicate 16 (make_uint2 0 0), replicate 4 0)
    /\ emitted ≡ₚ filter (fun e => (2 <= occ e)%nat) live
    /\ (forall e, e ∈ emitted -> e ∈ live /\ (2 <= occ e)%nat)
    /\ (forall e, e ∈ live -> occ e = 1%nat -> e ∉ emitted).
Proof.
  apply (Round_keeps_degree_two 1 1 5 ltac:(lia) uint2_edge
           make_Edge_uint2_uint2 1 4 4 0 (mk_keys 0 0 0 0)
           [make_uint2 1 40; make_uint2 1 70; make_uint2 2 33; make_uint2 0 0]
           [4; 0; 0; 0] 2 0 ltac:(lia) 0).
  intros e He. vm_compute in He.
  repeat (apply elem_of_cons in He; destruct He as [->|He]; [reflexivity|]).
  inversion He.
Defined.

(** ** Counting loops *)

Lemma for_range_nonpos {S : Type} (n : Z) (body : Z -> S -> S) (s : S) :
  n <= 0 -> for_range n body s = s.
Proof. intros Hn. unfold for_range. rewrite seqZ_nil by exact Hn. reflexivity. Qed.

Lemma for_range_succ {S : Type} (n : Z) (body : Z -> S -> S) (s : S) :
  0 <= n -> for_range (n + 1) body s = body n (for_range n body s).
Proof.
  intros Hn. unfold for_range.
  rewrite seqZ_app by lia. rewrite fold_left_app.
  rewrite (seqZ_cons (0 + n) 1) by lia. rewrite seqZ_nil by lia.
  simpl. reflexivity.
Qed.

(** An invariant of the body is an invariant of the loop. *)
Lemma for_range_invariant {S : Type} (P : S -> Prop) (n : Z)
    (body : Z -> S -> S) (s : S) :
  P s -> (forall i s, 0 <= i < n -> P s -> P (body i s)) ->
  P (for_range n body s).
Proof.
  intros Hs Hstep. destruct (Z_le_gt_dec n 0) as [Hn|Hn].
  - rewrite for_range_nonpos by exact Hn. exact Hs.
  - assert (Hgen : forall m, 0 <= m -> m <= n -> P (for_range m body s)).
    { apply (natlike_ind (fun m => m <= n -> P (for_range m body s))).
      - intros _. rewrite for_range_nonpos by lia. exact Hs.
      - intros m Hm IH Hle. unfold Z.succ. rewrite for_range_succ by exact Hm.
        apply Hstep; [lia|]. apply IH. lia. }
    apply Hgen; lia.
Qed.

(** What iteration [i0] establishes, and every later iteration keeps, holds
    after the loop; [I] is an invariant all iterations may rely on. *)
Lemma for_range_establish {S : Type} (I Q : S -> Prop) (n i0 : Z)
    (body : Z -> S -> S) (s : S) :
  0 <= i0 < n -> I s ->
  (forall i s, 0 <= i < n -> I s -> I (body i s)) ->
  (forall s, I s -> Q (body i0 s)) ->
  (forall i s, i0 < i < n -> I s -> Q s -> Q (body i s)) ->
  Q (for_range n body s).
Proof.
  intros Hi0 Hs Hinv Hest Hkeep.
  assert (HI : forall m, m <= n -> I (for_range m body s)).
  { intros m Hm. apply for_range_invariant; [exact Hs|].
    intros i s' Hi. apply Hinv. lia. }
  assert (Hgen : forall m, 0 <= m -> i0 < i0 + 1 + m <= n ->
                           Q (for_range (i0 + 1 + m) body s)).
  { apply (natlike_ind (fun m => i0 < i0 + 1 + m <= n ->
                                 Q (for_range (i0 + 1 + m) body s))).
    - intros _. rewrite Z.add_0_r. rewrite for_range_succ by lia.
      apply Hest. apply HI. lia.
    - intros m Hm IH Hle. replace (i0 + 1 + Z.succ m) with (i0 + 1 + m + 1) by lia.
      rewrite for_range_succ by lia. apply Hkeep; [lia| |].
      + apply HI. lia.
      + apply IH. lia. }
  replace n with (i0 + 1 + (n - i0 - 1)) by lia. apply Hgen; lia.
Qed.

Lemma for_range_ext {S : Type} (n : Z) (f g : Z -> S -> S) (s : S) :
  (forall i s, 0 <= i < n -> f i s = g i s) ->
  for_range n f s = for_range n g s.
Proof.
  intros H. unfold for_range. apply fold_left_ext_in.
  intros s' i Hi. apply elem_of_seqZ in Hi. apply H. lia.
Qed.

(** A loop that stores [val q] at index [q] whenever [c q] holds. *)
Lemma for_range_update (n : Z) (c : Z -> bool) (val : Z -> Z) (l : list Z) :
  length (for_range n (fun q l => if c q then <[Z.to_nat q := val q]> l else l) l)
  = length l
  /\ forall p : Z, 0 <= p -> (Z.to_nat p < length l)%nat ->
       for_range n (fun q l => if c q then <[Z.to_nat q := val q]> l else l) l
         !!! Z.to_nat p
       = if (p <? n) && c p then val p else l !!! Z.to_nat p.
Proof.
  destruct (Z_le_gt_dec n 0) as [Hn|Hn].
  { rewrite for_range_nonpos by exact Hn. split; [reflexivity|].
    intros p Hp _. destruct (Z.ltb_spec p n); [lia|]. reflexivity. }
  assert (0 <= n) as Hn0 by lia. clear Hn. revert n Hn0.
  apply (natlike_ind (fun n =>
    length (for_range n (fun q l => if c q then <[Z.to_nat q := val q]> l else l) l)
    = length l
    /\ forall p : Z, 0 <= p -> (Z.to_nat p < length l)%nat ->
       for_range n (fun q l => if c q then <[Z.to_nat q := val q]> l else l) l
         !!! Z.to_nat p
       = if (p <? n) && c p then val p else l !!! Z.to_nat p)).
  - rewrite for_range_nonpos by lia. split; [reflexivity|].
    intros p Hp _. destruct (Z.ltb_spec p 0); [lia|]. reflexivity.
  - intros n Hn [IHlen IH]. unfold Z.succ. rewrite for_range_succ by exact Hn.
    set (r := for_range n _ l) in *.
    split.
    + destruct (c n); [rewrite length_insert|]; exact IHlen.
    + intros p Hp Hlt. specialize (IH p Hp Hlt).
      destruct (Z.eq_dec p n) as [->|Hne].
      * destruct (Z.ltb_spec n (n + 1)); [|lia]. simpl.
        destruct (c n) eqn:Hc.
        -- rewrite list_lookup_total_insert_eq by lia. reflexivity.
        -- rewrite IH. destruct (Z.ltb_spec n n); [lia|]. reflexivity.
      * assert (Hq : (if c n then <[Z.to_nat n := val n]> r else r) !!! Z.to_nat p
                     = r !!! Z.to_nat p).
        { destruct (c n); [|reflexivity].
          apply list_lookup_total_insert_ne. lia. }
        rewrite Hq, IH.
        destruct (Z.ltb_spec p n), (Z.ltb_spec p (n + 1)); first [reflexivity | lia].
Qed.

(** ** Recovery *)

Lemma record_nonce_lookup (recoveredges : list uint2) (u v nonce : Z)
    (nonces : list Z) :
  length (record_nonce recoveredges u v nonce nonces) = length nonces
  /\ forall p : Z, 0 <= p < PROOFSIZE -> (Z.to_nat PROOFSIZE <= length nonces)%nat ->
       record_nonce recoveredges u v nonce nonces !!! Z.to_nat p
       = if (uint2_x (recoveredges !!! Z.to_nat p) =? u)
            && (uint2_y (recoveredges !!! Z.to_nat p) =? v)
         then u32 nonce else nonces !!! Z.to_nat p.
Proof.
  unfold record_nonce.
  destruct (for_range_update PROOFSIZE
              (fun q => (uint2_x (recoveredges !!! Z.to_nat q) =? u)
                        && (uint2_y (recoveredges !!! Z.to_nat q) =? v))
              (fun _ => u32 nonce) nonces) as [Hlen Hlook].
  split; [exact Hlen|].
  intros p Hp Hl. rewrite Hlook by lia.
  destruct (Z.ltb_spec p PROOFSIZE); [reflexivity|lia].
Qed.

Lemma zero_nonces_lookup (dim : Z) (shared : list Z) :
  length (zero_nonces dim shared) = length shared
  /\ forall p : Z, 0 <= p < PROOFSIZE -> PROOFSIZE <= dim ->
       (Z.to_nat PROOFSIZE <= length shared)%nat ->
       zero_nonces dim shared !!! Z.to_nat p = 0.
Proof.
  unfold zero_nonces.
  destruct (for_range_update dim (fun q => q <? PROOFSIZE) (fun _ => 0) shared)
    as [Hlen Hlook].
  split; [exact Hlen|].
  intros p Hp Hdim Hl. rewrite Hlook by lia.
  destruct (Z.ltb_spec p dim); [|lia].
  destruct (Z.ltb_spec p PROOFSIZE); [reflexivity|lia].
Qed.

Lemma report_nonces_lookup (dim : Z) (nonces indexes : list Z) :
  length (report_nonces dim nonces indexes) = length indexes
  /\ forall p : Z, 0 <= p < PROOFSIZE -> PROOFSIZE <= dim ->
       (Z.to_nat PROOFSIZE <= length indexes)%nat ->
       report_nonces dim nonces indexes !!! Z.to_nat p
       = if 0 <? nonces !!! Z.to_nat p then nonces !!! Z.to_nat p
         else indexes !!! Z.to_nat p.
Proof.
  unfold report_nonces.
  rewrite (for_range_ext dim _
             (fun q l => if (q <? PROOFSIZE) && (0 <? nonces !!! Z.to_nat q)
                         then <[Z.to_nat q := nonces !!! Z.to_nat q]> l else l)).
  2:{ intros i l _. destruct (i <? PROOFSIZE), (0 <? nonces !!! Z.to_nat i);
        reflexivity. }
  destruct (for_range_update dim
              (fun q => (q <? PROOFSIZE) && (0 <? nonces !!! Z.to_nat q))
              (fun q => nonces !!! Z.to_nat q) indexes) as [Hlen Hlook].
  split; [exact Hlen|].
  intros p Hp Hdim Hl. rewrite Hlook by lia.
  destruct (Z.ltb_spec p dim); [|lia].
  destruct (Z.ltb_spec p PROOFSIZE); [reflexivity|lia].
Qed.

Lemma NEDGES_u32 (EDGEBITS : Z) :
  0 <= EDGEBITS <= 32 -> 0 < NEDGES EDGEBITS <= 2 ^ 32.
Proof.
  intros HE. unfold NEDGES. split; [apply Z.pow_pos_nonneg; lia|].
  apply Z.pow_le_mono_r; lia.
Qed.

(** Both kernels have the same frame around the scan of a thread: this is a
    block and a launch for any scan. *)
Section RecoveryFrame.

Variable EDGEBITS : Z.
Variable E : Z -> Z * Z.
Variable recoveredges : list uint2.
Variable thread_scan : Z -> list Z -> list Z.
Variables (dim blocks : Z) (shared : list Z).

Local Abbreviation loops := (NEDGES EDGEBITS / (dim * blocks)).
Local Abbreviation pair p := (recoveredges !!! Z.to_nat p).

Local Abbreviation scan_block group :=
  (for_range dim (fun lid nonces => thread_scan (dim * group + lid) nonces)
     (zero_nonces dim shared)).
Local Abbreviation frame_block :=
  (fun group indexes => report_nonces dim (scan_block group) indexes).

Hypothesis HE : 0 <= EDGEBITS <= 32.
Hypothesis Hblocks : 0 < blocks.
Hypothesis Hdim : PROOFSIZE <= dim.
Hypothesis Hgeom : dim * blocks * loops = NEDGES EDGEBITS.
Hypothesis Hshared : (Z.to_nat PROOFSIZE <= length shared)%nat.
Hypothesis scan_spec : forall gid nonces,
  0 <= gid < dim * blocks ->
  thread_scan gid nonces
  = for_range loops (fun i nonces =>
      let n := gid * loops + i in
      record_nonce recoveredges (fst (E n)) (snd (E n)) n nonces) nonces.

(** A recorded value: a nonce above zero whose edge is the expected pair. *)
Local Abbreviation found p v :=
  (0 < v < NEDGES EDGEBITS /\ edge_matches (pair p) (E v)).

Lemma loops_pos : 0 < loops.
Proof. pose proof (NEDGES_u32 EDGEBITS HE). unfold PROOFSIZE in Hdim. nia. Qed.

Lemma scanned_nonce_range (gid i : Z) :
  0 <= gid < dim * blocks -> 0 <= i < loops ->
  0 <= gid * loops + i < NEDGES EDGEBITS.
Proof. intros Hg Hi. pose proof loops_pos. nia. Qed.

Lemma record_step (p gid i : Z) (nonces : list Z) :
  0 <= p < PROOFSIZE -> (Z.to_nat PROOFSIZE <= length nonces)%nat ->
  0 <= gid < dim * blocks -> 0 <= i < loops ->
  let n := gid * loops + i in
  record_nonce recoveredges (fst (E n)) (snd (E n)) n nonces !!! Z.to_nat p
  = nonces !!! Z.to_nat p
  \/ (record_nonce recoveredges (fst (E n)) (snd (E n)) n nonces !!! Z.to_nat p = n
      /\ edge_matches (pair p) (E n)).
Proof.
  intros Hp Hlen Hg Hi n.
  destruct (record_nonce_lookup recoveredges (fst (E n)) (snd (E n)) n nonces)
    as [_ Hlook].
  rewrite Hlook by assumption.
  destruct (Z.eqb_spec (uint2_x (pair p)) (fst (E n))) as [Ex|]; [|left; reflexivity].
  destruct (Z.eqb_spec (uint2_y (pair p)) (snd (E n))) as [Ey|]; [|left; reflexivity].
  right. split; [|split; assumption].
  apply u32_small. pose proof (scanned_nonce_range gid i Hg Hi).
  pose proof (NEDGES_u32 EDGEBITS HE). subst n. lia.
Qed.

Lemma record_step_match (p gid i : Z) (nonces : list Z) :
  0 <= p < PROOFSIZE -> (Z.to_nat PROOFSIZE <= length nonces)%nat ->
  0 <= gid < dim * blocks -> 0 <= i < loops ->
  let n := gid * loops + i in
  edge_matches (pair p) (E n) ->
  record_nonce recoveredges (fst (E n)) (snd (E n)) n nonces !!! Z.to_nat p = n.
Proof.
  intros Hp Hlen Hg Hi n [Ex Ey].
  destruct (record_nonce_lookup recoveredges (fst (E n)) (snd (E n)) n nonces)
    as [_ Hlook].
  rewrite Hlook by assumption.
  rewrite Ex, Ey, !Z.eqb_refl. simpl.
  apply u32_small. pose proof (scanned_nonce_range gid i Hg Hi).
  pose proof (NEDGES_u32 EDGEBITS HE). subst n. lia.
Qed.

Lemma thread_scan_length (gid : Z) (nonces : list Z) :
  0 <= gid < dim * blocks ->
  length (thread_scan gid nonces) = length nonces.
Proof.
  intros Hg. rewrite scan_spec by exact Hg.
  apply (for_range_invariant (fun s => length s = length nonces));
    [reflexivity|].
  intros i s _ Hs. cbv zeta.
  destruct (record_nonce_lookup recoveredges (fst (E (gid * loops + i)))
              (snd (E (gid * loops + i))) (gid * loops + i) s) as [Hl _].
  rewrite Hl. exact Hs.
Qed.

(** Every slot of the shared array is zero or a found nonce, all through the
    scan of a block. *)
Lemma scan_block_sound (group : Z) :
  0 <= group < blocks ->
  length (scan_block group) = length shared
  /\ forall p, 0 <= p < PROOFSIZE ->
       scan_block group !!! Z.to_nat p = 0
       \/ found p (scan_block group !!! Z.to_nat p).
Proof.
  intros Hgroup.
  apply (for_range_invariant
           (fun s => length s = length shared
                     /\ forall p, 0 <= p < PROOFSIZE ->
                          s !!! Z.to_nat p = 0 \/ found p (s !!! Z.to_nat p))).
  - destruct (zero_nonces_lookup dim shared) as [Hl Hz].
    split; [exact Hl|]. intros p Hp. left. apply Hz; assumption.
  - intros lid s Hlid Hs.
    assert (Hg : 0 <= dim * group + lid < dim * blocks) by nia.
    rewrite scan_spec by exact Hg.
    apply (for_range_invariant
             (fun s => length s = length shared
                       /\ forall p, 0 <= p < PROOFSIZE ->
                            s !!! Z.to_nat p = 0 \/ found p (s !!! Z.to_nat p)));
      [exact Hs|].
    intros i s' Hi [Hl' Hs']. cbv zeta.
    destruct (record_nonce_lookup recoveredges
                (fst (E ((dim * group + lid) * loops + i)))
                (snd (E ((dim * group + lid) * loops + i)))
                ((dim * group + lid) * loops + i) s') as [Hl'' _].
    split; [lia|]. intros p Hp.
    destruct (record_step p (dim * group + lid) i s' Hp ltac:(lia) Hg Hi)
      as [Hsame|[Hnew Hm]].
    + rewrite Hsame. apply Hs'. exact Hp.
    + rewrite Hnew.
      pose proof (scanned_nonce_range (dim * group + lid) i Hg Hi) as Hr.
      destruct (Z.eq_dec ((dim * group + lid) * loops + i) 0) as [E0|N0].
      * left. exact E0.
      * right. split; [lia|exact Hm].
Qed.

(** A matching nonce above zero that the block scans is still found, or
    replaced by another found one, when the scan ends. *)
Lemma scan_block_complete (group p n : Z) :
  0 <= group < blocks -> 0 <= p < PROOFSIZE ->
  0 < n -> dim * group * loops <= n < dim * (group + 1) * loops ->
  edge_matches (pair p) (E n) ->
  found p (scan_block group !!! Z.to_nat p).
Proof.
  intros Hgroup Hp Hn Hin Hm.
  pose proof loops_pos as Hlp.
  set (gid := n / loops). set (i0 := n mod loops).
  pose proof (Z.div_mod n loops ltac:(lia)) as Hdm.
  pose proof (Z.mod_pos_bound n loops Hlp) as Hi0.
  fold gid i0 in Hdm, Hi0.
  assert (Hgid : dim * group <= gid < dim * (group + 1)).
  { subst gid. split.
    - apply Z.div_le_lower_bound; lia.
    - apply Z.div_lt_upper_bound; lia. }
  set (lid0 := gid - dim * group).
  apply (for_range_establish
           (fun s => length s = length shared)
           (fun s => found p (s !!! Z.to_nat p)) dim lid0).
  - subst lid0. lia.
  - apply zero_nonces_lookup.
  - intros lid s Hlid Hs. rewrite thread_scan_length by nia. exact Hs.
  - intros s Hs.
    assert (Hg : 0 <= dim * group + lid0 < dim * blocks) by (subst lid0; nia).
    rewrite scan_spec by exact Hg.
    apply (for_range_establish
             (fun s => length s = length shared)
             (fun s => found p (s !!! Z.to_nat p)) loops i0).
    + exact Hi0.
    + exact Hs.
    + intros i s' Hi Hs'. cbv zeta.
      destruct (record_nonce_lookup recoveredges
                  (fst (E ((dim * group + lid0) * loops + i)))
                  (snd (E ((dim * group + lid0) * loops + i)))
                  ((dim * group + lid0) * loops + i) s') as [Hl'' _].
      lia.
    + intros s' Hs'. cbv zeta.
      assert (En : (dim * group + lid0) * loops + i0 = n) by (subst lid0; lia).
      rewrite En.
      pose proof (record_step_match p (dim * group + lid0) i0 s' Hp ltac:(lia)
                    Hg Hi0) as Hrec.
      cbv zeta in Hrec. rewrite En in Hrec. rewrite (Hrec Hm).
      split; [|exact Hm].
      pose proof (scanned_nonce_range (dim * group + lid0) i0 Hg Hi0). lia.
    + intros i s' Hi Hs' Hq. cbv zeta.
      destruct (record_step p (dim * group + lid0) i s' Hp ltac:(lia) Hg
                  ltac:(lia)) as [Hsame|[Hnew Hm']].
      * rewrite Hsame. exact Hq.
      * rewrite Hnew. split; [|exact Hm'].
        pose proof (scanned_nonce_range (dim * group + lid0) i Hg ltac:(lia)).
        subst lid0. nia.
  - intros lid s Hlid Hs Hq.
    assert (Hg : 0 <= dim * group + lid < dim * blocks) by nia.
    rewrite scan_spec by exact Hg.
    apply (for_range_invariant
             (fun s => length s = length shared
                       /\ found p (s !!! Z.to_nat p))); [split; assumption|].
    intros i s' Hi [Hl' Hq']. cbv zeta.
    destruct (record_nonce_lookup recoveredges
                (fst (E ((dim * group + lid) * loops + i)))
                (snd (E ((dim * group + lid) * loops + i)))
                ((dim * group + lid) * loops + i) s') as [Hl'' _].
    split; [lia|].
    destruct (record_step p (dim * group + lid) i s' Hp ltac:(lia) Hg Hi)
      as [Hsame|[Hnew Hm']].
    + rewrite Hsame. exact Hq'.
    + rewrite Hnew. split; [|exact Hm'].
      pose proof (scanned_nonce_range (dim * group + lid) i Hg Hi).
      subst lid0. nia.
Qed.

(** The launch: every slot keeps its prior value or holds a found nonce. *)
Lemma frame_sound (indexes : list Z) :
  (Z.to_nat PROOFSIZE <= length indexes)%nat ->
  length (for_range blocks frame_block indexes) = length indexes
  /\ forall p, 0 <= p < PROOFSIZE ->
       for_range blocks frame_block indexes !!! Z.to_nat p
       = indexes !!! Z.to_nat p
       \/ found p (for_range blocks frame_block indexes !!! Z.to_nat p).
Proof.
  intros Hlen.
  apply (for_range_invariant
           (fun s => length s = length indexes
                     /\ forall p, 0 <= p < PROOFSIZE ->
                          s !!! Z.to_nat p = indexes !!! Z.to_nat p
                          \/ found p (s !!! Z.to_nat p))).
  - split; [reflexivity|]. intros p _. left. reflexivity.
  - intros group s Hgroup [Hl Hs].
    destruct (report_nonces_lookup dim (scan_block group) s) as [Hl' Hlook].
    split; [lia|]. intros p Hp. rewrite Hlook by first [assumption|lia].
    destruct (scan_block_sound group Hgroup) as [_ Hsound].
    destruct (Z.ltb_spec 0 (scan_block group !!! Z.to_nat p)) as [Hpos|Hz].
    + right. destruct (Hsound p Hp) as [H0|Hf]; [lia|exact Hf].
    + apply Hs. exact Hp.
Qed.

(** The launch: a slot matched by a nonce above zero holds a found nonce. *)
Lemma frame_complete (indexes : list Z) (p n : Z) :
  (Z.to_nat PROOFSIZE <= length indexes)%nat ->
  0 <= p < PROOFSIZE -> 0 < n < NEDGES EDGEBITS ->
  edge_matches (pair p) (E n) ->
  found p (for_range blocks frame_block indexes !!! Z.to_nat p).
Proof.
  intros Hlen Hp Hn Hm.
  pose proof loops_pos as Hlp.
  assert (Hdpos : 0 < dim) by (unfold PROOFSIZE in Hdim; lia).
  set (g0 := n / (dim * loops)).
  assert (Hg0 : 0 <= g0 < blocks
                /\ dim * g0 * loops <= n < dim * (g0 + 1) * loops).
  { pose proof (Z.div_mod n (dim * loops) ltac:(nia)) as Hdm.
    pose proof (Z.mod_pos_bound n (dim * loops) ltac:(nia)) as Hmod.
    fold g0 in Hdm.
    assert (0 <= g0) by (apply Z.div_pos; nia).
    assert (g0 < blocks).
    { apply Z.div_lt_upper_bound; [nia|]. nia. }
    split; [lia|]. nia. }
  destruct Hg0 as [Hg0 Hin].
  apply (for_range_establish
           (fun s => length s = length indexes)
           (fun s => found p (s !!! Z.to_nat p)) blocks g0).
  - exact Hg0.
  - reflexivity.
  - intros group s _ Hs.
    destruct (report_nonces_lookup dim (scan_block group) s) as [Hl' _]. lia.
  - intros s Hs.
    destruct (report_nonces_lookup dim (scan_block g0) s) as [_ Hlook].
    rewrite Hlook by first [assumption|lia].
    pose proof (scan_block_complete g0 p n Hg0 Hp ltac:(lia) Hin Hm) as Hf.
    destruct (Z.ltb_spec 0 (scan_block g0 !!! Z.to_nat p)); [exact Hf|lia].
  - intros group s Hgroup Hs Hq.
    destruct (report_nonces_lookup dim (scan_block group) s) as [_ Hlook].
    rewrite Hlook by first [assumption|lia].
    destruct (scan_block_sound group ltac:(lia)) as [_ Hsound].
    destruct (Z.ltb_spec 0 (scan_block group !!! Z.to_nat p)) as [Hpos|Hz];
      [|exact Hq].
    destruct (Hsound p Hp) as [H0|Hf]; [lia|exact Hf].
Qed.

(** What the claims on recovery say, for any scan that meets [scan_spec]. *)
Lemma frame_recovers (indexes : list Z) (p : Z) :
  (Z.to_nat PROOFSIZE <= length indexes)%nat ->
  0 <= p < PROOFSIZE ->
  indexes !!! Z.to_nat p = 0 ->
  let out := for_range blocks frame_block indexes !!! Z.to_nat p in
  ((exists n, 0 <= n < NEDGES EDGEBITS /\ edge_matches (pair p) (E n)) ->
   0 <= out < NEDGES EDGEBITS /\ edge_matches (pair p) (E out))
  /\ ((forall n, 0 <= n < NEDGES EDGEBITS -> ~ edge_matches (pair p) (E n)) ->
      out = 0).
Proof.
  intros Hlen Hp Hzero out.
  destruct (frame_sound indexes Hlen) as [_ Hsound].
  specialize (Hsound p Hp). fold out in Hsound.
  split.
  - intros (n & Hn & Hm).
    destruct Hsound as [Hsame|[Hr Hf]]; [|split; [lia|exact Hf]].
    destruct (Z.eq_dec n 0) as [->|Hn0].
    + rewrite Hsame, Hzero. pose proof (NEDGES_u32 EDGEBITS HE). split; [lia|exact Hm].
    + destruct (frame_complete indexes p n Hlen Hp ltac:(lia) Hm) as [Hr Hf].
      fold out in Hr, Hf. split; [lia|exact Hf].
  - intros Hnone. destruct Hsound as [Hsame|[Hr Hf]].
    + rewrite Hsame. exact Hzero.
    + exfalso. apply (Hnone out); [lia|exact Hf].
Qed.

Lemma frame_skips_zero (indexes : list Z) (p : Z) :
  (Z.to_nat PROOFSIZE <= length indexes)%nat ->
  0 <= p < PROOFSIZE ->
  let out := for_range blocks frame_block indexes !!! Z.to_nat p in
  (out <> indexes !!! Z.to_nat p -> 0 < out)
  /\ ((forall n, 0 < n < NEDGES EDGEBITS -> ~ edge_matches (pair p) (E n)) ->
      out = indexes !!! Z.to_nat p).
Proof.
  intros Hlen Hp out.
  destruct (frame_sound indexes Hlen) as [_ Hsound].
  specialize (Hsound p Hp). fold out in Hsound.
  split.
  - intros Hne. destruct Hsound as [Hsame|[Hr _]]; [contradiction|lia].
  - intros Hnone. destruct Hsound as [Hsame|[Hr Hf]]; [exact Hsame|].
    exfalso. apply (Hnone out); [lia|exact Hf].
Qed.

End RecoveryFrame.

Lemma for_range_add {S : Type} (a b : Z) (F : Z -> S -> S) (s : S) :
  0 <= a -> 0 <= b ->
  for_range (a + b) F s = for_range b (fun i s => F (a + i) s) (for_range a F s).
Proof.
  intros Ha Hb. revert b Hb.
  apply (natlike_ind (fun b => for_range (a + b) F s
                               = for_range b (fun i s => F (a + i) s)
                                   (for_range a F s))).
  - rewrite Z.add_0_r. rewrite (for_range_nonpos 0) by lia. reflexivity.
  - intros b Hb IH. unfold Z.succ.
    rewrite Z.add_assoc, !for_range_succ by lia. rewrite IH. reflexivity.
Qed.

(** A loop in blocks of [w] is the loop over all the indices. *)
Lemma for_range_blocks {S : Type} (w m : Z) (F : Z -> S -> S) (s : S) :
  0 <= w -> 0 <= m ->
  for_range (w * m) F s
  = for_range m (fun k s => for_range w (fun i s => F (k * w + i) s) s) s.
Proof.
  intros Hw Hm. revert m Hm.
  apply (natlike_ind (fun m => for_range (w * m) F s
           = for_range m (fun k s => for_range w (fun i s => F (k * w + i) s) s) s)).
  - rewrite Z.mul_0_r, !for_range_nonpos by lia. reflexivity.
  - intros m Hm IH. unfold Z.succ.
    rewrite for_range_succ by lia. rewrite <- IH.
    replace (w * (m + 1)) with (w * m + w) by lia.
    rewrite for_range_add by nia.
    apply for_range_ext. intros i s' _. f_equal. lia.
Qed.

Section RecoveryKernels.

Variable SIPROUND : lanes -> lanes.
Variable EDGEBITS : Z.
Variable sipkeys : siphash_keys.
Variable recoveredges : list uint2.
Variables (shared buf0 : list Z) (blocks tpb : Z).

Local Abbreviation loops := (NEDGES EDGEBITS / (tpb * blocks)).

Lemma dipblock_same_block (n n' : Z) (buf : list Z) :
  Z.land (u32 n) (Z.lnot EDGE_BLOCK_MASK) = Z.land (u32 n') (Z.lnot EDGE_BLOCK_MASK) ->
  dipblock SIPROUND sipkeys n buf = dipblock SIPROUND sipkeys n' buf.
Proof. intros H. unfold dipblock. rewrite H. reflexivity. Qed.

(** With whole blocks of 64 nonces per thread, the scan of a thread of
    Cuckaroo_Recovery records every nonce of its range with its own edge. *)
Lemma Cuckaroo_scan_spec (gid : Z) (nonces : list Z) :
  0 <= EDGEBITS <= 32 -> 0 < loops -> loops mod EDGE_BLOCK_SIZE = 0 ->
  0 <= gid -> (gid + 1) * loops <= NEDGES EDGEBITS ->
  for_range ((loops + EDGE_BLOCK_SIZE - 1) / EDGE_BLOCK_SIZE)
    (fun k nonces =>
      let blk := k * EDGE_BLOCK_SIZE in
      let nonce0 := u32 (gid * loops + blk) in
      let '(last, buf) := dipblock SIPROUND sipkeys nonce0 buf0 in
      for_range EDGE_BLOCK_SIZE (fun i nonces =>
        let edge := Z.lxor (buf !!! Z.to_nat i) last in
        let u := u32 (Z.land edge (EDGEMASK EDGEBITS)) in
        let v := u32 (Z.land (Z.shiftr edge 32) (EDGEMASK EDGEBITS)) in
        record_nonce recoveredges u v (nonce0 + i) nonces) nonces) nonces
  = for_range loops (fun i nonces =>
      let n := gid * loops + i in
      record_nonce recoveredges
        (fst (cuckaroo_edge SIPROUND EDGEBITS sipkeys buf0 n))
        (snd (cuckaroo_edge SIPROUND EDGEBITS sipkeys buf0 n)) n nonces) nonces.
Proof.
  intros HE Hl Hmod Hgid Hfit.
  assert (HN : NEDGES EDGEBITS <= 2 ^ 32)
    by (unfold NEDGES; apply Z.pow_le_mono_r; lia).
  unfold EDGE_BLOCK_SIZE in *.
  pose proof (Z.div_mod loops 64 ltac:(lia)) as Hdm. rewrite Hmod in Hdm.
  set (m := loops / 64) in *.
  assert (Hm : 0 < m) by lia.
  replace ((loops + 64 - 1) / 64) with m.
  2:{ apply (Z.div_unique _ 64 m 63); lia. }
  match goal with |- _ = for_range _ ?G _ =>
    replace (for_range loops G nonces) with (for_range (64 * m) G nonces)
      by (f_equal; lia)
  end.
  rewrite for_range_blocks by lia.
  apply for_range_ext. intros k s Hk. cbv zeta.
  assert (Hal : gid * loops + k * 64 = 64 * (gid * m + k)) by lia.
  rewrite (u32_small (gid * loops + k * 64)) by nia.
  destruct (dipblock SIPROUND sipkeys (gid * loops + k * 64) buf0)
    as [last buf] eqn:Hblock.
  apply for_range_ext. intros i s' Hi.
  replace (gid * loops + (k * 64 + i)) with (gid * loops + k * 64 + i) by lia.
  set (n := gid * loops + k * 64 + i).
  assert (Hn : 0 <= n < 2 ^ 32) by (subst n; nia).
  assert (Hdiv : n / 64 = gid * m + k).
  { symmetry. apply (Z.div_unique n 64 (gid * m + k) i); subst n; lia. }
  assert (Hrem : n mod 64 = i).
  { symmetry. apply (Z.mod_unique n 64 (gid * m + k) i); subst n; lia. }
  assert (Hword : cuckaroo_word SIPROUND sipkeys buf0 n
                  = Z.lxor (buf !!! Z.to_nat i) last).
  { unfold cuckaroo_word.
    rewrite (dipblock_same_block n (gid * loops + k * 64) buf0).
    2:{ rewrite !u32_small by nia. rewrite !land_lnot_block_mask by nia.
        rewrite Hdiv, Hal. rewrite Z.mul_comm, Z.div_mul by lia. lia. }
    rewrite Hblock. unfold block_edge.
    rewrite (u32_small n) by lia. rewrite land_block_mask, Hrem. reflexivity. }
  unfold cuckaroo_edge, edge_nodes. rewrite Hword. reflexivity.
Qed.

Hypothesis HE : 0 <= EDGEBITS <= 32.
Hypothesis Hblocks : 0 < blocks.
Hypothesis Htpb : PROOFSIZE <= tpb.
Hypothesis Hgeom : tpb * blocks * loops = NEDGES EDGEBITS.
Hypothesis Hshared : (Z.to_nat PROOFSIZE <= length shared)%nat.

Local Abbreviation pair p := (recoveredges !!! Z.to_nat p).
Local Abbreviation cuckoo n := (cuckoo_edge SIPROUND EDGEBITS sipkeys n).
Local Abbreviation cuckaroo n := (cuckaroo_edge SIPROUND EDGEBITS sipkeys buf0 n).

Lemma Cuckoo_Recovery_recovers (indexes : list Z) (p : Z) :
  (Z.to_nat PROOFSIZE <= length indexes)%nat ->
  0 <= p < PROOFSIZE ->
  indexes !!! Z.to_nat p = 0 ->
  let out := Cuckoo_Recovery SIPROUND EDGEBITS sipkeys recoveredges shared
               blocks tpb indexes !!! Z.to_nat p in
  ((exists n, 0 <= n < NEDGES EDGEBITS /\ edge_matches (pair p) (cuckoo n)) ->
   0 <= out < NEDGES EDGEBITS /\ edge_matches (pair p) (cuckoo out))
  /\ ((forall n, 0 <= n < NEDGES EDGEBITS -> ~ edge_matches (pair p) (cuckoo n)) ->
      out = 0).
Proof.
  intros Hlen Hp Hzero. unfold Cuckoo_Recovery, Cuckoo_Recovery_block.
  apply (frame_recovers EDGEBITS (fun n => cuckoo n) recoveredges
           (fun gid nonces =>
              for_range loops (fun i nonces =>
                let nonce := gid * loops + i in
                let u := dipnode SIPROUND EDGEBITS sipkeys nonce 0 in
                let v := dipnode SIPROUND EDGEBITS sipkeys nonce 1 in
                record_nonce recoveredges u v nonce nonces) nonces)
           tpb blocks shared HE Hblocks Htpb Hgeom Hshared);
    try assumption.
  intros gid nonces _. reflexivity.
Qed.

Lemma Cuckoo_Recovery_skips_zero (indexes : list Z) (p : Z) :
  (Z.to_nat PROOFSIZE <= length indexes)%nat ->
  0 <= p < PROOFSIZE ->
  let out := Cuckoo_Recovery SIPROUND EDGEBITS sipkeys recoveredges shared
               blocks tpb indexes !!! Z.to_nat p in
  (out <> indexes !!! Z.to_nat p -> 0 < out)
  /\ ((forall n, 0 < n < NEDGES EDGEBITS -> ~ edge_matches (pair p) (cuckoo n)) ->
      out = indexes !!! Z.to_nat p).
Proof.
  intros Hlen Hp. unfold Cuckoo_Recovery, Cuckoo_Recovery_block.
  apply (frame_skips_zero EDGEBITS (fun n => cuckoo n) recoveredges
           (fun gid nonces =>
              for_range loops (fun i nonces =>
                let nonce := gid * loops + i in
                let u := dipnode SIPROUND EDGEBITS sipkeys nonce 0 in
                let v := dipnode SIPROUND EDGEBITS sipkeys nonce 1 in
                record_nonce recoveredges u v nonce nonces) nonces)
           tpb blocks shared HE Hblocks Htpb Hgeom Hshared);
    try assumption.
  intros gid nonces _. reflexivity.
Qed.

Hypothesis Hwhole : loops mod EDGE_BLOCK_SIZE = 0.

Lemma Cuckaroo_scan_frame (gid : Z) (nonces : list Z) :
  0 <= gid < tpb * blocks ->
  for_range ((loops + EDGE_BLOCK_SIZE - 1) / EDGE_BLOCK_SIZE)
    (fun k nonces =>
      let blk := k * EDGE_BLOCK_SIZE in
      let nonce0 := u32 (gid * loops + blk) in
      let '(last, buf) := dipblock SIPROUND sipkeys nonce0 buf0 in
      for_range EDGE_BLOCK_SIZE (fun i nonces =>
        let edge := Z.lxor (buf !!! Z.to_nat i) last in
        let u := u32 (Z.land edge (EDGEMASK EDGEBITS)) in
        let v := u32 (Z.land (Z.shiftr edge 32) (EDGEMASK EDGEBITS)) in
        record_nonce recoveredges u v (nonce0 + i) nonces) nonces) nonces
  = for_range loops (fun i nonces =>
      let n := gid * loops + i in
      record_nonce recoveredges (fst (cuckaroo n)) (snd (cuckaroo n)) n nonces)
      nonces.
Proof.
  intros Hgid.
  assert (Hl : 0 < loops).
  { pose proof (NEDGES_u32 EDGEBITS HE). unfold PROOFSIZE in Htpb. nia. }
  apply Cuckaroo_scan_spec; try assumption; [lia|nia].
Qed.

Lemma Cuckaroo_Recovery_recovers (indexes : list Z) (p : Z) :
  (Z.to_nat PROOFSIZE <= length indexes)%nat ->
  0 <= p < PROOFSIZE ->
  indexes !!! Z.to_nat p = 0 ->
  let out := Cuckaroo_Recovery SIPROUND EDGEBITS sipkeys recoveredges shared
               buf0 blocks tpb indexes !!! Z.to_nat p in
  ((exists n, 0 <= n < NEDGES EDGEBITS /\ edge_matches (pair p) (cuckaroo n)) ->
   0 <= out < NEDGES EDGEBITS /\ edge_matches (pair p) (cuckaroo out))
  /\ ((forall n, 0 <= n < NEDGES EDGEBITS -> ~ edge_matches (pair p) (cuckaroo n)) ->
      out = 0).
Proof.
  intros Hlen Hp Hzero. unfold Cuckaroo_Recovery, Cuckaroo_Recovery_block.
  apply (frame_recovers EDGEBITS (fun n => cuckaroo n) recoveredges _
           tpb blocks shared HE Hblocks Htpb Hgeom Hshared Cuckaroo_scan_frame);
    assumption.
Qed.

Lemma Cuckaroo_Recovery_skips_zero (indexes : list Z) (p : Z) :
  (Z.to_nat PROOFSIZE <= length indexes)%nat ->
  0 <= p < PROOFSIZE ->
  let out := Cuckaroo_Recovery SIPROUND EDGEBITS sipkeys recoveredges shared
               buf0 blocks tpb indexes !!! Z.to_nat p in
  (out <> indexes !!! Z.to_nat p -> 0 < out)
  /\ ((forall n, 0 < n < NEDGES EDGEBITS -> ~ edge_matches (pair p) (cuckaroo n)) ->
      out = indexes !!! Z.to_nat p).
Proof.
  intros Hlen Hp. unfold Cuckaroo_Recovery, Cuckaroo_Recovery_block.
  apply (frame_skips_zero EDGEBITS (fun n => cuckaroo n) recoveredges _
           tpb blocks shared HE Hblocks Htpb Hgeom Hshared Cuckaroo_scan_frame);
    assumption.
Qed.

End RecoveryKernels.

(** C8: for every expected endpoint pair that some nonce below NEDGES has as
    its edge (as all 42 pairs of a valid cycle do), the recovery kernel of
    the active mode leaves in the slot of the pair a nonce whose edge,
    re-hashed, is that pair; a slot that no nonce matches remains zero.  The
    launch gives every thread its share of the nonces (the thread count
    divides NEDGES, in whole blocks of 64 for Cuckaroo), has a thread per
    slot, and starts from zeroed slots. *)
Theorem recovery_finds_matching_nonces (SIPROUND : lanes -> lanes)
    (EDGEBITS : Z) (sipkeys : siphash_keys) (recoveredges : list uint2)
    (shared buf0 : list Z) (blocks tpb : Z) (indexes : list Z) (p : Z) :
  0 <= EDGEBITS <= 32 -> 0 < blocks -> PROOFSIZE <= tpb ->
  tpb * blocks * (NEDGES EDGEBITS / (tpb * blocks)) = NEDGES EDGEBITS ->
  (Z.to_nat PROOFSIZE <= length shared)%nat ->
  (Z.to_nat PROOFSIZE <= length indexes)%nat ->
  0 <= p < PROOFSIZE ->
  indexes !!! Z.to_nat p = 0 ->
  recovered EDGEBITS (cuckoo_edge SIPROUND EDGEBITS sipkeys)
    (recoveredges !!! Z.to_nat p)
    (Cuckoo_Recovery SIPROUND EDGEBITS sipkeys recoveredges shared blocks tpb
       indexes !!! Z.to_nat p)
  /\ ((NEDGES EDGEBITS / (tpb * blocks)) mod EDGE_BLOCK_SIZE = 0 ->
      recovered EDGEBITS (cuckaroo_edge SIPROUND EDGEBITS sipkeys buf0)
        (recoveredges !!! Z.to_nat p)
        (Cuckaroo_Recovery SIPROUND EDGEBITS sipkeys recoveredges shared buf0
           blocks tpb indexes !!! Z.to_nat p)).
Proof.
  intros HE Hblocks Htpb Hgeom Hshared Hlen Hp Hzero. split.
  - apply Cuckoo_Recovery_recovers; assumption.
  - intros Hwhole. apply Cuckaroo_Recovery_recovers; assumption.
Qed.

Lemma recovery_finds_matching_nonces_witness :
  recovered 12 (cuckoo_edge sipround 12 (mk_keys 1 2 3 4))
    (replicate 42 (make_uint2 1 2) !!! Z.to_nat 0)
    (Cuckoo_Recovery sipround 12 (mk_keys 1 2 3 4)
       (replicate 42 (make_uint2 1 2)) (replicate 42 0) 1 64 (replicate 42 0)
       !!! Z.to_nat 0)
  /\ ((NEDGES 12 / (64 * 1)) mod EDGE_BLOCK_SIZE = 0 ->
      recovered 12 (cuckaroo_edge sipround 12 (mk_keys 1 2 3 4) (replicate 64 0))
        (replicate 42 (make_uint2 1 2) !!! Z.to_nat 0)
        (Cuckaroo_Recovery sipround 12 (mk_keys 1 2 3 4)
           (replicate 42 (make_uint2 1 2)) (replicate 42 0) (replicate 64 0)
           1 64 (replicate 42 0) !!! Z.to_nat 0)).
Proof.
  apply (recovery_finds_matching_nonces sipround 12 (mk_keys 1 2 3 4)
           (replicate 42 (make_uint2 1 2)) (replicate 42 0) (replicate 64 0)
           1 64 (replicate 42 0) 0).
  - lia.
  - lia.
  - unfold PROOFSIZE. lia.
  - reflexivity.
  - rewrite length_replicate. unfold PROOFSIZE. lia.
  - rewrite length_replicate. unfold PROOFSIZE. lia.
  - unfold PROOFSIZE. lia.
  - reflexivity.
Defined.

(** C10: both recovery kernels write a slot only with a recorded nonce above
    zero; so a pair whose only matching nonce is 0 (none above zero has its
    edge) leaves its slot at the prior value, though a matching edge
    exists. *)
Theorem recovery_never_reports_nonce_zero (SIPROUND : lanes -> lanes)
    (EDGEBITS : Z) (sipkeys : siphash_keys) (recoveredges : list uint2)
    (shared buf0 : list Z) (blocks tpb : Z) (indexes : list Z) (p : Z) :
  0 <= EDGEBITS <= 32 -> 0 < blocks -> PROOFSIZE <= tpb ->
  tpb * blocks * (NEDGES EDGEBITS / (tpb * blocks)) = NEDGES EDGEBITS ->
  (Z.to_nat PROOFSIZE <= length shared)%nat ->
  (Z.to_nat PROOFSIZE <= length indexes)%nat ->
  0 <= p < PROOFSIZE ->
  zero_skipped EDGEBITS (cuckoo_edge SIPROUND EDGEBITS sipkeys)
    (recoveredges !!! Z.to_nat p) (indexes !!! Z.to_nat p)
    (Cuckoo_Recovery SIPROUND EDGEBITS sipkeys recoveredges shared blocks tpb
       indexes !!! Z.to_nat p)
  /\ ((NEDGES EDGEBITS / (tpb * blocks)) mod EDGE_BLOCK_SIZE = 0 ->
      zero_skipped EDGEBITS (cuckaroo_edge SIPROUND EDGEBITS sipkeys buf0)
        (recoveredges !!! Z.to_nat p) (indexes !!! Z.to_nat p)
        (Cuckaroo_Recovery SIPROUND EDGEBITS sipkeys recoveredges shared buf0
           blocks tpb indexes !!! Z.to_nat p)).
Proof.
  intros HE Hblocks Htpb Hgeom Hshared Hlen Hp. split.
  - apply Cuckoo_Recovery_skips_zero; assumption.
  - intros Hwhole. apply Cuckaroo_Recovery_skips_zero; assumption.
Qed.

Lemma recovery_never_reports_nonce_zero_witness :
  zero_skipped 12 (cuckoo_edge sipround 12 (mk_keys 1 2 3 4))
    (replicate 42 (make_uint2 1 2) !!! Z.to_nat 0)
    (replicate 42 0 !!! Z.to_nat 0)
    (Cuckoo_Recovery sipround 12 (mk_keys 1 2 3 4)
       (replicate 42 (make_uint2 1 2)) (replicate 42 0) 1 64 (replicate 42 0)
       !!! Z.to_nat 0)
  /\ ((NEDGES 12 / (64 * 1)) mod EDGE_BLOCK_SIZE = 0 ->
      zero_skipped 12 (cuckaroo_edge sipround 12 (mk_keys 1 2 3 4) (replicate 64 0))
        (replicate 42 (make_uint2 1 2) !!! Z.to_nat 0)
        (replicate 42 0 !!! Z.to_nat 0)
        (Cuckaroo_Recovery sipround 12 (mk_keys 1 2 3 4)
           (replicate 42 (make_uint2 1 2)) (replicate 42 0) (replicate 64 0)
           1 64 (replicate 42 0) !!! Z.to_nat 0)).
Proof.
  apply (recovery_never_reports_nonce_zero sipround 12 (mk_keys 1 2 3 4)
           (replicate 42 (make_uint2 1 2)) (replicate 42 0) (replicate 64 0)
           1 64 (replicate 42 0) 0).
  - lia.
  - lia.
  - unfold PROOFSIZE. lia.
  - reflexivity.
  - rewrite length_replicate. unfold PROOFSIZE. lia.
  - rewrite length_replicate. unfold PROOFSIZE. lia.
  - unfold PROOFSIZE. lia.
Defined.

(** ** Tail *)

(** C7 on the source as written: the loop of Tail runs over [i] but indexes
    both arrays with [lid], and the block reserves the raw counter of its
    bucket.  A bucket of three edges read by a block of two threads has
    only its first two edges copied (the third reserved slot keeps what it
    held); and a bucket whose counter ran past its capacity of two has the
    first edge of the next bucket copied with it, and counted. *)
Theorem Tail_copies_by_thread_index :
  Tail 4 1 2
    [make_uint2 1 40; make_uint2 1 70; make_uint2 2 33; make_uint2 0 0]
    (replicate 4 (make_uint2 9 9)) [3] [0]
  = ([make_uint2 1 40; make_uint2 1 70; make_uint2 9 9; make_uint2 9 9], [3])
  /\ Tail 2 2 4
       [make_uint2 1 40; make_uint2 1 70; make_uint2 2 33; make_uint2 2 34]
       (replicate 6 (make_uint2 9 9)) [3; 2] [0]
     = ([make_uint2 1 40; make_uint2 1 70; make_uint2 2 33; make_uint2 2 33;
         make_uint2 2 34; make_uint2 9 9], [5]).
Proof. split; vm_compute; reflexivity. Qed.

(** ** Staging tiles *)

Lemma insert_lookup_total_cases {A : Type} `{!Inhabited A} (l : list A)
    (i j : nat) (x : A) :
  <[i := x]> l !!! j = l !!! j \/ (j = i /\ <[i := x]> l !!! j = x).
Proof.
  rewrite list_lookup_total_insert. destruct (decide (i = j /\ (i < length l)%nat)) as [[-> _]|_].
  - right. split; reflexivity.
  - left. reflexivity.
Qed.

Lemma NX_pos (XBITS : Z) : 0 <= XBITS -> 0 < NX XBITS.
Proof. intros HX. unfold NX. apply Z.pow_pos_nonneg; lia. Qed.

Lemma u32_nonneg (x : Z) : 0 <= u32 x.
Proof. apply u32_range. Qed.

Lemma u32_le (x : Z) : 0 <= x -> u32 x <= x.
Proof. intros Hx. unfold u32. apply Z.mod_le; lia. Qed.

Section TileInvariant.

Context {E : Type} `{!Inhabited E}.
Variables XBITS FLUSH maxOut : Z.
Variable bucket_of : Z -> Z.
Variable G : Z -> E -> Prop.
Variable Q : nat -> E -> Prop.

Hypothesis HX : 0 <= XBITS.
Hypothesis HF : 0 < FLUSH.
Hypothesis Hcap : 2 * FLUSH <= maxOut.
Hypothesis Hbucket : forall key, 0 <= key < NX XBITS -> 0 <= bucket_of key.
Hypothesis HGQ : forall key e (j : nat),
  0 <= key < NX XBITS -> G key e ->
  bucket_of key * maxOut <= Z.of_nat j < (bucket_of key + 1) * maxOut ->
  Q j e.

Local Abbreviation tile_ok := (tile_ok XBITS FLUSH G Q).

Lemma tile_insert_ok (key : Z) (edge : E) (st : seeding) :
  0 <= key < NX XBITS -> G key edge -> tile_ok st ->
  tile_ok (snd (tile_insert FLUSH key edge st)).
Proof using HX HF Hcap Hbucket HGQ.
  intros Hkey Hg (Htmp & Hcnt & Hrow & Hgood & Hpos & Hbuf & Hidx).
  unfold tile_insert, atomicAdd. cbn [fst snd].
  set (old := tile_counters st !!! Z.to_nat key).
  set (counter := Z.min old (2 * FLUSH - 1)).
  assert (Hold : 0 <= old) by apply Hpos.
  unfold tile_ok. cbn [tile_tmp tile_counters out_buffer out_indexes].
  rewrite !length_insert.
  split; [exact Htmp|]. split; [exact Hcnt|].
  split; [|split; [|split; [|split; assumption]]].
  - intros key' Hkey'. destruct (Z.eq_dec key' key) as [->|Hne].
    + rewrite list_lookup_total_insert_eq by lia. rewrite length_insert.
      apply Hrow. exact Hkey.
    + rewrite list_lookup_total_insert_ne by lia. apply Hrow. exact Hkey'.
  - intros key' i Hkey' Hi. destruct (Z.eq_dec key' key) as [->|Hne].
    + rewrite (list_lookup_total_insert_eq (tile_counters st)) in Hi by lia.
      rewrite (list_lookup_total_insert_eq (tile_tmp st)) by lia.
      pose proof (u32_le (old + 1) ltac:(lia)) as Hle.
      rewrite list_lookup_total_insert.
      destruct (decide (Z.to_nat counter = Z.to_nat i
                        /\ (Z.to_nat counter < length (tile_tmp st !!! Z.to_nat key))%nat))
        as [_|Hn]; [exact Hg|].
      apply Hgood; [exact Hkey|]. fold old.
      rewrite (Hrow key Hkey) in Hn. subst counter. lia.
    + rewrite (list_lookup_total_insert_ne (tile_counters st)) in Hi by lia.
      rewrite (list_lookup_total_insert_ne (tile_tmp st)) by lia.
      apply Hgood; assumption.
  - intros key'. destruct (insert_lookup_total_cases (tile_counters st)
                             (Z.to_nat key) key' (u32 (old + 1))) as [->|[_ ->]].
    + apply Hpos.
    + apply u32_nonneg.
Qed.

(** Copying the head of a tile row into the slots reserved in its bucket
    keeps the buffer as it should be. *)
Lemma tile_copy_ok (key cnt n : Z) (row buffer : list E) :
  0 <= key < NX XBITS -> 0 <= cnt -> cnt + n <= maxOut ->
  (forall i, 0 <= i < n -> G key (row !!! Z.to_nat i)) ->
  (forall j : nat, Q j (buffer !!! j)) ->
  forall j : nat,
    Q j (for_range n (fun i buffer =>
           <[Z.to_nat (bucket_of key * maxOut + cnt + i) := row !!! Z.to_nat i]>
             buffer) buffer !!! j).
Proof using HX HF Hcap Hbucket HGQ.
  intros Hkey Hcnt Hfit Hrow Hbuf.
  apply (for_range_invariant (fun b => forall j : nat, Q j (b !!! j)));
    [exact Hbuf|].
  intros i b Hi Hb j.
  pose proof (Hbucket key Hkey) as Hbk.
  destruct (insert_lookup_total_cases b
              (Z.to_nat (bucket_of key * maxOut + cnt + i)) j
              (row !!! Z.to_nat i)) as [->|[-> ->]]; [apply Hb|].
  apply (HGQ key); [exact Hkey|apply Hrow; exact Hi|].
  rewrite Z2Nat.id by nia. nia.
Qed.

Lemma atomicAdd_nonneg (mem : list Z) (addr val : Z) :
  (forall b : nat, 0 <= mem !!! b) ->
  forall b : nat, 0 <= snd (atomicAdd mem addr val) !!! b.
Proof using HX HF Hcap Hbucket HGQ.
  intros Hmem b. unfold atomicAdd. cbn [snd].
  destruct (insert_lookup_total_cases mem (Z.to_nat addr) b
              (u32 (mem !!! Z.to_nat addr + val))) as [->|[_ ->]].
  - apply Hmem.
  - apply u32_nonneg.
Qed.

Lemma tile_drain_ok (key : Z) (st : seeding) :
  0 <= key < NX XBITS -> tile_ok st ->
  tile_ok (tile_drain FLUSH maxOut key (bucket_of key) st).
Proof using HX HF Hcap Hbucket HGQ.
  intros Hkey (Htmp & Hcnt & Hrow & Hgood & Hpos & Hbuf & Hidx).
  unfold tile_drain.
  set (localIdx := Z.min (2 * FLUSH) (tile_counters st !!! Z.to_nat key)).
  destruct (atomicAdd (out_indexes st) (bucket_of key) localIdx)
    as [old indexes] eqn:Hadd.
  assert (Hold : 0 <= old).
  { replace old with (fst (atomicAdd (out_indexes st) (bucket_of key) localIdx))
      by (rewrite Hadd; reflexivity).
    unfold atomicAdd. cbn [fst]. apply Hidx. }
  assert (Hloc : 0 <= localIdx <= 2 * FLUSH).
  { subst localIdx. pose proof (Hpos (Z.to_nat key)). lia. }
  unfold tile_ok. cbn [tile_tmp tile_counters out_buffer out_indexes].
  repeat (split; [assumption|]). split.
  - apply tile_copy_ok; try assumption; try lia.
    intros i Hi. apply Hgood; [exact Hkey|]. subst localIdx. lia.
  - replace indexes with (snd (atomicAdd (out_indexes st) (bucket_of key) localIdx))
      by (rewrite Hadd; reflexivity).
    apply atomicAdd_nonneg. exact Hidx.
Qed.

Lemma tile_flush_ok (key : Z) (st : seeding) :
  0 <= key < NX XBITS -> tile_ok st ->
  tile_ok (tile_flush FLUSH maxOut key (bucket_of key) st).
Proof using HX HF Hcap Hbucket HGQ.
  intros Hkey (Htmp & Hcnt & Hrow & Hgood & Hpos & Hbuf & Hidx).
  unfold tile_flush.
  set (localIdx := Z.min (2 * FLUSH) (tile_counters st !!! Z.to_nat key)).
  set (newCount := Z.rem localIdx FLUSH).
  set (nflush := localIdx - newCount).
  destruct (atomicAdd (out_indexes st) (bucket_of key) nflush)
    as [old indexes] eqn:Hadd.
  assert (Hold : 0 <= old).
  { replace old with (fst (atomicAdd (out_indexes st) (bucket_of key) nflush))
      by (rewrite Hadd; reflexivity).
    unfold atomicAdd. cbn [fst]. apply Hidx. }
  assert (Hloc : 0 <= localIdx <= 2 * FLUSH).
  { subst localIdx. pose proof (Hpos (Z.to_nat key)). lia. }
  assert (Hnew : 0 <= newCount <= localIdx /\ newCount < FLUSH).
  { subst newCount. pose proof (Z.rem_bound_pos localIdx FLUSH ltac:(lia) HF).
    pose proof (Z.rem_le localIdx FLUSH ltac:(lia) HF). lia. }
  set (moved :=
         for_range newCount (fun t tmp =>
           let row := tmp !!! Z.to_nat key in
           <[Z.to_nat key := <[Z.to_nat t := row !!! Z.to_nat (t + nflush)]> row]> tmp)
           (tile_tmp st)).
  assert (Hmoved :
    length moved = Z.to_nat (NX XBITS)
    /\ (forall key', 0 <= key' < NX XBITS ->
          length (moved !!! Z.to_nat key') = Z.to_nat (2 * FLUSH))
    /\ (forall key', 0 <= key' < NX XBITS -> key' <> key ->
          moved !!! Z.to_nat key' = tile_tmp st !!! Z.to_nat key')
    /\ (forall i, 0 <= i < localIdx ->
          G key ((moved !!! Z.to_nat key) !!! Z.to_nat i))).
  { subst moved.
    apply (for_range_invariant
             (fun tmp =>
                length tmp = Z.to_nat (NX XBITS)
                /\ (forall key', 0 <= key' < NX XBITS ->
                      length (tmp !!! Z.to_nat key') = Z.to_nat (2 * FLUSH))
                /\ (forall key', 0 <= key' < NX XBITS -> key' <> key ->
                      tmp !!! Z.to_nat key' = tile_tmp st !!! Z.to_nat key')
                /\ (forall i, 0 <= i < localIdx ->
                      G key ((tmp !!! Z.to_nat key) !!! Z.to_nat i)))).
    - split; [exact Htmp|]. split; [exact Hrow|]. split; [reflexivity|].
      intros i Hi. apply Hgood; [exact Hkey|]. subst localIdx. lia.
    - intros t tmp Ht (Hl & Hr & Ho & Hg). cbv zeta.
      rewrite length_insert. split; [exact Hl|]. split; [|split].
      + intros key' Hkey'. destruct (Z.eq_dec key' key) as [->|Hne].
        * rewrite list_lookup_total_insert_eq by lia. rewrite length_insert.
          apply Hr. exact Hkey.
        * rewrite list_lookup_total_insert_ne by lia. apply Hr. exact Hkey'.
      + intros key' Hkey' Hne. rewrite list_lookup_total_insert_ne by lia.
        apply Ho; assumption.
      + intros i Hi. rewrite list_lookup_total_insert_eq by lia.
        destruct (insert_lookup_total_cases (tmp !!! Z.to_nat key)
                    (Z.to_nat t) (Z.to_nat i)
                    ((tmp !!! Z.to_nat key) !!! Z.to_nat (t + nflush)))
          as [->|[_ ->]].
        -- apply Hg. exact Hi.
        -- apply Hg. subst nflush. lia. }
  destruct Hmoved as (Hml & Hmr & Hmo & Hmg).
  unfold tile_ok. cbn [tile_tmp tile_counters out_buffer out_indexes].
  rewrite length_insert.
  split; [exact Hml|]. split; [exact Hcnt|]. split; [exact Hmr|].
  split; [|split; [|split]].
  - intros key' i Hkey' Hi. destruct (Z.eq_dec key' key) as [->|Hne].
    + rewrite list_lookup_total_insert_eq in Hi by lia. apply Hmg. lia.
    + rewrite list_lookup_total_insert_ne in Hi by lia.
      rewrite Hmo by assumption. apply Hgood; assumption.
  - intros key'. destruct (insert_lookup_total_cases (tile_counters st)
                             (Z.to_nat key) key' newCount) as [->|[_ ->]].
    + apply Hpos.
    + lia.
  - apply tile_copy_ok; try assumption; try lia.
    intros i Hi. apply Hgood; [exact Hkey|]. subst nflush localIdx. lia.
  - replace indexes with (snd (atomicAdd (out_indexes st) (bucket_of key) nflush))
      by (rewrite Hadd; reflexivity).
    apply atomicAdd_nonneg. exact Hidx.
Qed.

(** One iteration of a seeding kernel keeps the tiles and the buffer as they
    should be, when every edge inserted is good for its tile row. *)
Lemma tile_round_ok (dim : Z) (item : Z -> option (Z * E)) (st : seeding) :
  (forall lid key e, 0 <= lid < dim -> item lid = Some (key, e) ->
     0 <= key < NX XBITS /\ G key e) ->
  tile_ok st ->
  tile_ok (tile_round FLUSH maxOut dim item bucket_of st).
Proof using HX HF Hcap Hbucket HGQ.
  intros Hitem Hst. unfold tile_round.
  set (inserted :=
         for_range dim (fun lid (acc : list (option (Z * Z)) * seeding) =>
           match item lid with
           | Some (key, edge) =>
               let '(counter, st) := tile_insert FLUSH key edge (snd acc) in
               (fst acc ++ [Some (key, counter)], st)
           | None => (fst acc ++ [None], snd acc)
           end) ([], st)).
  assert (Hins :
    Forall (fun l : option (Z * Z) =>
              match l with
              | Some (key, _) => 0 <= key < NX XBITS
              | None => True
              end) (fst inserted)
    /\ tile_ok (snd inserted)).
  { subst inserted.
    apply (for_range_invariant
             (fun acc : list (option (Z * Z)) * seeding =>
                Forall (fun l : option (Z * Z) =>
                          match l with
                          | Some (key, _) => 0 <= key < NX XBITS
                          | None => True
                          end) (fst acc)
                /\ tile_ok (snd acc))).
    - split; [constructor|exact Hst].
    - intros lid [locals st'] Hlid [Hloc Hok]. cbn [fst snd] in *.
      destruct (item lid) as [[key edge]|] eqn:Hi.
      + destruct (Hitem lid key edge Hlid Hi) as [Hkey Hg].
        pose proof (tile_insert_ok key edge st' Hkey Hg Hok) as Hok'.
        destruct (tile_insert FLUSH key edge st') as [counter st''].
        cbn [fst snd] in *. split; [|exact Hok'].
        apply Forall_app. split; [exact Hloc|].
        constructor; [exact Hkey|constructor].
      + cbn [fst snd]. split; [|exact Hok].
        apply Forall_app. split; [exact Hloc|]. repeat constructor. }
  destruct inserted as [locals st']. cbn [fst snd] in Hins.
  destruct Hins as [Hloc Hok]. clear Hitem Hst.
  revert st' Hok. induction locals as [|l locals IH]; intros st' Hok;
    [exact Hok|].
  cbn [fold_left]. inversion Hloc as [|? ? Hl Hloc']; subst.
  apply IH; [exact Hloc'|].
  destruct l as [[key counter]|]; [|exact Hok].
  destruct (counter =? FLUSH - 1); [|exact Hok].
  apply tile_flush_ok; assumption.
Qed.

Lemma tile_finish_ok (dim : Z) (st : seeding) :
  tile_ok st -> tile_ok (tile_finish XBITS FLUSH maxOut dim bucket_of st).
Proof using HX HF Hcap Hbucket HGQ.
  intros Hst. unfold tile_finish.
  apply (for_range_invariant tile_ok); [exact Hst|].
  intros lid st' Hlid Hst'.
  apply (for_range_invariant tile_ok); [exact Hst'|].
  intros k st'' Hk Hst''. cbv zeta.
  destruct (Z.ltb_spec (k * dim + lid) (NX XBITS)) as [Hlt|]; [|exact Hst''].
  apply tile_drain_ok; [nia|exact Hst''].
Qed.

Lemma tile_start_ok (buffer : list E) (indexes : list Z) :
  (forall j : nat, Q j (buffer !!! j)) ->
  (forall b : nat, 0 <= indexes !!! b) ->
  tile_ok (tile_start XBITS FLUSH buffer indexes).
Proof using HX HF Hcap Hbucket HGQ.
  intros Hbuf Hidx. pose proof (NX_pos XBITS HX) as Hnx.
  unfold tile_start, tile_ok. cbn [tile_tmp tile_counters out_buffer out_indexes].
  rewrite !length_replicate.
  split; [reflexivity|]. split; [reflexivity|]. split; [|split; [|split; [|split]]].
  - intros key Hkey. rewrite lookup_total_replicate_2 by lia.
    apply length_replicate.
  - intros key i Hkey Hi. rewrite (lookup_total_replicate_2 _ 0) in Hi by lia. lia.
  - intros key. destruct (decide (key < Z.to_nat (NX XBITS))%nat).
    + rewrite lookup_total_replicate_2 by lia. lia.
    + rewrite list_lookup_total_alt, (proj1 (lookup_replicate_None _ _ _)) by lia.
      cbn. lia.
  - exact Hbuf.
  - exact Hidx.
Qed.

End TileInvariant.

(** ** Routing of Seed A and Seed B *)

Lemma dipnode_range (SIPROUND : lanes -> lanes) (EDGEBITS : Z)
    (keys : siphash_keys) (nce uorv : Z) :
  0 <= EDGEBITS ->
  0 <= dipnode SIPROUND EDGEBITS keys nce uorv < 2 ^ EDGEBITS.
Proof.
  intros HE. unfold dipnode. cbv zeta.
  match goal with |- 0 <= u32 (Z.land ?x _) < _ =>
    pose proof (land_EDGEMASK_range EDGEBITS x HE) as Hr
  end.
  destruct (Z_le_gt_dec EDGEBITS 32) as [Hle|Hgt].
  - rewrite u32_land_EDGEMASK by lia. exact Hr.
  - assert (2 ^ 32 <= 2 ^ EDGEBITS) by (apply Z.pow_le_mono_r; lia).
    match goal with |- 0 <= u32 ?y < _ => pose proof (u32_range y) end. lia.
Qed.

Lemma shiftr_range (x a b : Z) :
  0 <= a -> 0 <= b -> 0 <= x < 2 ^ (a + b) -> 0 <= Z.shiftr x b < 2 ^ a.
Proof.
  intros Ha Hb Hx. rewrite Z.shiftr_div_pow2 by lia.
  assert (0 < 2 ^ b) by (apply Z.pow_pos_nonneg; lia).
  split; [apply Z.div_pos; lia|].
  apply Z.div_lt_upper_bound; [lia|].
  rewrite <- Z.pow_add_r by lia. rewrite Z.add_comm. lia.
Qed.

Lemma land_XMASK_range (XBITS x : Z) :
  0 <= XBITS -> 0 <= Z.land x (XMASK XBITS) < NX XBITS.
Proof.
  intros HX. unfold XMASK, NX.
  replace (2 ^ XBITS - 1) with (Z.ones XBITS) by (rewrite Z.ones_equiv; lia).
  rewrite Z.land_ones by lia. apply Z.mod_pos_bound.
  apply Z.pow_pos_nonneg; lia.
Qed.

(** A slot of bucket [row * NX + col] lies in row [row] and column [col]. *)
Lemma slot_bucket (XBITS maxOut row col : Z) (j : nat) :
  0 <= XBITS -> 0 < maxOut -> 0 <= row -> 0 <= col < NX XBITS ->
  (row * NX XBITS + col) * maxOut <= Z.of_nat j
    < (row * NX XBITS + col + 1) * maxOut ->
  Z.of_nat j / maxOut / NX XBITS = row
  /\ (Z.of_nat j / maxOut) mod NX XBITS = col.
Proof.
  intros HX Hm Hrow Hcol Hj. pose proof (NX_pos XBITS HX) as Hnx.
  assert (Hb : Z.of_nat j / maxOut = row * NX XBITS + col).
  { symmetry.
    apply (Z.div_unique (Z.of_nat j) maxOut (row * NX XBITS + col)
             (Z.of_nat j - (row * NX XBITS + col) * maxOut)); lia. }
  rewrite Hb. split.
  - symmetry. apply (Z.div_unique _ (NX XBITS) row col); lia.
  - symmetry. apply (Z.mod_unique _ (NX XBITS) row col); lia.
Qed.

Lemma u32_land_EDGEMASK_range (EDGEBITS x : Z) :
  0 <= EDGEBITS -> 0 <= u32 (Z.land x (EDGEMASK EDGEBITS)) < 2 ^ EDGEBITS.
Proof.
  intros HE. pose proof (land_EDGEMASK_range EDGEBITS x HE) as Hr.
  destruct (Z_le_gt_dec EDGEBITS 32) as [Hle|Hgt].
  - rewrite u32_land_EDGEMASK by lia. exact Hr.
  - assert (2 ^ 32 <= 2 ^ EDGEBITS) by (apply Z.pow_le_mono_r; lia).
    pose proof (u32_range (Z.land x (EDGEMASK EDGEBITS))). lia.
Qed.

Section SeedRouting.

Variable SIPROUND : lanes -> lanes.
Variables EDGEBITS XBITS YBITS ZBITS : Z.
Variable sipkeys : siphash_keys.
Context {EdgeOut : Type} `{!Inhabited EdgeOut}.
Variable edge_out : EdgeType EdgeOut.
Variables FLUSH maxOut : Z.
Variable buffer0 : list EdgeOut.

(** The row and the column the first endpoint of an edge selects. *)
Local Abbreviation row_of e :=
  (Z.shiftr (endpoint edge_out sipkeys e 0) (YZBITS YBITS ZBITS)).
Local Abbreviation col_of e :=
  (Z.land (Z.shiftr (endpoint edge_out sipkeys e 0) ZBITS) (XMASK XBITS)).

(** A slot holds what it held in [buffer0], or an edge of its row (Seed A),
    of its column (Seed B). *)
Local Abbreviation in_row :=
  (fun (j : nat) (e : EdgeOut) =>
     e = buffer0 !!! j \/ Z.of_nat j / maxOut / NX XBITS = row_of e).
Local Abbreviation in_col :=
  (fun (j : nat) (e : EdgeOut) =>
     e = buffer0 !!! j \/ (Z.of_nat j / maxOut) mod NX XBITS = col_of e).

Local Abbreviation seedA_ok :=
  (tile_ok XBITS FLUSH (fun key e => row_of e = key) in_row).
Local Abbreviation seedB_ok :=
  (tile_ok XBITS FLUSH (fun key e => col_of e = key) in_col).

Hypothesis HX : 0 <= XBITS.
Hypothesis HF : 0 < FLUSH.
Hypothesis Hcap : 2 * FLUSH <= maxOut.

Lemma seedA_bucket (col : Z) :
  0 <= col < NX XBITS ->
  (forall key, 0 <= key < NX XBITS -> 0 <= key * NX XBITS + col)
  /\ (forall key e (j : nat), 0 <= key < NX XBITS -> row_of e = key ->
        (key * NX XBITS + col) * maxOut <= Z.of_nat j
          < (key * NX XBITS + col + 1) * maxOut -> in_row j e).
Proof using HX HF Hcap.
  intros Hcol. pose proof (NX_pos XBITS HX). split; [intros; nia|].
  intros key e j Hkey Hg Hj. right. rewrite Hg.
  apply (slot_bucket XBITS maxOut key col j); try assumption; lia.
Qed.

Lemma seedB_bucket (row : Z) :
  0 <= row ->
  (forall key, 0 <= key < NX XBITS -> 0 <= row * NX XBITS + key)
  /\ (forall key e (j : nat), 0 <= key < NX XBITS -> col_of e = key ->
        (row * NX XBITS + key) * maxOut <= Z.of_nat j
          < (row * NX XBITS + key + 1) * maxOut -> in_col j e).
Proof using HX HF Hcap.
  intros Hrow. pose proof (NX_pos XBITS HX). split; [intros; nia|].
  intros key e j Hkey Hg Hj. right. rewrite Hg.
  apply (slot_bucket XBITS maxOut row key j); try assumption; lia.
Qed.

(** Seed A, whatever computes the edges: a block whose main loop [body]
    keeps the tiles in order leaves every slot with what it held or an edge
    of its row. *)
Lemma SeedA_block_routes (body : seeding -> seeding) (dim col : Z)
    (out : list EdgeOut * list Z) :
  0 <= col < NX XBITS ->
  (forall st, seedA_ok st -> seedA_ok (body st)) ->
  (forall j : nat, in_row j (fst out !!! j)) ->
  (forall b : nat, 0 <= snd out !!! b) ->
  let st :=
    tile_finish XBITS FLUSH maxOut dim (fun row => row * NX XBITS + col)
      (body (tile_start XBITS FLUSH (fst out) (snd out))) in
  (forall j : nat, in_row j (out_buffer st !!! j))
  /\ (forall b : nat, 0 <= out_indexes st !!! b).
Proof using HX HF Hcap.
  intros Hcol Hbody Hbuf Hidx st.
  destruct (seedA_bucket col Hcol) as [Hbucket HGQ].
  assert (Hok : seedA_ok st).
  { subst st.
    apply (tile_finish_ok XBITS FLUSH maxOut (fun row => row * NX XBITS + col)
             _ _ HX HF Hcap Hbucket HGQ).
    apply Hbody.
    apply (tile_start_ok XBITS FLUSH maxOut (fun row => row * NX XBITS + col)
             _ _ HX HF Hcap Hbucket HGQ); assumption. }
  destruct Hok as (_ & _ & _ & _ & _ & HQ & HI). split; assumption.
Qed.

Lemma SeedA_round_ok (dim col : Z) (item : Z -> option (Z * EdgeOut))
    (st : seeding) :
  0 <= col < NX XBITS ->
  (forall lid key e, item lid = Some (key, e) ->
     0 <= key < NX XBITS /\ row_of e = key) ->
  seedA_ok st ->
  seedA_ok (tile_round FLUSH maxOut dim item (fun row => row * NX XBITS + col) st).
Proof using HX HF Hcap.
  intros Hcol Hitem Hst.
  destruct (seedA_bucket col Hcol) as [Hbucket HGQ].
  apply (tile_round_ok XBITS FLUSH maxOut (fun row => row * NX XBITS + col)
           _ _ HX HF Hcap Hbucket HGQ); [|exact Hst].
  intros lid key e _ Hi. apply (Hitem lid key e Hi).
Qed.

(** Seed B: a block leaves every slot with what it held or an edge of its
    column. *)
Lemma SeedB_block_routes (source : list EdgeOut) (sourceIndexes : list Z)
    (dim group : Z) (out : list EdgeOut * list Z) :
  0 <= ZBITS -> 0 <= group ->
  (forall j : nat, in_col j (fst out !!! j)) ->
  (forall b : nat, 0 <= snd out !!! b) ->
  let out' := SeedB_block XBITS ZBITS FLUSH edge_out maxOut sipkeys source
                sourceIndexes dim group out in
  (forall j : nat, in_col j (fst out' !!! j))
  /\ (forall b : nat, 0 <= snd out' !!! b).
Proof using HX HF Hcap.
  intros HZ Hgroup Hbuf Hidx out'.
  pose proof (NX_pos XBITS HX) as Hnx.
  assert (Hrow : 0 <= group / NX XBITS) by (apply Z.div_pos; lia).
  destruct (seedB_bucket (group / NX XBITS) Hrow) as [Hbucket HGQ].
  subst out'. unfold SeedB_block. cbv zeta. cbn [fst snd].
  match goal with |- context [out_buffer ?st] => set (final := st) end.
  assert (Hok : seedB_ok final).
  { subst final.
    apply (tile_finish_ok XBITS FLUSH maxOut
             (fun col => group / NX XBITS * NX XBITS + col)
             _ _ HX HF Hcap Hbucket HGQ).
    apply (for_range_invariant seedB_ok).
    - apply (tile_start_ok XBITS FLUSH maxOut
               (fun col => group / NX XBITS * NX XBITS + col)
               _ _ HX HF Hcap Hbucket HGQ); assumption.
    - intros loop st _ Hst.
      apply (tile_round_ok XBITS FLUSH maxOut
               (fun col => group / NX XBITS * NX XBITS + col)
               _ _ HX HF Hcap Hbucket HGQ); [|exact Hst].
      intros lid key e _ Hi. unfold SeedB_item in Hi. cbv zeta in Hi.
      destruct (_ <? _) in Hi; [|discriminate].
      destruct (null edge_out _) in Hi; [discriminate|].
      inversion Hi; subst. split; [|reflexivity].
      apply land_XMASK_range. exact HX. }
  destruct Hok as (_ & _ & _ & _ & _ & HQ & HI). split; assumption.
Qed.

End SeedRouting.

Section SeedKernels.

Variable SIPROUND : lanes -> lanes.
Variables EDGEBITS XBITS YBITS ZBITS FLUSHA FLUSHB : Z.
Variable sipkeys : siphash_keys.
Variable maxOut : Z.

Hypothesis HX : 0 <= XBITS.
Hypothesis HY : 0 <= YBITS.
Hypothesis HZ : 0 <= ZBITS.
Hypothesis Hbits : EDGEBITS = XBITS + YBITS + ZBITS.

Lemma row_range (node0 : Z) :
  0 <= node0 < 2 ^ EDGEBITS ->
  0 <= Z.shiftr node0 (YZBITS YBITS ZBITS) < NX XBITS.
Proof using HX HY HZ Hbits.
  intros Hn. unfold NX, YZBITS. apply shiftr_range; [lia|lia|].
  replace (XBITS + (YBITS + ZBITS)) with EDGEBITS by lia. exact Hn.
Qed.

Lemma Cuckoo_SeedA_routes {EdgeOut : Type} `{!Inhabited EdgeOut}
    (edge_out : EdgeType EdgeOut) (make_Edge : Z -> Z -> Z -> EdgeOut)
    (packed : bool) (blocks tpb : Z) (buffer : list EdgeOut)
    (indexes : list Z) :
  0 < FLUSHA -> 2 * FLUSHA <= maxOut ->
  (forall nonce node1,
     endpoint edge_out sipkeys
       (make_Edge nonce (dipnode SIPROUND EDGEBITS sipkeys nonce 0) node1) 0
     = dipnode SIPROUND EDGEBITS sipkeys nonce 0) ->
  (forall b : nat, 0 <= indexes !!! b) ->
  routed_by_row XBITS YBITS ZBITS edge_out sipkeys maxOut buffer
    (fst (Cuckoo_SeedA SIPROUND EDGEBITS XBITS YBITS ZBITS FLUSHA make_Edge
            packed maxOut blocks tpb sipkeys buffer indexes)).
Proof using HX HY HZ Hbits.
  intros HF Hcap Hmk Hidx. unfold routed_by_row, Cuckoo_SeedA.
  pose proof (NX_pos XBITS HX) as Hnx.
  apply (for_range_invariant
           (fun out : list EdgeOut * list Z =>
              (forall j : nat,
                 fst out !!! j = buffer !!! j
                 \/ Z.of_nat j / maxOut / NX XBITS
                    = Z.shiftr (endpoint edge_out sipkeys (fst out !!! j) 0)
                        (YZBITS YBITS ZBITS))
              /\ (forall b : nat, 0 <= snd out !!! b))).
  - split; [intros j; left; reflexivity|exact Hidx].
  - intros group out _ [Hbuf Hidx']. unfold Cuckoo_SeedA_block. cbv zeta.
    cbn [fst snd].
    apply (SeedA_block_routes XBITS YBITS ZBITS sipkeys edge_out FLUSHA maxOut
             buffer HX HF Hcap); try assumption.
    + apply Z.mod_pos_bound. exact Hnx.
    + intros st Hst.
      apply (for_range_invariant
               (tile_ok XBITS FLUSHA
                  (fun key e =>
                     Z.shiftr (endpoint edge_out sipkeys e 0) (YZBITS YBITS ZBITS)
                     = key) _)); [exact Hst|].
      intros i st' _ Hst'.
      apply (SeedA_round_ok XBITS YBITS ZBITS sipkeys edge_out FLUSHA maxOut
               buffer HX HF Hcap); try assumption.
      * apply Z.mod_pos_bound. exact Hnx.
      * intros lid key e Hi. injection Hi as <- <-. rewrite Hmk.
        split; [|reflexivity]. apply row_range. apply dipnode_range. lia.
Qed.

Lemma Cuckaroo_SeedA_routes (buf0 : list Z) (blocks tpb : Z)
    (buffer : list uint2) (indexes : list Z) :
  0 < FLUSHA -> 2 * FLUSHA <= maxOut ->
  (forall b : nat, 0 <= indexes !!! b) ->
  routed_by_row XBITS YBITS ZBITS uint2_edge sipkeys maxOut buffer
    (fst (Cuckaroo_SeedA SIPROUND EDGEBITS XBITS YBITS ZBITS FLUSHA maxOut
            blocks tpb sipkeys buf0 buffer indexes)).
Proof using HX HY HZ Hbits.
  intros HF Hcap Hidx. unfold routed_by_row, Cuckaroo_SeedA.
  pose proof (NX_pos XBITS HX) as Hnx.
  apply (for_range_invariant
           (fun out : list uint2 * list Z =>
              (forall j : nat,
                 fst out !!! j = buffer !!! j
                 \/ Z.of_nat j / maxOut / NX XBITS
                    = Z.shiftr (endpoint uint2_edge sipkeys (fst out !!! j) 0)
                        (YZBITS YBITS ZBITS))
              /\ (forall b : nat, 0 <= snd out !!! b))).
  - split; [intros j; left; reflexivity|exact Hidx].
  - intros group out _ [Hbuf Hidx']. unfold Cuckaroo_SeedA_block. cbv zeta.
    cbn [fst snd].
    apply (SeedA_block_routes XBITS YBITS ZBITS sipkeys uint2_edge FLUSHA maxOut
             buffer HX HF Hcap); try assumption.
    + apply Z.mod_pos_bound. exact Hnx.
    + intros st Hst.
      apply (for_range_invariant
               (tile_ok XBITS FLUSHA
                  (fun key e =>
                     Z.shiftr (endpoint uint2_edge sipkeys e 0) (YZBITS YBITS ZBITS)
                     = key) _)); [exact Hst|].
      intros k st' _ Hst'.
      apply (for_range_invariant
               (tile_ok XBITS FLUSHA
                  (fun key e =>
                     Z.shiftr (endpoint uint2_edge sipkeys e 0) (YZBITS YBITS ZBITS)
                     = key) _)); [exact Hst'|].
      intros e st'' _ Hst''.
      apply (SeedA_round_ok XBITS YBITS ZBITS sipkeys uint2_edge FLUSHA maxOut
               buffer HX HF Hcap); try assumption.
      * apply Z.mod_pos_bound. exact Hnx.
      * intros lid key edge Hi.
        destruct (_ !!! Z.to_nat lid) as [last buf] in Hi.
        injection Hi as <- <-. split; [|reflexivity].
        apply row_range. apply u32_land_EDGEMASK_range. lia.
Qed.

Lemma SeedB_routes {EdgeOut : Type} `{!Inhabited EdgeOut}
    (edge_out : EdgeType EdgeOut) (blocks tpb : Z)
    (source destination : list EdgeOut)
    (sourceIndexes destinationIndexes : list Z) :
  0 < FLUSHB -> 2 * FLUSHB <= maxOut ->
  (forall b : nat, 0 <= destinationIndexes !!! b) ->
  routed_by_col XBITS ZBITS edge_out sipkeys maxOut 0 destination
    (fst (SeedB XBITS ZBITS FLUSHB edge_out maxOut blocks tpb sipkeys source
            destination sourceIndexes destinationIndexes)).
Proof using HX HZ.
  intros HF Hcap Hidx. unfold routed_by_col, SeedB.
  apply (for_range_invariant
           (fun out : list EdgeOut * list Z =>
              (forall j : nat,
                 fst out !!! j = destination !!! j
                 \/ (Z.of_nat j / maxOut) mod NX XBITS
                    = Z.land (Z.shiftr (endpoint edge_out sipkeys (fst out !!! j) 0)
                                ZBITS) (XMASK XBITS))
              /\ (forall b : nat, 0 <= snd out !!! b))).
  - split; [intros j; left; reflexivity|exact Hidx].
  - intros group out Hgroup [Hbuf Hidx'].
    apply (SeedB_block_routes XBITS ZBITS sipkeys edge_out FLUSHB maxOut
             destination HX HF Hcap); try assumption. lia.
Qed.

End SeedKernels.




(** ** Bucket overflow *)

Lemma copy_stays_in_bucket {E : Type} `{!Inhabited E} (maxOut bucket cnt n : Z)
    (row buffer : list E) :
  0 <= bucket -> 0 <= cnt -> cnt + n <= maxOut ->
  forall j : nat,
    ~ (bucket * maxOut <= Z.of_nat j < (bucket + 1) * maxOut) ->
    for_range n (fun i buffer =>
      <[Z.to_nat (bucket * maxOut + cnt + i) := row !!! Z.to_nat i]> buffer)
      buffer !!! j
    = buffer !!! j.
Proof.
  intros Hb Hcnt Hfit j Hj.
  apply (for_range_invariant (fun b => b !!! j = buffer !!! j)); [reflexivity|].
  intros i b Hi Hinv. rewrite list_lookup_total_insert_ne; [exact Hinv|].
  intros Heq. apply Hj. rewrite <- Heq. rewrite Z2Nat.id by nia. nia.
Qed.

Lemma tile_flush_insert {E : Type} `{!Inhabited E} (FLUSH maxOut key bucket : Z)
    (st : @seeding E) :
  0 < FLUSH -> 2 * FLUSH <= maxOut -> 0 <= bucket ->
  0 <= tile_counters st !!! Z.to_nat key ->
  0 <= out_indexes st !!! Z.to_nat bucket ->
  let localIdx := Z.min (2 * FLUSH) (tile_counters st !!! Z.to_nat key) in
  let st' := tile_flush FLUSH maxOut key bucket st in
  bucket_insert maxOut bucket (localIdx - Z.rem localIdx FLUSH)
    (out_buffer st, out_indexes st) (out_buffer st', out_indexes st').
Proof.
  intros HF Hcap Hb Hc Hi localIdx st'. subst st'. unfold tile_flush.
  fold localIdx. unfold atomicAdd. cbv zeta. unfold bucket_insert.
  cbn [fst snd out_buffer out_indexes].
  split; [reflexivity|].
  pose proof (Z.rem_bound_pos localIdx FLUSH ltac:(lia) HF).
  pose proof (Z.rem_le localIdx FLUSH ltac:(lia) HF).
  apply copy_stays_in_bucket; lia.
Qed.

Lemma tile_drain_insert {E : Type} `{!Inhabited E} (FLUSH maxOut key bucket : Z)
    (st : @seeding E) :
  0 < FLUSH -> 2 * FLUSH <= maxOut -> 0 <= bucket ->
  0 <= tile_counters st !!! Z.to_nat key ->
  0 <= out_indexes st !!! Z.to_nat bucket ->
  let localIdx := Z.min (2 * FLUSH) (tile_counters st !!! Z.to_nat key) in
  let st' := tile_drain FLUSH maxOut key bucket st in
  bucket_insert maxOut bucket localIdx
    (out_buffer st, out_indexes st) (out_buffer st', out_indexes st').
Proof.
  intros HF Hcap Hb Hc Hi localIdx st'. subst st'. unfold tile_drain.
  fold localIdx. unfold atomicAdd. cbv zeta. unfold bucket_insert.
  cbn [fst snd out_buffer out_indexes].
  split; [reflexivity|].
  apply copy_stays_in_bucket; lia.
Qed.

Lemma Round_store_insert {EdgeIn EdgeOut : Type} `{!Inhabited EdgeOut}
    (ZBITS : Z) (edge_in : EdgeType EdgeIn)
    (make_Edge : EdgeIn -> Z -> Z -> EdgeOut) (maxOut round : Z)
    (sipkeys : siphash_keys) (edge : EdgeIn) (node0 : Z)
    (out : list EdgeOut * list Z) :
  let bucket :=
    Z.shiftr (endpoint edge_in sipkeys edge (Z.lxor (Z.land round 1) 1)) ZBITS in
  let out' := Round_store ZBITS edge_in make_Edge maxOut round sipkeys edge
                node0 out in
  0 < maxOut -> 0 <= bucket -> 0 <= snd out !!! Z.to_nat bucket ->
  bucket_insert maxOut bucket 1 out out'
  /\ (maxOut <= snd out !!! Z.to_nat bucket ->
      exists e : EdgeOut,
        fst out' = <[Z.to_nat (bucket * maxOut + (maxOut - 1)) := e]> (fst out)).
Proof.
  intros bucket out' Hm Hb Hold. subst out'. unfold Round_store, atomicAdd.
  cbv zeta. fold bucket. unfold bucket_insert. cbn [fst snd].
  split; [split; [reflexivity|]|].
  - intros j Hj. apply list_lookup_total_insert_ne.
    intros Heq. apply Hj. rewrite <- Heq. rewrite Z2Nat.id by nia. nia.
  - intros Hfull. eexists. rewrite Z.min_r by lia. reflexivity.
Qed.




(** * Further properties of the kernels *)

(** ** Packing and endpoints *)

Lemma pack_edge_fields (e : uint2) :
  uint2_words e ->
  0 <= pack_edge e < 2 ^ 64
  /\ Z.land (pack_edge e) (2 ^ 32 - 1) = uint2_x e
  /\ Z.shiftr (pack_edge e) 32 = uint2_y e.
Proof.
  intros [Hx Hy]. unfold pack_edge, u64.
  rewrite (Z.mod_small (uint2_y e)) by lia.
  rewrite (Z.mod_small (uint2_x e)) by lia.
  rewrite Z.shiftl_mul_pow2 by lia.
  rewrite (Z.mod_small (uint2_y e * 2 ^ 32)) by lia.
  assert (Hdisj : Z.land (Z.shiftl (uint2_y e) 32) (uint2_x e) = 0).
  { apply Z.bits_inj'. intros n Hn. rewrite Z.land_spec, Z.bits_0.
    destruct (Z_lt_ge_dec n 32).
    - rewrite Z.shiftl_spec_low by lia. reflexivity.
    - rewrite (Z.bits_above_log2 (uint2_x e) n); [apply andb_false_r|lia|].
      destruct (Z.eq_dec (uint2_x e) 0) as [->|]; [simpl; lia|].
      assert (2 ^ 32 <= 2 ^ n) by (apply Z.pow_le_mono_r; lia).
      apply Z.log2_lt_pow2; lia. }
  assert (Hsum : Z.lor (uint2_y e * 2 ^ 32) (uint2_x e)
                 = uint2_y e * 2 ^ 32 + uint2_x e).
  { rewrite <- Z.shiftl_mul_pow2 by lia. symmetry.
    rewrite <- Z.lxor_lor by exact Hdisj.
    apply Z.add_nocarry_lxor. exact Hdisj. }
  rewrite Hsum. split; [lia|]. split.
  - change (2 ^ 32 - 1) with (Z.ones 32). rewrite Z.land_ones by lia.
    rewrite Z.add_comm, Z.mod_add by lia. apply Z.mod_small. lia.
  - rewrite Z.shiftr_div_pow2 by lia.
    rewrite Z.add_comm, Z.div_add by lia. rewrite Z.div_small by lia. lia.
Qed.

(** X1: Pack4edges loses nothing: each of the four 64-bit words is below 2^64,
    its low half is the [x] and its high half the [y] of the edge packed
    into it. *)
Theorem Pack4edges_round_trip (e1 e2 e3 e4 : uint2) :
  uint2_words e1 -> uint2_words e2 -> uint2_words e3 -> uint2_words e4 ->
  let unpack := fun r => make_uint2 (Z.land r (2 ^ 32 - 1)) (Z.shiftr r 32) in
  let p := Pack4edges e1 e2 e3 e4 in
  (unpack (ull_x p) = e1 /\ unpack (ull_y p) = e2
   /\ unpack (ull_z p) = e3 /\ unpack (ull_w p) = e4)
  /\ 0 <= ull_x p < 2 ^ 64 /\ 0 <= ull_y p < 2 ^ 64
  /\ 0 <= ull_z p < 2 ^ 64 /\ 0 <= ull_w p < 2 ^ 64.
Proof.
  intros H1 H2 H3 H4 unpack p. subst unpack p. unfold Pack4edges.
  cbn [ull_x ull_y ull_z ull_w].
  destruct (pack_edge_fields e1 H1) as (R1 & X1 & Y1).
  destruct (pack_edge_fields e2 H2) as (R2 & X2 & Y2).
  destruct (pack_edge_fields e3 H3) as (R3 & X3 & Y3).
  destruct (pack_edge_fields e4 H4) as (R4 & X4 & Y4).
  rewrite X1, Y1, X2, Y2, X3, Y3, X4, Y4.
  destruct e1 as [x1 y1], e2 as [x2 y2], e3 as [x3 y3], e4 as [x4 y4].
  cbn [uint2_x uint2_y] in *. repeat split; lia.
Qed.

Lemma Pack4edges_round_trip_witness :
  let unpack := fun r => make_uint2 (Z.land r (2 ^ 32 - 1)) (Z.shiftr r 32) in
  let p := Pack4edges (make_uint2 1 40) (make_uint2 4294967295 0)
             (make_uint2 0 4294967295) (make_uint2 7 7) in
  (unpack (ull_x p) = make_uint2 1 40 /\ unpack (ull_y p) = make_uint2 4294967295 0
   /\ unpack (ull_z p) = make_uint2 0 4294967295 /\ unpack (ull_w p) = make_uint2 7 7)
  /\ 0 <= ull_x p < 2 ^ 64 /\ 0 <= ull_y p < 2 ^ 64
  /\ 0 <= ull_z p < 2 ^ 64 /\ 0 <= ull_w p < 2 ^ 64.
Proof.
  apply (Pack4edges_round_trip (make_uint2 1 40) (make_uint2 4294967295 0)
           (make_uint2 0 4294967295) (make_uint2 7 7));
    unfold uint2_words; cbn [uint2_x uint2_y]; lia.
Defined.

(** X2: the endpoints of an edge are nodes of the graph, in both modes. *)
Theorem endpoints_below_NEDGES (SIPROUND : lanes -> lanes) (EDGEBITS : Z)
    (keys : siphash_keys) (buf : list Z) (nonce : Z) :
  0 <= EDGEBITS ->
  (0 <= fst (cuckoo_edge SIPROUND EDGEBITS keys nonce) < NEDGES EDGEBITS
   /\ 0 <= snd (cuckoo_edge SIPROUND EDGEBITS keys nonce) < NEDGES EDGEBITS)
  /\ (0 <= fst (cuckaroo_edge SIPROUND EDGEBITS keys buf nonce) < NEDGES EDGEBITS
      /\ 0 <= snd (cuckaroo_edge SIPROUND EDGEBITS keys buf nonce)
           < NEDGES EDGEBITS).
Proof.
  intros HE. unfold cuckoo_edge, cuckaroo_edge, edge_nodes, NEDGES.
  cbn [fst snd]. repeat split;
    first [apply dipnode_range; exact HE
          | apply u32_land_EDGEMASK_range; exact HE].
Qed.

Lemma endpoints_below_NEDGES_witness :
  (0 <= fst (cuckoo_edge sipround 7 (mk_keys 1 2 3 4) 5) < NEDGES 7
   /\ 0 <= snd (cuckoo_edge sipround 7 (mk_keys 1 2 3 4) 5) < NEDGES 7)
  /\ (0 <= fst (cuckaroo_edge sipround 7 (mk_keys 1 2 3 4) (replicate 64 0) 5)
          < NEDGES 7
      /\ 0 <= snd (cuckaroo_edge sipround 7 (mk_keys 1 2 3 4) (replicate 64 0) 5)
           < NEDGES 7).
Proof.
  apply (endpoints_below_NEDGES sipround 7 (mk_keys 1 2 3 4) (replicate 64 0) 5).
  lia.
Defined.

(** ** Recovery: the slots that are written *)

Lemma lookup_total_ge_default {A : Type} `{!Inhabited A} (l l' : list A) (p : nat) :
  length l = length l' -> (length l' <= p)%nat -> l !!! p = l' !!! p.
Proof.
  intros Hlen Hp. rewrite !list_lookup_total_alt.
  rewrite !lookup_ge_None_2 by lia. reflexivity.
Qed.

Lemma report_nonces_frame (dim : Z) (nonces indexes : list Z) (p : nat) :
  Z.min dim PROOFSIZE <= Z.of_nat p ->
  length (report_nonces dim nonces indexes) = length indexes
  /\ report_nonces dim nonces indexes !!! p = indexes !!! p.
Proof.
  intros Hp. unfold report_nonces.
  rewrite (for_range_ext dim _
             (fun q l => if (q <? PROOFSIZE) && (0 <? nonces !!! Z.to_nat q)
                         then <[Z.to_nat q := nonces !!! Z.to_nat q]> l else l)).
  2:{ intros i l _. destruct (i <? PROOFSIZE), (0 <? nonces !!! Z.to_nat i);
        reflexivity. }
  destruct (for_range_update dim
              (fun q => (q <? PROOFSIZE) && (0 <? nonces !!! Z.to_nat q))
              (fun q => nonces !!! Z.to_nat q) indexes) as [Hlen Hlook].
  split; [exact Hlen|].
  destruct (decide (p < length indexes)%nat) as [Hlt|Hge].
  - specialize (Hlook (Z.of_nat p) ltac:(lia)).
    rewrite Nat2Z.id in Hlook. rewrite Hlook by exact Hlt.
    destruct (Z.ltb_spec (Z.of_nat p) dim); [|reflexivity].
    destruct (Z.ltb_spec (Z.of_nat p) PROOFSIZE); [lia|reflexivity].
  - apply lookup_total_ge_default; [exact Hlen|lia].
Qed.

(** X9: the recovery kernels write no slot of [indexes] but the first
    [min(tpb, PROOFSIZE)]: a slot past the proof size, and with fewer than
    PROOFSIZE threads in a block a slot past the block size, keeps what it
    held, and the array keeps its length. *)
Theorem recovery_writes_first_slots_only (SIPROUND : lanes -> lanes)
    (EDGEBITS : Z) (sipkeys : siphash_keys) (recoveredges : list uint2)
    (shared buf0 : list Z) (blocks tpb : Z) (indexes : list Z) (p : nat) :
  Z.min tpb PROOFSIZE <= Z.of_nat p ->
  Cuckoo_Recovery SIPROUND EDGEBITS sipkeys recoveredges shared blocks tpb
    indexes !!! p = indexes !!! p
  /\ Cuckaroo_Recovery SIPROUND EDGEBITS sipkeys recoveredges shared buf0
       blocks tpb indexes !!! p = indexes !!! p.
Proof.
  intros Hp. split.
  - unfold Cuckoo_Recovery.
    apply (for_range_invariant
             (fun out : list Z =>
                length out = length indexes /\ out !!! p = indexes !!! p));
      [split; reflexivity|].
    intros group out _ [Hlen Hout]. unfold Cuckoo_Recovery_block. cbv zeta.
    match goal with |- context [report_nonces tpb ?n out] =>
      destruct (report_nonces_frame tpb n out p Hp) as [Hl Hv] end.
    rewrite Hl, Hv. split; assumption.
  - unfold Cuckaroo_Recovery.
    apply (for_range_invariant
             (fun out : list Z =>
                length out = length indexes /\ out !!! p = indexes !!! p));
      [split; reflexivity|].
    intros group out _ [Hlen Hout]. unfold Cuckaroo_Recovery_block. cbv zeta.
    match goal with |- context [report_nonces tpb ?n out] =>
      destruct (report_nonces_frame tpb n out p Hp) as [Hl Hv] end.
    rewrite Hl, Hv. split; assumption.
Qed.

Lemma recovery_writes_first_slots_only_witness :
  Cuckoo_Recovery sipround 6 (mk_keys 1 2 3 4) (replicate 42 (make_uint2 1 2))
    (replicate 42 0) 2 8 (replicate 42 7) !!! 8%nat = replicate 42 7 !!! 8%nat
  /\ Cuckaroo_Recovery sipround 6 (mk_keys 1 2 3 4)
       (replicate 42 (make_uint2 1 2)) (replicate 42 0) (replicate 64 0)
       2 8 (replicate 42 7) !!! 8%nat = replicate 42 7 !!! 8%nat.
Proof.
  apply (recovery_writes_first_slots_only sipround 6 (mk_keys 1 2 3 4)
           (replicate 42 (make_uint2 1 2)) (replicate 42 0) (replicate 64 0)
           2 8 (replicate 42 7) 8).
  unfold PROOFSIZE. lia.
Defined.

(** ** Counters from any state *)

(** X3: whatever the counters hold, an increment of [z] leaves the reading of
    every other counter as it was, never turns a reading from true to false,
    and two increments of [z] make its reading true. *)
Theorem Read2bCounter_local_monotone (ZBITS : Z) (ec : list Z) (z z' : Z) :
  5 <= ZBITS -> 0 <= z < NZ ZBITS -> 0 <= z' < NZ ZBITS ->
  (Z.to_nat (COUNTERWORDS ZBITS) <= length ec)%nat ->
  (z' <> z ->
   Read2bCounter ZBITS (Increase2bCounter ZBITS ec z) z'
   = Read2bCounter ZBITS ec z')
  /\ (Read2bCounter ZBITS ec z' = true ->
      Read2bCounter ZBITS (Increase2bCounter ZBITS ec z) z' = true)
  /\ Read2bCounter ZBITS
       (Increase2bCounter ZBITS (Increase2bCounter ZBITS ec z) z) z = true.
Proof.
  intros HZ Hz Hz' Hlen.
  rewrite COUNTERWORDS_planes in Hlen by exact HZ.
  rewrite !Read2bCounter_plane1 by first [exact HZ | lia].
  destruct (Increase2bCounter_planes ZBITS HZ ec z z' Hz Hz' Hlen) as [_ H1].
  split; [|split].
  - intros Hne. rewrite H1. destruct (Z.eqb_spec z' z); [contradiction|].
    cbn [andb]. apply orb_false_r.
  - intros Hr. rewrite H1, Hr. reflexivity.
  - assert (Hlen' : (Z.to_nat (NZ ZBITS / 32) + Z.to_nat (NZ ZBITS / 32)
                     <= length (Increase2bCounter ZBITS ec z))%nat)
      by (rewrite Increase2bCounter_length; exact Hlen).
    destruct (Increase2bCounter_planes ZBITS HZ _ z z Hz Hz Hlen') as [_ H2].
    destruct (Increase2bCounter_planes ZBITS HZ ec z z Hz Hz Hlen) as [H0 _].
    rewrite H2, H0, Z.eqb_refl. cbn [andb]. rewrite orb_true_r.
    apply orb_true_r.
Qed.

Lemma Read2bCounter_local_monotone_witness :
  (7 <> 3 ->
   Read2bCounter 5 (Increase2bCounter 5 [5; 8] 3) 7 = Read2bCounter 5 [5; 8] 7)
  /\ (Read2bCounter 5 [5; 8] 7 = true ->
      Read2bCounter 5 (Increase2bCounter 5 [5; 8] 3) 7 = true)
  /\ Read2bCounter 5 (Increase2bCounter 5 (Increase2bCounter 5 [5; 8] 3) 3) 3
     = true.
Proof.
  apply (Read2bCounter_local_monotone 5 [5; 8] 3 7).
  - lia.
  - unfold NZ. lia.
  - unfold NZ. lia.
  - vm_compute. lia.
Defined.

(** ** What a round reads *)

Section RoundReads.

Variables XBITS YBITS ZBITS : Z.
Context {EdgeIn EdgeOut : Type} `{!Inhabited EdgeIn}.
Variable edge_in : EdgeType EdgeIn.
Variable make_Edge : EdgeIn -> Z -> Z -> EdgeOut.
Variables NP maxIn maxOut : Z.
Variable round : Z.
Variable sipkeys : siphash_keys.
Variable srcIds : list Z.

(** The slots of the source a block reads: those below the clamped counter
    of its bucket, in each of the [NP] partitions. *)
Local Abbreviation agree_on_bucket group src src' :=
  (forall i lindex, 0 <= i < NP ->
     0 <= lindex < Z.min (srcIds !!! Z.to_nat (i * NX2 XBITS YBITS + group)) maxIn ->
     src !!! Z.to_nat (i * (NX2 XBITS YBITS * maxIn) + (maxIn * group + lindex))
     = src' !!! Z.to_nat (i * (NX2 XBITS YBITS * maxIn) + (maxIn * group + lindex))).

Lemma Round_block_reads (src src' : list EdgeIn) (dim group : Z)
    (out : list EdgeOut * list Z) :
  agree_on_bucket group src src' ->
  Round_block XBITS YBITS ZBITS edge_in make_Edge NP maxIn maxOut round sipkeys
    src srcIds dim group out
  = Round_block XBITS YBITS ZBITS edge_in make_Edge NP maxIn maxOut round
      sipkeys src' srcIds dim group out.
Proof using Type.
  intros Hagree. unfold Round_block.
  assert (Hcount : forall ec,
            for_range dim (Round_count XBITS YBITS ZBITS edge_in NP maxIn round
                             sipkeys src srcIds dim group) ec
            = for_range dim (Round_count XBITS YBITS ZBITS edge_in NP maxIn round
                               sipkeys src' srcIds dim group) ec).
  { intros ec. apply for_range_ext. intros lid ec' Hlid. unfold Round_count.
    apply for_range_ext. intros i ec'' Hi. cbv zeta.
    apply for_range_ext. intros loop ec3 Hloop.
    destruct (Z.ltb_spec (loop * dim + lid)
                (Z.min (srcIds !!! Z.to_nat (i * NX2 XBITS YBITS + group)) maxIn))
      as [Hlt|]; [|reflexivity].
    rewrite (Hagree i (loop * dim + lid)) by nia. reflexivity. }
  rewrite Hcount. apply for_range_ext. intros lid out' Hlid. unfold Round_emit.
  apply for_range_ext. intros i out'' Hi. cbv zeta.
  apply for_range_ext. intros loop out3 Hloop.
  destruct (Z.ltb_spec (loop * dim + lid)
              (Z.min (srcIds !!! Z.to_nat (i * NX2 XBITS YBITS + group)) maxIn))
    as [Hlt|]; [|reflexivity].
  rewrite (Hagree i (loop * dim + lid)) by nia. reflexivity.
Qed.

Lemma Round_block_idle (src : list EdgeIn) (dim group : Z)
    (out : list EdgeOut * list Z) :
  (forall i, 0 <= i < NP -> forall lindex,
     0 <= lindex < Z.min (srcIds !!! Z.to_nat (i * NX2 XBITS YBITS + group)) maxIn ->
     null edge_in
       (src !!! Z.to_nat (i * (NX2 XBITS YBITS * maxIn) + (maxIn * group + lindex)))
     = true) ->
  Round_block XBITS YBITS ZBITS edge_in make_Edge NP maxIn maxOut round sipkeys
    src srcIds dim group out = out.
Proof using Type.
  intros Hnull. unfold Round_block.
  apply (for_range_invariant (fun o => o = out)); [reflexivity|].
  intros lid o Hlid ->. unfold Round_emit.
  apply (for_range_invariant (fun o => o = out)); [reflexivity|].
  intros i o Hi ->. cbv zeta.
  apply (for_range_invariant (fun o => o = out)); [reflexivity|].
  intros loop o Hloop ->.
  destruct (Z.ltb_spec (loop * dim + lid)
              (Z.min (srcIds !!! Z.to_nat (i * NX2 XBITS YBITS + group)) maxIn))
    as [Hlt|]; [|reflexivity].
  rewrite (Hnull i Hi (loop * dim + lid)) by nia. reflexivity.
Qed.

End RoundReads.

(** X4: a round reads of its source only the slots below the clamped counters
    [min(srcIds[..], maxIn)] of the buckets of its blocks: two sources that
    agree there give the same destination and the same counters, whatever
    the slots above hold. *)
Theorem Round_reads_counted_slots_only (XBITS YBITS ZBITS : Z)
    {EdgeIn EdgeOut : Type} `{!Inhabited EdgeIn} (edge_in : EdgeType EdgeIn)
    (make_Edge : EdgeIn -> Z -> Z -> EdgeOut) (NP maxIn maxOut blocks tpb : Z)
    (round : Z) (sipkeys : siphash_keys) (src src' : list EdgeIn)
    (dst : list EdgeOut) (srcIds dstIds : list Z) :
  (forall group i lindex, 0 <= group < blocks -> 0 <= i < NP ->
     0 <= lindex < Z.min (srcIds !!! Z.to_nat (i * NX2 XBITS YBITS + group)) maxIn ->
     src !!! Z.to_nat (i * (NX2 XBITS YBITS * maxIn) + (maxIn * group + lindex))
     = src' !!! Z.to_nat (i * (NX2 XBITS YBITS * maxIn) + (maxIn * group + lindex))) ->
  Round XBITS YBITS ZBITS edge_in make_Edge NP maxIn maxOut blocks tpb round
    sipkeys src dst srcIds dstIds
  = Round XBITS YBITS ZBITS edge_in make_Edge NP maxIn maxOut blocks tpb round
      sipkeys src' dst srcIds dstIds.
Proof.
  intros Hagree. unfold Round. apply for_range_ext. intros group out Hgroup.
  apply Round_block_reads. intros i lindex Hi Hl. apply Hagree; assumption.
Qed.

Lemma Round_reads_counted_slots_only_witness :
  Round 0 0 5 uint2_edge make_Edge_uint2_uint2 1 4 4 1 2 0 (mk_keys 0 0 0 0)
    [make_uint2 1 40; make_uint2 1 70; make_uint2 2 33; make_uint2 2 34]
    (replicate 8 (make_uint2 0 0)) [2] [0; 0]
  = Round 0 0 5 uint2_edge make_Edge_uint2_uint2 1 4 4 1 2 0 (mk_keys 0 0 0 0)
      [make_uint2 1 40; make_uint2 1 70; make_uint2 1 99; make_uint2 1 98]
      (replicate 8 (make_uint2 0 0)) [2] [0; 0].
Proof.
  apply (Round_reads_counted_slots_only 0 0 5 uint2_edge make_Edge_uint2_uint2
           1 4 4 1 2 0 (mk_keys 0 0 0 0)).
  intros group i lindex Hg Hi Hl.
  assert (group = 0) as -> by lia. assert (i = 0) as -> by lia.
  assert (Hm : Z.min ([2] !!! Z.to_nat (0 * NX2 0 0 + 0)) 4 = 2) by reflexivity.
  rewrite Hm in Hl.
  assert (lindex = 0 \/ lindex = 1) as [-> | ->] by lia; reflexivity.
Defined.

(** X5: a round whose buckets hold no edge, or only the null sentinel below
    their counters, stores nothing: the destination and its counters are
    left as they were. *)
Theorem Round_of_null_buckets_is_idle (XBITS YBITS ZBITS : Z)
    {EdgeIn EdgeOut : Type} `{!Inhabited EdgeIn} (edge_in : EdgeType EdgeIn)
    (make_Edge : EdgeIn -> Z -> Z -> EdgeOut) (NP maxIn maxOut blocks tpb : Z)
    (round : Z) (sipkeys : siphash_keys) (src : list EdgeIn)
    (dst : list EdgeOut) (srcIds dstIds : list Z) :
  (forall group i lindex, 0 <= group < blocks -> 0 <= i < NP ->
     0 <= lindex < Z.min (srcIds !!! Z.to_nat (i * NX2 XBITS YBITS + group)) maxIn ->
     null edge_in
       (src !!! Z.to_nat (i * (NX2 XBITS YBITS * maxIn) + (maxIn * group + lindex)))
     = true) ->
  Round XBITS YBITS ZBITS edge_in make_Edge NP maxIn maxOut blocks tpb round
    sipkeys src dst srcIds dstIds
  = (dst, dstIds).
Proof.
  intros Hnull. unfold Round.
  apply (for_range_invariant (fun o => o = (dst, dstIds))); [reflexivity|].
  intros group o Hgroup ->. apply Round_block_idle.
  intros i Hi lindex Hl. apply Hnull; assumption.
Qed.

Lemma Round_of_null_buckets_is_idle_witness :
  Round 0 0 5 uint2_edge make_Edge_uint2_uint2 1 4 4 1 2 0 (mk_keys 0 0 0 0)
    [make_uint2 0 0; make_uint2 0 0; make_uint2 2 33; make_uint2 2 34]
    (replicate 8 (make_uint2 9 9)) [2] [0; 0]
  = (replicate 8 (make_uint2 9 9), [0; 0]).
Proof.
  apply (Round_of_null_buckets_is_idle 0 0 5 uint2_edge make_Edge_uint2_uint2
           1 4 4 1 2 0 (mk_keys 0 0 0 0)).
  intros group i lindex Hg Hi Hl.
  assert (group = 0) as -> by lia. assert (i = 0) as -> by lia.
  assert (Hm : Z.min ([2] !!! Z.to_nat (0 * NX2 0 0 + 0)) 4 = 2) by reflexivity.
  rewrite Hm in Hl.
  assert (lindex = 0 \/ lindex = 1) as [-> | ->] by lia; reflexivity.
Defined.

(** ** The host side *)

(** X10: the Cuckaroo pipeline does not look at [expand], and the Cuckoo
    pipeline treats every [expand] other than 0 and 1 alike. *)
Theorem trim_expand_cases (SIPROUND : lanes -> lanes)
    (EDGEBITS XBITS YBITS ZBITS FLUSHA FLUSHB EDGES_A EDGES_B NA NB : Z)
    (selected : Z) (tp : trimparams) (sipkeys : siphash_keys) (buf0 : list Z)
    (e e' : Z) :
  (selected <> 0 \/ (e <> 0 /\ e <> 1 /\ e' <> 0 /\ e' <> 1)) ->
  trim SIPROUND EDGEBITS XBITS YBITS ZBITS FLUSHA FLUSHB EDGES_A EDGES_B NA NB
    selected (with_expand e tp) sipkeys buf0
  = trim SIPROUND EDGEBITS XBITS YBITS ZBITS FLUSHA FLUSHB EDGES_A EDGES_B NA NB
      selected (with_expand e' tp) sipkeys buf0.
Proof.
  intros Hcase.
  assert (Hseed :
    trim_seed SIPROUND EDGEBITS XBITS YBITS ZBITS FLUSHA FLUSHB EDGES_A EDGES_B
      NA NB selected (with_expand e tp) sipkeys buf0
    = trim_seed SIPROUND EDGEBITS XBITS YBITS ZBITS FLUSHA FLUSHB EDGES_A
        EDGES_B NA NB selected (with_expand e' tp) sipkeys buf0).
  { unfold trim_seed, with_expand. cbn [expand genA genB tp_trim].
    destruct Hcase as [Hsel|(He0 & He1 & He0' & He1')].
    - destruct (Z.eqb_spec selected 0); [contradiction|]. reflexivity.
    - destruct (Z.eqb_spec e 0); [contradiction|].
      destruct (Z.eqb_spec e 1); [contradiction|].
      destruct (Z.eqb_spec e' 0); [contradiction|].
      destruct (Z.eqb_spec e' 1); [contradiction|].
      destruct (selected =? 0); reflexivity. }
  unfold trim. rewrite Hseed. reflexivity.
Qed.

Lemma trim_expand_cases_witness :
  trim sipround 5 0 0 5 16 16 64 64 1 1 1
    (with_expand 0
       (mk_trimparams 0 8 (mk_blockstpb 1 4) (mk_blockstpb 1 4)
          (mk_blockstpb 1 4) (mk_blockstpb 1 64)))
    (mk_keys 10 0 0 0) (replicate 64 0)
  = trim sipround 5 0 0 5 16 16 64 64 1 1 1
      (with_expand 2
         (mk_trimparams 0 8 (mk_blockstpb 1 4) (mk_blockstpb 1 4)
            (mk_blockstpb 1 4) (mk_blockstpb 1 64)))
      (mk_keys 10 0 0 0) (replicate 64 0).
Proof.
  apply (trim_expand_cases sipround 5 0 0 5 16 16 64 64 1 1 1).
  left. lia.
Defined.

(** ** The grid from stage to stage *)

Lemma land_1_cases (round : Z) : Z.land round 1 = 0 \/ Z.land round 1 = 1.
Proof.
  change 1 with (Z.ones 1) at 1 2. rewrite Z.land_ones by lia.
  change (2 ^ 1) with 2. pose proof (Z.mod_pos_bound round 2 ltac:(lia)). lia.
Qed.

(** The parity of the round after [round]. *)
Lemma land_1_succ (round : Z) :
  Z.land (round + 1) 1 = Z.lxor (Z.land round 1) 1.
Proof.
  change 1 with (Z.ones 1) at 2 3. rewrite !Z.land_ones by lia.
  change (2 ^ 1) with 2.
  pose proof (Z.mod_pos_bound round 2 ltac:(lia)) as Hr.
  assert (Hcase : round mod 2 = 0 \/ round mod 2 = 1) by lia.
  rewrite <- Zplus_mod_idemp_l.
  destruct Hcase as [-> | ->]; reflexivity.
Qed.

(** A slot of a bucket of [maxOut] slots belongs to that bucket. *)
Lemma slot_of_bucket (maxOut bucket idx : Z) :
  0 <= bucket -> 0 <= idx < maxOut ->
  Z.of_nat (Z.to_nat (bucket * maxOut + idx)) / maxOut = bucket.
Proof.
  intros Hb Hi. rewrite Z2Nat.id by nia. symmetry.
  apply (Z.div_unique (bucket * maxOut + idx) maxOut bucket idx); lia.
Qed.

Lemma atomicAdd_keeps_nonneg (mem : list Z) (addr val : Z) :
  (forall b : nat, 0 <= mem !!! b) ->
  forall b : nat, 0 <= snd (atomicAdd mem addr val) !!! b.
Proof.
  intros Hmem b. unfold atomicAdd. cbn [snd].
  destruct (insert_lookup_total_cases mem (Z.to_nat addr) b
              (u32 (mem !!! Z.to_nat addr + val))) as [->|[_ ->]].
  - apply Hmem.
  - apply u32_nonneg.
Qed.

Section RoundGrid.

Variables XBITS YBITS ZBITS : Z.
Context {EdgeIn EdgeOut : Type} `{!Inhabited EdgeIn} `{!Inhabited EdgeOut}.
Variable edge_in : EdgeType EdgeIn.
Variable edge_out : EdgeType EdgeOut.
Variable make_Edge : EdgeIn -> Z -> Z -> EdgeOut.
Variables NP maxIn maxOut : Z.
Variable round : Z.
Variable sipkeys : siphash_keys.
Variable dst0 : list EdgeOut.

Hypothesis Hmax : 0 < maxOut.

(** The stored form of an edge has the endpoints of the edge. *)
Hypothesis Hmake : forall e uorv, uorv = 0 \/ uorv = 1 ->
  endpoint edge_out sipkeys
    (make_Edge e (endpoint edge_in sipkeys e 0) (endpoint edge_in sipkeys e 1))
    uorv
  = endpoint edge_in sipkeys e uorv.

(** A slot holds what it held in [dst0] or an edge that the next round
    counts in the bucket of the slot. *)
Local Abbreviation on_grid :=
  (fun out : list EdgeOut * list Z =>
     (forall j : nat,
        fst out !!! j = dst0 !!! j
        \/ Z.shiftr (Round_counted edge_out (round + 1) sipkeys (fst out !!! j))
             ZBITS
           = Z.of_nat j / maxOut)
     /\ (forall b : nat, 0 <= snd out !!! b)).

Lemma Round_store_on_grid (edge : EdgeIn) (out : list EdgeOut * list Z) :
  0 <= endpoint edge_in sipkeys edge (Z.lxor (Z.land round 1) 1) ->
  on_grid out ->
  on_grid (Round_store ZBITS edge_in make_Edge maxOut round sipkeys edge
             (endpoint edge_in sipkeys edge (Z.land round 1)) out).
Proof using Hmax Hmake.
  intros Hnode [Hbuf Hids]. unfold Round_store. cbv zeta.
  set (node1 := endpoint edge_in sipkeys edge (Z.lxor (Z.land round 1) 1)) in *.
  set (bucket := Z.shiftr node1 ZBITS).
  assert (Hbucket : 0 <= bucket) by (apply Z.shiftr_nonneg; exact Hnode).
  pose proof (atomicAdd_keeps_nonneg (snd out) bucket 1 Hids) as Hids'.
  unfold atomicAdd in *. cbn [fst snd] in *.
  split; [|exact Hids'].
  intros j.
  match goal with |- context [<[?k := ?x]> (fst out) !!! j] =>
    destruct (insert_lookup_total_cases (fst out) k j x) as [->|[-> ->]]
  end; [apply Hbuf|].
  right.
  rewrite slot_of_bucket; [|exact Hbucket|pose proof (Hids (Z.to_nat bucket)); lia].
  unfold Round_counted. rewrite land_1_succ.
  assert (Hstored :
    (if Z.land round 1 =? 0
     then make_Edge edge (endpoint edge_in sipkeys edge (Z.land round 1)) node1
     else make_Edge edge node1 (endpoint edge_in sipkeys edge (Z.land round 1)))
    = make_Edge edge (endpoint edge_in sipkeys edge 0)
        (endpoint edge_in sipkeys edge 1)).
  { subst node1. destruct (land_1_cases round) as [-> | ->]; reflexivity. }
  rewrite Hstored, Hmake; [reflexivity|].
  destruct (land_1_cases round) as [-> | ->]; [right|left]; reflexivity.
Qed.

Lemma Round_block_on_grid (src : list EdgeIn) (srcIds : list Z) (dim group : Z)
    (out : list EdgeOut * list Z) :
  (forall k : nat,
     0 <= endpoint edge_in sipkeys (src !!! k) (Z.lxor (Z.land round 1) 1)) ->
  on_grid out ->
  on_grid (Round_block XBITS YBITS ZBITS edge_in make_Edge NP maxIn maxOut
             round sipkeys src srcIds dim group out).
Proof using Hmax Hmake.
  intros Hsrc Hout. unfold Round_block.
  apply (for_range_invariant on_grid); [exact Hout|].
  intros lid o _ Ho. unfold Round_emit.
  apply (for_range_invariant on_grid); [exact Ho|].
  intros i o' _ Ho'. cbv zeta.
  apply (for_range_invariant on_grid); [exact Ho'|].
  intros loop o'' _ Ho''.
  destruct (_ <? _); [|exact Ho''].
  destruct (null edge_in _); [exact Ho''|].
  destruct (Read2bCounter _ _ _); [|exact Ho''].
  apply Round_store_on_grid; [apply Hsrc|exact Ho''].
Qed.

End RoundGrid.

(** X6: a round files every edge it stores under the endpoint the next round
    counts: after the launch a slot of the destination holds what it held
    before or an edge whose endpoint of the next parity, shifted by ZBITS,
    is the bucket of the slot, and no counter is negative.  This is what the
    next round assumes of its buckets. *)
Theorem Round_files_for_next_round (XBITS YBITS ZBITS : Z)
    {EdgeIn EdgeOut : Type} `{!Inhabited EdgeIn} `{!Inhabited EdgeOut}
    (edge_in : EdgeType EdgeIn) (edge_out : EdgeType EdgeOut)
    (make_Edge : EdgeIn -> Z -> Z -> EdgeOut) (NP maxIn maxOut blocks tpb : Z)
    (round : Z) (sipkeys : siphash_keys) (src : list EdgeIn)
    (dst : list EdgeOut) (srcIds dstIds : list Z) :
  0 < maxOut ->
  (forall e uorv, uorv = 0 \/ uorv = 1 ->
     endpoint edge_out sipkeys
       (make_Edge e (endpoint edge_in sipkeys e 0) (endpoint edge_in sipkeys e 1))
       uorv
     = endpoint edge_in sipkeys e uorv) ->
  (forall k : nat,
     0 <= endpoint edge_in sipkeys (src !!! k) (Z.lxor (Z.land round 1) 1)) ->
  (forall b : nat, 0 <= dstIds !!! b) ->
  let out := Round XBITS YBITS ZBITS edge_in make_Edge NP maxIn maxOut blocks
               tpb round sipkeys src dst srcIds dstIds in
  (forall j : nat,
     fst out !!! j = dst !!! j
     \/ Z.shiftr (Round_counted edge_out (round + 1) sipkeys (fst out !!! j)) ZBITS
        = Z.of_nat j / maxOut)
  /\ (forall b : nat, 0 <= snd out !!! b).
Proof.
  intros Hmax Hmake Hsrc Hids out. subst out. unfold Round.
  apply (for_range_invariant
           (fun out : list EdgeOut * list Z =>
              (forall j : nat,
                 fst out !!! j = dst !!! j
                 \/ Z.shiftr
                      (Round_counted edge_out (round + 1) sipkeys (fst out !!! j))
                      ZBITS
                    = Z.of_nat j / maxOut)
              /\ (forall b : nat, 0 <= snd out !!! b))).
  - split; [intros j; left; reflexivity|exact Hids].
  - intros group out _ Hout.
    apply (Round_block_on_grid XBITS YBITS ZBITS edge_in edge_out make_Edge NP
             maxIn maxOut round sipkeys dst Hmax Hmake); assumption.
Qed.

Lemma Round_files_for_next_round_witness :
  let src := [make_uint2 1 40; make_uint2 1 70; make_uint2 2 33; make_uint2 0 0] in
  let dst := replicate 16 (make_uint2 0 0) in
  let out := Round 1 1 5 uint2_edge make_Edge_uint2_uint2 1 4 4 1 2 0
               (mk_keys 0 0 0 0) src dst [4; 0; 0; 0] (replicate 4 0) in
  (forall j : nat,
     fst out !!! j = dst !!! j
     \/ Z.shiftr (Round_counted uint2_edge (0 + 1) (mk_keys 0 0 0 0) (fst out !!! j)) 5
        = Z.of_nat j / 4)
  /\ (forall b : nat, 0 <= snd out !!! b).
Proof.
  apply (Round_files_for_next_round 1 1 5 uint2_edge uint2_edge
           make_Edge_uint2_uint2 1 4 4 1 2 0 (mk_keys 0 0 0 0)
           [make_uint2 1 40; make_uint2 1 70; make_uint2 2 33; make_uint2 0 0]
           (replicate 16 (make_uint2 0 0)) [4; 0; 0; 0] (replicate 4 0)).
  - lia.
  - intros e uorv _. reflexivity.
  - intros k. do 4 (destruct k as [|k]; [vm_compute; discriminate|]).
    vm_compute. discriminate.
  - intros b. do 4 (destruct b as [|b]; [vm_compute; discriminate|]).
    vm_compute. discriminate.
Defined.

(** ** Seed B on a square grid *)

(** The bits of a node above the Z bits are its row bits followed by its
    column bits. *)
Lemma shiftr_row_col (x ybits zbits : Z) :
  0 <= ybits -> 0 <= zbits ->
  Z.shiftr x zbits
  = Z.shiftr x (ybits + zbits) * 2 ^ ybits
    + Z.land (Z.shiftr x zbits) (2 ^ ybits - 1).
Proof.
  intros Hy Hz. rewrite (Z.add_comm ybits zbits).
  rewrite <- Z.shiftr_shiftr by lia.
  replace (2 ^ ybits - 1) with (Z.ones ybits) by (rewrite Z.ones_equiv; lia).
  rewrite Z.land_ones by lia.
  rewrite (Z.shiftr_div_pow2 (Z.shiftr x zbits) ybits) by lia.
  assert (0 < 2 ^ ybits) by (apply Z.pow_pos_nonneg; lia).
  rewrite Z.mul_comm. apply Z.div_mod. lia.
Qed.

Section SeedBGrid.

Variables XBITS ZBITS FLUSH maxOut : Z.
Variable sipkeys : siphash_keys.
Context {EdgeOut : Type} `{!Inhabited EdgeOut}.
Variable edge_out : EdgeType EdgeOut.
Variable source destination : list EdgeOut.

Hypothesis HX : 0 <= XBITS.
Hypothesis HZ : 0 <= ZBITS.
Hypothesis HF : 0 < FLUSH.
Hypothesis Hcap : 2 * FLUSH <= maxOut.

(** What Seed A leaves: a slot holds the null edge or an edge of the row of
    its bucket. *)
Hypothesis Hsource : forall j : nat,
  null edge_out (source !!! j) = true
  \/ Z.of_nat j / maxOut / NX XBITS
     = Z.shiftr (endpoint edge_out sipkeys (source !!! j) 0) (YZBITS XBITS ZBITS).

Local Abbreviation row_of e :=
  (Z.shiftr (endpoint edge_out sipkeys e 0) (YZBITS XBITS ZBITS)).
Local Abbreviation col_of e :=
  (Z.land (Z.shiftr (endpoint edge_out sipkeys e 0) ZBITS) (XMASK XBITS)).
Local Abbreviation in_bucket :=
  (fun (j : nat) (e : EdgeOut) =>
     e = destination !!! j
     \/ Z.shiftr (endpoint edge_out sipkeys e 0) ZBITS = Z.of_nat j / maxOut).

Lemma SeedB_block_grid (sourceIndexes : list Z) (dim group : Z)
    (out : list EdgeOut * list Z) :
  0 <= group ->
  (forall j : nat, in_bucket j (fst out !!! j)) ->
  (forall b : nat, 0 <= snd out !!! b) ->
  let out' := SeedB_block XBITS ZBITS FLUSH edge_out maxOut sipkeys source
                sourceIndexes dim group out in
  (forall j : nat, in_bucket j (fst out' !!! j))
  /\ (forall b : nat, 0 <= snd out' !!! b).
Proof using HX HZ HF Hcap Hsource.
  intros Hgroup Hbuf Hidx out'.
  pose proof (NX_pos XBITS HX) as Hnx.
  set (row := group / NX XBITS).
  assert (Hrow : 0 <= row) by (apply Z.div_pos; lia).
  set (G := fun (key : Z) (e : EdgeOut) => col_of e = key /\ row_of e = row).
  assert (Hbucket : forall key, 0 <= key < NX XBITS -> 0 <= row * NX XBITS + key)
    by (intros; nia).
  assert (HGQ : forall key e (j : nat), 0 <= key < NX XBITS -> G key e ->
            (row * NX XBITS + key) * maxOut <= Z.of_nat j
              < (row * NX XBITS + key + 1) * maxOut -> in_bucket j e).
  { intros key e j Hkey [Hc Hr] Hj. right.
    rewrite (shiftr_row_col _ XBITS ZBITS HX HZ).
    fold (YZBITS XBITS ZBITS). fold (NX XBITS). fold (XMASK XBITS).
    rewrite Hc, Hr.
    apply (Z.div_unique (Z.of_nat j) maxOut (row * NX XBITS + key)
             (Z.of_nat j - (row * NX XBITS + key) * maxOut)); lia. }
  subst out'. unfold SeedB_block. cbv zeta. cbn [fst snd]. fold row.
  match goal with |- context [out_buffer ?st] => set (final := st) end.
  assert (Hok : tile_ok XBITS FLUSH G in_bucket final).
  { subst final.
    apply (tile_finish_ok XBITS FLUSH maxOut (fun col => row * NX XBITS + col)
             _ _ HX HF Hcap Hbucket HGQ).
    apply (for_range_invariant (tile_ok XBITS FLUSH G in_bucket)).
    - apply (tile_start_ok XBITS FLUSH maxOut (fun col => row * NX XBITS + col)
               _ _ HX HF Hcap Hbucket HGQ); assumption.
    - intros loop st Hloop Hst.
      apply (tile_round_ok XBITS FLUSH maxOut (fun col => row * NX XBITS + col)
               _ _ HX HF Hcap Hbucket HGQ); [|exact Hst].
      intros lid key e Hlid Hi. unfold SeedB_item in Hi. cbv zeta in Hi.
      destruct (Z.ltb_spec (loop * dim + lid)
                  (Z.min (sourceIndexes !!! Z.to_nat group) maxOut))
        as [Hlt|] in Hi; [|discriminate].
      destruct (null edge_out _) eqn:Hnull in Hi; [discriminate|].
      injection Hi as <- <-.
      split; [apply land_XMASK_range; exact HX|]. split; [reflexivity|].
      destruct (Hsource (Z.to_nat (group * maxOut + (loop * dim + lid))))
        as [Hn|Hr]; [rewrite Hn in Hnull; discriminate|].
      rewrite <- Hr. rewrite slot_of_bucket by nia. reflexivity. }
  destruct Hok as (_ & _ & _ & _ & _ & HQ & HI). split; assumption.
Qed.

End SeedBGrid.



(** ** What Tail copies *)

(** An invariant that follows the loop counter. *)
Lemma for_range_counting {S : Type} (P : Z -> S -> Prop) (n : Z)
    (body : Z -> S -> S) (s : S) :
  0 <= n -> P 0 s ->
  (forall i s, 0 <= i < n -> P i s -> P (i + 1) (body i s)) ->
  P n (for_range n body s).
Proof.
  intros Hn Hs Hstep.
  assert (Hgen : forall m, 0 <= m -> m <= n -> P m (for_range m body s)).
  { apply (natlike_ind (fun m => m <= n -> P m (for_range m body s))).
    - intros _. rewrite for_range_nonpos by lia. exact Hs.
    - intros m Hm IH Hle. unfold Z.succ. rewrite for_range_succ by exact Hm.
      apply Hstep; [lia|]. apply IH. lia. }
  apply Hgen; lia.
Qed.

(** A loop that stores [val q] at index [base + q] whenever [c q] holds. *)
Lemma for_range_store {A : Type} `{!Inhabited A} (n base : Z) (c : Z -> bool)
    (val : Z -> A) (l : list A) :
  0 <= base ->
  let r := for_range n (fun q l => if c q then <[Z.to_nat (base + q) := val q]> l
                                   else l) l in
  length r = length l
  /\ (forall q, 0 <= q < n -> c q = true ->
        (Z.to_nat (base + q) < length l)%nat -> r !!! Z.to_nat (base + q) = val q)
  /\ (forall j : nat,
        (forall q, 0 <= q < n -> c q = true -> j <> Z.to_nat (base + q)) ->
        r !!! j = l !!! j).
Proof.
  intros Hbase. cbv zeta.
  destruct (Z_le_gt_dec n 0) as [Hn|Hn].
  { rewrite for_range_nonpos by exact Hn. split; [reflexivity|].
    split; [intros; lia|reflexivity]. }
  assert (0 <= n) as Hn0 by lia. clear Hn. revert n Hn0.
  match goal with |- forall n, 0 <= n -> @?P n => apply (natlike_ind P) end.
  - rewrite for_range_nonpos by lia. split; [reflexivity|].
    split; [intros; lia|reflexivity].
  - intros n Hn (IHlen & IHin & IHout). unfold Z.succ.
    rewrite for_range_succ by exact Hn.
    set (r := for_range n _ l) in *.
    split; [|split].
    + destruct (c n); [rewrite length_insert|]; exact IHlen.
    + intros q Hq Hc Hlt. destruct (Z.eq_dec q n) as [->|Hne].
      * rewrite Hc. apply list_lookup_total_insert_eq. lia.
      * destruct (c n).
        -- rewrite list_lookup_total_insert_ne by lia. apply IHin; [lia|assumption..].
        -- apply IHin; [lia|assumption..].
    + intros j Hj.
      assert (Hr : r !!! j = l !!! j).
      { apply IHout. intros q Hq Hc. apply Hj; [lia|exact Hc]. }
      destruct (c n) eqn:Hc; [|exact Hr].
      rewrite list_lookup_total_insert_ne; [exact Hr|].
      intros Heq. apply (Hj n); [lia|exact Hc|]. symmetry. exact Heq.
Qed.

Lemma counted_before_succ (ids : list Z) (g : Z) :
  0 <= g -> counted_before ids (g + 1) = counted_before ids g + ids !!! Z.to_nat g.
Proof.
  intros Hg. unfold counted_before. rewrite for_range_succ by exact Hg.
  reflexivity.
Qed.

Lemma counted_before_mono (ids : list Z) (n : Z) :
  (forall g, 0 <= g < n -> 0 <= ids !!! Z.to_nat g) ->
  forall g g', 0 <= g <= g' -> g' <= n ->
    0 <= counted_before ids g <= counted_before ids g'.
Proof.
  intros Hpos.
  assert (Hnonneg : forall g, 0 <= g -> g <= n -> 0 <= counted_before ids g).
  { apply (natlike_ind (fun g => g <= n -> 0 <= counted_before ids g)).
    - intros _. unfold counted_before. rewrite for_range_nonpos by lia. lia.
    - intros g Hg IH Hle. unfold Z.succ. rewrite counted_before_succ by lia.
      specialize (Hpos g ltac:(lia)). lia. }
  intros g g' Hg Hg'. split; [apply Hnonneg; lia|].
  replace g' with (g + (g' - g)) in * by lia.
  assert (Hd : 0 <= g' - g) by lia. revert Hd Hg'.
  generalize (g' - g) as d.
  apply (natlike_ind (fun d => g + d <= n ->
                               counted_before ids g <= counted_before ids (g + d))).
  - intros _. rewrite Z.add_0_r. lia.
  - intros d Hd IH Hle. unfold Z.succ. rewrite Z.add_assoc.
    rewrite counted_before_succ by lia.
    specialize (Hpos (g + d) ltac:(lia)). lia.
Qed.

(** The strided loop of a block of Tail: the first [min(myEdges, dim)] slots
    of the run are copied, by the threads below [myEdges]. *)
Lemma Tail_block_copy (maxIn : Z) (source : list uint2) (dim group : Z)
    (myEdges destIdx : Z) (destination : list uint2) :
  for_range dim (fun lid destination =>
    let trips := if lid <? myEdges then (myEdges - lid + dim - 1) / dim else 0 in
    for_range trips (fun _ destination =>
      <[Z.to_nat (destIdx + lid) := source !!! Z.to_nat (group * maxIn + lid)]>
        destination) destination) destination
  = for_range dim (fun lid destination =>
      if lid <? myEdges
      then <[Z.to_nat (destIdx + lid) := source !!! Z.to_nat (group * maxIn + lid)]>
             destination
      else destination) destination.
Proof.
  apply for_range_ext. intros lid d Hlid. cbv zeta.
  destruct (Z.ltb_spec lid myEdges) as [Hlt|Hge];
    [|apply for_range_nonpos; lia].
  assert (Htrips : 1 <= (myEdges - lid + dim - 1) / dim).
  { apply Z.div_le_lower_bound; lia. }
  set (x := source !!! Z.to_nat (group * maxIn + lid)).
  set (k := Z.to_nat (destIdx + lid)).
  assert (Hgen : forall m, 0 <= m ->
            for_range (m + 1) (fun _ d' => <[k := x]> d') d = <[k := x]> d).
  { apply (natlike_ind (fun m =>
             for_range (m + 1) (fun _ d' => <[k := x]> d') d = <[k := x]> d)).
    - rewrite for_range_succ by lia. rewrite for_range_nonpos by lia. reflexivity.
    - intros m Hm IH. unfold Z.succ. rewrite for_range_succ by lia. rewrite IH.
      apply list_insert_insert_eq. }
  replace ((myEdges - lid + dim - 1) / dim)
    with ((myEdges - lid + dim - 1) / dim - 1 + 1) by lia.
  apply Hgen. lia.
Qed.



(** ** Compact and packed edges *)

Lemma lookup_total_fmap_default {A B : Type} `{!Inhabited A} `{!Inhabited B}
    (f : A -> B) (l : list A) (i : nat) :
  f inhabitant = inhabitant -> (f <$> l) !!! i = f (l !!! i).
Proof.
  intros Hf. destruct (decide (i < length l)%nat) as [Hlt|Hge].
  - apply list_lookup_total_fmap. exact Hlt.
  - rewrite !list_lookup_total_alt, list_lookup_fmap.
    rewrite (lookup_ge_None_2 l i) by lia. simpl. symmetry. exact Hf.
Qed.

(** A map of the state that every iteration commutes with commutes with
    the loop. *)
Lemma for_range_commute {S T : Type} (h : S -> T) (n : Z)
    (f : Z -> S -> S) (g : Z -> T -> T) (s : S) :
  (forall i s, 0 <= i < n -> h (f i s) = g i (h s)) ->
  h (for_range n f s) = for_range n g (h s).
Proof.
  intros Hstep. destruct (Z_le_gt_dec n 0) as [Hn|Hn].
  - rewrite !for_range_nonpos by exact Hn. reflexivity.
  - assert (Hgen : forall m, 0 <= m -> m <= n ->
                     h (for_range m f s) = for_range m g (h s)).
    { apply (natlike_ind (fun m => m <= n ->
                            h (for_range m f s) = for_range m g (h s))).
      - intros _. rewrite !for_range_nonpos by lia. reflexivity.
      - intros m Hm IH Hle. unfold Z.succ. rewrite !for_range_succ by exact Hm.
        rewrite Hstep by lia. rewrite IH by lia. reflexivity. }
    apply Hgen; lia.
Qed.

Lemma lxor_land_1_cases (round : Z) :
  Z.lxor (Z.land round 1) 1 = 0 \/ Z.lxor (Z.land round 1) 1 = 1.
Proof. destruct (land_1_cases round) as [-> | ->]; [right|left]; reflexivity. Qed.

Section CompactPacked.

Variable SIPROUND : lanes -> lanes.
Variables EDGEBITS XBITS YBITS ZBITS : Z.
Variable sipkeys : siphash_keys.

Local Abbreviation packed := (to_packed SIPROUND EDGEBITS sipkeys).
Local Abbreviation compact_edge := (u32_edge SIPROUND EDGEBITS).

Lemma packed_default : packed inhabitant = inhabitant.
Proof using Type. reflexivity. Qed.

(** When the edge of a nonce is not the pair (0, 0), its packed form is null
    only for the null nonce. *)
Lemma packed_null (n : Z) :
  (n <> 0 ->
   ~ (dipnode SIPROUND EDGEBITS sipkeys n 0 = 0
      /\ dipnode SIPROUND EDGEBITS sipkeys n 1 = 0)) ->
  null uint2_edge (packed n) = null compact_edge n.
Proof using Type.
  intros Hn. unfold to_packed. cbn [null uint2_edge u32_edge].
  unfold null_u32, null_uint2.
  destruct (Z.eqb_spec n 0) as [->|Hne]; [reflexivity|].
  cbn [uint2_x uint2_y]. apply andb_false_iff.
  destruct (Z.eqb_spec (dipnode SIPROUND EDGEBITS sipkeys n 0) 0) as [E0|];
    [|left; reflexivity].
  destruct (Z.eqb_spec (dipnode SIPROUND EDGEBITS sipkeys n 1) 0) as [E1|];
    [|right; reflexivity].
  exfalso. apply (Hn Hne). split; assumption.
Qed.

Lemma packed_endpoint (n uorv : Z) :
  n <> 0 -> uorv = 0 \/ uorv = 1 ->
  endpoint uint2_edge sipkeys (packed n) uorv = endpoint compact_edge sipkeys n uorv.
Proof using Type.
  intros Hn Hu. unfold to_packed. cbn [endpoint uint2_edge u32_edge].
  unfold endpoint_u32, endpoint_uint2.
  destruct (Z.eqb_spec n 0); [contradiction|]. cbn [uint2_x uint2_y].
  destruct Hu as [->| ->]; reflexivity.
Qed.

(** The pair a round stores for a nonce, in the order the parity of the
    round puts its endpoints in, is the packed form of the nonce. *)
Lemma stored_packed (round n : Z) :
  n <> 0 ->
  (if Z.land round 1 =? 0
   then make_Edge_u32_uint2 n
          (endpoint compact_edge sipkeys n (Z.land round 1))
          (endpoint compact_edge sipkeys n (Z.lxor (Z.land round 1) 1))
   else make_Edge_u32_uint2 n
          (endpoint compact_edge sipkeys n (Z.lxor (Z.land round 1) 1))
          (endpoint compact_edge sipkeys n (Z.land round 1)))
  = packed n.
Proof using Type.
  intros Hn. unfold to_packed. destruct (Z.eqb_spec n 0); [contradiction|].
  cbn [endpoint u32_edge]. unfold endpoint_u32, make_Edge_u32_uint2.
  destruct (land_1_cases round) as [-> | ->]; reflexivity.
Qed.

Variables NP maxIn maxOut : Z.
Variable round : Z.
Variable src : list Z.
Variable srcIds : list Z.

Lemma null_u32_false (n : Z) : null compact_edge n = false -> n <> 0.
Proof using Type.
  cbn [null u32_edge]. unfold null_u32. intros H ->. discriminate H.
Qed.

(** Reading pairs: a block on the packed image of a compact source does
    what the block does on the compact source. *)
Lemma Round_block_packed_source (dim group : Z) (out : list uint2 * list Z) :
  (forall k : nat, src !!! k <> 0 ->
     ~ (dipnode SIPROUND EDGEBITS sipkeys (src !!! k) 0 = 0
        /\ dipnode SIPROUND EDGEBITS sipkeys (src !!! k) 1 = 0)) ->
  Round_block XBITS YBITS ZBITS uint2_edge make_Edge_uint2_uint2 NP maxIn
    maxOut round sipkeys (packed <$> src) srcIds dim group out
  = Round_block XBITS YBITS ZBITS compact_edge make_Edge_u32_uint2 NP maxIn
      maxOut round sipkeys src srcIds dim group out.
Proof using Type.
  intros Hsrc. unfold Round_block.
  assert (Hcount : forall ec,
            for_range dim (Round_count XBITS YBITS ZBITS uint2_edge NP maxIn
                             round sipkeys (packed <$> src) srcIds dim group) ec
            = for_range dim (Round_count XBITS YBITS ZBITS compact_edge NP maxIn
                               round sipkeys src srcIds dim group) ec).
  { intros ec. apply for_range_ext. intros lid ec' _. unfold Round_count.
    apply for_range_ext. intros i ec'' _. cbv zeta.
    apply for_range_ext. intros loop ec3 _.
    destruct (_ <? _); [|reflexivity].
    rewrite (lookup_total_fmap_default packed src _ packed_default).
    rewrite packed_null by apply Hsrc.
    destruct (null compact_edge _) eqn:Hnull; [reflexivity|].
    rewrite packed_endpoint;
      [reflexivity|apply null_u32_false; exact Hnull|apply land_1_cases]. }
  rewrite Hcount. apply for_range_ext. intros lid o _. unfold Round_emit.
  apply for_range_ext. intros i o' _. cbv zeta.
  apply for_range_ext. intros loop o'' _.
  destruct (_ <? _); [|reflexivity].
  rewrite (lookup_total_fmap_default packed src _ packed_default).
  rewrite packed_null by apply Hsrc.
  destruct (null compact_edge _) eqn:Hnull; [reflexivity|].
  apply null_u32_false in Hnull.
  rewrite packed_endpoint by first [exact Hnull | apply land_1_cases].
  destruct (Read2bCounter _ _ _); [|reflexivity].
  unfold Round_store. cbv zeta.
  rewrite packed_endpoint by first [exact Hnull | apply lxor_land_1_cases].
  rewrite stored_packed by exact Hnull.
  unfold make_Edge_uint2_uint2. destruct (Z.land round 1 =? 0); reflexivity.
Qed.

(** Storing pairs: a block that stores both endpoints writes the packed
    image of what the block that stores the nonce writes. *)
Lemma Round_block_packed_destination (dim group : Z) (out : list Z * list Z) :
  Round_block XBITS YBITS ZBITS compact_edge make_Edge_u32_uint2 NP maxIn
    maxOut round sipkeys src srcIds dim group (packed <$> fst out, snd out)
  = (fun o : list Z * list Z => (packed <$> fst o, snd o))
      (Round_block XBITS YBITS ZBITS compact_edge make_Edge_u32_u32 NP maxIn
         maxOut round sipkeys src srcIds dim group out).
Proof using Type.
  unfold Round_block. symmetry.
  apply (for_range_commute (fun o : list Z * list Z => (packed <$> fst o, snd o))).
  intros lid o _. unfold Round_emit.
  apply (for_range_commute (fun o : list Z * list Z => (packed <$> fst o, snd o))).
  intros i o' _. cbv zeta.
  apply (for_range_commute (fun o : list Z * list Z => (packed <$> fst o, snd o))).
  intros loop o'' _.
  destruct (_ <? _); [|reflexivity].
  destruct (null compact_edge _) eqn:Hnull; [reflexivity|].
  apply null_u32_false in Hnull.
  destruct (Read2bCounter _ _ _); [|reflexivity].
  unfold Round_store, atomicAdd. cbv zeta. cbn [fst snd].
  rewrite list_fmap_insert. rewrite stored_packed by exact Hnull.
  unfold make_Edge_u32_u32. destruct (Z.land round 1 =? 0); reflexivity.
Qed.

Lemma Round_packed_source (blocks tpb : Z) (dst : list uint2) (dstIds : list Z) :
  (forall k : nat, src !!! k <> 0 ->
     ~ (dipnode SIPROUND EDGEBITS sipkeys (src !!! k) 0 = 0
        /\ dipnode SIPROUND EDGEBITS sipkeys (src !!! k) 1 = 0)) ->
  Round XBITS YBITS ZBITS uint2_edge make_Edge_uint2_uint2 NP maxIn maxOut
    blocks tpb round sipkeys (packed <$> src) dst srcIds dstIds
  = Round XBITS YBITS ZBITS compact_edge make_Edge_u32_uint2 NP maxIn maxOut
      blocks tpb round sipkeys src dst srcIds dstIds.
Proof using Type.
  intros Hsrc. unfold Round. apply for_range_ext. intros group out _.
  apply Round_block_packed_source. exact Hsrc.
Qed.

Lemma Round_packed_destination (blocks tpb : Z) (dst : list Z)
    (dstIds : list Z) :
  Round XBITS YBITS ZBITS compact_edge make_Edge_u32_uint2 NP maxIn maxOut
    blocks tpb round sipkeys src (packed <$> dst) srcIds dstIds
  = (fun o : list Z * list Z => (packed <$> fst o, snd o))
      (Round XBITS YBITS ZBITS compact_edge make_Edge_u32_u32 NP maxIn maxOut
         blocks tpb round sipkeys src dst srcIds dstIds).
Proof using Type.
  unfold Round. symmetry.
  apply (for_range_commute (fun o : list Z * list Z => (packed <$> fst o, snd o))).
  intros group out _. symmetry. apply Round_block_packed_destination.
Qed.

End CompactPacked.

(** X11: a round that reads nonces and hashes their endpoints on demand does
    what a round does that reads the endpoint pairs of the same nonces: on a
    compact source none of whose nonces has the edge (0, 0), which the
    packed form reads as the null edge, the two launches return the same
    destination and the same counters. *)
Theorem Round_on_nonces_matches_pairs (SIPROUND : lanes -> lanes)
    (EDGEBITS XBITS YBITS ZBITS : Z) (NP maxIn maxOut blocks tpb : Z)
    (round : Z) (sipkeys : siphash_keys) (src : list Z) (dst : list uint2)
    (srcIds dstIds : list Z) :
  (forall k : nat, src !!! k <> 0 ->
     ~ (dipnode SIPROUND EDGEBITS sipkeys (src !!! k) 0 = 0
        /\ dipnode SIPROUND EDGEBITS sipkeys (src !!! k) 1 = 0)) ->
  Round XBITS YBITS ZBITS uint2_edge make_Edge_uint2_uint2 NP maxIn maxOut
    blocks tpb round sipkeys (to_packed SIPROUND EDGEBITS sipkeys <$> src) dst
    srcIds dstIds
  = Round XBITS YBITS ZBITS (u32_edge SIPROUND EDGEBITS) make_Edge_u32_uint2
      NP maxIn maxOut blocks tpb round sipkeys src dst srcIds dstIds.
Proof.
  intros Hsrc. apply Round_packed_source. exact Hsrc.
Qed.

Lemma Round_on_nonces_matches_pairs_witness :
  Round 0 0 5 uint2_edge make_Edge_uint2_uint2 1 4 4 1 2 0 (mk_keys 13 0 0 0)
    (to_packed sipround 5 (mk_keys 13 0 0 0) <$> [3; 9; 0; 21])
    (replicate 4 (make_uint2 0 0)) [4] [0]
  = Round 0 0 5 (u32_edge sipround 5) make_Edge_u32_uint2 1 4 4 1 2 0
      (mk_keys 13 0 0 0) [3; 9; 0; 21] (replicate 4 (make_uint2 0 0)) [4] [0].
Proof.
  apply (Round_on_nonces_matches_pairs sipround 5 0 0 5 1 4 4 1 2 0
           (mk_keys 13 0 0 0) [3; 9; 0; 21]).
  intros k Hk [H0 H1].
  do 4 (destruct k as [|k]; [vm_compute in H0; try discriminate H0;
                             apply Hk; reflexivity|]).
  apply Hk. reflexivity.
Defined.

(** X12: whether a round stores the nonce of a surviving edge or both its
    endpoints, it stores the same edges in the same slots: the destination
    of the launch that stores pairs is the packed image of the destination
    of the launch that stores nonces, and the counters are the same. *)
Theorem Round_storing_pairs_matches_nonces (SIPROUND : lanes -> lanes)
    (EDGEBITS XBITS YBITS ZBITS : Z) (NP maxIn maxOut blocks tpb : Z)
    (round : Z) (sipkeys : siphash_keys) (src : list Z) (dst : list Z)
    (srcIds dstIds : list Z) :
  let compact :=
    Round XBITS YBITS ZBITS (u32_edge SIPROUND EDGEBITS) make_Edge_u32_u32 NP
      maxIn maxOut blocks tpb round sipkeys src dst srcIds dstIds in
  Round XBITS YBITS ZBITS (u32_edge SIPROUND EDGEBITS) make_Edge_u32_uint2 NP
    maxIn maxOut blocks tpb round sipkeys src
    (to_packed SIPROUND EDGEBITS sipkeys <$> dst) srcIds dstIds
  = (to_packed SIPROUND EDGEBITS sipkeys <$> fst compact, snd compact).
Proof.
  cbv zeta.
  apply (Round_packed_destination SIPROUND EDGEBITS XBITS YBITS ZBITS sipkeys
           NP maxIn maxOut round src srcIds blocks tpb dst dstIds).
Qed.

(** ** The nonces the compact pipeline carries *)

(** A property of everything an array can be read to hold. *)
Lemma all_slots_app {A : Type} `{!Inhabited A} (P : A -> Prop) (l1 l2 : list A) :
  (forall j : nat, P (l1 !!! j)) -> (forall j : nat, P (l2 !!! j)) ->
  forall j : nat, P ((l1 ++ l2) !!! j).
Proof.
  intros H1 H2 j. destruct (decide (j < length l1)%nat) as [Hlt|Hge].
  - rewrite lookup_total_app_l by exact Hlt. apply H1.
  - rewrite lookup_total_app_r by lia. apply H2.
Qed.

Lemma all_slots_drop {A : Type} `{!Inhabited A} (P : A -> Prop) (n : nat)
    (l : list A) :
  (forall j : nat, P (l !!! j)) -> forall j : nat, P (drop n l !!! j).
Proof. intros H j. rewrite lookup_total_drop. apply H. Qed.

Lemma all_slots_replicate {A : Type} `{!Inhabited A} (P : A -> Prop) (n : nat)
    (x : A) :
  P x -> P inhabitant -> forall j : nat, P (replicate n x !!! j).
Proof.
  intros Hx Hd j. destruct (decide (j < n)%nat) as [Hlt|Hge].
  - rewrite lookup_total_replicate_2 by exact Hlt. exact Hx.
  - rewrite list_lookup_total_alt, (proj1 (lookup_replicate_None _ _ _)) by lia.
    exact Hd.
Qed.

Lemma zeroed_nonneg (n : Z) : forall b : nat, 0 <= zeroed n !!! b.
Proof.
  intros b. unfold zeroed.
  apply (all_slots_replicate (fun x => 0 <= x)); reflexivity.
Qed.

Section CompactRange.

Variable SIPROUND : lanes -> lanes.
Variables EDGEBITS XBITS YBITS ZBITS : Z.
Variable sipkeys : siphash_keys.

Hypothesis HX : 0 <= XBITS.
Hypothesis HY : 0 <= YBITS.
Hypothesis HZ : 0 <= ZBITS.
Hypothesis Hbits : EDGEBITS = XBITS + YBITS + ZBITS.

(** A slot holds a nonce of the graph. *)
Local Abbreviation nonces l :=
  (forall j : nat, 0 <= l !!! j < NEDGES EDGEBITS).

Lemma NEDGES_pos : 0 < NEDGES EDGEBITS.
Proof using HX HY HZ Hbits. unfold NEDGES. apply Z.pow_pos_nonneg; lia. Qed.

Lemma nonces_region (n : Z) : nonces (@region Z _ n).
Proof using HX HY HZ Hbits.
  pose proof NEDGES_pos. unfold region.
  apply (all_slots_replicate (fun x => 0 <= x < NEDGES EDGEBITS));
    change (@inhabitant Z _) with 0; lia.
Qed.

(** The nonce of thread [gid] in iteration [i] is below NEDGES. *)
Lemma thread_nonce_range (blocks dim group lid i : Z) :
  0 <= group < blocks -> 0 <= lid < dim ->
  0 <= i < NEDGES EDGEBITS / (blocks * dim) ->
  0 <= u32 ((group * dim + lid) * (NEDGES EDGEBITS / (blocks * dim)) + i)
    < NEDGES EDGEBITS.
Proof using HX HY HZ Hbits.
  intros Hg Hl Hi. pose proof NEDGES_pos as Hn.
  set (loops := NEDGES EDGEBITS / (blocks * dim)) in *.
  assert (Hle : blocks * dim * loops <= NEDGES EDGEBITS).
  { subst loops. apply Z.mul_div_le. nia. }
  assert (Hgid : 0 <= group * dim + lid <= blocks * dim - 1) by nia.
  assert (Hmul : (group * dim + lid) * loops <= (blocks * dim - 1) * loops)
    by (apply Z.mul_le_mono_nonneg_r; lia).
  assert (Hx : 0 <= (group * dim + lid) * loops + i < NEDGES EDGEBITS) by nia.
  pose proof (u32_le _ (proj1 Hx)). pose proof (u32_nonneg ((group * dim + lid) * loops + i)).
  lia.
Qed.

Lemma Cuckoo_SeedA_nonces (FLUSHA maxOut blocks tpb : Z) (buffer : list Z)
    (indexes : list Z) :
  0 < FLUSHA -> 2 * FLUSHA <= maxOut ->
  nonces buffer -> (forall b : nat, 0 <= indexes !!! b) ->
  nonces (fst (Cuckoo_SeedA SIPROUND EDGEBITS XBITS YBITS ZBITS FLUSHA
                 make_Edge_u32_u32 false maxOut blocks tpb sipkeys buffer
                 indexes))
  /\ (forall b : nat,
        0 <= snd (Cuckoo_SeedA SIPROUND EDGEBITS XBITS YBITS ZBITS FLUSHA
                    make_Edge_u32_u32 false maxOut blocks tpb sipkeys buffer
                    indexes) !!! b).
Proof using HX HY HZ Hbits.
  intros HF Hcap Hbuf Hidx. unfold Cuckoo_SeedA.
  pose proof (NX_pos XBITS HX) as Hnx.
  apply (for_range_invariant
           (fun out : list Z * list Z =>
              nonces (fst out) /\ (forall b : nat, 0 <= snd out !!! b)));
    [split; assumption|].
  intros group out Hgroup [Hb Hi]. unfold Cuckoo_SeedA_block. cbv zeta.
  cbn [fst snd].
  set (G := fun (_ : Z) (e : Z) => 0 <= e < NEDGES EDGEBITS).
  set (Q := fun (_ : nat) (e : Z) => 0 <= e < NEDGES EDGEBITS).
  set (bucket_of := fun row => row * NX XBITS + group mod NX XBITS).
  assert (Hcol : 0 <= group mod NX XBITS < NX XBITS)
    by (apply Z.mod_pos_bound; exact Hnx).
  assert (Hbucket : forall key, 0 <= key < NX XBITS -> 0 <= bucket_of key)
    by (intros; subst bucket_of; cbv beta; nia).
  assert (HGQ : forall key e (j : nat), 0 <= key < NX XBITS -> G key e ->
            bucket_of key * maxOut <= Z.of_nat j < (bucket_of key + 1) * maxOut ->
            Q j e) by (intros key e j _ Hg _; exact Hg).
  match goal with |- context [out_buffer ?st] => set (final := st) end.
  assert (Hok : tile_ok XBITS FLUSHA G Q final).
  { subst final.
    apply (tile_finish_ok XBITS FLUSHA maxOut bucket_of G Q HX HF Hcap Hbucket HGQ).
    apply (for_range_invariant (tile_ok XBITS FLUSHA G Q)).
    - apply (tile_start_ok XBITS FLUSHA maxOut bucket_of G Q HX HF Hcap Hbucket
               HGQ); assumption.
    - intros i st Hiter Hst.
      apply (tile_round_ok XBITS FLUSHA maxOut bucket_of G Q HX HF Hcap Hbucket
               HGQ); [|exact Hst].
      intros lid key e Hlid Hitem. injection Hitem as <- <-.
      split.
      + apply (row_range EDGEBITS XBITS YBITS ZBITS HX HY HZ Hbits).
        apply dipnode_range. lia.
      + subst G. cbv beta. unfold make_Edge_u32_u32.
        apply thread_nonce_range; assumption. }
  destruct Hok as (_ & _ & _ & _ & _ & HQ & HI). split; assumption.
Qed.

Lemma SeedB_nonces (FLUSHB maxOut blocks tpb : Z) (source destination : list Z)
    (sourceIndexes destinationIndexes : list Z) :
  0 < FLUSHB -> 2 * FLUSHB <= maxOut ->
  nonces source -> nonces destination ->
  (forall b : nat, 0 <= destinationIndexes !!! b) ->
  nonces (fst (SeedB XBITS ZBITS FLUSHB (u32_edge SIPROUND EDGEBITS) maxOut
                 blocks tpb sipkeys source destination sourceIndexes
                 destinationIndexes)).
Proof using HX HY HZ Hbits.
  intros HF Hcap Hsrc Hdst Hidx. unfold SeedB.
  pose proof (NX_pos XBITS HX) as Hnx.
  apply (for_range_invariant
           (fun out : list Z * list Z =>
              nonces (fst out) /\ (forall b : nat, 0 <= snd out !!! b)));
    [split; assumption|].
  intros group out Hgroup [Hb Hi]. unfold SeedB_block. cbv zeta. cbn [fst snd].
  set (G := fun (_ : Z) (e : Z) => 0 <= e < NEDGES EDGEBITS).
  set (Q := fun (_ : nat) (e : Z) => 0 <= e < NEDGES EDGEBITS).
  set (bucket_of := fun col => group / NX XBITS * NX XBITS + col).
  assert (Hrow : 0 <= group / NX XBITS) by (apply Z.div_pos; lia).
  assert (Hbucket : forall key, 0 <= key < NX XBITS -> 0 <= bucket_of key)
    by (intros; subst bucket_of; cbv beta; nia).
  assert (HGQ : forall key e (j : nat), 0 <= key < NX XBITS -> G key e ->
            bucket_of key * maxOut <= Z.of_nat j < (bucket_of key + 1) * maxOut ->
            Q j e) by (intros key e j _ Hg _; exact Hg).
  match goal with |- context [out_buffer ?st] => set (final := st) end.
  assert (Hok : tile_ok XBITS FLUSHB G Q final).
  { subst final.
    apply (tile_finish_ok XBITS FLUSHB maxOut bucket_of G Q HX HF Hcap Hbucket HGQ).
    apply (for_range_invariant (tile_ok XBITS FLUSHB G Q)).
    - apply (tile_start_ok XBITS FLUSHB maxOut bucket_of G Q HX HF Hcap Hbucket
               HGQ); assumption.
    - intros loop st _ Hst.
      apply (tile_round_ok XBITS FLUSHB maxOut bucket_of G Q HX HF Hcap Hbucket
               HGQ); [|exact Hst].
      intros lid key e _ Hitem. unfold SeedB_item in Hitem. cbv zeta in Hitem.
      destruct (_ <? _) in Hitem; [|discriminate].
      destruct (null _ _) in Hitem; [discriminate|].
      injection Hitem as <- <-.
      split; [apply land_XMASK_range; exact HX|]. apply Hsrc. }
  destruct Hok as (_ & _ & _ & _ & _ & HQ & HI). split; assumption.
Qed.

Lemma Round_nonces (NP maxIn maxOut blocks tpb round : Z) (src dst : list Z)
    (srcIds dstIds : list Z) :
  nonces src -> nonces dst ->
  nonces (fst (Round XBITS YBITS ZBITS (u32_edge SIPROUND EDGEBITS)
                 make_Edge_u32_u32 NP maxIn maxOut blocks tpb round sipkeys src
                 dst srcIds dstIds)).
Proof using Type.
  intros Hsrc Hdst. unfold Round.
  apply (for_range_invariant (fun out : list Z * list Z => nonces (fst out)));
    [exact Hdst|].
  intros group out _ Hout. unfold Round_block.
  apply (for_range_invariant (fun out : list Z * list Z => nonces (fst out)));
    [exact Hout|].
  intros lid o _ Ho. unfold Round_emit.
  apply (for_range_invariant (fun out : list Z * list Z => nonces (fst out)));
    [exact Ho|].
  intros i o' _ Ho'. cbv zeta.
  apply (for_range_invariant (fun out : list Z * list Z => nonces (fst out)));
    [exact Ho'|].
  intros loop o'' _ Ho''.
  destruct (_ <? _); [|exact Ho''].
  destruct (null _ _); [exact Ho''|].
  destruct (Read2bCounter _ _ _); [|exact Ho''].
  unfold Round_store, atomicAdd. cbv zeta. cbn [fst snd]. intros j.
  match goal with |- context [<[?k := ?x]> (fst o'') !!! j] =>
    destruct (insert_lookup_total_cases (fst o'') k j x) as [->|[_ ->]]
  end; [apply Ho''|].
  unfold make_Edge_u32_u32. destruct (Z.land round 1 =? 0); apply Hsrc.
Qed.

End CompactRange.

(** ** expand = 1 and expand = 2 *)

Lemma for_range_commute_from {S T : Type} (h : S -> T) (n : Z)
    (f : Z -> S -> S) (g : Z -> T -> T) (s : S) (t : T) :
  t = h s ->
  (forall i s, 0 <= i < n -> h (f i s) = g i (h s)) ->
  for_range n g t = h (for_range n f s).
Proof. intros -> Hstep. symmetry. apply for_range_commute. exact Hstep. Qed.

Section ExpandOneTwo.

Variable SIPROUND : lanes -> lanes.
Variables EDGEBITS XBITS YBITS ZBITS FLUSHA FLUSHB EDGES_A EDGES_B NA NB : Z.
Variable tp : trimparams.
Variable sipkeys : siphash_keys.

Hypothesis HX : 0 <= XBITS.
Hypothesis HY : 0 <= YBITS.
Hypothesis HZ : 0 <= ZBITS.
Hypothesis Hbits : EDGEBITS = XBITS + YBITS + ZBITS.
Hypothesis HFA : 0 < FLUSHA.
Hypothesis HcapA : 2 * FLUSHA <= EDGES_A.
Hypothesis HFB : 0 < FLUSHB.
Hypothesis HcapB : 2 * FLUSHB <= EDGES_A.

Local Abbreviation packed := (to_packed SIPROUND EDGEBITS sipkeys).
Local Abbreviation compact_edge := (u32_edge SIPROUND EDGEBITS).
Local Abbreviation nonces l :=
  (forall j : nat, 0 <= l !!! j < NEDGES EDGEBITS).

Lemma nonces_nil : nonces (@nil Z).
Proof using HX HY HZ Hbits.
  intros j. pose proof (NEDGES_pos EDGEBITS XBITS YBITS ZBITS HX HY HZ Hbits).
  rewrite lookup_total_nil. change (0 <= 0 < NEDGES EDGEBITS). lia.
Qed.

Lemma SeedB_launches_nonces (bufferAB indexesE1 : list Z) :
  nonces bufferAB ->
  nonces (fst (SeedB_launches XBITS YBITS ZBITS FLUSHB EDGES_A NA compact_edge
                 tp sipkeys bufferAB indexesE1)).
Proof using HX HY HZ Hbits HFB HcapB.
  intros HAB. unfold SeedB_launches. cbv zeta.
  apply (for_range_invariant (fun done : list Z * list Z => nonces (fst done)));
    [apply nonces_nil|].
  intros i done _ Hdone.
  match goal with |- context [SeedB ?a ?b ?c ?d ?e ?f ?g ?h ?s ?dst ?si ?di] =>
    pose proof (SeedB_nonces SIPROUND EDGEBITS XBITS YBITS ZBITS sipkeys
                  HX HY HZ Hbits c e f g s dst si di HFB HcapB) as Hpart;
    destruct (SeedB a b c d e f g h s dst si di) as [part ids]
  end.
  cbn [fst snd] in *.
  apply (all_slots_app (fun x => 0 <= x < NEDGES EDGEBITS)); [exact Hdone|].
  apply Hpart.
  - apply (all_slots_drop (fun x => 0 <= x < NEDGES EDGEBITS)). exact HAB.
  - apply (nonces_region EDGEBITS XBITS YBITS ZBITS HX HY HZ Hbits).
  - apply zeroed_nonneg.
Qed.

Lemma Round0_launches_nonces (bufferA indexesE0 : list Z) :
  nonces bufferA ->
  nonces (fst (Round0_launches XBITS YBITS ZBITS EDGES_A EDGES_B NB compact_edge
                 make_Edge_u32_u32 tp sipkeys bufferA indexesE0)).
Proof using HX HY HZ Hbits.
  intros HA. unfold Round0_launches. cbv zeta.
  apply (for_range_invariant (fun done : list Z * list Z => nonces (fst done)));
    [apply nonces_nil|].
  intros i done _ Hdone.
  match goal with |- context [Round ?a ?b ?c ?d ?e ?np ?mi ?mo ?bl ?t ?r ?k ?s ?dst ?si ?di] =>
    pose proof (Round_nonces SIPROUND EDGEBITS a b c sipkeys np mi mo bl t r
                  s dst si di) as Hpart;
    destruct (Round a b c d e np mi mo bl t r k s dst si di) as [part ids]
  end.
  cbn [fst snd] in *.
  apply (all_slots_app (fun x => 0 <= x < NEDGES EDGEBITS)); [exact Hdone|].
  apply Hpart.
  - apply (all_slots_drop (fun x => 0 <= x < NEDGES EDGEBITS)). exact HA.
  - apply (nonces_region EDGEBITS XBITS YBITS ZBITS HX HY HZ Hbits).
Qed.

Lemma region_packed (n : Z) : @region uint2 _ n = packed <$> @region Z _ n.
Proof using Type. unfold region. rewrite fmap_replicate. reflexivity. Qed.

(** Round 0 storing pairs writes the packed image of what round 0 storing
    nonces writes, launch by launch. *)
Lemma Round0_launches_packed (bufferA indexesE0 : list Z) :
  Round0_launches XBITS YBITS ZBITS EDGES_A EDGES_B NB compact_edge
    make_Edge_u32_uint2 tp sipkeys bufferA indexesE0
  = (fun o : list Z * list Z => (packed <$> fst o, snd o))
      (Round0_launches XBITS YBITS ZBITS EDGES_A EDGES_B NB compact_edge
         make_Edge_u32_u32 tp sipkeys bufferA indexesE0).
Proof using Type.
  unfold Round0_launches. cbv zeta.
  apply (for_range_commute_from
           (fun o : list Z * list Z => (packed <$> fst o, snd o)));
    [reflexivity|].
  intros i done _. rewrite region_packed.
  rewrite (Round_packed_destination SIPROUND EDGEBITS XBITS YBITS ZBITS sipkeys).
  match goal with |- context [Round ?a ?b ?c ?d ?e ?np ?mi ?mo ?bl ?t ?r ?k ?s ?dst ?si ?di] =>
    destruct (Round a b c d e np mi mo bl t r k s dst si di) as [part ids]
  end.
  cbn [fst snd]. rewrite fmap_app. reflexivity.
Qed.

(** No nonce from 1 to NEDGES - 1 has the edge (0, 0), which the packed
    form reads as the null edge. *)
Hypothesis Hnonnull : forall n, 0 < n < NEDGES EDGEBITS ->
  ~ (dipnode SIPROUND EDGEBITS sipkeys n 0 = 0
     /\ dipnode SIPROUND EDGEBITS sipkeys n 1 = 0).

Lemma trim_seed_expand_1_2 (buf0 : list Z) :
  trim_seed SIPROUND EDGEBITS XBITS YBITS ZBITS FLUSHA FLUSHB EDGES_A EDGES_B
    NA NB 0 (with_expand 1 tp) sipkeys buf0
  = trim_seed SIPROUND EDGEBITS XBITS YBITS ZBITS FLUSHA FLUSHB EDGES_A EDGES_B
      NA NB 0 (with_expand 2 tp) sipkeys buf0.
Proof using HX HY HZ Hbits HFA HcapA HFB HcapB Hnonnull.
  unfold trim_seed, with_expand. cbn [expand genA genB tp_trim].
  change (negb (0 =? 0) || (1 =? 0)) with false.
  change (negb (0 =? 0) || (2 =? 0)) with false.
  change (1 =? 1) with true. change (2 =? 1) with false. cbv iota.
  fold (with_expand 1 tp). fold (with_expand 2 tp).
  pose proof (Cuckoo_SeedA_nonces SIPROUND EDGEBITS XBITS YBITS ZBITS sipkeys
                HX HY HZ Hbits FLUSHA EDGES_A (blocks (genA tp)) (tpb (genA tp))
                (region (NX2 XBITS YBITS * EDGES_A)) (zeroed (NX2 XBITS YBITS))
                HFA HcapA
                (nonces_region EDGEBITS XBITS YBITS ZBITS HX HY HZ Hbits _)
                (zeroed_nonneg _)) as [HAB _].
  destruct (Cuckoo_SeedA _ _ _ _ _ _ _ _ _ _ _ _ _ _) as [bufferAB indexesE1].
  cbn [fst] in HAB.
  assert (Hsame : forall e,
            SeedB_launches XBITS YBITS ZBITS FLUSHB EDGES_A NA compact_edge
              (with_expand e tp) sipkeys bufferAB indexesE1
            = SeedB_launches XBITS YBITS ZBITS FLUSHB EDGES_A NA compact_edge
                tp sipkeys bufferAB indexesE1) by reflexivity.
  rewrite !Hsame.
  pose proof (SeedB_launches_nonces bufferAB indexesE1 HAB) as HA.
  destruct (SeedB_launches _ _ _ _ _ _ _ _ _ _ _) as [bufferA indexesE0].
  cbn [fst] in HA.
  assert (Hsame0 : forall e (mk : Z -> Z -> Z -> uint2),
            Round0_launches XBITS YBITS ZBITS EDGES_A EDGES_B NB compact_edge mk
              (with_expand e tp) sipkeys bufferA indexesE0
            = Round0_launches XBITS YBITS ZBITS EDGES_A EDGES_B NB compact_edge
                mk tp sipkeys bufferA indexesE0) by reflexivity.
  assert (Hsame0' : forall e (mk : Z -> Z -> Z -> Z),
            Round0_launches XBITS YBITS ZBITS EDGES_A EDGES_B NB compact_edge mk
              (with_expand e tp) sipkeys bufferA indexesE0
            = Round0_launches XBITS YBITS ZBITS EDGES_A EDGES_B NB compact_edge
                mk tp sipkeys bufferA indexesE0) by reflexivity.
  rewrite Hsame0, Hsame0'. rewrite Round0_launches_packed.
  pose proof (Round0_launches_nonces bufferA indexesE0 HA) as HB.
  destruct (Round0_launches _ _ _ _ _ _ _ _ _ _ _ _) as [bufferB indexesB].
  cbn [fst snd] in *.
  unfold Round1_launch. cbn [tp_trim with_expand].
  apply (Round_packed_source SIPROUND EDGEBITS XBITS YBITS ZBITS sipkeys).
  intros k Hk. apply Hnonnull. specialize (HB k). lia.
Qed.

End ExpandOneTwo.



(** ** dipblock and the buffer it is given *)

(** X14: what dipblock returns depends on the key and on the block of 64
    nonces that its nonce lies in, not on which nonce of the block it is
    given, nor on what the 64 slots of the buffer held before: every slot
    is overwritten. *)
Theorem dipblock_overwrites_buffer (SIPROUND : lanes -> lanes)
    (K : siphash_keys) (n n' : Z) (buf buf' : list Z) :
  0 <= n < 2 ^ 32 -> 0 <= n' < 2 ^ 32 -> n / 64 = n' / 64 ->
  length buf = 64%nat -> length buf' = 64%nat ->
  dipblock SIPROUND K n buf = dipblock SIPROUND K n' buf'
  /\ length (snd (dipblock SIPROUND K n buf)) = 64%nat
  /\ snd (dipblock SIPROUND K n buf) !!! 63%nat = 0.
Proof.
  intros Hn Hn' Hblock Hlen Hlen'.
  destruct (dipblock_chain SIPROUND K n buf Hn Hlen) as (b & Heq & Hl & H63 & Hlt).
  destruct (dipblock_chain SIPROUND K n' buf' Hn' Hlen')
    as (b' & Heq' & Hl' & H63' & Hlt').
  rewrite Heq, Heq'. cbn [snd]. rewrite <- Hblock.
  split; [|split; [exact Hl|apply list_lookup_total_correct; exact H63]].
  f_equal. apply list_eq. intros j.
  destruct (decide (j < 63)%nat) as [Hj|Hj].
  - rewrite Hlt, Hlt' by exact Hj. rewrite Hblock. reflexivity.
  - destruct (decide (j = 63%nat)) as [->|Hne].
    + rewrite H63, H63'. reflexivity.
    + rewrite !lookup_ge_None_2 by lia. reflexivity.
Qed.

Lemma dipblock_overwrites_buffer_witness :
  dipblock sipround (mk_keys 1 2 3 4) 65 (replicate 64 0)
  = dipblock sipround (mk_keys 1 2 3 4) 100 (replicate 64 7)
  /\ length (snd (dipblock sipround (mk_keys 1 2 3 4) 65 (replicate 64 0))) = 64%nat
  /\ snd (dipblock sipround (mk_keys 1 2 3 4) 65 (replicate 64 0)) !!! 63%nat = 0.
Proof.
  apply (dipblock_overwrites_buffer sipround (mk_keys 1 2 3 4) 65 100
           (replicate 64 0) (replicate 64 7)).
  - lia.
  - lia.
  - reflexivity.
  - reflexivity.
  - reflexivity.
Defined.

(** ** The compact stages carry nonces of the graph *)



(** ** The buckets a seeding block writes *)

Section SeedLanes.

Variable SIPROUND : lanes -> lanes.
Variables EDGEBITS XBITS YBITS ZBITS FLUSH maxOut : Z.
Variable sipkeys : siphash_keys.
Context {E : Type} `{!Inhabited E}.

Hypothesis HX : 0 <= XBITS.
Hypothesis HF : 0 < FLUSH.
Hypothesis Hcap : 2 * FLUSH <= maxOut.

(** A block whose tile rows are flushed to the buckets [bucket_of key], all
    of them in the lane [lane] (a column for Seed A, a row for Seed B),
    leaves the slots of the other lanes as they were. *)
Lemma tile_block_lane (lane_of : Z -> Z) (lane : Z) (bucket_of : Z -> Z)
    (body : @seeding E -> @seeding E) (dim : Z) (out : list E * list Z) :
  (forall key, 0 <= key < NX XBITS -> 0 <= bucket_of key) ->
  (forall key (j : nat), 0 <= key < NX XBITS ->
     bucket_of key * maxOut <= Z.of_nat j < (bucket_of key + 1) * maxOut ->
     lane_of (Z.of_nat j / maxOut) = lane) ->
  (forall G Q st,
     (forall key e (j : nat), 0 <= key < NX XBITS -> G key e ->
        bucket_of key * maxOut <= Z.of_nat j < (bucket_of key + 1) * maxOut ->
        Q j e) ->
     tile_ok XBITS FLUSH G Q st -> G = (fun _ _ => True) ->
     tile_ok XBITS FLUSH G Q (body st)) ->
  (forall b : nat, 0 <= snd out !!! b) ->
  forall j : nat, lane_of (Z.of_nat j / maxOut) <> lane ->
    out_buffer (tile_finish XBITS FLUSH maxOut dim bucket_of
                  (body (tile_start XBITS FLUSH (fst out) (snd out)))) !!! j
    = fst out !!! j.
Proof using HX HF Hcap.
  intros Hbucket Hlane Hbody Hidx j Hj.
  set (G := fun (_ : Z) (_ : E) => True).
  set (Q := fun (j : nat) (e : E) =>
              lane_of (Z.of_nat j / maxOut) <> lane -> e = fst out !!! j).
  assert (HGQ : forall key e (j : nat), 0 <= key < NX XBITS -> G key e ->
            bucket_of key * maxOut <= Z.of_nat j < (bucket_of key + 1) * maxOut ->
            Q j e).
  { intros key e j' Hkey _ Hslot Hne. exfalso. apply Hne.
    apply (Hlane key); assumption. }
  assert (Hok : tile_ok XBITS FLUSH G Q
                  (tile_finish XBITS FLUSH maxOut dim bucket_of
                     (body (tile_start XBITS FLUSH (fst out) (snd out))))).
  { apply (tile_finish_ok XBITS FLUSH maxOut bucket_of G Q HX HF Hcap Hbucket HGQ).
    apply (Hbody G Q); [exact HGQ| |reflexivity].
    apply (tile_start_ok XBITS FLUSH maxOut bucket_of G Q HX HF Hcap Hbucket HGQ);
      [|exact Hidx].
    intros j' _. reflexivity. }
  destruct Hok as (_ & _ & _ & _ & _ & HQ & _). apply HQ. exact Hj.
Qed.

End SeedLanes.

Lemma column_of_slot (XBITS maxOut col key : Z) (j : nat) :
  0 <= XBITS -> 0 < maxOut -> 0 <= col < NX XBITS -> 0 <= key ->
  (key * NX XBITS + col) * maxOut <= Z.of_nat j
    < (key * NX XBITS + col + 1) * maxOut ->
  (Z.of_nat j / maxOut) mod NX XBITS = col.
Proof.
  intros HX Hm Hcol Hkey Hj.
  apply (slot_bucket XBITS maxOut key col j); assumption.
Qed.

Lemma row_of_slot (XBITS maxOut row key : Z) (j : nat) :
  0 <= XBITS -> 0 < maxOut -> 0 <= row -> 0 <= key < NX XBITS ->
  (row * NX XBITS + key) * maxOut <= Z.of_nat j
    < (row * NX XBITS + key + 1) * maxOut ->
  Z.of_nat j / maxOut / NX XBITS = row.
Proof.
  intros HX Hm Hrow Hkey Hj.
  apply (slot_bucket XBITS maxOut row key j); assumption.
Qed.



(** ** The counters a round leaves *)

Lemma filter_length_Permutation {A : Type} (P : A -> Prop)
    `{!forall x, Decision (P x)} (l l' : list A) :
  l ≡ₚ l' -> length (filter P l) = length (filter P l').
Proof.
  intros Hperm. apply Permutation_length. apply filter_Permutation. exact Hperm.
Qed.

Lemma u32_add_u32_l (x y : Z) : u32 (u32 x + y) = u32 (x + y).
Proof. unfold u32. apply Zplus_mod_idemp_l. Qed.

Section RoundCounters.

Variables XBITS YBITS ZBITS : Z.
Context {EdgeIn EdgeOut : Type} `{!Inhabited EdgeIn}.
Variable edge_in : EdgeType EdgeIn.
Variable make_Edge : EdgeIn -> Z -> Z -> EdgeOut.
Variables NP maxIn maxOut : Z.
Variable round : Z.
Variable sipkeys : siphash_keys.

Local Abbreviation counted := (Round_counted edge_in round sipkeys).
Local Abbreviation target e :=
  (Z.to_nat (Z.shiftr (endpoint edge_in sipkeys e (Z.lxor (Z.land round 1) 1))
               ZBITS)).

(** A run of stores takes the counter of bucket [b] up by the number of its
    edges that go to [b], on 32 bits. *)
Lemma fold_Round_store_counter (l : list EdgeIn) (b : nat) :
  forall out : list EdgeOut * list Z,
    (b < length (snd out))%nat ->
    let out' :=
      fold_left (fun out e =>
        Round_store ZBITS edge_in make_Edge maxOut round sipkeys e (counted e) out)
        l out in
    let c := Z.of_nat (length (filter (fun e => target e = b) l)) in
    length (snd out') = length (snd out)
    /\ snd out' !!! b = if c =? 0 then snd out !!! b else u32 (snd out !!! b + c).
Proof using Type.
  induction l as [|e l IH]; intros out Hb; cbv zeta.
  - cbn. split; reflexivity.
  - cbn [fold_left].
    set (o1 := Round_store ZBITS edge_in make_Edge maxOut round sipkeys e
                 (counted e) out).
    assert (H1 : snd o1 = <[target e := u32 (snd out !!! target e + 1)]> (snd out)).
    { subst o1. unfold Round_store, atomicAdd. cbv zeta. cbn [fst snd].
      reflexivity. }
    assert (Hb1 : (b < length (snd o1))%nat)
      by (rewrite H1, length_insert; exact Hb).
    destruct (IH o1 Hb1) as [Hlen Hval]. cbv zeta in Hlen, Hval.
    split; [rewrite Hlen, H1, length_insert; reflexivity|].
    rewrite Hval. clear Hval Hlen IH. rewrite filter_cons.
    destruct (decide (target e = b)) as [Heq|Hne].
    + rewrite H1, Heq. rewrite list_lookup_total_insert_eq by exact Hb.
      cbn [length]. rewrite Nat2Z.inj_succ. unfold Z.succ.
      match goal with |- context [Z.of_nat ?n] =>
        pose proof (Nat2Z.is_nonneg n) as Hc; generalize dependent (Z.of_nat n)
      end.
      intros c Hc.
      destruct (Z.eqb_spec (c + 1) 0) as [|_]; [lia|].
      destruct (Z.eqb_spec c 0) as [->|_]; [reflexivity|].
      rewrite u32_add_u32_l. f_equal. lia.
    + rewrite H1. rewrite list_lookup_total_insert_ne by exact Hne.
      reflexivity.
Qed.

End RoundCounters.

(** X17: the counters of a round count every survivor.  A block of the Round
    kernel takes the counter of each destination bucket up, on 32 bits, by
    the number of surviving edges of its source bucket that go to that
    bucket (the live edges whose counted Z bits occur twice or more, filed
    by their other endpoint), whatever the capacity of the bucket: the
    counters grow even where the slots are clamped. *)
Theorem Round_counters_count_survivors (XBITS YBITS ZBITS : Z)
    {EdgeIn EdgeOut : Type} `{!Inhabited EdgeIn} (edge_in : EdgeType EdgeIn)
    (make_Edge : EdgeIn -> Z -> Z -> EdgeOut) (NP maxIn maxOut : Z)
    (round : Z) (sipkeys : siphash_keys) (src : list EdgeIn) (srcIds : list Z)
    (dim group : Z) (out : list EdgeOut * list Z) (b : nat) :
  5 <= ZBITS -> 0 < dim -> (b < length (snd out))%nat ->
  let live := Round_live XBITS YBITS edge_in NP maxIn src srcIds group in
  let zbits := fun e =>
    Z.land (Round_counted edge_in round sipkeys e) (ZMASK ZBITS) in
  let survivors :=
    filter (fun e =>
      (2 <= length (filter (fun e' => zbits e' = zbits e) live))%nat) live in
  let c :=
    Z.of_nat (length (filter (fun e =>
      Z.to_nat (Z.shiftr (endpoint edge_in sipkeys e (Z.lxor (Z.land round 1) 1))
                  ZBITS) = b) survivors)) in
  snd (Round_block XBITS YBITS ZBITS edge_in make_Edge NP maxIn maxOut round
         sipkeys src srcIds dim group out) !!! b
  = if c =? 0 then snd out !!! b else u32 (snd out !!! b + c).
Proof.
  intros HZ Hdim Hb live zbits survivors c.
  unfold Round_block.
  rewrite (Round_emit_fold XBITS YBITS ZBITS edge_in make_Edge NP maxIn maxOut
             round sipkeys src srcIds dim group).
  match goal with |- context [fold_left _ ?l out] => set (emitted := l) end.
  destruct (fold_Round_store_counter ZBITS edge_in make_Edge maxOut round
              sipkeys emitted b out Hb) as [_ Hval].
  cbv zeta in Hval. rewrite Hval.
  assert (Hperm : emitted ≡ₚ survivors).
  { subst emitted survivors.
    match goal with |- filter _ (filter _ ?s) ≡ₚ _ => set (sched := s) end.
    assert (Hlive : filter (fun e => null edge_in e = false) sched ≡ₚ live).
    { subst live. unfold Round_live. apply filter_Permutation.
      apply (thread_edges_Permutation XBITS YBITS NP maxIn src srcIds dim group
               Hdim). }
    rewrite (filter_Permutation _ _ _ Hlive).
    erewrite (list_filter_iff_in _
                (fun e => (2 <= length (filter (fun e' => zbits e' = zbits e)
                                          live))%nat)); [reflexivity|].
    intros e _.
    apply (Round_count_reads XBITS YBITS ZBITS HZ edge_in NP maxIn round sipkeys
             src srcIds dim group Hdim e). }
  subst c.
  rewrite (filter_length_Permutation _ _ _ Hperm). reflexivity.
Qed.

Lemma Round_counters_count_survivors_witness :
  let src := [make_uint2 1 40; make_uint2 1 70; make_uint2 2 33; make_uint2 0 0] in
  let out := (replicate 16 (make_uint2 0 0), replicate 4 0) in
  let live := Round_live 1 1 uint2_edge 1 4 src [4; 0; 0; 0] 0 in
  let zbits := fun e =>
    Z.land (Round_counted uint2_edge 0 (mk_keys 0 0 0 0) e) (ZMASK 5) in
  let survivors :=
    filter (fun e =>
      (2 <= length (filter (fun e' => zbits e' = zbits e) live))%nat) live in
  let c :=
    Z.of_nat (length (filter (fun e =>
      Z.to_nat (Z.shiftr (endpoint uint2_edge (mk_keys 0 0 0 0) e
                            (Z.lxor (Z.land 0 1) 1)) 5) = 1%nat) survivors)) in
  snd (Round_block 1 1 5 uint2_edge make_Edge_uint2_uint2 1 4 4 0
         (mk_keys 0 0 0 0) src [4; 0; 0; 0] 2 0 out) !!! 1%nat
  = if c =? 0 then snd out !!! 1%nat else u32 (snd out !!! 1%nat + c).
Proof.
  apply (Round_counters_count_survivors 1 1 5 uint2_edge make_Edge_uint2_uint2
           1 4 4 0 (mk_keys 0 0 0 0)
           [make_uint2 1 40; make_uint2 1 70; make_uint2 2 33; make_uint2 0 0]
           [4; 0; 0; 0] 2 0 (replicate 16 (make_uint2 0 0), replicate 4 0) 1).
  - lia.
  - lia.
  - cbn. lia.
Defined.

(** ** No edge is lost in the tiles *)

Lemma for_range_once {S : Type} (A Q : S -> Prop) (n i0 : Z)
    (body : Z -> S -> S) (s : S) :
  0 <= i0 < n -> A s ->
  (forall i s, 0 <= i < i0 -> A s -> A (body i s)) ->
  (forall s, A s -> Q (body i0 s)) ->
  (forall i s, i0 < i < n -> Q s -> Q (body i s)) ->
  Q (for_range n body s).
Proof.
  intros Hi0 Hs Hbefore Hat Hafter.
  replace n with (i0 + 1 + (n - i0 - 1)) by lia.
  rewrite for_range_add by lia.
  apply for_range_invariant.
  - rewrite for_range_succ by lia. apply Hat.
    apply for_range_invariant; [exact Hs|]. intros i s' Hi. apply Hbefore. exact Hi.
  - intros i s' Hi. apply Hafter. lia.
Qed.

Lemma bind_seqZ_succ {A : Type} (f : Z -> list A) (m : Z) :
  0 <= m -> seqZ 0 (m + 1) ≫= f = (seqZ 0 m ≫= f) ++ f m.
Proof.
  intros Hm. rewrite seqZ_app by lia. rewrite bind_app.
  f_equal. cbn. apply app_nil_r.
Qed.

Lemma bind_seqZ_prefix_length {A : Type} (f : Z -> list A) (m n : Z) :
  0 <= m <= n ->
  (length (seqZ 0 m ≫= f) <= length (seqZ 0 n ≫= f))%nat.
Proof.
  intros Hmn. replace n with (m + (n - m)) by lia.
  rewrite seqZ_app by lia. rewrite bind_app, length_app. lia.
Qed.

Section BucketWrites.

Context {E : Type} `{!Inhabited E}.
Variable maxOut : Z.
Hypothesis Hmax : 0 <= maxOut < 2 ^ 32.

(** The copy of the head of a tile row into a bucket. *)
Lemma tile_copy_lookup (bucket cnt n : Z) (row buffer : list E) :
  0 <= bucket -> 0 <= cnt ->
  let r := for_range n (fun i buffer =>
             <[Z.to_nat (bucket * maxOut + cnt + i) := row !!! Z.to_nat i]> buffer)
             buffer in
  length r = length buffer
  /\ (bucket * maxOut + cnt + n <= Z.of_nat (length buffer) ->
      forall i, 0 <= i < n ->
        r !!! Z.to_nat (bucket * maxOut + cnt + i) = row !!! Z.to_nat i)
  /\ (forall j : nat,
        ~ (bucket * maxOut + cnt <= Z.of_nat j < bucket * maxOut + cnt + n) ->
        r !!! j = buffer !!! j).
Proof using Hmax.
  intros Hb Hcnt.
  pose proof (for_range_store n (bucket * maxOut + cnt) (fun _ => true)
                (fun i => row !!! Z.to_nat i) buffer ltac:(nia)) as Hstore.
  cbv beta iota zeta in Hstore. cbv zeta.
  destruct Hstore as (Hlen & Hin & Hout).
  split; [exact Hlen|]. split.
  - intros Hfit i Hi. apply Hin; [exact Hi|reflexivity|nia].
  - intros j Hj. apply Hout. intros q Hq _ Heq. apply Hj. subst j.
    rewrite Z2Nat.id by nia. lia.
Qed.

Lemma bucket_prefix_app (b n : Z) (L L' : list E) (out : list E * list Z) :
  n <= Z.of_nat (length L) ->
  bucket_prefix maxOut b n L out -> bucket_prefix maxOut b n (L ++ L') out.
Proof using Type.
  intros Hn (Hidx & Hli & Hlb & Hsl).
  split; [exact Hidx|]. split; [exact Hli|]. split; [exact Hlb|].
  intros i Hi. rewrite lookup_total_app_l by lia. apply Hsl. exact Hi.
Qed.

(** A reservation of [m] slots in another bucket and the copy into them
    leave the bucket [b] as it is. *)
Lemma bucket_prefix_other_write (b bk m n : Z) (L row : list E)
    (buffer : list E) (indexes : list Z) :
  0 <= b -> 0 <= bk -> bk <> b -> 0 <= m <= maxOut -> 0 <= n <= maxOut ->
  0 <= indexes !!! Z.to_nat bk ->
  bucket_prefix maxOut b n L (buffer, indexes) ->
  bucket_prefix maxOut b n L
    (for_range m (fun i buffer =>
       <[Z.to_nat (bk * maxOut
                   + Z.min (fst (atomicAdd indexes bk m)) (maxOut - m) + i) :=
           row !!! Z.to_nat i]> buffer) buffer,
     snd (atomicAdd indexes bk m)).
Proof using Hmax.
  intros Hb Hbk Hne Hm Hn Hold (Hidx & Hli & Hlb & Hsl).
  unfold atomicAdd. cbn [fst snd] in *.
  set (cnt := Z.min (indexes !!! Z.to_nat bk) (maxOut - m)).
  destruct (tile_copy_lookup bk cnt m row buffer Hbk ltac:(lia))
    as (Hlen & _ & Hframe). cbv zeta in Hlen, Hframe.
  split; [|split; [|split]].
  - cbn [snd]. rewrite list_lookup_total_insert_ne by lia. exact Hidx.
  - cbn [snd]. rewrite length_insert. exact Hli.
  - cbn [fst]. rewrite Hlen. exact Hlb.
  - cbn [fst]. intros i Hi. rewrite Hframe; [apply Hsl; exact Hi|].
    rewrite Z2Nat.id by nia.
    assert (Hcases : (bk + 1) * maxOut <= b * maxOut
                     \/ (b + 1) * maxOut <= bk * maxOut) by nia.
    lia.
Qed.

(** A reservation of [m] slots in the bucket [b] and the copy into them
    extend what the bucket holds, when the bucket has room. *)
Lemma bucket_prefix_self_write (b m n : Z) (L row : list E)
    (buffer : list E) (indexes : list Z) :
  0 <= b -> 0 <= m -> 0 <= n -> n + m <= maxOut ->
  (forall i, 0 <= i < m -> row !!! Z.to_nat i = L !!! Z.to_nat (n + i)) ->
  bucket_prefix maxOut b n L (buffer, indexes) ->
  bucket_prefix maxOut b (n + m) L
    (for_range m (fun i buffer =>
       <[Z.to_nat (b * maxOut
                   + Z.min (fst (atomicAdd indexes b m)) (maxOut - m) + i) :=
           row !!! Z.to_nat i]> buffer) buffer,
     snd (atomicAdd indexes b m)).
Proof using Hmax.
  intros Hb Hm Hn Hfit Hrow (Hidx & Hli & Hlb & Hsl).
  unfold atomicAdd. cbn [fst snd] in *. rewrite Hidx.
  rewrite (Z.min_l n) by lia.
  destruct (tile_copy_lookup b n m row buffer Hb Hn)
    as (Hlen & Hin & Hframe). cbv zeta in Hlen, Hin, Hframe.
  split; [|split; [|split]].
  - cbn [snd]. rewrite list_lookup_total_insert_eq by exact Hli.
    apply u32_small. lia.
  - cbn [snd]. rewrite length_insert. exact Hli.
  - cbn [fst]. rewrite Hlen. exact Hlb.
  - cbn [fst]. intros i Hi. destruct (Z_lt_ge_dec i n) as [Hlt|Hge].
    + rewrite Hframe; [apply Hsl; lia|]. rewrite Z2Nat.id by nia. lia.
    + replace (b * maxOut + i) with (b * maxOut + n + (i - n)) by lia.
      rewrite Hin by nia. rewrite Hrow by lia. f_equal. lia.
Qed.

End BucketWrites.

Lemma tile_dims_trivial {E : Type} (XBITS maxOut : Z) (bucket_of : Z -> Z) :
  forall key (e : E) (j : nat), 0 <= key < NX XBITS -> True ->
    bucket_of key * maxOut <= Z.of_nat j < (bucket_of key + 1) * maxOut -> True.
Proof. intros. exact I. Qed.

(** The move of the rest of a tile row to its head. *)
Lemma tile_move_lookup {E : Type} `{!Inhabited E} (key newCount nflush : Z)
    (tmp : list (list E)) :
  0 <= key -> (Z.to_nat key < length tmp)%nat -> 0 <= nflush ->
  nflush = 0 \/ newCount <= nflush ->
  newCount + nflush <= Z.of_nat (length (tmp !!! Z.to_nat key)) ->
  let r := for_range newCount (fun t tmp =>
             let row := tmp !!! Z.to_nat key in
             <[Z.to_nat key := <[Z.to_nat t := row !!! Z.to_nat (t + nflush)]> row]>
               tmp) tmp in
  length r = length tmp
  /\ (forall key' : nat, key' <> Z.to_nat key -> r !!! key' = tmp !!! key')
  /\ length (r !!! Z.to_nat key) = length (tmp !!! Z.to_nat key)
  /\ (forall t, 0 <= t < newCount ->
        (r !!! Z.to_nat key) !!! Z.to_nat t
        = (tmp !!! Z.to_nat key) !!! Z.to_nat (t + nflush)).
Proof.
  intros Hkey Hlen Hnf Hcase Hfit. cbv zeta.
  destruct (Z_le_gt_dec newCount 0) as [Hle|Hgt].
  { rewrite for_range_nonpos by exact Hle.
    split; [reflexivity|]. split; [reflexivity|]. split; [reflexivity|].
    intros t Ht. lia. }
  set (orig := tmp !!! Z.to_nat key).
  set (P := fun (m : Z) (cur : list (list E)) =>
    length cur = length tmp
    /\ (forall key' : nat, key' <> Z.to_nat key -> cur !!! key' = tmp !!! key')
    /\ length (cur !!! Z.to_nat key) = length orig
    /\ (forall t, 0 <= t < m ->
          (cur !!! Z.to_nat key) !!! Z.to_nat t = orig !!! Z.to_nat (t + nflush))
    /\ (forall t, m <= t ->
          (cur !!! Z.to_nat key) !!! Z.to_nat t = orig !!! Z.to_nat t)).
  assert (HP : P newCount
                 (for_range newCount (fun t tmp =>
                    let row := tmp !!! Z.to_nat key in
                    <[Z.to_nat key :=
                        <[Z.to_nat t := row !!! Z.to_nat (t + nflush)]> row]>
                      tmp) tmp)).
  { apply (for_range_counting P); [lia| |].
    - subst P. cbv beta. split; [reflexivity|]. split; [reflexivity|].
      split; [reflexivity|]. split; [intros t Ht; lia|]. intros t _. reflexivity.
    - intros m cur Hm (Hl & Ho & Hr & Hlo & Hhi). subst P. cbv beta zeta.
      rewrite length_insert. split; [exact Hl|]. split; [|split; [|split]].
      + intros key' Hne. rewrite list_lookup_total_insert_ne by lia. apply Ho.
        exact Hne.
      + rewrite list_lookup_total_insert_eq by lia. rewrite length_insert.
        exact Hr.
      + intros t Ht. rewrite list_lookup_total_insert_eq by lia.
        destruct (Z.eq_dec t m) as [->|Hne].
        * rewrite list_lookup_total_insert_eq by (fold orig in Hfit; lia).
          destruct Hcase as [-> | Hcase].
          -- rewrite Z.add_0_r. apply Hhi. lia.
          -- apply Hhi. lia.
        * rewrite list_lookup_total_insert_ne by lia. apply Hlo. lia.
      + intros t Ht. rewrite list_lookup_total_insert_eq by lia.
        rewrite list_lookup_total_insert_ne by lia. apply Hhi. lia. }
  destruct HP as (Hl & Ho & Hr & Hlo & _).
  split; [exact Hl|]. split; [exact Ho|]. split; [exact Hr|exact Hlo].
Qed.

(** What a seeding block does to a bucket [b] that a tile row does not go
    to. *)
Section TileForeign.

Context {E : Type} `{!Inhabited E}.
Variables XBITS FLUSH maxOut : Z.
Variable bucket_of : Z -> Z.
Variable b : Z.

Hypothesis HX : 0 <= XBITS.
Hypothesis HF : 0 < FLUSH.
Hypothesis Hcap : 2 * FLUSH <= maxOut.
Hypothesis Hmax : maxOut < 2 ^ 32.
Hypothesis Hb : 0 <= b.
Hypothesis Hbucket : forall key, 0 <= key < NX XBITS -> 0 <= bucket_of key.

Local Abbreviation dims :=
  (tile_ok XBITS FLUSH (fun (_ : Z) (_ : E) => True)
     (fun (_ : nat) (_ : E) => True)).
Local Abbreviation kept n L st :=
  (bucket_prefix maxOut b n L (out_buffer st, out_indexes st)).
Local Abbreviation keys_in_range :=
  (Forall (fun l : option (Z * Z) =>
             match l with
             | Some (key, _) => 0 <= key < NX XBITS
             | None => True
             end)).

Lemma tile_maxOut_range : 0 <= maxOut < 2 ^ 32.
Proof using HF Hcap Hmax. lia. Qed.

Lemma tile_insert_dims (key : Z) (edge : E) (st : seeding) :
  0 <= key < NX XBITS -> dims st -> dims (snd (tile_insert FLUSH key edge st)).
Proof using HX HF Hcap Hbucket.
  intros Hkey Hd.
  apply (tile_insert_ok XBITS FLUSH maxOut bucket_of _ _ HX HF Hcap Hbucket
           (tile_dims_trivial XBITS maxOut bucket_of) key edge st Hkey I Hd).
Qed.

Lemma tile_flush_dims (key : Z) (st : seeding) :
  0 <= key < NX XBITS -> dims st ->
  dims (tile_flush FLUSH maxOut key (bucket_of key) st).
Proof using HX HF Hcap Hbucket.
  intros Hkey Hd.
  apply (tile_flush_ok XBITS FLUSH maxOut bucket_of _ _ HX HF Hcap Hbucket
           (tile_dims_trivial XBITS maxOut bucket_of) key st Hkey Hd).
Qed.

Lemma tile_drain_dims (key : Z) (st : seeding) :
  0 <= key < NX XBITS -> dims st ->
  dims (tile_drain FLUSH maxOut key (bucket_of key) st).
Proof using HX HF Hcap Hbucket.
  intros Hkey Hd.
  apply (tile_drain_ok XBITS FLUSH maxOut bucket_of _ _ HX HF Hcap Hbucket
           (tile_dims_trivial XBITS maxOut bucket_of) key st Hkey Hd).
Qed.

Lemma tile_rounds_dims (dim loops : Z) (items : Z -> Z -> option (Z * E))
    (out : list E * list Z) :
  (forall i lid key e, 0 <= i < loops -> 0 <= lid < dim ->
     items i lid = Some (key, e) -> 0 <= key < NX XBITS) ->
  (forall b' : nat, 0 <= snd out !!! b') ->
  dims (for_range loops (fun i st =>
          tile_round FLUSH maxOut dim (items i) bucket_of st)
          (tile_start XBITS FLUSH (fst out) (snd out))).
Proof using HX HF Hcap Hbucket.
  intros Hitems Hidx.
  apply (for_range_invariant dims).
  - apply (tile_start_ok XBITS FLUSH maxOut bucket_of _ _ HX HF Hcap Hbucket
             (tile_dims_trivial XBITS maxOut bucket_of));
      [intros j; exact I|exact Hidx].
  - intros i st Hi Hd.
    apply (tile_round_ok XBITS FLUSH maxOut bucket_of _ _ HX HF Hcap Hbucket
             (tile_dims_trivial XBITS maxOut bucket_of) dim (items i) st);
      [|exact Hd].
    intros lid key e Hlid Hit. split; [|exact I].
    apply (Hitems i lid key e); assumption.
Qed.

(** The counters of the buckets stay non-negative through a seeding
    block. *)
Lemma tile_block_counters (dim loops : Z) (items : Z -> Z -> option (Z * E))
    (out : list E * list Z) :
  (forall i lid key e, 0 <= i < loops -> 0 <= lid < dim ->
     items i lid = Some (key, e) -> 0 <= key < NX XBITS) ->
  (forall b' : nat, 0 <= snd out !!! b') ->
  forall b' : nat,
    0 <= out_indexes
           (tile_finish XBITS FLUSH maxOut dim bucket_of
              (for_range loops (fun i st =>
                 tile_round FLUSH maxOut dim (items i) bucket_of st)
                 (tile_start XBITS FLUSH (fst out) (snd out)))) !!! b'.
Proof using HX HF Hcap Hbucket.
  intros Hitems Hidx.
  pose proof (tile_finish_ok XBITS FLUSH maxOut bucket_of _ _ HX HF Hcap
                Hbucket (tile_dims_trivial XBITS maxOut bucket_of) dim _
                (tile_rounds_dims dim loops items out Hitems Hidx))
    as (_ & _ & _ & _ & _ & _ & Hfin).
  exact Hfin.
Qed.

(** A flush of a tile row that goes to another bucket leaves [b] alone. *)
Lemma tile_flush_foreign (key n : Z) (L : list E) (st : seeding) :
  0 <= key < NX XBITS -> bucket_of key <> b -> dims st -> 0 <= n <= maxOut ->
  kept n L st -> kept n L (tile_flush FLUSH maxOut key (bucket_of key) st).
Proof using HX HF Hcap Hmax Hb Hbucket.
  intros Hkey Hne (Htmp & Hcnt & Hrow & _ & Hpos & _ & Hidx) Hn Hpre.
  unfold tile_flush.
  set (localIdx := Z.min (2 * FLUSH) (tile_counters st !!! Z.to_nat key)).
  set (newCount := Z.rem localIdx FLUSH).
  set (nflush := localIdx - newCount).
  assert (Hloc : 0 <= localIdx <= 2 * FLUSH).
  { subst localIdx. pose proof (Hpos (Z.to_nat key)). lia. }
  assert (Hnew : 0 <= newCount <= localIdx /\ newCount < FLUSH).
  { subst newCount. pose proof (Z.rem_bound_pos localIdx FLUSH ltac:(lia) HF).
    pose proof (Z.rem_le localIdx FLUSH ltac:(lia) HF). lia. }
  assert (Hnf : 0 <= nflush <= maxOut) by lia.
  pose proof (bucket_prefix_other_write maxOut tile_maxOut_range b
                (bucket_of key) nflush n L (tile_tmp st !!! Z.to_nat key)
                (out_buffer st) (out_indexes st) Hb
                (Hbucket key Hkey) Hne Hnf Hn (Hidx _) Hpre) as Hpre'.
  unfold atomicAdd in *. cbn [fst snd] in Hpre'.
  cbn [tile_tmp tile_counters out_buffer out_indexes fst snd].
  exact Hpre'.
Qed.

(** A drain of a tile row that goes to another bucket leaves [b] alone. *)
Lemma tile_drain_foreign (key n : Z) (L : list E) (st : seeding) :
  0 <= key < NX XBITS -> bucket_of key <> b -> dims st -> 0 <= n <= maxOut ->
  kept n L st -> kept n L (tile_drain FLUSH maxOut key (bucket_of key) st).
Proof using HX HF Hcap Hmax Hb Hbucket.
  intros Hkey Hne (Htmp & Hcnt & Hrow & _ & Hpos & _ & Hidx) Hn Hpre.
  unfold tile_drain.
  set (localIdx := Z.min (2 * FLUSH) (tile_counters st !!! Z.to_nat key)).
  assert (Hloc : 0 <= localIdx <= maxOut).
  { subst localIdx. pose proof (Hpos (Z.to_nat key)). lia. }
  pose proof (bucket_prefix_other_write maxOut tile_maxOut_range b
                (bucket_of key) localIdx n L (tile_tmp st !!! Z.to_nat key)
                (out_buffer st) (out_indexes st) Hb
                (Hbucket key Hkey) Hne Hloc Hn (Hidx _) Hpre) as Hpre'.
  unfold atomicAdd in *. cbn [fst snd] in Hpre'.
  cbn [tile_tmp tile_counters out_buffer out_indexes fst snd].
  exact Hpre'.
Qed.

Hypothesis Hforeign : forall key, 0 <= key < NX XBITS -> bucket_of key <> b.

(** An iteration of a block none of whose tile rows goes to [b]. *)
Lemma tile_round_foreign (dim : Z) (item : Z -> option (Z * E)) (n : Z)
    (L : list E) (st : seeding) :
  (forall lid key e, 0 <= lid < dim -> item lid = Some (key, e) ->
     0 <= key < NX XBITS) ->
  0 <= n <= maxOut -> dims st -> kept n L st ->
  dims (tile_round FLUSH maxOut dim item bucket_of st)
  /\ kept n L (tile_round FLUSH maxOut dim item bucket_of st).
Proof using HX HF Hcap Hmax Hb Hbucket Hforeign.
  intros Hitem Hn Hd Hkept. unfold tile_round.
  match goal with |- context [for_range dim ?body ([], st)] =>
    assert (HP : dims (snd (for_range dim body ([], st)))
                 /\ kept n L (snd (for_range dim body ([], st)))
                 /\ keys_in_range (fst (for_range dim body ([], st))))
  end.
  { apply (for_range_invariant
             (fun acc : list (option (Z * Z)) * seeding =>
                dims (snd acc) /\ kept n L (snd acc)
                /\ keys_in_range (fst acc))).
    - cbn [fst snd]. split; [exact Hd|]. split; [exact Hkept|constructor].
    - intros lid [locals st1] Hlid (Hd1 & Hk1 & Hkeys). cbn [fst snd] in *.
      destruct (item lid) as [[key edge]|] eqn:Hi.
      + pose proof (Hitem lid key edge Hlid Hi) as Hkey.
        pose proof (tile_insert_dims key edge st1 Hkey Hd1) as Hd2.
        assert (Hk2 : kept n L (snd (tile_insert FLUSH key edge st1)))
          by exact Hk1.
        destruct (tile_insert FLUSH key edge st1) as [counter st2].
        cbn [fst snd] in *. split; [exact Hd2|]. split; [exact Hk2|].
        apply Forall_app. split; [exact Hkeys|].
        constructor; [exact Hkey|constructor].
      + cbn [fst snd]. split; [exact Hd1|]. split; [exact Hk1|].
        apply Forall_app. split; [exact Hkeys|]. repeat constructor. }
  match goal with |- context [for_range dim ?body ([], st)] =>
    destruct (for_range dim body ([], st)) as [locals st1]
  end.
  cbn [fst snd] in HP. destruct HP as (Hd1 & Hk1 & Hkeys).
  clear Hd Hkept Hitem. revert st1 Hd1 Hk1.
  induction locals as [|l locals IH]; intros st1 Hd1 Hk1; [split; assumption|].
  cbn [fold_left]. inversion Hkeys as [|? ? Hl Hkeys']; subst.
  apply (IH Hkeys').
  - destruct l as [[key counter]|]; [|exact Hd1].
    destruct (counter =? FLUSH - 1); [|exact Hd1].
    apply tile_flush_dims; assumption.
  - destruct l as [[key counter]|]; [|exact Hk1].
    destruct (counter =? FLUSH - 1); [|exact Hk1].
    apply tile_flush_foreign; try assumption. apply Hforeign. exact Hl.
Qed.

(** A block none of whose tile rows goes to [b] leaves the bucket as it
    is. *)
Lemma tile_block_foreign (dim loops : Z) (items : Z -> Z -> option (Z * E))
    (n : Z) (L : list E) (out : list E * list Z) :
  (forall i lid key e, 0 <= i < loops -> 0 <= lid < dim ->
     items i lid = Some (key, e) -> 0 <= key < NX XBITS) ->
  0 <= n <= maxOut ->
  (forall b' : nat, 0 <= snd out !!! b') ->
  bucket_prefix maxOut b n L out ->
  let st := tile_finish XBITS FLUSH maxOut dim bucket_of
              (for_range loops (fun i st =>
                 tile_round FLUSH maxOut dim (items i) bucket_of st)
                 (tile_start XBITS FLUSH (fst out) (snd out))) in
  bucket_prefix maxOut b n L (out_buffer st, out_indexes st).
Proof using HX HF Hcap Hmax Hb Hbucket Hforeign.
  intros Hitems Hn Hidx Hpre. cbv zeta.
  set (J := fun st : seeding => dims st /\ kept n L st).
  enough (HJ : J (tile_finish XBITS FLUSH maxOut dim bucket_of
                    (for_range loops (fun i st =>
                       tile_round FLUSH maxOut dim (items i) bucket_of st)
                       (tile_start XBITS FLUSH (fst out) (snd out)))))
    by exact (proj2 HJ).
  unfold tile_finish.
  apply (for_range_invariant J).
  - apply (for_range_invariant J).
    + split.
      * apply (tile_start_ok XBITS FLUSH maxOut bucket_of _ _ HX HF Hcap Hbucket
                 (tile_dims_trivial XBITS maxOut bucket_of));
          [intros j; exact I|exact Hidx].
      * destruct out as [buffer indexes]. exact Hpre.
    + intros i st Hi [Hd Hk]. apply tile_round_foreign; try assumption.
      intros lid key e Hlid Hit. apply (Hitems i lid key e); assumption.
  - intros lid st Hlid Hj. apply (for_range_invariant J); [exact Hj|].
    intros kk st1 Hkk [Hd Hk]. cbv zeta.
    destruct (Z.ltb_spec (kk * dim + lid) (NX XBITS)) as [Hlt|];
      [|split; assumption].
    assert (Hkey : 0 <= kk * dim + lid < NX XBITS) by nia.
    split; [apply tile_drain_dims; assumption|].
    apply tile_drain_foreign; try assumption. apply Hforeign. exact Hkey.
Qed.

End TileForeign.

Section TileRow.

Context {E : Type} `{!Inhabited E}.
Variables XBITS FLUSH maxOut : Z.
Variable bucket_of : Z -> Z.
Variable k : Z.

Hypothesis HX : 0 <= XBITS.
Hypothesis HF : 0 < FLUSH.
Hypothesis Hcap : 2 * FLUSH <= maxOut.
Hypothesis Hmax : maxOut < 2 ^ 32.
Hypothesis Hk : 0 <= k < NX XBITS.
Hypothesis Hbucket : forall key, 0 <= key < NX XBITS -> 0 <= bucket_of key.
Hypothesis Hinj : forall key, 0 <= key < NX XBITS -> key <> k ->
  bucket_of key <> bucket_of k.

Local Abbreviation dims :=
  (tile_ok XBITS FLUSH (fun (_ : Z) (_ : E) => True)
     (fun (_ : nat) (_ : E) => True)).
Local Abbreviation holds := (tile_row_holds FLUSH maxOut k (bucket_of k)).

(** An insert into the tile: the edge is appended to what row [k] carries
    when it goes to row [k], and leaves row [k] alone when it does not. *)
Lemma tile_insert_holds (key : Z) (edge : E) (L : list E) (st : seeding) :
  0 <= key < NX XBITS -> dims st -> holds L st ->
  (key = k -> tile_counters st !!! Z.to_nat k < 2 * FLUSH) ->
  holds (if key =? k then L ++ [edge] else L)
    (snd (tile_insert FLUSH key edge st))
  /\ (key = k -> fst (tile_insert FLUSH key edge st)
                 = tile_counters st !!! Z.to_nat k)
  /\ tile_counters (snd (tile_insert FLUSH key edge st)) !!! Z.to_nat k
     = (if key =? k then tile_counters st !!! Z.to_nat k + 1
        else tile_counters st !!! Z.to_nat k).
Proof using HX HF Hcap Hmax Hk.
  intros Hkey (Htmp & Hcnt & Hrow & _ & Hpos & _ & Hidx)
    (Hc & Hn & Hsum & Hpre & Hrowk) Hroom.
  unfold tile_insert, atomicAdd.
  cbn [fst snd tile_tmp tile_counters out_buffer out_indexes].
  destruct (Z.eqb_spec key k) as [->|Hne].
  - specialize (Hroom eq_refl).
    set (c := tile_counters st !!! Z.to_nat k) in *.
    rewrite (Z.min_l c) by lia.
    assert (Hu : u32 (c + 1) = c + 1) by (apply u32_small; lia).
    rewrite list_lookup_total_insert_eq by lia.
    split; [|split; [reflexivity|exact Hu]].
    unfold tile_row_holds. cbn [tile_tmp tile_counters out_buffer out_indexes].
    rewrite list_lookup_total_insert_eq by lia. rewrite Hu.
    rewrite length_app. cbn [length].
    split; [lia|]. split; [exact Hn|]. split; [lia|]. split.
    + apply bucket_prefix_app; [lia|exact Hpre].
    + intros t Ht. rewrite list_lookup_total_insert_eq by lia.
      destruct (Z.eq_dec t c) as [->|Hnt].
      * rewrite list_lookup_total_insert_eq by (rewrite (Hrow k Hk); lia).
        rewrite lookup_total_app_r by lia.
        replace (Z.to_nat (out_indexes st !!! Z.to_nat (bucket_of k) + c)
                 - length L)%nat with 0%nat by lia.
        reflexivity.
      * rewrite list_lookup_total_insert_ne by lia.
        rewrite lookup_total_app_l by lia. apply Hrowk. lia.
  - rewrite list_lookup_total_insert_ne by lia.
    split; [|split; [intros Heq; contradiction|reflexivity]].
    unfold tile_row_holds. cbn [tile_tmp tile_counters out_buffer out_indexes].
    rewrite !list_lookup_total_insert_ne by lia.
    repeat (split; [assumption|]). exact Hrowk.
Qed.

(** A flush of another tile row leaves row [k] and its bucket alone. *)
Lemma tile_flush_other (key n : Z) (L : list E) (st : seeding) :
  0 <= key < NX XBITS -> key <> k -> dims st -> 0 <= n <= maxOut ->
  bucket_prefix maxOut (bucket_of k) n L (out_buffer st, out_indexes st) ->
  let st' := tile_flush FLUSH maxOut key (bucket_of key) st in
  bucket_prefix maxOut (bucket_of k) n L (out_buffer st', out_indexes st')
  /\ tile_tmp st' !!! Z.to_nat k = tile_tmp st !!! Z.to_nat k
  /\ tile_counters st' !!! Z.to_nat k = tile_counters st !!! Z.to_nat k.
Proof using HX HF Hcap Hmax Hk Hbucket Hinj.
  intros Hkey Hne Hd Hn Hpre. cbv zeta.
  split.
  { apply (tile_flush_foreign XBITS FLUSH maxOut bucket_of (bucket_of k) HX HF
             Hcap Hmax (Hbucket k Hk) Hbucket key n L st Hkey
             (Hinj key Hkey Hne) Hd Hn Hpre). }
  destruct Hd as (Htmp & Hcnt & Hrow & _ & Hpos & _ & Hidx).
  unfold tile_flush.
  set (localIdx := Z.min (2 * FLUSH) (tile_counters st !!! Z.to_nat key)).
  set (newCount := Z.rem localIdx FLUSH).
  set (nflush := localIdx - newCount).
  assert (Hloc : 0 <= localIdx <= 2 * FLUSH).
  { subst localIdx. pose proof (Hpos (Z.to_nat key)). lia. }
  assert (Hnew : 0 <= newCount <= localIdx /\ newCount < FLUSH).
  { subst newCount. pose proof (Z.rem_bound_pos localIdx FLUSH ltac:(lia) HF).
    pose proof (Z.rem_le localIdx FLUSH ltac:(lia) HF). lia. }
  assert (Hcase : nflush = 0 \/ newCount <= nflush).
  { subst nflush newCount. rewrite Z.rem_mod_nonneg by lia.
    pose proof (Z.mod_pos_bound localIdx FLUSH HF) as Hmod.
    pose proof (Z.div_mod localIdx FLUSH ltac:(lia)) as Hdm.
    assert (Hq : 0 <= localIdx / FLUSH) by (apply Z.div_pos; lia).
    destruct (Z.eq_dec (localIdx / FLUSH) 0) as [H0|H1]; [left|right]; nia. }
  destruct (tile_move_lookup key newCount nflush (tile_tmp st) ltac:(lia)
              ltac:(lia) ltac:(lia) Hcase
              ltac:(rewrite (Hrow key Hkey); lia)) as (_ & Hmo & _).
  cbv zeta in Hmo.
  unfold atomicAdd. cbn [tile_tmp tile_counters out_buffer out_indexes fst snd].
  split.
  - apply Hmo. lia.
  - apply list_lookup_total_insert_ne. lia.
Qed.

(** A flush of tile row [k] keeps what the row and its bucket hold, and
    leaves fewer than [FLUSH] edges in the row. *)
Lemma tile_flush_self (L : list E) (st : seeding) :
  dims st -> holds L st -> Z.of_nat (length L) <= maxOut ->
  let st' := tile_flush FLUSH maxOut k (bucket_of k) st in
  holds L st' /\ tile_counters st' !!! Z.to_nat k < FLUSH.
Proof using HX HF Hcap Hmax Hk Hbucket.
  intros (Htmp & Hcnt & Hrow & _ & Hpos & _ & Hidx)
    (Hc & Hn & Hsum & Hpre & Htile) Hroom. cbv zeta.
  unfold tile_flush.
  rewrite (Z.min_r (2 * FLUSH)) by lia.
  rewrite Z.rem_mod_nonneg by lia.
  set (c := tile_counters st !!! Z.to_nat k) in *.
  set (newCount := c mod FLUSH).
  set (nflush := c - newCount).
  assert (Hnew : 0 <= newCount < FLUSH) by (apply Z.mod_pos_bound; lia).
  assert (Hnf : nflush = FLUSH * (c / FLUSH))
    by (subst nflush newCount; rewrite Z.mod_eq by lia; lia).
  assert (Hq : 0 <= c / FLUSH) by (apply Z.div_pos; lia).
  assert (Hcase : nflush = 0 \/ newCount <= nflush)
    by (destruct (Z.eq_dec (c / FLUSH) 0) as [H0|H1]; [left|right]; nia).
  assert (Hnf0 : 0 <= nflush <= c) by nia.
  pose proof (bucket_prefix_self_write maxOut
                (tile_maxOut_range FLUSH maxOut HF Hcap Hmax) (bucket_of k)
                nflush _ L (tile_tmp st !!! Z.to_nat k)
                (out_buffer st) (out_indexes st) (Hbucket k Hk)
                ltac:(lia) Hn ltac:(lia)
                ltac:(intros i Hi; apply Htile; lia) Hpre) as Hpre'.
  destruct (tile_move_lookup k newCount nflush (tile_tmp st) ltac:(lia)
              ltac:(lia) ltac:(lia) Hcase
              ltac:(rewrite (Hrow k Hk); lia)) as (_ & _ & _ & Hmv).
  cbv zeta in Hmv.
  unfold atomicAdd in *. cbn [fst snd] in Hpre'.
  cbn [tile_tmp tile_counters out_buffer out_indexes fst snd].
  rewrite list_lookup_total_insert_eq by lia.
  split; [|lia].
  unfold tile_row_holds. cbn [tile_tmp tile_counters out_buffer out_indexes].
  rewrite list_lookup_total_insert_eq by lia.
  pose proof Hpre' as (Hn' & _). cbn [snd] in Hn'. rewrite Hn'.
  split; [lia|]. split; [lia|]. split; [lia|]. split; [exact Hpre'|].
  intros t Ht. rewrite Hmv by exact Ht. rewrite Htile by lia. f_equal. lia.
Qed.

(** A drain of another tile row leaves the bucket of row [k] alone. *)
Lemma tile_drain_other (key n : Z) (L : list E) (st : seeding) :
  0 <= key < NX XBITS -> key <> k -> dims st -> 0 <= n <= maxOut ->
  bucket_prefix maxOut (bucket_of k) n L (out_buffer st, out_indexes st) ->
  let st' := tile_drain FLUSH maxOut key (bucket_of key) st in
  bucket_prefix maxOut (bucket_of k) n L (out_buffer st', out_indexes st')
  /\ tile_tmp st' = tile_tmp st /\ tile_counters st' = tile_counters st.
Proof using HX HF Hcap Hmax Hk Hbucket Hinj.
  intros Hkey Hne Hd Hn Hpre. cbv zeta.
  split; [|split; reflexivity].
  apply (tile_drain_foreign XBITS FLUSH maxOut bucket_of (bucket_of k) HX HF
           Hcap Hmax (Hbucket k Hk) Hbucket key n L st Hkey
           (Hinj key Hkey Hne) Hd Hn Hpre).
Qed.

(** The drain of tile row [k] leaves in its bucket all the edges that the
    row and the bucket held. *)
Lemma tile_drain_self (L : list E) (st : seeding) :
  dims st -> holds L st -> Z.of_nat (length L) <= maxOut ->
  let st' := tile_drain FLUSH maxOut k (bucket_of k) st in
  bucket_holds maxOut (bucket_of k) L (out_buffer st', out_indexes st').
Proof using HX HF Hcap Hmax Hk Hbucket.
  intros (Htmp & Hcnt & Hrow & _ & Hpos & _ & Hidx)
    (Hc & Hn & Hsum & Hpre & Htile) Hroom. cbv zeta.
  unfold tile_drain, bucket_holds.
  rewrite (Z.min_r (2 * FLUSH)) by lia.
  set (c := tile_counters st !!! Z.to_nat k) in *.
  pose proof (bucket_prefix_self_write maxOut
                (tile_maxOut_range FLUSH maxOut HF Hcap Hmax) (bucket_of k)
                c _ L (tile_tmp st !!! Z.to_nat k)
                (out_buffer st) (out_indexes st) (Hbucket k Hk)
                ltac:(lia) Hn ltac:(lia)
                ltac:(intros i Hi; apply Htile; lia) Hpre) as Hpre'.
  unfold atomicAdd in *. cbn [fst snd] in Hpre'.
  cbn [tile_tmp tile_counters out_buffer out_indexes fst snd].
  rewrite <- Hsum. exact Hpre'.
Qed.

Lemma tile_row_holds_transfer (L : list E) (st st' : seeding) :
  holds L st ->
  bucket_prefix maxOut (bucket_of k) (out_indexes st !!! Z.to_nat (bucket_of k))
    L (out_buffer st', out_indexes st') ->
  tile_tmp st' !!! Z.to_nat k = tile_tmp st !!! Z.to_nat k ->
  tile_counters st' !!! Z.to_nat k = tile_counters st !!! Z.to_nat k ->
  holds L st'.
Proof using Type.
  intros (Hc & Hn & Hsum & _ & Htile) Hpre Htmp Hcnt.
  pose proof Hpre as (Hn' & _). cbn [snd] in Hn'.
  unfold tile_row_holds. rewrite Htmp, Hcnt, Hn'.
  split; [exact Hc|]. split; [exact Hn|]. split; [exact Hsum|].
  split; [exact Hpre|exact Htile].
Qed.

Lemma row_items_succ (item : Z -> option (Z * E)) (m : Z) :
  0 <= m ->
  row_items item k (m + 1)
  = row_items item k m
    ++ match item m with
       | Some (key', edge) => if key' =? k then [edge] else []
       | None => []
       end.
Proof using Type. intros Hm. unfold row_items. apply bind_seqZ_succ. exact Hm. Qed.

Local Abbreviation keys_in_range :=
  (Forall (fun l : option (Z * Z) =>
             match l with
             | Some (key, _) => 0 <= key < NX XBITS
             | None => True
             end)).

Local Abbreviation flushes locals st :=
  (fold_left (fun st (l : option (Z * Z)) =>
     match l with
     | Some (key, counter) =>
         if counter =? FLUSH - 1 then tile_flush FLUSH maxOut key (bucket_of key) st
         else st
     | None => st
     end) locals st).

(** The flushes after the barrier keep what row [k] carries, and leave
    fewer than [FLUSH] edges in the row when the thread that moved its
    counter to [FLUSH] is among them. *)
Lemma tile_flushes_hold (L : list E) (locals : list (option (Z * Z))) :
  Z.of_nat (length L) <= maxOut ->
  keys_in_range locals ->
  forall st : seeding,
    dims st -> holds L st ->
    tile_counters st !!! Z.to_nat k < FLUSH \/ In (Some (k, FLUSH - 1)) locals ->
    dims (flushes locals st) /\ holds L (flushes locals st)
    /\ tile_counters (flushes locals st) !!! Z.to_nat k < FLUSH.
Proof using HX HF Hcap Hmax Hk Hbucket Hinj.
  intros Hroom. induction locals as [|l locals IH]; intros Hkeys st Hd Hh Hc.
  - cbn [fold_left]. destruct Hc as [Hc|[]]. auto.
  - cbn [fold_left]. inversion Hkeys as [|? ? Hl Hkeys']; subst.
    destruct l as [[key counter]|].
    + destruct (Z.eqb_spec counter (FLUSH - 1)) as [->|Hnf].
      * destruct (Z.eq_dec key k) as [->|Hne].
        -- destruct (tile_flush_self L st Hd Hh Hroom) as [Hh' Hc'].
           cbv zeta in Hh', Hc'.
           apply (IH Hkeys'); [|exact Hh'|left; exact Hc'].
           apply (tile_flush_ok XBITS FLUSH maxOut bucket_of _ _ HX HF Hcap
                    Hbucket (tile_dims_trivial XBITS maxOut bucket_of) k st Hk Hd).
        -- pose proof Hh as (Hc0 & Hn0 & Hsum0 & Hpre0 & _).
           assert (Hnb : 0 <= out_indexes st !!! Z.to_nat (bucket_of k)
                         <= maxOut) by lia.
           destruct (tile_flush_other key _ L st Hl Hne Hd Hnb Hpre0)
             as (Hpre' & Htmp' & Hcnt'). cbv zeta in Hpre', Htmp', Hcnt'.
           apply (IH Hkeys').
           ++ apply (tile_flush_ok XBITS FLUSH maxOut bucket_of _ _ HX HF Hcap
                       Hbucket (tile_dims_trivial XBITS maxOut bucket_of) key st Hl Hd).
           ++ apply (tile_row_holds_transfer L st _ Hh Hpre' Htmp' Hcnt').
           ++ rewrite Hcnt'. destruct Hc as [Hc|[Heq|Hin]];
                [left; exact Hc| |right; exact Hin].
              inversion Heq. contradiction.
      * apply (IH Hkeys'); [exact Hd|exact Hh|].
        destruct Hc as [Hc|[Heq|Hin]]; [left; exact Hc| |right; exact Hin].
        inversion Heq. contradiction.
    + apply (IH Hkeys'); [exact Hd|exact Hh|].
      destruct Hc as [Hc|[Heq|Hin]]; [left; exact Hc| |right; exact Hin].
      discriminate Heq.
Qed.

(** One iteration of a seeding block appends to what row [k] carries the
    edges that its threads insert into the row, in the order of the threads,
    when the row has room for them in the tile and in the bucket. *)
Lemma tile_round_holds (dim : Z) (item : Z -> option (Z * E)) (L : list E)
    (st : seeding) :
  (forall lid key e, 0 <= lid < dim -> item lid = Some (key, e) ->
     0 <= key < NX XBITS) ->
  dims st -> holds L st ->
  tile_counters st !!! Z.to_nat k < FLUSH ->
  Z.of_nat (length (row_items item k dim)) <= FLUSH + 1 ->
  Z.of_nat (length L) + Z.of_nat (length (row_items item k dim)) <= maxOut ->
  let st' := tile_round FLUSH maxOut dim item bucket_of st in
  dims st' /\ holds (L ++ row_items item k dim) st'
  /\ tile_counters st' !!! Z.to_nat k < FLUSH.
Proof using HX HF Hcap Hmax Hk Hbucket Hinj.
  intros Hitem Hd Hh Hc0 Htile Hroom. cbv zeta.
  destruct (Z_le_gt_dec dim 0) as [Hdim|Hdim].
  { unfold tile_round. rewrite for_range_nonpos by exact Hdim.
    cbn [fold_left]. unfold row_items. rewrite seqZ_nil by exact Hdim.
    cbn. rewrite app_nil_r. auto. }
  unfold tile_round.
  set (c0 := tile_counters st !!! Z.to_nat k) in *.
  set (P := fun (m : Z) (acc : list (option (Z * Z)) * seeding) =>
    dims (snd acc) /\ holds (L ++ row_items item k m) (snd acc)
    /\ tile_counters (snd acc) !!! Z.to_nat k
       = c0 + Z.of_nat (length (row_items item k m))
    /\ keys_in_range (fst acc)
    /\ (FLUSH <= tile_counters (snd acc) !!! Z.to_nat k ->
        In (Some (k, FLUSH - 1)) (fst acc))).
  match goal with |- context [for_range dim ?body ([], st)] =>
    assert (HP : P dim (for_range dim body ([], st)))
  end.
  { apply (for_range_counting P); [lia| |].
    - subst P. cbv beta. cbn [fst snd]. unfold row_items.
      rewrite seqZ_nil by lia. cbn. rewrite app_nil_r.
      split; [exact Hd|]. split; [exact Hh|]. split; [lia|].
      split; [constructor|]. subst c0. intros Hge. lia.
    - intros m [locals st1] Hm. subst P. cbv beta. cbn [fst snd].
      intros (Hd1 & Hh1 & Hc1 & Hkeys & Hin).
      pose proof (bind_seqZ_prefix_length
                    (fun lid => match item lid with
                                | Some (key', edge) =>
                                    if key' =? k then [edge] else []
                                | None => []
                                end) (m + 1) dim ltac:(lia)) as Hpref.
      fold (row_items item k (m + 1)) in Hpref.
      fold (row_items item k dim) in Hpref.
      rewrite (row_items_succ item m) in * by lia.
      destruct (item m) as [[key edge]|] eqn:Hi.
      + pose proof (Hitem m key edge Hm Hi) as Hkey.
        assert (Hfree : key = k ->
                        tile_counters st1 !!! Z.to_nat k < 2 * FLUSH).
        { intros ->. rewrite Z.eqb_refl in Hpref.
          rewrite length_app in Hpref. cbn [length] in Hpref. lia. }
        destruct (tile_insert_holds key edge _ st1 Hkey Hd1 Hh1 Hfree)
          as (Hh2 & Hf2 & Hc2).
        pose proof (tile_insert_ok XBITS FLUSH maxOut bucket_of _ _ HX HF Hcap
                      Hbucket (tile_dims_trivial XBITS maxOut bucket_of) key
                      edge st1 Hkey I Hd1) as Hd2.
        destruct (tile_insert FLUSH key edge st1) as [counter st2].
        cbn [fst snd] in *.
        split; [exact Hd2|]. split; [|split; [|split]].
        * destruct (key =? k); [rewrite app_assoc|rewrite app_nil_r];
            exact Hh2.
        * rewrite Hc2, Hc1. rewrite length_app.
          destruct (key =? k); cbn [length]; lia.
        * apply Forall_app. split; [exact Hkeys|].
          constructor; [exact Hkey|constructor].
        * intros Hge. apply in_or_app. rewrite Hc2 in Hge.
          destruct (Z.eqb_spec key k) as [->|Hne].
          -- destruct (Z_lt_ge_dec (tile_counters st1 !!! Z.to_nat k) FLUSH)
               as [Hlt|Hge1].
             ++ right. left. rewrite (Hf2 eq_refl). do 2 f_equal. lia.
             ++ left. apply Hin. lia.
          -- left. apply Hin. exact Hge.
      + cbn [fst snd]. rewrite app_nil_r.
        split; [exact Hd1|]. split; [exact Hh1|]. split; [exact Hc1|].
        split; [apply Forall_app; split; [exact Hkeys|repeat constructor]|].
        intros Hge. apply in_or_app. left. apply Hin. exact Hge. }
  match goal with |- context [for_range dim ?body ([], st)] =>
    destruct (for_range dim body ([], st)) as [locals st1]
  end.
  subst P. cbv beta in HP. cbn [fst snd] in HP.
  destruct HP as (Hd1 & Hh1 & Hc1 & Hkeys & Hin).
  apply tile_flushes_hold; try assumption.
  - rewrite length_app. lia.
  - destruct (Z_lt_ge_dec (tile_counters st1 !!! Z.to_nat k) FLUSH)
      as [Hlt|Hge]; [left; exact Hlt|right; apply Hin; lia].
Qed.

(** The iterations of a seeding block append to what row [k] carries the
    edges inserted into the row, iteration after iteration. *)
Lemma tile_rounds_hold (dim loops : Z) (items : Z -> Z -> option (Z * E))
    (L : list E) (st : seeding) :
  (forall i lid key e, 0 <= i < loops -> 0 <= lid < dim ->
     items i lid = Some (key, e) -> 0 <= key < NX XBITS) ->
  (forall i, 0 <= i < loops ->
     Z.of_nat (length (row_items (items i) k dim)) <= FLUSH + 1) ->
  Z.of_nat (length L) + Z.of_nat (length (tile_items items k dim loops))
    <= maxOut ->
  dims st -> holds L st -> tile_counters st !!! Z.to_nat k < FLUSH ->
  let st' := for_range loops (fun i st =>
               tile_round FLUSH maxOut dim (items i) bucket_of st) st in
  dims st' /\ holds (L ++ tile_items items k dim loops) st'
  /\ tile_counters st' !!! Z.to_nat k < FLUSH.
Proof using HX HF Hcap Hmax Hk Hbucket Hinj.
  intros Hitems Htile Hroom Hd Hh Hc. cbv zeta.
  destruct (Z_le_gt_dec loops 0) as [Hl|Hl].
  { rewrite for_range_nonpos by exact Hl. unfold tile_items.
    rewrite seqZ_nil by exact Hl. cbn. rewrite app_nil_r. auto. }
  apply (for_range_counting
           (fun m st' =>
              dims st' /\ holds (L ++ tile_items items k dim m) st'
              /\ tile_counters st' !!! Z.to_nat k < FLUSH)); [lia| |].
  - unfold tile_items. rewrite seqZ_nil by lia. cbn. rewrite app_nil_r. auto.
  - intros m st1 Hm (Hd1 & Hh1 & Hc1).
    pose proof (bind_seqZ_prefix_length
                  (fun i => row_items (items i) k dim) (m + 1) loops
                  ltac:(lia)) as Hpref.
    fold (tile_items items k dim (m + 1)) in Hpref.
    fold (tile_items items k dim loops) in Hpref.
    assert (Hsucc : tile_items items k dim (m + 1)
                    = tile_items items k dim m ++ row_items (items m) k dim)
      by exact (bind_seqZ_succ (fun i => row_items (items i) k dim) m
                  (proj1 Hm)).
    rewrite Hsucc in *. rewrite length_app in Hpref.
    rewrite app_assoc.
    apply tile_round_holds; try assumption.
    + intros lid key e Hlid Hi. apply (Hitems m lid key e); assumption.
    + apply Htile. exact Hm.
    + rewrite length_app. lia.
Qed.

(** The loop that ends a seeding block leaves in the bucket of row [k] all
    that the row carried. *)
Lemma tile_finish_holds (dim : Z) (L : list E) (st : seeding) :
  0 < dim -> Z.of_nat (length L) <= maxOut -> dims st -> holds L st ->
  let st' := tile_finish XBITS FLUSH maxOut dim bucket_of st in
  bucket_holds maxOut (bucket_of k) L (out_buffer st', out_indexes st').
Proof using HX HF Hcap Hmax Hk Hbucket Hinj.
  intros Hdim Hroom Hd Hh. cbv zeta.
  set (A := fun st : seeding => dims st /\ holds L st).
  set (Q := fun st : seeding =>
              dims st
              /\ bucket_holds maxOut (bucket_of k) L (out_buffer st, out_indexes st)).
  assert (Hdrain_ok : forall key st, 0 <= key < NX XBITS -> dims st ->
            dims (tile_drain FLUSH maxOut key (bucket_of key) st)).
  { intros key st1 Hkey Hd1.
    apply (tile_drain_ok XBITS FLUSH maxOut bucket_of _ _ HX HF Hcap Hbucket
             (tile_dims_trivial XBITS maxOut bucket_of) key st1 Hkey Hd1). }
  assert (HA : forall key st, 0 <= key < NX XBITS -> key <> k -> A st ->
            A (tile_drain FLUSH maxOut key (bucket_of key) st)).
  { intros key st1 Hkey Hne [Hd1 Hh1]. split; [apply Hdrain_ok; assumption|].
    pose proof Hh1 as (Hc0 & Hn0 & Hsum0 & Hpre0 & _).
    assert (Hnb : 0 <= out_indexes st1 !!! Z.to_nat (bucket_of k) <= maxOut)
      by lia.
    destruct (tile_drain_other key _ L st1 Hkey Hne Hd1 Hnb Hpre0)
      as (Hpre' & Htmp' & Hcnt'). cbv zeta in Hpre', Htmp', Hcnt'.
    apply (tile_row_holds_transfer L st1 _ Hh1 Hpre').
    - rewrite Htmp'. reflexivity.
    - rewrite Hcnt'. reflexivity. }
  assert (HQ : forall key st, 0 <= key < NX XBITS -> key <> k -> Q st ->
            Q (tile_drain FLUSH maxOut key (bucket_of key) st)).
  { intros key st1 Hkey Hne [Hd1 Hb1]. split; [apply Hdrain_ok; assumption|].
    assert (Hnb : 0 <= Z.of_nat (length L) <= maxOut) by lia.
    destruct (tile_drain_other key _ L st1 Hkey Hne Hd1 Hnb Hb1)
      as (Hpre' & _). exact Hpre'. }
  assert (HAQ : forall st, A st ->
            Q (tile_drain FLUSH maxOut k (bucket_of k) st)).
  { intros st1 [Hd1 Hh1]. split; [apply Hdrain_ok; assumption|].
    apply (tile_drain_self L st1 Hd1 Hh1 Hroom). }
  pose proof (Z.mod_pos_bound k dim Hdim) as Hmod.
  pose proof (Z.div_mod k dim ltac:(lia)) as Hdm.
  assert (Hother : forall kk lid, 0 <= kk -> 0 <= lid < dim ->
            lid <> k mod dim -> kk * dim + lid <> k).
  { intros kk lid Hkk Hlid Hne Heq. apply Hne. rewrite <- Heq.
    rewrite Z.add_comm, Z_mod_plus_full. symmetry. apply Z.mod_small.
    exact Hlid. }
  enough (HQfin : Q (tile_finish XBITS FLUSH maxOut dim bucket_of st))
    by exact (proj2 HQfin).
  unfold tile_finish.
  apply (for_range_once A Q dim (k mod dim)); [exact Hmod|split; assumption| | |].
  - intros lid st1 Hlid Ha. apply (for_range_invariant A); [exact Ha|].
    intros kk st2 Hkk Ha2. cbv zeta.
    destruct (Z.ltb_spec (kk * dim + lid) (NX XBITS)) as [Hlt|]; [|exact Ha2].
    apply HA; [nia|apply Hother; lia|exact Ha2].
  - intros st1 Ha.
    apply (for_range_once A Q ((NX XBITS + dim - 1) / dim) (k / dim)).
    + split; [apply Z.div_pos; lia|].
      apply Z.div_lt_upper_bound; [lia|].
      pose proof (Z.div_mod (NX XBITS + dim - 1) dim ltac:(lia)) as Hdm2.
      pose proof (Z.mod_pos_bound (NX XBITS + dim - 1) dim Hdim) as Hmod2.
      nia.
    + exact Ha.
    + intros kk st2 Hkk Ha2. cbv zeta.
      destruct (Z.ltb_spec (kk * dim + k mod dim) (NX XBITS)) as [Hlt|];
        [|exact Ha2].
      apply HA; [nia|nia|exact Ha2].
    + intros st2 Ha2. cbv zeta.
      replace (k / dim * dim + k mod dim) with k by lia.
      destruct (Z.ltb_spec k (NX XBITS)) as [_|Hge]; [|lia].
      apply HAQ. exact Ha2.
    + intros kk st2 Hkk Hq2. cbv zeta.
      destruct (Z.ltb_spec (kk * dim + k mod dim) (NX XBITS)) as [Hlt|];
        [|exact Hq2].
      apply HQ; [nia|nia|exact Hq2].
  - intros lid st1 Hlid Hq. apply (for_range_invariant Q); [exact Hq|].
    intros kk st2 Hkk Hq2. cbv zeta.
    destruct (Z.ltb_spec (kk * dim + lid) (NX XBITS)) as [Hlt|]; [|exact Hq2].
    apply HQ; [nia|apply Hother; lia|exact Hq2].
Qed.

(** A seeding block appends to the bucket of its tile row [k] the edges
    that its threads insert into the row, in the order of the iterations and
    of the threads, when no iteration inserts more than [FLUSH + 1] edges
    into the row and the bucket has room for them. *)
Lemma tile_block_holds (dim loops : Z) (items : Z -> Z -> option (Z * E))
    (L : list E) (out : list E * list Z) :
  0 < dim ->
  (forall i lid key e, 0 <= i < loops -> 0 <= lid < dim ->
     items i lid = Some (key, e) -> 0 <= key < NX XBITS) ->
  (forall i, 0 <= i < loops ->
     Z.of_nat (length (row_items (items i) k dim)) <= FLUSH + 1) ->
  Z.of_nat (length L) + Z.of_nat (length (tile_items items k dim loops))
    <= maxOut ->
  (forall b : nat, 0 <= snd out !!! b) ->
  bucket_holds maxOut (bucket_of k) L out ->
  let st := tile_finish XBITS FLUSH maxOut dim bucket_of
              (for_range loops (fun i st =>
                 tile_round FLUSH maxOut dim (items i) bucket_of st)
                 (tile_start XBITS FLUSH (fst out) (snd out))) in
  bucket_holds maxOut (bucket_of k) (L ++ tile_items items k dim loops)
    (out_buffer st, out_indexes st).
Proof using HX HF Hcap Hmax Hk Hbucket Hinj.
  intros Hdim Hitems Htile Hroom Hidx Hb. cbv zeta.
  assert (Hd0 : dims (tile_start XBITS FLUSH (fst out) (snd out))).
  { apply (tile_start_ok XBITS FLUSH maxOut bucket_of _ _ HX HF Hcap Hbucket
             (tile_dims_trivial XBITS maxOut bucket_of));
      [intros j; exact I|exact Hidx]. }
  pose proof (NX_pos XBITS HX) as Hnx.
  assert (Hh0 : holds L (tile_start XBITS FLUSH (fst out) (snd out))).
  { destruct out as [buffer indexes]. cbn [fst snd] in *.
    pose proof Hb as (Hn & _). cbn [snd] in Hn.
    unfold tile_row_holds, tile_start.
    cbn [tile_tmp tile_counters out_buffer out_indexes].
    rewrite lookup_total_replicate_2 by lia. rewrite Hn.
    split; [lia|]. split; [lia|]. split; [lia|]. split; [exact Hb|].
    intros t Ht. lia. }
  assert (Hc0 : tile_counters (tile_start XBITS FLUSH (fst out) (snd out))
                  !!! Z.to_nat k < FLUSH).
  { unfold tile_start. cbn [tile_counters].
    rewrite lookup_total_replicate_2 by lia. exact HF. }
  destruct (tile_rounds_hold dim loops items L _ Hitems Htile Hroom Hd0 Hh0 Hc0)
    as (Hd1 & Hh1 & _). cbv zeta in Hd1, Hh1.
  apply tile_finish_holds; [exact Hdim| |exact Hd1|exact Hh1].
  rewrite length_app. lia.
Qed.

End TileRow.

(** ** What the seeding kernels file in a bucket *)

Lemma bind_ext_in {A B : Type} (f g : A -> list B) (l : list A) :
  (forall x, In x l -> f x = g x) -> l ≫= f = l ≫= g.
Proof.
  induction l as [|x l IH]; intros Hfg; [reflexivity|].
  cbn. rewrite (Hfg x (or_introl eq_refl)). f_equal.
  apply IH. intros y Hy. apply Hfg. right. exact Hy.
Qed.

Lemma bind_all_nil {A B : Type} (f : A -> list B) (l : list A) :
  (forall x, In x l -> f x = []) -> l ≫= f = [].
Proof.
  induction l as [|x l IH]; intros Hf; [reflexivity|].
  cbn. rewrite (Hf x (or_introl eq_refl)). cbn.
  apply IH. intros y Hy. apply Hf. right. exact Hy.
Qed.

Lemma bind_fmap_list {A B C : Type} (f : A -> B) (g : B -> list C)
    (l : list A) :
  (f <$> l) ≫= g = l ≫= (fun x => g (f x)).
Proof.
  induction l as [|x l IH]; [reflexivity|]. cbn. rewrite IH. reflexivity.
Qed.

(** The iterations of the threads of a block, one after the other, visit
    the indexes below [loops * dim] in order. *)
Lemma bind_seqZ_nested {A : Type} (h : Z -> list A) (dim loops : Z) :
  0 <= dim -> 0 <= loops ->
  seqZ 0 loops ≫= (fun i => seqZ 0 dim ≫= (fun lid => h (i * dim + lid)))
  = seqZ 0 (loops * dim) ≫= h.
Proof.
  intros Hdim Hloops. revert loops Hloops.
  apply natlike_ind; [reflexivity|].
  intros m Hm IH. unfold Z.succ. rewrite bind_seqZ_succ by exact Hm.
  rewrite IH. replace ((m + 1) * dim) with (m * dim + dim) by lia.
  rewrite (seqZ_app 0 (m * dim) dim) by nia. rewrite bind_app. f_equal.
  replace (0 + m * dim) with (m * dim + 0) by lia.
  rewrite <- (fmap_add_seqZ (m * dim) 0 dim). rewrite bind_fmap_list.
  reflexivity.
Qed.

Lemma bind_filter_fmap {A B C : Type} (f : A -> B) (e : B -> C)
    (P : B -> Prop) `{!forall y, Decision (P y)} (c : B -> bool) (l : list A) :
  (forall y, c y = true <-> P y) ->
  l ≫= (fun x => if c (f x) then [e (f x)] else [])
  = e <$> filter P (f <$> l).
Proof.
  intros Hc. induction l as [|x l IH]; [reflexivity|].
  cbn [mbind list_bind fmap list_fmap]. rewrite filter_cons.
  change (foldr _ _ _) with (l ≫= (fun x => if c (f x) then [e (f x)] else [])).
  change (mbind (fun x => if c (f x) then [e (f x)] else []) l)
    with (l ≫= (fun x => if c (f x) then [e (f x)] else [])).
  rewrite IH.
  destruct (decide (P (f x))) as [Hp|Hn].
  - rewrite (proj2 (Hc (f x)) Hp). reflexivity.
  - destruct (c (f x)) eqn:Hcx; [|reflexivity].
    exfalso. apply Hn. apply Hc. exact Hcx.
Qed.

Lemma bind_fmap_filter {A B C : Type} (g : A -> list B) (e : B -> C)
    (P : B -> Prop) `{!forall y, Decision (P y)} (l : list A) :
  l ≫= (fun i => e <$> filter P (g i)) = e <$> filter P (l ≫= g).
Proof.
  induction l as [|x l IH]; [reflexivity|].
  cbn. rewrite list.filter_app, fmap_app. f_equal. exact IH.
Qed.

Lemma row_items_length {E : Type} (item : Z -> option (Z * E)) (key dim : Z) :
  0 <= dim -> Z.of_nat (length (row_items item key dim)) <= dim.
Proof.
  revert dim. apply natlike_ind; [reflexivity|].
  intros m Hm IH. unfold Z.succ, row_items in *.
  rewrite bind_seqZ_succ by exact Hm. rewrite length_app.
  destruct (item m) as [[key' edge]|]; [destruct (key' =? key)|]; cbn [length];
    lia.
Qed.

Lemma SeedA_round_length (EDGEBITS dim blocks group i : Z) :
  length (SeedA_round EDGEBITS dim blocks group i) = Z.to_nat dim.
Proof. unfold SeedA_round. cbv zeta. rewrite length_fmap. apply length_seqZ. Qed.

Section SeedBFiling.

Variables XBITS ZBITS FLUSHB maxOut : Z.
Context {E : Type} `{!Inhabited E}.
Variable edge_out : EdgeType E.
Variable sipkeys : siphash_keys.
Variable source : list E.
Variable sourceIndexes : list Z.
Variable dim : Z.

Hypothesis HX : 0 <= XBITS.
Hypothesis HF : 0 < FLUSHB.
Hypothesis Hcap : 2 * FLUSHB <= maxOut.
Hypothesis Hmax : maxOut < 2 ^ 32.
Hypothesis Hdim : 0 < dim.

Local Abbreviation bucketEdges group :=
  (Z.min (sourceIndexes !!! Z.to_nat group) maxOut).
Local Abbreviation items group :=
  (fun loop => SeedB_item XBITS ZBITS edge_out maxOut sipkeys source
                 (bucketEdges group) group loop dim).
Local Abbreviation col_of e :=
  (Z.land (Z.shiftr (endpoint edge_out sipkeys e 0) ZBITS) (XMASK XBITS)).

Lemma SeedB_item_key (group loop lid key : Z) (e : E) :
  items group loop lid = Some (key, e) -> 0 <= key < NX XBITS.
Proof using HX.
  unfold SeedB_item. cbv zeta.
  destruct (_ <? _); [|discriminate].
  destruct (null edge_out _); [discriminate|].
  intros Heq. inversion Heq. apply land_XMASK_range. exact HX.
Qed.

(** The edges a block inserts into tile row [col] over all its iterations
    are the edges of column [col] of its source bucket, in the order of the
    bucket. *)
Lemma SeedB_tile_items (group col : Z) :
  tile_items (items group) col dim ((bucketEdges group + dim - 1) / dim)
  = SeedB_column XBITS ZBITS edge_out maxOut sipkeys source sourceIndexes
      group col.
Proof using Hdim.
  clear HX HF Hcap Hmax.
  unfold tile_items, SeedB_column, SeedB_bucket.
  set (be := bucketEdges group).
  set (loops := (be + dim - 1) / dim).
  set (f := fun idx : Z => source !!! Z.to_nat (group * maxOut + idx)).
  set (c := fun e : E => negb (null edge_out e) && (col_of e =? col)).
  set (h := fun idx : Z =>
              if idx <? be then (if c (f idx) then [f idx] else []) else []).
  assert (Hloops : loops * dim <= be + dim - 1 < loops * dim + dim).
  { subst loops. pose proof (Z.div_mod (be + dim - 1) dim ltac:(lia)).
    pose proof (Z.mod_pos_bound (be + dim - 1) dim Hdim). nia. }
  rewrite (bind_ext_in _ (fun i => seqZ 0 dim ≫= (fun lid => h (i * dim + lid)))).
  2:{ intros loop _. unfold row_items. apply bind_ext_in. intros lid _.
      unfold SeedB_item, h, c, f. cbv zeta.
      destruct (loop * dim + lid <? be); [|reflexivity].
      destruct (null edge_out _); [reflexivity|]. cbn [negb andb].
      reflexivity. }
  destruct (Z_le_gt_dec loops 0) as [Hle|Hgt].
  { rewrite (seqZ_nil 0 loops) by exact Hle.
    rewrite (seqZ_nil 0 be) by nia. reflexivity. }
  rewrite bind_seqZ_nested by lia.
  replace (loops * dim) with (be + (loops * dim - be)) by lia.
  rewrite seqZ_app by nia. rewrite bind_app.
  rewrite (bind_all_nil h (seqZ (0 + be) _)).
  2:{ intros idx Hin. apply list_elem_of_In, elem_of_seqZ in Hin.
      unfold h. destruct (Z.ltb_spec idx be); [lia|reflexivity]. }
  rewrite app_nil_r.
  rewrite (bind_ext_in h (fun idx => if c (f idx) then [id (f idx)] else [])).
  2:{ intros idx Hin. apply list_elem_of_In, elem_of_seqZ in Hin.
      unfold h. destruct (Z.ltb_spec idx be); [reflexivity|lia]. }
  rewrite (bind_filter_fmap f id
             (fun edge => null edge_out edge = false /\ col_of edge = col) c).
  - apply list_fmap_id.
  - intros e. unfold c. rewrite andb_true_iff, negb_true_iff, Z.eqb_eq.
    reflexivity.
Qed.

Lemma SeedB_row_bucket (group : Z) :
  0 <= group ->
  forall key, 0 <= key < NX XBITS -> 0 <= group / NX XBITS * NX XBITS + key.
Proof using HX.
  intros Hg key Hkey. pose proof (NX_pos XBITS HX) as Hnx.
  assert (0 <= group / NX XBITS) by (apply Z.div_pos; lia). nia.
Qed.

(** A block of Seed B appends to the bucket of its row and of column [col]
    the edges of column [col] of its source bucket. *)
Lemma SeedB_block_files (group col : Z) (L : list E) (out : list E * list Z) :
  0 <= group -> 0 <= col < NX XBITS ->
  (forall loop, 0 <= loop ->
     Z.of_nat (length (row_items (items group loop) col dim)) <= FLUSHB + 1) ->
  Z.of_nat (length L)
  + Z.of_nat (length (SeedB_column XBITS ZBITS edge_out maxOut sipkeys source
                        sourceIndexes group col)) <= maxOut ->
  (forall b : nat, 0 <= snd out !!! b) ->
  bucket_holds maxOut (group / NX XBITS * NX XBITS + col) L out ->
  bucket_holds maxOut (group / NX XBITS * NX XBITS + col)
    (L ++ SeedB_column XBITS ZBITS edge_out maxOut sipkeys source sourceIndexes
            group col)
    (SeedB_block XBITS ZBITS FLUSHB edge_out maxOut sipkeys source
       sourceIndexes dim group out).
Proof using HX HF Hcap Hmax Hdim.
  intros Hg Hcol Htile Hroom Hidx Hb.
  rewrite <- (SeedB_tile_items group col) in *.
  assert (Hinj : forall key, 0 <= key < NX XBITS -> key <> col ->
            group / NX XBITS * NX XBITS + key
            <> group / NX XBITS * NX XBITS + col) by (intros; lia).
  apply (tile_block_holds XBITS FLUSHB maxOut
           (fun key => group / NX XBITS * NX XBITS + key) col HX HF Hcap Hmax
           Hcol (SeedB_row_bucket group Hg) Hinj dim
           ((bucketEdges group + dim - 1) / dim) (items group) L out Hdim).
  - intros i lid key e _ _ Hit. apply (SeedB_item_key group i lid key e Hit).
  - intros i Hi. apply Htile. lia.
  - exact Hroom.
  - exact Hidx.
  - exact Hb.
Qed.

(** The counters of the buckets stay non-negative through a block. *)
Lemma SeedB_block_counters (group : Z) (out : list E * list Z) :
  0 <= group -> (forall b : nat, 0 <= snd out !!! b) ->
  forall b : nat,
    0 <= snd (SeedB_block XBITS ZBITS FLUSHB edge_out maxOut sipkeys source
                sourceIndexes dim group out) !!! b.
Proof using HX HF Hcap Hdim.
  intros Hg Hidx.
  apply (tile_block_counters XBITS FLUSHB maxOut
           (fun key => group / NX XBITS * NX XBITS + key) HX HF Hcap
           (SeedB_row_bucket group Hg) dim
           ((bucketEdges group + dim - 1) / dim) (items group) out).
  - intros i lid key e _ _ Hit. apply (SeedB_item_key group i lid key e Hit).
  - exact Hidx.
Qed.

(** A block of another row leaves the bucket as it is. *)
Lemma SeedB_block_foreign (group row col n : Z) (L : list E)
    (out : list E * list Z) :
  0 <= group -> 0 <= row -> group / NX XBITS <> row -> 0 <= col < NX XBITS ->
  0 <= n <= maxOut -> (forall b : nat, 0 <= snd out !!! b) ->
  bucket_prefix maxOut (row * NX XBITS + col) n L out ->
  bucket_prefix maxOut (row * NX XBITS + col) n L
    (SeedB_block XBITS ZBITS FLUSHB edge_out maxOut sipkeys source
       sourceIndexes dim group out).
Proof using HX HF Hcap Hmax Hdim.
  intros Hg Hrow Hne Hcol Hn Hidx Hpre.
  pose proof (NX_pos XBITS HX) as Hnx.
  assert (Hb : 0 <= row * NX XBITS + col) by nia.
  assert (Hforeign : forall key, 0 <= key < NX XBITS ->
            group / NX XBITS * NX XBITS + key <> row * NX XBITS + col)
    by (intros; nia).
  apply (tile_block_foreign XBITS FLUSHB maxOut
           (fun key => group / NX XBITS * NX XBITS + key)
           (row * NX XBITS + col) HX HF Hcap Hmax Hb
           (SeedB_row_bucket group Hg) Hforeign dim
           ((bucketEdges group + dim - 1) / dim) (items group) n L out).
  - intros i lid key e _ _ Hit. apply (SeedB_item_key group i lid key e Hit).
  - exact Hn.
  - exact Hidx.
  - exact Hpre.
Qed.

End SeedBFiling.



Section SeedAFiling.

Variable SIPROUND : lanes -> lanes.
Variables EDGEBITS XBITS YBITS ZBITS FLUSHA maxOut : Z.
Context {EdgeOut : Type} `{!Inhabited EdgeOut}.
Variable make_Edge : Z -> Z -> Z -> EdgeOut.
Variable packed : bool.
Variable sipkeys : siphash_keys.
Variables dim blocks : Z.

Hypothesis HX : 0 <= XBITS.
Hypothesis HY : 0 <= YBITS.
Hypothesis HZ : 0 <= ZBITS.
Hypothesis Hbits : EDGEBITS = XBITS + YBITS + ZBITS.
Hypothesis HF : 0 < FLUSHA.
Hypothesis Hcap : 2 * FLUSHA <= maxOut.
Hypothesis Hmax : maxOut < 2 ^ 32.
Hypothesis Hdim : 0 < dim.

Local Abbreviation loops := (NEDGES EDGEBITS / (blocks * dim)).
Local Abbreviation row_of nonce :=
  (Z.shiftr (dipnode SIPROUND EDGEBITS sipkeys nonce 0) (YZBITS YBITS ZBITS)).
Local Abbreviation edge_of :=
  (fun nonce =>
     make_Edge nonce (dipnode SIPROUND EDGEBITS sipkeys nonce 0)
       (if packed then dipnode SIPROUND EDGEBITS sipkeys nonce 1 else 0)).
Local Abbreviation items group :=
  (fun i lid =>
     let gid := group * dim + lid in
     let nonce := u32 (gid * loops + i) in
     let node0 := dipnode SIPROUND EDGEBITS sipkeys nonce 0 in
     let node1 := if packed then dipnode SIPROUND EDGEBITS sipkeys nonce 1
                  else 0 in
     let row := Z.shiftr node0 (YZBITS YBITS ZBITS) in
     Some (row, make_Edge nonce node0 node1)).

Lemma SeedA_item_key (group i lid key : Z) (e : EdgeOut) :
  items group i lid = Some (key, e) -> 0 <= key < NX XBITS.
Proof using HX HY HZ Hbits.
  cbv zeta. intros Heq. inversion Heq.
  apply (row_range EDGEBITS XBITS YBITS ZBITS HX HY HZ Hbits).
  apply dipnode_range. lia.
Qed.

(** The edges the threads insert into tile row [row] in one iteration. *)
Lemma SeedA_row_items (group i row : Z) :
  row_items (items group i) row dim
  = edge_of <$> filter (fun nonce => row_of nonce = row)
                  (SeedA_round EDGEBITS dim blocks group i).
Proof using Type.
  unfold row_items, SeedA_round. cbv zeta.
  exact (bind_filter_fmap
           (fun lid => u32 ((group * dim + lid) * loops + i)) edge_of
           (fun nonce => row_of nonce = row) (fun nonce => row_of nonce =? row)
           (seqZ 0 dim) (fun nonce => Z.eqb_eq (row_of nonce) row)).
Qed.

(** The edges a block inserts into tile row [row] over all its iterations
    are the edges of that row among its nonces, in the order of the
    schedule. *)
Lemma SeedA_tile_items (group row : Z) :
  tile_items (items group) row dim loops
  = SeedA_row SIPROUND EDGEBITS YBITS ZBITS make_Edge packed sipkeys dim
      blocks group row.
Proof using Type.
  unfold tile_items, SeedA_row, SeedA_schedule.
  rewrite (bind_ext_in _
             (fun i => edge_of <$> filter (fun nonce => row_of nonce = row)
                                     (SeedA_round EDGEBITS dim blocks group i))).
  - apply (bind_fmap_filter (SeedA_round EDGEBITS dim blocks group) edge_of
             (fun nonce => row_of nonce = row)).
  - intros i _. apply SeedA_row_items.
Qed.

Lemma SeedA_column_bucket (group : Z) :
  forall key, 0 <= key < NX XBITS ->
    0 <= key * NX XBITS + group mod NX XBITS.
Proof using HX.
  intros key Hkey. pose proof (NX_pos XBITS HX) as Hnx.
  pose proof (Z.mod_pos_bound group (NX XBITS) Hnx). nia.
Qed.

(** A block of Seed A appends to the bucket of row [row] and of its column
    the edges of row [row] that it makes. *)
Lemma Cuckoo_SeedA_block_files (group row : Z) (L : list EdgeOut)
    (out : list EdgeOut * list Z) :
  0 <= row < NX XBITS ->
  (forall i, 0 <= i ->
     Z.of_nat (length (filter (fun nonce => row_of nonce = row)
                         (SeedA_round EDGEBITS dim blocks group i)))
     <= FLUSHA + 1) ->
  Z.of_nat (length L)
  + Z.of_nat (length (SeedA_row SIPROUND EDGEBITS YBITS ZBITS make_Edge packed
                        sipkeys dim blocks group row)) <= maxOut ->
  (forall b : nat, 0 <= snd out !!! b) ->
  bucket_holds maxOut (row * NX XBITS + group mod NX XBITS) L out ->
  bucket_holds maxOut (row * NX XBITS + group mod NX XBITS)
    (L ++ SeedA_row SIPROUND EDGEBITS YBITS ZBITS make_Edge packed sipkeys dim
            blocks group row)
    (Cuckoo_SeedA_block SIPROUND EDGEBITS XBITS YBITS ZBITS FLUSHA make_Edge
       packed maxOut sipkeys dim blocks group out).
Proof using HX HY HZ Hbits HF Hcap Hmax Hdim.
  intros Hrow Htile Hroom Hidx Hb.
  rewrite <- (SeedA_tile_items group row) in *.
  pose proof (NX_pos XBITS HX) as Hnx.
  assert (Hinj : forall key, 0 <= key < NX XBITS -> key <> row ->
            key * NX XBITS + group mod NX XBITS
            <> row * NX XBITS + group mod NX XBITS) by (intros; nia).
  apply (tile_block_holds XBITS FLUSHA maxOut
           (fun key => key * NX XBITS + group mod NX XBITS) row HX HF Hcap Hmax
           Hrow (SeedA_column_bucket group) Hinj dim loops (items group) L out
           Hdim).
  - intros i lid key e _ _ Hit. apply (SeedA_item_key group i lid key e Hit).
  - intros i Hi. rewrite SeedA_row_items, length_fmap. apply Htile. lia.
  - exact Hroom.
  - exact Hidx.
  - exact Hb.
Qed.

Lemma Cuckoo_SeedA_block_counters (group : Z) (out : list EdgeOut * list Z) :
  (forall b : nat, 0 <= snd out !!! b) ->
  forall b : nat,
    0 <= snd (Cuckoo_SeedA_block SIPROUND EDGEBITS XBITS YBITS ZBITS FLUSHA
                make_Edge packed maxOut sipkeys dim blocks group out) !!! b.
Proof using HX HY HZ Hbits HF Hcap Hdim.
  intros Hidx.
  apply (tile_block_counters XBITS FLUSHA maxOut
           (fun key => key * NX XBITS + group mod NX XBITS) HX HF Hcap
           (SeedA_column_bucket group) dim loops (items group) out).
  - intros i lid key e _ _ Hit. apply (SeedA_item_key group i lid key e Hit).
  - exact Hidx.
Qed.

(** A block of another column leaves the bucket as it is. *)
Lemma Cuckoo_SeedA_block_foreign (group row col n : Z) (L : list EdgeOut)
    (out : list EdgeOut * list Z) :
  0 <= row -> 0 <= col < NX XBITS -> group mod NX XBITS <> col ->
  0 <= n <= maxOut -> (forall b : nat, 0 <= snd out !!! b) ->
  bucket_prefix maxOut (row * NX XBITS + col) n L out ->
  bucket_prefix maxOut (row * NX XBITS + col) n L
    (Cuckoo_SeedA_block SIPROUND EDGEBITS XBITS YBITS ZBITS FLUSHA make_Edge
       packed maxOut sipkeys dim blocks group out).
Proof using HX HY HZ Hbits HF Hcap Hmax Hdim.
  intros Hrow Hcol Hne Hn Hidx Hpre.
  pose proof (NX_pos XBITS HX) as Hnx.
  pose proof (Z.mod_pos_bound group (NX XBITS) Hnx) as Hmod.
  assert (Hb : 0 <= row * NX XBITS + col) by nia.
  assert (Hforeign : forall key, 0 <= key < NX XBITS ->
            key * NX XBITS + group mod NX XBITS <> row * NX XBITS + col).
  { intros key Hkey Heq.
    destruct (Z.lt_trichotomy key row) as [Hlt|[Heq'|Hgt]].
    - assert ((key + 1) * NX XBITS <= row * NX XBITS) by nia. lia.
    - subst key. lia.
    - assert ((row + 1) * NX XBITS <= key * NX XBITS) by nia. lia. }
  apply (tile_block_foreign XBITS FLUSHA maxOut
           (fun key => key * NX XBITS + group mod NX XBITS)
           (row * NX XBITS + col) HX HF Hcap Hmax Hb
           (SeedA_column_bucket group) Hforeign dim loops (items group) n L
           out).
  - intros i lid key e _ _ Hit. apply (SeedA_item_key group i lid key e Hit).
  - exact Hn.
  - exact Hidx.
  - exact Hpre.
Qed.

End SeedAFiling.



(** ** What a round files in a bucket *)

Lemma bucket_holds_content {E : Type} `{!Inhabited E} (maxOut bucket : Z)
    (L : list E) (out : list E * list Z) :
  bucket_holds maxOut bucket L out -> bucket_content maxOut bucket out = L.
Proof.
  intros (Hn & _ & _ & Hsl). unfold bucket_content. rewrite Hn.
  apply list_eq. intros i. rewrite list_lookup_fmap.
  destruct (decide (i < length L)%nat) as [Hlt|Hge].
  - rewrite lookup_seqZ_lt by lia. cbn. rewrite Z.add_0_l.
    rewrite Hsl by lia. rewrite Nat2Z.id. symmetry.
    apply list_lookup_lookup_total_lt. exact Hlt.
  - rewrite lookup_seqZ_ge by lia. cbn. symmetry.
    apply lookup_ge_None_2. lia.
Qed.

Lemma bucket_content_holds {E : Type} `{!Inhabited E} (maxOut bucket : Z)
    (out : list E * list Z) :
  0 <= snd out !!! Z.to_nat bucket ->
  (Z.to_nat bucket < length (snd out))%nat ->
  (bucket + 1) * maxOut <= Z.of_nat (length (fst out)) ->
  bucket_holds maxOut bucket (bucket_content maxOut bucket out) out.
Proof.
  intros Hn Hli Hlb. unfold bucket_holds, bucket_prefix, bucket_content.
  rewrite length_fmap, length_seqZ. rewrite Z2Nat.id by exact Hn.
  split; [reflexivity|]. split; [exact Hli|]. split; [exact Hlb|].
  intros i Hi. symmetry. apply list_lookup_total_correct.
  rewrite list_lookup_fmap, lookup_seqZ_lt by lia. cbn.
  rewrite Z.add_0_l, Z2Nat.id by lia. reflexivity.
Qed.

Section RoundFiling.

Variables XBITS YBITS ZBITS : Z.
Context {EdgeIn EdgeOut : Type} `{!Inhabited EdgeIn} `{!Inhabited EdgeOut}.
Variable edge_in : EdgeType EdgeIn.
Variable make_Edge : EdgeIn -> Z -> Z -> EdgeOut.
Variables NP maxIn maxOut : Z.
Variable round : Z.
Variable sipkeys : siphash_keys.
Variable src : list EdgeIn.
Variable srcIds : list Z.
Variable dim : Z.
Variable b : Z.

Hypothesis HZ : 5 <= ZBITS.
Hypothesis Hdim : 0 < dim.
Hypothesis Hmax : 0 < maxOut < 2 ^ 32.
Hypothesis Hb : 0 <= b.
Hypothesis Hsrc : forall j : nat,
  0 <= endpoint edge_in sipkeys (src !!! j) (Z.lxor (Z.land round 1) 1).

Local Abbreviation other e :=
  (endpoint edge_in sipkeys e (Z.lxor (Z.land round 1) 1)).
Local Abbreviation goes_to_b := (fun e : EdgeIn => Z.shiftr (other e) ZBITS = b).
Local Abbreviation store :=
  (fun (out : list EdgeOut * list Z) (e : EdgeIn) =>
     Round_store ZBITS edge_in make_Edge maxOut round sipkeys e
       (Round_counted edge_in round sipkeys e) out).
Local Abbreviation stored := (Round_stored edge_in make_Edge round sipkeys).

(** One store: the edge is appended to bucket [b] when it goes there, and
    leaves the bucket alone when it does not. *)
Lemma Round_store_holds (e : EdgeIn) (L : list EdgeOut)
    (out : list EdgeOut * list Z) :
  0 <= other e -> (forall b' : nat, 0 <= snd out !!! b') ->
  bucket_holds maxOut b L out ->
  Z.of_nat (length L) + (if decide (goes_to_b e) then 1 else 0) <= maxOut ->
  (forall b' : nat, 0 <= snd (store out e) !!! b')
  /\ bucket_holds maxOut b (if decide (goes_to_b e) then L ++ [stored e] else L)
       (store out e).
Proof using Hmax Hb.
  clear HZ Hdim Hsrc.
  intros Hother Hidx (Hn & Hli & Hlb & Hsl) Hroom.
  assert (Hbk : 0 <= Z.shiftr (other e) ZBITS) by (apply Z.shiftr_nonneg; lia).
  split.
  { unfold Round_store. cbv zeta.
    apply (atomicAdd_keeps_nonneg (snd out) _ 1 Hidx). }
  unfold Round_store, atomicAdd, bucket_holds, bucket_prefix in *.
  cbv zeta. cbn [fst snd] in *.
  set (bk := Z.shiftr (other e) ZBITS) in *.
  pose proof (Hidx (Z.to_nat bk)) as Hold.
  destruct (decide (bk = b)) as [Heq|Hne].
  - rewrite Heq in *. rewrite Hn in *.
    rewrite (Z.min_l (Z.of_nat (length L))) by lia.
    rewrite length_app. cbn [length].
    split; [|split; [|split]].
    + rewrite list_lookup_total_insert_eq by exact Hli. rewrite u32_small; lia.
    + rewrite length_insert. exact Hli.
    + rewrite length_insert. exact Hlb.
    + intros i Hi. destruct (Z.eq_dec i (Z.of_nat (length L))) as [->|Hni].
      * rewrite list_lookup_total_insert_eq by nia.
        rewrite lookup_total_app_r by lia.
        replace (Z.to_nat (Z.of_nat (length L)) - length L)%nat with 0%nat
          by lia.
        unfold Round_stored, Round_counted. reflexivity.
      * rewrite list_lookup_total_insert_ne by nia.
        rewrite lookup_total_app_l by lia. apply Hsl. lia.
  - split; [|split; [|split]].
    + rewrite list_lookup_total_insert_ne by lia. exact Hn.
    + rewrite length_insert. exact Hli.
    + rewrite length_insert. exact Hlb.
    + intros i Hi. rewrite list_lookup_total_insert_ne; [apply Hsl; exact Hi|].
      assert (Hcases : (bk + 1) * maxOut <= b * maxOut
                       \/ (b + 1) * maxOut <= bk * maxOut) by nia.
      nia.
Qed.

(** A run of stores appends to bucket [b] the edges that go there, in the
    order of the stores. *)
Lemma fold_Round_store_holds (l : list EdgeIn) :
  forall (L : list EdgeOut) (out : list EdgeOut * list Z),
    Forall (fun e => 0 <= other e) l ->
    (forall b' : nat, 0 <= snd out !!! b') ->
    bucket_holds maxOut b L out ->
    Z.of_nat (length L) + Z.of_nat (length (filter goes_to_b l)) <= maxOut ->
    (forall b' : nat, 0 <= snd (fold_left store l out) !!! b')
    /\ bucket_holds maxOut b (L ++ (stored <$> filter goes_to_b l))
         (fold_left store l out).
Proof using Hmax Hb.
  induction l as [|e l IH]; intros L out Hall Hidx Hh Hroom.
  - cbn. rewrite app_nil_r. split; assumption.
  - cbn [fold_left]. inversion Hall as [|? ? He Hall']; subst.
    rewrite filter_cons in *.
    destruct (Round_store_holds e L out He Hidx Hh) as [Hidx1 Hh1].
    { destruct (decide (goes_to_b e)); [cbn [length] in Hroom|]; lia. }
    destruct (decide (goes_to_b e)) as [Hgo|Hno].
    + cbn [fmap list_fmap]. cbn [length] in Hroom.
      replace (L ++ stored e :: (stored <$> filter goes_to_b l))
        with ((L ++ [stored e]) ++ (stored <$> filter goes_to_b l))
        by (rewrite <- app_assoc; reflexivity).
      apply IH; try assumption. rewrite length_app. cbn [length]. lia.
    + apply IH; assumption.
Qed.

(** A block of the Round kernel appends to bucket [b] its survivors that
    go there, in some order. *)
Lemma Round_block_files (group : Z) :
  exists emitted : list EdgeIn,
    emitted ≡ₚ Round_survivors XBITS YBITS ZBITS edge_in NP maxIn round sipkeys
                 src srcIds group
    /\ forall (L : list EdgeOut) (out : list EdgeOut * list Z),
         (forall b' : nat, 0 <= snd out !!! b') ->
         bucket_holds maxOut b L out ->
         Z.of_nat (length L) + Z.of_nat (length (filter goes_to_b emitted))
           <= maxOut ->
         let out' := Round_block XBITS YBITS ZBITS edge_in make_Edge NP maxIn
                       maxOut round sipkeys src srcIds dim group out in
         (forall b' : nat, 0 <= snd out' !!! b')
         /\ bucket_holds maxOut b (L ++ (stored <$> filter goes_to_b emitted))
              out'.
Proof using HZ Hdim Hmax Hb Hsrc.
  set (ec := for_range dim
               (Round_count XBITS YBITS ZBITS edge_in NP maxIn round sipkeys src
                  srcIds dim group)
               (replicate (Z.to_nat (COUNTERWORDS ZBITS)) 0)).
  set (sched :=
         seqZ 0 dim ≫= (fun lid =>
           seqZ 0 NP ≫= (fun i =>
             (fun lindex =>
                src !!! Z.to_nat (i * (NX2 XBITS YBITS * maxIn)
                                  + (maxIn * group + lindex)))
               <$> thread_indices dim
                     (Z.min (srcIds !!! Z.to_nat (i * NX2 XBITS YBITS + group))
                        maxIn) lid))).
  set (zbits := fun e =>
                  Z.land (Round_counted edge_in round sipkeys e) (ZMASK ZBITS)).
  exists (filter (fun e => Read2bCounter ZBITS ec (zbits e) = true)
            (filter (fun e => null edge_in e = false) sched)).
  split.
  - unfold Round_survivors. cbv zeta.
    assert (Hlive : filter (fun e => null edge_in e = false) sched
                    ≡ₚ Round_live XBITS YBITS edge_in NP maxIn src srcIds group).
    { unfold Round_live. apply filter_Permutation.
      apply (thread_edges_Permutation XBITS YBITS NP maxIn src srcIds dim group
               Hdim). }
    rewrite (filter_Permutation _ _ _ Hlive).
    erewrite (list_filter_iff_in _
                (fun e => (2 <= length
                                  (filter (fun e' => zbits e' = zbits e)
                                     (Round_live XBITS YBITS edge_in NP maxIn
                                        src srcIds group)))%nat));
      [reflexivity|].
    intros e _.
    apply (Round_count_reads XBITS YBITS ZBITS HZ edge_in NP maxIn round sipkeys
             src srcIds dim group Hdim e).
  - intros L out Hidx Hh Hroom. cbv zeta. unfold Round_block.
    rewrite (Round_emit_fold XBITS YBITS ZBITS edge_in make_Edge NP maxIn maxOut
               round sipkeys src srcIds dim group).
    apply fold_Round_store_holds; try assumption.
    apply Forall_forall. intros e He.
    apply list_elem_of_In in He.
    apply list_elem_of_filter in He as [_ He].
    apply list_elem_of_filter in He as [_ He].
    subst sched.
    apply list_elem_of_bind in He as (lid & He & _).
    apply list_elem_of_bind in He as (i & He & _).
    apply list_elem_of_fmap in He as (lindex & -> & _).
    apply Hsrc.
Qed.

End RoundFiling.

(** X20: a round loses no survivor while the bucket has room.  For a
    destination bucket, a launch of the Round kernel adds to what the bucket
    held below its counter exactly the survivors of the source buckets
    (live edges whose counted Z bits occur twice or more in their bucket)
    whose other endpoint, shifted by ZBITS, is the bucket, each stored as
    make_Edge gives it; the counter grows by their number. *)
Theorem Round_files_every_survivor (XBITS YBITS ZBITS : Z)
    {EdgeIn EdgeOut : Type} `{!Inhabited EdgeIn} `{!Inhabited EdgeOut}
    (edge_in : EdgeType EdgeIn) (make_Edge : EdgeIn -> Z -> Z -> EdgeOut)
    (NP maxIn maxOut blocks tpb round : Z) (sipkeys : siphash_keys)
    (src : list EdgeIn) (dst : list EdgeOut) (srcIds dstIds : list Z)
    (bucket : Z) :
  5 <= ZBITS -> 0 < tpb -> 0 < maxOut < 2 ^ 32 -> 0 <= bucket ->
  (Z.to_nat bucket < length dstIds)%nat ->
  (bucket + 1) * maxOut <= Z.of_nat (length dst) ->
  (forall b : nat, 0 <= dstIds !!! b) ->
  (forall j : nat,
     0 <= endpoint edge_in sipkeys (src !!! j) (Z.lxor (Z.land round 1) 1)) ->
  let arrivals := Round_arrivals XBITS YBITS ZBITS edge_in make_Edge NP maxIn
                    round sipkeys src srcIds bucket blocks in
  dstIds !!! Z.to_nat bucket + Z.of_nat (length arrivals) <= maxOut ->
  let out := Round XBITS YBITS ZBITS edge_in make_Edge NP maxIn maxOut blocks
               tpb round sipkeys src dst srcIds dstIds in
  snd out !!! Z.to_nat bucket
  = dstIds !!! Z.to_nat bucket + Z.of_nat (length arrivals)
  /\ bucket_content maxOut bucket out
     ≡ₚ bucket_content maxOut bucket (dst, dstIds) ++ arrivals.
Proof.
  intros HZ Htpb Hmax Hb Hli Hlb Hidx Hsrc arrivals Hroom out.
  set (L0 := bucket_content maxOut bucket (dst, dstIds)).
  assert (Hh0 : bucket_holds maxOut bucket L0 (dst, dstIds))
    by (apply bucket_content_holds; [apply Hidx|exact Hli|exact Hlb]).
  assert (HL0 : Z.of_nat (length L0) = dstIds !!! Z.to_nat bucket).
  { destruct Hh0 as (Hn & _). cbn [snd] in Hn. symmetry. exact Hn. }
  set (arr := Round_arrivals XBITS YBITS ZBITS edge_in make_Edge NP maxIn round
                sipkeys src srcIds bucket).
  assert (Hsucc : forall g, 0 <= g ->
            arr (g + 1)
            = arr g
              ++ (Round_stored edge_in make_Edge round sipkeys
                    <$> filter (fun e =>
                                  Z.shiftr (endpoint edge_in sipkeys e
                                              (Z.lxor (Z.land round 1) 1)) ZBITS
                                  = bucket)
                          (Round_survivors XBITS YBITS ZBITS edge_in NP maxIn
                             round sipkeys src srcIds g))).
  { intros g Hg. subst arr. unfold Round_arrivals.
    exact (bind_seqZ_succ
             (fun group =>
                Round_stored edge_in make_Edge round sipkeys
                  <$> filter (fun e =>
                                Z.shiftr (endpoint edge_in sipkeys e
                                            (Z.lxor (Z.land round 1) 1)) ZBITS
                                = bucket)
                        (Round_survivors XBITS YBITS ZBITS edge_in NP maxIn
                           round sipkeys src srcIds group)) g Hg). }
  assert (Hpref : forall g, 0 <= g <= blocks ->
            (length (arr g) <= length (arr blocks))%nat).
  { intros g Hg. subst arr. unfold Round_arrivals.
    apply bind_seqZ_prefix_length. exact Hg. }
  enough (HP : (forall b : nat, 0 <= snd out !!! b)
               /\ exists A, A ≡ₚ arr blocks
                            /\ bucket_holds maxOut bucket (L0 ++ A) out).
  { destruct HP as (_ & A & HA & Hh).
    pose proof (bucket_holds_content maxOut bucket _ out Hh) as Hc.
    destruct Hh as (Hn & _). split.
    - rewrite Hn, length_app, <- HL0. rewrite (Permutation_length HA).
      subst arrivals arr. lia.
    - rewrite Hc. apply Permutation_app; [reflexivity|exact HA]. }
  subst out. unfold Round.
  destruct (Z_le_gt_dec blocks 0) as [Hle|Hgt].
  { rewrite for_range_nonpos by exact Hle. split; [exact Hidx|].
    exists []. split.
    - subst arr. unfold Round_arrivals. rewrite seqZ_nil by exact Hle.
      reflexivity.
    - rewrite app_nil_r. exact Hh0. }
  apply (for_range_counting
           (fun m out =>
              (forall b : nat, 0 <= snd out !!! b)
              /\ exists A, A ≡ₚ arr m
                           /\ bucket_holds maxOut bucket (L0 ++ A) out));
    [lia| |].
  - split; [exact Hidx|]. exists []. split.
    + subst arr. unfold Round_arrivals. rewrite seqZ_nil by lia. reflexivity.
    + rewrite app_nil_r. exact Hh0.
  - intros g out Hg (Hidx1 & A & HA & Hh).
    destruct (Round_block_files XBITS YBITS ZBITS edge_in make_Edge NP maxIn
                maxOut round sipkeys src srcIds tpb bucket HZ Htpb Hmax Hb Hsrc
                g) as (emitted & Hperm & Hblock).
    set (goes := fun e : EdgeIn =>
                   Z.shiftr (endpoint edge_in sipkeys e
                               (Z.lxor (Z.land round 1) 1)) ZBITS = bucket)
      in *.
    assert (Hnew : A ++ (Round_stored edge_in make_Edge round sipkeys
                           <$> filter goes emitted)
                   ≡ₚ arr (g + 1)).
    { rewrite Hsucc by lia. apply Permutation_app; [exact HA|].
      apply fmap_Permutation. apply filter_Permutation. exact Hperm. }
    pose proof (Hpref (g + 1) ltac:(lia)) as Hle.
    rewrite <- (Permutation_length Hnew) in Hle.
    rewrite length_app, length_fmap in Hle.
    destruct (Hblock (L0 ++ A) out Hidx1 Hh) as [Hidx2 Hh2].
    { rewrite length_app. subst arrivals arr. lia. }
    cbv zeta in Hidx2, Hh2. split; [exact Hidx2|].
    exists (A ++ (Round_stored edge_in make_Edge round sipkeys
                    <$> filter goes emitted)).
    split; [exact Hnew|]. rewrite app_assoc. exact Hh2.
Qed.

Lemma Round_files_every_survivor_witness :
  let src := [make_uint2 1 40; make_uint2 1 70; make_uint2 2 33;
              make_uint2 0 0; make_uint2 35 40; make_uint2 35 41;
              make_uint2 36 70; make_uint2 0 0] in
  let dst := replicate 16 (make_uint2 0 0) in
  let arrivals := Round_arrivals 1 1 5 uint2_edge make_Edge_uint2_uint2 1 4 0
                    (mk_keys 0 0 0 0) src [3; 3; 0; 0] 1 2 in
  let out := Round 1 1 5 uint2_edge make_Edge_uint2_uint2 1 4 4 2 2 0
               (mk_keys 0 0 0 0) src dst [3; 3; 0; 0] (replicate 4 0) in
  snd out !!! Z.to_nat 1
  = replicate 4 0 !!! Z.to_nat 1 + Z.of_nat (length arrivals)
  /\ bucket_content 4 1 out
     ≡ₚ bucket_content 4 1 (dst, replicate 4 0) ++ arrivals.
Proof.
  apply (Round_files_every_survivor 1 1 5 uint2_edge make_Edge_uint2_uint2 1 4
           4 2 2 0 (mk_keys 0 0 0 0)
           [make_uint2 1 40; make_uint2 1 70; make_uint2 2 33; make_uint2 0 0;
            make_uint2 35 40; make_uint2 35 41; make_uint2 36 70;
            make_uint2 0 0]
           (replicate 16 (make_uint2 0 0)) [3; 3; 0; 0] (replicate 4 0) 1).
  - lia.
  - lia.
  - lia.
  - lia.
  - vm_compute. lia.
  - vm_compute. discriminate.
  - intros b. do 4 (destruct b as [|b]; [vm_compute; discriminate|]).
    vm_compute. discriminate.
  - intros j. do 8 (destruct j as [|j]; [vm_compute; discriminate|]).
    vm_compute. discriminate.
  - vm_compute. discriminate.
Defined.

(** ** What Cuckaroo Seed A files in a bucket *)

Lemma filter_bind_list {A B : Type} (P : B -> Prop)
    `{!forall y, Decision (P y)} (g : A -> list B) (l : list A) :
  filter P (l ≫= g) = l ≫= (fun x => filter P (g x)).
Proof.
  induction l as [|x l IH]; [reflexivity|].
  cbn. rewrite list.filter_app. f_equal. exact IH.
Qed.

(** An iteration reads its items only at the thread ids of the block. *)
Lemma tile_round_ext {E : Type} `{!Inhabited E} (FLUSH maxOut dim : Z)
    (item item' : Z -> option (Z * E)) (bucket_of : Z -> Z) (st : seeding) :
  (forall lid, 0 <= lid < dim -> item lid = item' lid) ->
  tile_round FLUSH maxOut dim item bucket_of st
  = tile_round FLUSH maxOut dim item' bucket_of st.
Proof.
  intros Hext. unfold tile_round.
  rewrite (for_range_ext dim _
             (fun lid (acc : list (option (Z * Z)) * seeding) =>
                match item' lid with
                | Some (key, edge) =>
                    let '(counter, st) := tile_insert FLUSH key edge (snd acc) in
                    (fst acc ++ [Some (key, counter)], st)
                | None => (fst acc ++ [None], snd acc)
                end)); [reflexivity|].
  intros lid acc Hlid. rewrite (Hext lid Hlid). reflexivity.
Qed.

Lemma bind_seqZ_length_le {A : Type} (f : Z -> list A) (n c : Z) :
  0 <= n -> (forall i, 0 <= i < n -> Z.of_nat (length (f i)) <= c) ->
  Z.of_nat (length (seqZ 0 n ≫= f)) <= n * c.
Proof.
  intros Hn. revert n Hn.
  apply (natlike_ind (fun n =>
           (forall i, 0 <= i < n -> Z.of_nat (length (f i)) <= c) ->
           Z.of_nat (length (seqZ 0 n ≫= f)) <= n * c)).
  - intros _. rewrite seqZ_nil by lia. cbn. lia.
  - intros m Hm IH Hf. unfold Z.succ. rewrite bind_seqZ_succ by exact Hm.
    rewrite length_app. pose proof (Hf m ltac:(lia)).
    assert (Z.of_nat (length (seqZ 0 m ≫= f)) <= m * c)
      by (apply IH; intros i Hi; apply Hf; lia).
    lia.
Qed.

Lemma Cuckaroo_round_length (SIPROUND : lanes -> lanes) (EDGEBITS : Z)
    (sipkeys : siphash_keys) (buf0 : list Z) (dim blocks group k e : Z) :
  length (Cuckaroo_round SIPROUND EDGEBITS sipkeys buf0 dim blocks group k e)
  = Z.to_nat dim.
Proof. unfold Cuckaroo_round. rewrite length_fmap. apply length_seqZ. Qed.

Section CuckarooFiling.

Variable SIPROUND : lanes -> lanes.
Variables EDGEBITS XBITS YBITS ZBITS FLUSHA maxOut : Z.
Variable sipkeys : siphash_keys.
Variable buf0 : list Z.
Variables dim blocks : Z.

Hypothesis HX : 0 <= XBITS.
Hypothesis HY : 0 <= YBITS.
Hypothesis HZ : 0 <= ZBITS.
Hypothesis Hbits : EDGEBITS = XBITS + YBITS + ZBITS.
Hypothesis HF : 0 < FLUSHA.
Hypothesis Hcap : 2 * FLUSHA <= maxOut.
Hypothesis Hmax : maxOut < 2 ^ 32.
Hypothesis Hdim : 0 < dim.
Hypothesis Hblocks : 0 < blocks.

Local Abbreviation loops := (NEDGES EDGEBITS / (blocks * dim)).
Local Abbreviation nblk := ((loops + EDGE_BLOCK_SIZE - 1) / EDGE_BLOCK_SIZE).
Local Abbreviation row_of edge := (Z.shiftr (uint2_x edge) (YZBITS YBITS ZBITS)).
Local Abbreviation edge_at group :=
  (Cuckaroo_edge SIPROUND EDGEBITS sipkeys buf0 dim blocks group).
Local Abbreviation items group :=
  (fun j lid =>
     Some (row_of (edge_at group (j / EDGE_BLOCK_SIZE) (j mod EDGE_BLOCK_SIZE)
                     lid),
           edge_at group (j / EDGE_BLOCK_SIZE) (j mod EDGE_BLOCK_SIZE) lid)).

Lemma Cuckaroo_nblk_nonneg : 0 <= nblk.
Proof using Hdim Hblocks.
  clear HX HY HZ Hbits HF Hcap Hmax.
  assert (0 <= NEDGES EDGEBITS) by (unfold NEDGES; apply Z.pow_nonneg; lia).
  assert (0 <= loops) by (apply Z.div_pos; nia).
  apply Z.div_pos; unfold EDGE_BLOCK_SIZE; lia.
Qed.

Lemma Cuckaroo_edge_row (group k e lid : Z) :
  0 <= row_of (edge_at group k e lid) < NX XBITS.
Proof using HX HY HZ Hbits.
  unfold Cuckaroo_edge. cbv zeta.
  destruct (dipblock SIPROUND sipkeys _ buf0) as [last buf]. cbn [uint2_x].
  apply (row_range EDGEBITS XBITS YBITS ZBITS HX HY HZ Hbits).
  apply u32_land_EDGEMASK_range. lia.
Qed.

(** The main loop of a block, one iteration per slot of a block of
    nonces. *)
Lemma Cuckaroo_SeedA_block_flat (group : Z) (out : list uint2 * list Z) :
  Cuckaroo_SeedA_block SIPROUND EDGEBITS XBITS YBITS ZBITS FLUSHA maxOut
    sipkeys buf0 dim blocks group out
  = let st :=
      tile_finish XBITS FLUSHA maxOut dim
        (fun row => row * NX XBITS + group mod NX XBITS)
        (for_range (EDGE_BLOCK_SIZE * nblk) (fun j st =>
           tile_round FLUSHA maxOut dim (items group j)
             (fun row => row * NX XBITS + group mod NX XBITS) st)
           (tile_start XBITS FLUSHA (fst out) (snd out))) in
    (out_buffer st, out_indexes st).
Proof using Hdim Hblocks.
  clear HX HY HZ Hbits HF Hcap Hmax.
  unfold Cuckaroo_SeedA_block. cbv zeta.
  rewrite (for_range_blocks EDGE_BLOCK_SIZE nblk)
    by (first [apply Cuckaroo_nblk_nonneg | unfold EDGE_BLOCK_SIZE; lia]).
  do 3 f_equal;
    (apply for_range_ext; intros k st Hk;
     apply for_range_ext; intros e st' He;
     apply tile_round_ext; intros lid Hlid;
     replace ((k * EDGE_BLOCK_SIZE + e) / EDGE_BLOCK_SIZE) with k
       by (apply (Z.div_unique _ _ k e); [left; exact He|lia]);
     replace ((k * EDGE_BLOCK_SIZE + e) mod EDGE_BLOCK_SIZE) with e
       by (apply (Z.mod_unique _ _ k e); [left; exact He|lia]);
     rewrite (list_lookup_total_correct _ (Z.to_nat lid)
                (dipblock SIPROUND sipkeys
                   (u32 ((group * dim + lid) * loops + k * EDGE_BLOCK_SIZE))
                   buf0))
       by (rewrite list_lookup_fmap, lookup_seqZ_lt by lia; cbn;
           rewrite Z.add_0_l, Z2Nat.id by lia; reflexivity);
     unfold Cuckaroo_edge; cbv zeta;
     destruct (dipblock SIPROUND sipkeys _ buf0) as [last buf]; reflexivity).
Qed.

(** The edges a block inserts into tile row [row] over all its iterations
    are the edges of that row in its schedule. *)
Lemma Cuckaroo_tile_items (group row : Z) :
  tile_items (items group) row dim (EDGE_BLOCK_SIZE * nblk)
  = Cuckaroo_row SIPROUND EDGEBITS YBITS ZBITS sipkeys buf0 dim blocks group
      row.
Proof using Hdim Hblocks.
  clear HX HY HZ Hbits HF Hcap Hmax.
  pose proof Cuckaroo_nblk_nonneg as Hn.
  unfold tile_items, Cuckaroo_row, Cuckaroo_schedule. cbv zeta.
  set (P := fun edge : uint2 => row_of edge = row).
  set (h := fun j =>
              filter P (Cuckaroo_round SIPROUND EDGEBITS sipkeys buf0 dim blocks
                          group (j / EDGE_BLOCK_SIZE) (j mod EDGE_BLOCK_SIZE))).
  rewrite (bind_ext_in _ h).
  2:{ intros j _. unfold row_items, h, Cuckaroo_round.
      rewrite (bind_filter_fmap
                 (edge_at group (j / EDGE_BLOCK_SIZE) (j mod EDGE_BLOCK_SIZE))
                 id P (fun edge => row_of edge =? row));
        [apply list_fmap_id|].
      intros edge. apply Z.eqb_eq. }
  replace (EDGE_BLOCK_SIZE * nblk) with (nblk * EDGE_BLOCK_SIZE) by lia.
  rewrite <- (bind_seqZ_nested h EDGE_BLOCK_SIZE nblk)
    by (first [exact Hn | unfold EDGE_BLOCK_SIZE; lia]).
  rewrite filter_bind_list.
  apply bind_ext_in. intros k _.
  rewrite filter_bind_list.
  apply bind_ext_in. intros e He.
  apply list_elem_of_In, elem_of_seqZ in He. unfold h.
  replace ((k * EDGE_BLOCK_SIZE + e) / EDGE_BLOCK_SIZE) with k
    by (apply (Z.div_unique _ _ k e); [left; lia|lia]).
  replace ((k * EDGE_BLOCK_SIZE + e) mod EDGE_BLOCK_SIZE) with e
    by (apply (Z.mod_unique _ _ k e); [left; lia|lia]).
  reflexivity.
Qed.

Lemma Cuckaroo_item_key (group j lid key : Z) (e : uint2) :
  items group j lid = Some (key, e) -> 0 <= key < NX XBITS.
Proof using HX HY HZ Hbits.
  intros Heq.
  assert (Hkey : row_of (edge_at group (j / EDGE_BLOCK_SIZE)
                           (j mod EDGE_BLOCK_SIZE) lid) = key)
    by exact (f_equal (fun o : option (Z * uint2) =>
                         match o with Some p => fst p | None => 0 end) Heq).
  rewrite <- Hkey. apply Cuckaroo_edge_row.
Qed.

Lemma Cuckaroo_row_items (group j row : Z) :
  row_items (items group j) row dim
  = filter (fun edge => row_of edge = row)
      (Cuckaroo_round SIPROUND EDGEBITS sipkeys buf0 dim blocks group
         (j / EDGE_BLOCK_SIZE) (j mod EDGE_BLOCK_SIZE)).
Proof using Type.
  unfold row_items, Cuckaroo_round.
  rewrite (bind_filter_fmap
             (edge_at group (j / EDGE_BLOCK_SIZE) (j mod EDGE_BLOCK_SIZE))
             id (fun edge => row_of edge = row)
             (fun edge => row_of edge =? row));
    [apply list_fmap_id|].
  intros edge. apply Z.eqb_eq.
Qed.

(** A block of Cuckaroo Seed A appends to the bucket of row [row] and of
    its column the edges of row [row] that it makes. *)
Lemma Cuckaroo_SeedA_block_files (group row : Z) (L : list uint2)
    (out : list uint2 * list Z) :
  0 <= row < NX XBITS ->
  (forall k e, 0 <= k -> 0 <= e < EDGE_BLOCK_SIZE ->
     Z.of_nat (length (filter (fun edge => row_of edge = row)
                         (Cuckaroo_round SIPROUND EDGEBITS sipkeys buf0 dim
                            blocks group k e)))
     <= FLUSHA + 1) ->
  Z.of_nat (length L)
  + Z.of_nat (length (Cuckaroo_row SIPROUND EDGEBITS YBITS ZBITS sipkeys buf0
                        dim blocks group row)) <= maxOut ->
  (forall b : nat, 0 <= snd out !!! b) ->
  bucket_holds maxOut (row * NX XBITS + group mod NX XBITS) L out ->
  bucket_holds maxOut (row * NX XBITS + group mod NX XBITS)
    (L ++ Cuckaroo_row SIPROUND EDGEBITS YBITS ZBITS sipkeys buf0 dim blocks
            group row)
    (Cuckaroo_SeedA_block SIPROUND EDGEBITS XBITS YBITS ZBITS FLUSHA maxOut
       sipkeys buf0 dim blocks group out).
Proof using HX HY HZ Hbits HF Hcap Hmax Hdim Hblocks.
  intros Hrow Htile Hroom Hidx Hb.
  rewrite Cuckaroo_SeedA_block_flat.
  rewrite <- (Cuckaroo_tile_items group row) in *.
  pose proof (NX_pos XBITS HX) as Hnx.
  assert (Hinj : forall key, 0 <= key < NX XBITS -> key <> row ->
            key * NX XBITS + group mod NX XBITS
            <> row * NX XBITS + group mod NX XBITS) by (intros; nia).
  apply (tile_block_holds XBITS FLUSHA maxOut
           (fun key => key * NX XBITS + group mod NX XBITS) row HX HF Hcap Hmax
           Hrow (SeedA_column_bucket XBITS HX group) Hinj dim
           (EDGE_BLOCK_SIZE * nblk) (items group) L out Hdim).
  - intros j lid key e _ _ Hit. apply (Cuckaroo_item_key group j lid key e Hit).
  - intros j Hj. rewrite Cuckaroo_row_items. apply Htile.
    + apply Z.div_pos; unfold EDGE_BLOCK_SIZE; lia.
    + apply Z.mod_pos_bound. unfold EDGE_BLOCK_SIZE. lia.
  - exact Hroom.
  - exact Hidx.
  - exact Hb.
Qed.

Lemma Cuckaroo_SeedA_block_counters (group : Z) (out : list uint2 * list Z) :
  (forall b : nat, 0 <= snd out !!! b) ->
  forall b : nat,
    0 <= snd (Cuckaroo_SeedA_block SIPROUND EDGEBITS XBITS YBITS ZBITS FLUSHA
                maxOut sipkeys buf0 dim blocks group out) !!! b.
Proof using HX HY HZ Hbits HF Hcap Hdim Hblocks.
  intros Hidx. rewrite Cuckaroo_SeedA_block_flat.
  apply (tile_block_counters XBITS FLUSHA maxOut
           (fun key => key * NX XBITS + group mod NX XBITS) HX HF Hcap
           (SeedA_column_bucket XBITS HX group) dim (EDGE_BLOCK_SIZE * nblk)
           (items group) out).
  - intros j lid key e _ _ Hit. apply (Cuckaroo_item_key group j lid key e Hit).
  - exact Hidx.
Qed.

(** A block of another column leaves the bucket as it is. *)
Lemma Cuckaroo_SeedA_block_foreign (group row col n : Z) (L : list uint2)
    (out : list uint2 * list Z) :
  0 <= row -> 0 <= col < NX XBITS -> group mod NX XBITS <> col ->
  0 <= n <= maxOut -> (forall b : nat, 0 <= snd out !!! b) ->
  bucket_prefix maxOut (row * NX XBITS + col) n L out ->
  bucket_prefix maxOut (row * NX XBITS + col) n L
    (Cuckaroo_SeedA_block SIPROUND EDGEBITS XBITS YBITS ZBITS FLUSHA maxOut
       sipkeys buf0 dim blocks group out).
Proof using HX HY HZ Hbits HF Hcap Hmax Hdim Hblocks.
  intros Hrow Hcol Hne Hn Hidx Hpre. rewrite Cuckaroo_SeedA_block_flat.
  pose proof (NX_pos XBITS HX) as Hnx.
  pose proof (Z.mod_pos_bound group (NX XBITS) Hnx) as Hmod.
  assert (Hb : 0 <= row * NX XBITS + col) by nia.
  assert (Hforeign : forall key, 0 <= key < NX XBITS ->
            key * NX XBITS + group mod NX XBITS <> row * NX XBITS + col).
  { intros key Hkey Heq.
    destruct (Z.lt_trichotomy key row) as [Hlt|[Heq'|Hgt]].
    - assert ((key + 1) * NX XBITS <= row * NX XBITS) by nia. lia.
    - subst key. lia.
    - assert ((row + 1) * NX XBITS <= key * NX XBITS) by nia. lia. }
  apply (tile_block_foreign XBITS FLUSHA maxOut
           (fun key => key * NX XBITS + group mod NX XBITS)
           (row * NX XBITS + col) HX HF Hcap Hmax Hb
           (SeedA_column_bucket XBITS HX group) Hforeign dim
           (EDGE_BLOCK_SIZE * nblk) (items group) n L out).
  - intros j lid key e _ _ Hit. apply (Cuckaroo_item_key group j lid key e Hit).
  - exact Hn.
  - exact Hidx.
  - exact Hpre.
Qed.

End CuckarooFiling.


(** The edges filed are at most the edges made. *)
Lemma Cuckaroo_filed_length (SIPROUND : lanes -> lanes)
    (EDGEBITS XBITS YBITS ZBITS : Z) (sipkeys : siphash_keys) (buf0 : list Z)
    (dim blocks row col m : Z) :
  0 <= dim -> 0 <= m ->
  0 <= (NEDGES EDGEBITS / (blocks * dim) + EDGE_BLOCK_SIZE - 1)
       / EDGE_BLOCK_SIZE ->
  Z.of_nat (length (Cuckaroo_filed SIPROUND EDGEBITS XBITS YBITS ZBITS sipkeys
                      buf0 dim blocks row col m))
  <= m * ((NEDGES EDGEBITS / (blocks * dim) + EDGE_BLOCK_SIZE - 1)
          / EDGE_BLOCK_SIZE * (EDGE_BLOCK_SIZE * dim)).
Proof.
  intros Hdim Hm Hn. unfold Cuckaroo_filed.
  apply bind_seqZ_length_le; [exact Hm|]. intros group _.
  assert (Hrow : Z.of_nat (length (Cuckaroo_row SIPROUND EDGEBITS YBITS ZBITS
                                     sipkeys buf0 dim blocks group row))
                 <= (NEDGES EDGEBITS / (blocks * dim) + EDGE_BLOCK_SIZE - 1)
                    / EDGE_BLOCK_SIZE * (EDGE_BLOCK_SIZE * dim)).
  { unfold Cuckaroo_row.
    match goal with |- Z.of_nat (length (filter ?P ?l)) <= _ =>
      pose proof (length_filter P l) as Hf
    end.
    assert (Hs : Z.of_nat (length (Cuckaroo_schedule SIPROUND EDGEBITS sipkeys
                                     buf0 dim blocks group))
                 <= (NEDGES EDGEBITS / (blocks * dim) + EDGE_BLOCK_SIZE - 1)
                    / EDGE_BLOCK_SIZE * (EDGE_BLOCK_SIZE * dim)).
    { unfold Cuckaroo_schedule. cbv zeta.
      apply bind_seqZ_length_le; [exact Hn|]. intros k _.
      apply bind_seqZ_length_le; [unfold EDGE_BLOCK_SIZE; lia|]. intros e _.
      rewrite Cuckaroo_round_length. lia. }
    lia. }
  destruct (group mod NX XBITS =? col); [exact Hrow|].
  cbn [length]. unfold EDGE_BLOCK_SIZE in *. nia.
Qed.

